(** * Avixer: a shallow embedding of the AVI muxer, demuxer and memory buffer

    The Go package [avi] is embedded function by function.  Go's fixed-width
    integers are integers of [Z] with the wrap-around written out, byte
    slices are lists of [byte], Go strings are [string]s, structs are
    records, and methods that mutate their receiver thread it explicitly. *)

From Stdlib Require Import ZArith List Lia Bool String Ascii.
From Stdlib.Strings Require Import Byte.
From Stdlib Require Import PrimFloat FloatOps SpecFloat Uint63.
Import ListNotations.
Local Open Scope string_scope.
Local Open Scope list_scope.
Local Open Scope Z_scope.

(** ** Go integers *)

Module GoInt.

Definition wrap8 (z : Z) : Z := z mod 2 ^ 8.
Definition wrap16 (z : Z) : Z := z mod 2 ^ 16.
Definition wrap32 (z : Z) : Z := z mod 2 ^ 32.

(** Two's complement reading of the low [w] bits. *)
Definition swrap (w : Z) (z : Z) : Z :=
  (z + 2 ^ (w - 1)) mod 2 ^ w - 2 ^ (w - 1).

Definition int32 (z : Z) : Z := swrap 32 z.
Definition int64 (z : Z) : Z := swrap 64 z.

(** [len(s)] of a slice. *)
Definition len {A} (l : list A) : Z := Z.of_nat (List.length l).

(** [s[i]] for an [int] index; [None] is Go's index-out-of-range panic. *)
Definition index {A} (l : list A) (i : Z) : option A :=
  if i <? 0 then None else nth_error l (Z.to_nat i).

(** [s[:n]] and [s[n:]] for in-range [n]. *)
Definition slice_to {A} (l : list A) (n : Z) : list A := firstn (Z.to_nat n) l.
Definition slice_from {A} (l : list A) (n : Z) : list A := skipn (Z.to_nat n) l.

End GoInt.
Import GoInt.

(** ** Bytes and little-endian fields ([encoding/binary]) *)

Definition byte_of_Z (z : Z) : byte :=
  match Byte.of_N (Z.to_N (z mod 256)) with
  | Some b => b
  | None => x00
  end.

Definition Z_of_byte (b : byte) : Z := Z.of_N (Byte.to_N b).

Definition le16 (z : Z) : list byte :=
  [byte_of_Z z; byte_of_Z (Z.shiftr z 8)].

Definition le32 (z : Z) : list byte :=
  [byte_of_Z z; byte_of_Z (Z.shiftr z 8);
   byte_of_Z (Z.shiftr z 16); byte_of_Z (Z.shiftr z 24)].

(** Unsigned little-endian value of a byte string. *)
Fixpoint le_decode (bs : list byte) : Z :=
  match bs with
  | [] => 0
  | b :: rest => Z_of_byte b + 256 * le_decode rest
  end.

(** The field of [n] bytes at byte offset [off] of an encoded struct. *)
Definition field (bs : list byte) (off n : nat) : list byte :=
  firstn n (skipn off bs).

Definition u16_at (bs : list byte) (off : nat) : Z := le_decode (field bs off 2).
Definition u32_at (bs : list byte) (off : nat) : Z := le_decode (field bs off 4).
Definition i32_at (bs : list byte) (off : nat) : Z := int32 (u32_at bs off).

(** A Go [[4]byte]. *)
Definition fourcc : Type := (byte * byte * byte * byte)%type.

Definition fourcc_bytes (id : fourcc) : list byte :=
  let '(a, b, c, d) := id in [a; b; c; d].

Definition fourcc_at (bs : list byte) (off : nat) : fourcc :=
  (nth off bs x00, nth (off + 1) bs x00, nth (off + 2) bs x00, nth (off + 3) bs x00).

Definition fourcc_eqb (x y : fourcc) : bool :=
  let '(a, b, c, d) := x in
  let '(a', b', c', d') := y in
  Byte.eqb a a' && Byte.eqb b b' && Byte.eqb c c' && Byte.eqb d d'.

(** The bytes of a Go string. *)
Definition string_bytes (s : string) : list byte :=
  map byte_of_ascii (list_ascii_of_string s).

(** ** format.go *)

Definition RIFFSignature := "RIFF".
Definition AVISignature := "AVI ".
Definition LISTSignature := "LIST".
Definition HDRLList := "hdrl".
Definition STRLList := "strl".
Definition MOVIList := "movi".
Definition AVIHChunk := "avih".
Definition STRHChunk := "strh".
Definition STRFChunk := "strf".
Definition IDX1Chunk := "idx1".
Definition STREAMTypeVideo := "vids".
Definition STREAMTypeAudio := "auds".

(** [copy(id[:], s)]: the first four bytes of [s], zero where [s] is shorter. *)
Definition StringToChunkID (s : string) : fourcc :=
  let bs := string_bytes s in
  (nth 0 bs x00, nth 1 bs x00, nth 2 bs x00, nth 3 bs x00).

(** [string(id[:])]. *)
Definition ChunkIDToString (id : fourcc) : string :=
  string_of_list_ascii (map ascii_of_byte (fourcc_bytes id)).

(** [MakeChunkID]: [/] and [%] truncate toward zero, [byte(...)] keeps the
    low eight bits, and [twoCC[0]], [twoCC[1]] panic (here [None]) on a
    string shorter than two bytes. *)
Definition MakeChunkID (streamIndex : Z) (twoCC : string) : option fourcc :=
  match string_bytes twoCC with
  | c0 :: c1 :: _ =>
      Some (byte_of_Z (48 + Z.quot streamIndex 10),
            byte_of_Z (48 + Z.rem streamIndex 10),
            c0, c1)
  | _ => None
  end.

(** [AlignSize]: [(size + 1) &^ 1] on [uint32]. *)
Definition AlignSize (size : Z) : Z := Z.ldiff (wrap32 (size + 1)) 1.

Definition IsValidRIFFSignature (sig : fourcc) : bool :=
  String.eqb (ChunkIDToString sig) RIFFSignature.
Definition IsValidAVISignature (sig : fourcc) : bool :=
  String.eqb (ChunkIDToString sig) AVISignature.
Definition IsVideoStream (t : fourcc) : bool :=
  String.eqb (ChunkIDToString t) STREAMTypeVideo.
Definition IsAudioStream (t : fourcc) : bool :=
  String.eqb (ChunkIDToString t) STREAMTypeAudio.

(** The wire structs, with the byte image [binary.Write] produces and the
    decoding [binary.Read] performs on an image of the struct's size. *)

Record RIFFHeader := {
  riff_Signature : fourcc;
  riff_FileSize : Z;
  riff_Type : fourcc }.

Definition RIFFHeader_size : Z := 12.

Definition encode_RIFFHeader (h : RIFFHeader) : list byte :=
  fourcc_bytes (riff_Signature h) ++ le32 (riff_FileSize h)
  ++ fourcc_bytes (riff_Type h).

Definition decode_RIFFHeader (bs : list byte) : RIFFHeader :=
  {| riff_Signature := fourcc_at bs 0;
     riff_FileSize := u32_at bs 4;
     riff_Type := fourcc_at bs 8 |}.

Record ChunkHeader := {
  ch_ID : fourcc;
  ch_Size : Z }.

Definition ChunkHeader_size : Z := 8.

Definition encode_ChunkHeader (h : ChunkHeader) : list byte :=
  fourcc_bytes (ch_ID h) ++ le32 (ch_Size h).

Definition decode_ChunkHeader (bs : list byte) : ChunkHeader :=
  {| ch_ID := fourcc_at bs 0; ch_Size := u32_at bs 4 |}.

(** [binary.LittleEndian.Uint32] and [PutUint32] on four bytes. *)
Definition Uint32 (b0 b1 b2 b3 : byte) : Z :=
  Z.lor (Z.lor (Z.lor (Z_of_byte b0) (Z.shiftl (Z_of_byte b1) 8))
               (Z.shiftl (Z_of_byte b2) 16))
        (Z.shiftl (Z_of_byte b3) 24).

Definition PutUint32 (v : Z) : list byte :=
  [byte_of_Z v; byte_of_Z (Z.shiftr v 8); byte_of_Z (Z.shiftr v 16);
   byte_of_Z (Z.shiftr v 24)].

(** [ReadChunkHeader] on a slice of at least eight bytes.  On a shorter
    slice [data[0:4]] and [data[4:8]] reach into the slice's capacity, or
    panic where it has none; that case is [None] here. *)
Definition ReadChunkHeader (data : list byte) : option ChunkHeader :=
  match data with
  | a :: b :: c :: d :: s0 :: s1 :: s2 :: s3 :: _ =>
      Some {| ch_ID := (a, b, c, d); ch_Size := Uint32 s0 s1 s2 s3 |}
  | _ => None
  end.

(** [WriteChunkHeader]: a new slice of eight bytes, the tag and the size. *)
Definition WriteChunkHeader (header : ChunkHeader) : list byte :=
  fourcc_bytes (ch_ID header) ++ PutUint32 (ch_Size header).

Record LISTHeader := {
  list_ChunkHeader : ChunkHeader;
  list_Type : fourcc }.

Definition encode_LISTHeader (h : LISTHeader) : list byte :=
  encode_ChunkHeader (list_ChunkHeader h) ++ fourcc_bytes (list_Type h).

Record AVIMainHeader := {
  avih_MicroSecPerFrame : Z;
  avih_MaxBytesPerSec : Z;
  avih_PaddingGranularity : Z;
  avih_Flags : Z;
  avih_TotalFrames : Z;
  avih_InitialFrames : Z;
  avih_Streams : Z;
  avih_SuggestedBufferSize : Z;
  avih_Width : Z;
  avih_Height : Z;
  avih_Reserved : Z * Z * Z * Z }.

Definition AVIMainHeader_size : Z := 56.

Definition encode_AVIMainHeader (h : AVIMainHeader) : list byte :=
  let '(r0, r1, r2, r3) := avih_Reserved h in
  le32 (avih_MicroSecPerFrame h) ++ le32 (avih_MaxBytesPerSec h)
  ++ le32 (avih_PaddingGranularity h) ++ le32 (avih_Flags h)
  ++ le32 (avih_TotalFrames h) ++ le32 (avih_InitialFrames h)
  ++ le32 (avih_Streams h) ++ le32 (avih_SuggestedBufferSize h)
  ++ le32 (avih_Width h) ++ le32 (avih_Height h)
  ++ le32 r0 ++ le32 r1 ++ le32 r2 ++ le32 r3.

Definition decode_AVIMainHeader (bs : list byte) : AVIMainHeader :=
  {| avih_MicroSecPerFrame := u32_at bs 0;
     avih_MaxBytesPerSec := u32_at bs 4;
     avih_PaddingGranularity := u32_at bs 8;
     avih_Flags := u32_at bs 12;
     avih_TotalFrames := u32_at bs 16;
     avih_InitialFrames := u32_at bs 20;
     avih_Streams := u32_at bs 24;
     avih_SuggestedBufferSize := u32_at bs 28;
     avih_Width := u32_at bs 32;
     avih_Height := u32_at bs 36;
     avih_Reserved := (u32_at bs 40, u32_at bs 44, u32_at bs 48, u32_at bs 52) |}.

Record Rect := {
  rc_Left : Z;
  rc_Top : Z;
  rc_Right : Z;
  rc_Bottom : Z }.

Record AVIStreamHeader := {
  strh_Type : fourcc;
  strh_Handler : fourcc;
  strh_Flags : Z;
  strh_Priority : Z;
  strh_Language : Z;
  strh_InitialFrames : Z;
  strh_Scale : Z;
  strh_Rate : Z;
  strh_Start : Z;
  strh_Length : Z;
  strh_SuggestedBufferSize : Z;
  strh_Quality : Z;
  strh_SampleSize : Z;
  strh_Frame : Rect }.

Definition AVIStreamHeader_size : Z := 56.

Definition encode_AVIStreamHeader (h : AVIStreamHeader) : list byte :=
  fourcc_bytes (strh_Type h) ++ fourcc_bytes (strh_Handler h)
  ++ le32 (strh_Flags h) ++ le16 (strh_Priority h) ++ le16 (strh_Language h)
  ++ le32 (strh_InitialFrames h) ++ le32 (strh_Scale h) ++ le32 (strh_Rate h)
  ++ le32 (strh_Start h) ++ le32 (strh_Length h)
  ++ le32 (strh_SuggestedBufferSize h) ++ le32 (strh_Quality h)
  ++ le32 (strh_SampleSize h)
  ++ le16 (rc_Left (strh_Frame h)) ++ le16 (rc_Top (strh_Frame h))
  ++ le16 (rc_Right (strh_Frame h)) ++ le16 (rc_Bottom (strh_Frame h)).

Definition decode_AVIStreamHeader (bs : list byte) : AVIStreamHeader :=
  {| strh_Type := fourcc_at bs 0;
     strh_Handler := fourcc_at bs 4;
     strh_Flags := u32_at bs 8;
     strh_Priority := u16_at bs 12;
     strh_Language := u16_at bs 14;
     strh_InitialFrames := u32_at bs 16;
     strh_Scale := u32_at bs 20;
     strh_Rate := u32_at bs 24;
     strh_Start := u32_at bs 28;
     strh_Length := u32_at bs 32;
     strh_SuggestedBufferSize := u32_at bs 36;
     strh_Quality := u32_at bs 40;
     strh_SampleSize := u32_at bs 44;
     strh_Frame := {| rc_Left := u16_at bs 48; rc_Top := u16_at bs 50;
                      rc_Right := u16_at bs 52; rc_Bottom := u16_at bs 54 |} |}.

Record BitmapInfoHeader := {
  bih_Size : Z;
  bih_Width : Z;
  bih_Height : Z;
  bih_Planes : Z;
  bih_BitCount : Z;
  bih_Compression : fourcc;
  bih_SizeImage : Z;
  bih_XPelsPerMeter : Z;
  bih_YPelsPerMeter : Z;
  bih_ClrUsed : Z;
  bih_ClrImportant : Z }.

Definition BitmapInfoHeader_size : Z := 40.

Definition encode_BitmapInfoHeader (h : BitmapInfoHeader) : list byte :=
  le32 (bih_Size h) ++ le32 (bih_Width h) ++ le32 (bih_Height h)
  ++ le16 (bih_Planes h) ++ le16 (bih_BitCount h)
  ++ fourcc_bytes (bih_Compression h) ++ le32 (bih_SizeImage h)
  ++ le32 (bih_XPelsPerMeter h) ++ le32 (bih_YPelsPerMeter h)
  ++ le32 (bih_ClrUsed h) ++ le32 (bih_ClrImportant h).

Definition decode_BitmapInfoHeader (bs : list byte) : BitmapInfoHeader :=
  {| bih_Size := u32_at bs 0;
     bih_Width := i32_at bs 4;
     bih_Height := i32_at bs 8;
     bih_Planes := u16_at bs 12;
     bih_BitCount := u16_at bs 14;
     bih_Compression := fourcc_at bs 16;
     bih_SizeImage := u32_at bs 20;
     bih_XPelsPerMeter := i32_at bs 24;
     bih_YPelsPerMeter := i32_at bs 28;
     bih_ClrUsed := u32_at bs 32;
     bih_ClrImportant := u32_at bs 36 |}.

(** Seven fields: 2 + 2 + 4 + 4 + 2 + 2 + 2 bytes. *)
Record WaveFormatEx := {
  wfx_FormatTag : Z;
  wfx_Channels : Z;
  wfx_SamplesPerSec : Z;
  wfx_AvgBytesPerSec : Z;
  wfx_BlockAlign : Z;
  wfx_BitsPerSample : Z;
  wfx_Size : Z }.

Definition WaveFormatEx_size : Z := 18.

Definition encode_WaveFormatEx (h : WaveFormatEx) : list byte :=
  le16 (wfx_FormatTag h) ++ le16 (wfx_Channels h)
  ++ le32 (wfx_SamplesPerSec h) ++ le32 (wfx_AvgBytesPerSec h)
  ++ le16 (wfx_BlockAlign h) ++ le16 (wfx_BitsPerSample h)
  ++ le16 (wfx_Size h).

Definition decode_WaveFormatEx (bs : list byte) : WaveFormatEx :=
  {| wfx_FormatTag := u16_at bs 0;
     wfx_Channels := u16_at bs 2;
     wfx_SamplesPerSec := u32_at bs 4;
     wfx_AvgBytesPerSec := u32_at bs 8;
     wfx_BlockAlign := u16_at bs 12;
     wfx_BitsPerSample := u16_at bs 14;
     wfx_Size := u16_at bs 16 |}.

Record IndexEntry := {
  ie_ChunkID : fourcc;
  ie_Flags : Z;
  ie_Offset : Z;
  ie_Size : Z }.

Definition IndexEntry_size : Z := 16.

Definition encode_IndexEntry (e : IndexEntry) : list byte :=
  fourcc_bytes (ie_ChunkID e) ++ le32 (ie_Flags e)
  ++ le32 (ie_Offset e) ++ le32 (ie_Size e).

Definition decode_IndexEntry (bs : list byte) : IndexEntry :=
  {| ie_ChunkID := fourcc_at bs 0;
     ie_Flags := u32_at bs 4;
     ie_Offset := u32_at bs 8;
     ie_Size := u32_at bs 12 |}.

(** ** float64 and time.Duration *)

Module GoFloat.

(** The integer part of a finite float, rounded toward zero. *)
Definition trunc (f : float) : option Z :=
  match Prim2SF f with
  | S754_zero _ => Some 0
  | S754_finite s m e =>
      let a := if 0 <=? e then Z.pos m * 2 ^ e
               else Z.quot (Z.pos m) (2 ^ (- e)) in
      Some (if s then - a else a)
  | _ => None
  end.

(** [int64(f)].  In range the conversion truncates; out of range (and for
    NaN and infinities) Go leaves the result to the implementation, and
    amd64 yields the smallest [int64]. *)
Definition to_int64 (f : float) : Z :=
  match trunc f with
  | Some z => if (- 2 ^ 63 <=? z) && (z <? 2 ^ 63) then z else - 2 ^ 63
  | None => - 2 ^ 63
  end.

(** [uint32(f)]: on amd64 the low 32 bits of [int64(f)]. *)
Definition to_uint32 (f : float) : Z := wrap32 (to_int64 f).

(** [float64(n)] for a [uint32] [n], which is exact. *)
Definition of_uint32 (n : Z) : float := PrimFloat.of_uint63 (Uint63.of_Z n).

(** [f > 0]. *)
Definition positive (f : float) : bool := PrimFloat.ltb 0%float f.

End GoFloat.

(** [time.Duration] is an [int64] count of nanoseconds. *)
Definition Microsecond : Z := 1000.
Definition Second : Z := 1000000000.

(** The quotient of two [int64]; [None] is the division-by-zero panic. *)
Definition int64_div (a b : Z) : option Z :=
  if b =? 0 then None else Some (int64 (Z.quot a b)).

(** ** The shared types (types.go) *)

Definition StreamType : Type := string.
Definition StreamTypeVideo : StreamType := "video".
Definition StreamTypeAudio : StreamType := "audio".

Module Codec.
Record t := {
  Name : string;
  FourCC : fourcc;
  Type_ : StreamType;
  Width : Z;
  Height : Z;
  FPS : float;
  Channels : Z;
  SampleRate : Z;
  BitDepth : Z }.

(** The zero value. *)
Definition zero : t :=
  {| Name := ""; FourCC := (x00, x00, x00, x00); Type_ := "";
     Width := 0; Height := 0; FPS := 0%float;
     Channels := 0; SampleRate := 0; BitDepth := 0 |}.
End Codec.

Module Packet.
Record t := {
  StreamIndex : Z;
  Codec : StreamType;
  Data : list byte;
  PTS : Z;
  DTS : Z;
  Duration : Z;
  Size : Z;
  Position : Z;
  Flags : string;
  PTSTime : Z;
  DTSTime : Z;
  DurationTime : Z }.
End Packet.

Module Stream.
Record t := {
  Index : Z;
  Type_ : StreamType;
  Codec : Codec.t;
  Duration : Z;
  PacketCount : Z }.

Definition zero : t :=
  {| Index := 0; Type_ := ""; Codec := Codec.zero; Duration := 0;
     PacketCount := 0 |}.
End Stream.

Module FileInfo.
Record t := {
  Filename : string;
  Duration : Z;
  FileSize : Z;
  Streams : list Stream.t;
  VideoStreams : Z;
  AudioStreams : Z }.
End FileInfo.

(** ** Errors and outcomes *)

(** The wrapped error of an [AVIError]. *)
Inductive cause :=
| io_EOF
| io_ErrUnexpectedEOF
| Errorf (msg : string).

Record AVIError := { Op : string; Err : cause }.

(** What a call can do: return a value, return an error, panic, or (in this
    embedding only) exhaust the fuel of a loop. *)
Inductive outcome (A : Type) :=
| Ok (a : A)
| Fail (e : AVIError)
| Panic
| OutOfFuel.
Arguments Ok {A} a.
Arguments Fail {A} e.
Arguments Panic {A}.
Arguments OutOfFuel {A}.

(** ** buffer.go *)

Definition SeekStart : Z := 0.
Definition SeekCurrent : Z := 1.
Definition SeekEnd : Z := 2.

Module SeekableBuffer.

(** [buf] is the content of the wrapped [bytes.Buffer], which is never
    read from, so that [buf.Len()] is the length of the content. *)
Record t := { buf : list byte; pos : Z }.

Definition NewSeekableBuffer : t := {| buf := []; pos := 0 |}.

(** [Write]: the count written, which is [len(p)] (the error is always
    nil), and the buffer afterwards. *)
Definition Write (sb : t) (p : list byte) : Z * t :=
  let currentLen := len (buf sb) in
  let n := len p in
  let newBuf :=
    if pos sb <? currentLen then
      let currentData := buf sb in
      let endPos := pos sb + n in
      slice_to currentData (pos sb) ++ p
      ++ (if endPos <? currentLen then slice_from currentData endPos else [])
    else buf sb ++ p in
  (n, {| buf := newBuf; pos := pos sb + n |}).

(** [Seek]: the new position or an error, and the buffer afterwards. *)
Definition Seek (sb : t) (offset whence : Z) : (Z + string) * t :=
  let newPos :=
    if whence =? SeekStart then Some offset
    else if whence =? SeekCurrent then Some (int64 (pos sb + offset))
    else if whence =? SeekEnd then Some (int64 (len (buf sb) + offset))
    else None in
  match newPos with
  | None => (inr "invalid seek whence", sb)
  | Some newPos =>
      if newPos <? 0 then (inr "seek before start of buffer", sb)
      else
        let currentLen := len (buf sb) in
        let buf' :=
          if newPos >? currentLen
          then buf sb ++ repeat x00 (Z.to_nat (newPos - currentLen))
          else buf sb in
        (inl newPos, {| buf := buf'; pos := newPos |})
  end.

(** [Read] into a slice of length [n]: the bytes copied, whether [io.EOF]
    is returned with them, and the buffer afterwards. *)
Definition Read (sb : t) (n : Z) : (list byte * bool) * t :=
  if pos sb >=? len (buf sb) then (([], true), sb)
  else
    let got := firstn (Z.to_nat n) (slice_from (buf sb) (pos sb)) in
    ((got, len got <? n), {| buf := buf sb; pos := pos sb + len got |}).

Definition Bytes (sb : t) : list byte := buf sb.
Definition Len (sb : t) : Z := len (buf sb).
Definition Reset (sb : t) : t := {| buf := []; pos := 0 |}.

End SeekableBuffer.

(** ** The byte source of the demuxer

    [Reader.r] is an [io.ReadSeeker]; the examples open the demuxer on a
    [bytes.Reader], whose behaviour this is: a read-only byte string and a
    cursor that may be moved anywhere at or after the start. *)

Module Source.

Record t := { data : list byte; pos : Z }.

(** [bytes.NewReader(data)]. *)
Definition NewReader (data : list byte) : t := {| data := data; pos := 0 |}.

Definition Seek (s : t) (offset whence : Z) : (Z + cause) * t :=
  let abs :=
    if whence =? SeekStart then Some offset
    else if whence =? SeekCurrent then Some (pos s + offset)
    else if whence =? SeekEnd then Some (len (data s) + offset)
    else None in
  match abs with
  | None => (inr (Errorf "bytes.Reader.Seek: invalid whence"), s)
  | Some abs =>
      if abs <? 0 then (inr (Errorf "bytes.Reader.Seek: negative position"), s)
      else (inl abs, {| data := data s; pos := abs |})
  end.

(** [io.ReadFull] of [n] bytes, as [binary.Read] performs it: all [n]
    bytes, or [io.EOF] when nothing is left, or [io.ErrUnexpectedEOF]
    after consuming a shorter rest. *)
Definition ReadFull (s : t) (n : Z) : (list byte + cause) * t :=
  let avail := len (data s) - pos s in
  if n <=? 0 then (inl [], s)
  else if n <=? avail then
    (inl (firstn (Z.to_nat n) (slice_from (data s) (pos s))),
     {| data := data s; pos := pos s + n |})
  else if 0 <? avail then
    (inr io_ErrUnexpectedEOF, {| data := data s; pos := len (data s) |})
  else (inr io_EOF, s).

End Source.

(** ** demuxer.go *)

Module Reader.

(** [r] is [None] for a nil interface and [fileInfo] is [None] for a nil
    pointer; a nil slice is the empty list. *)
Record t := {
  r : option Source.t;
  filename : string;
  fileSize : Z;
  streams : list Stream.t;
  fileInfo : option FileInfo.t;
  moviOffset : Z;
  indexEntries : list IndexEntry }.

Definition set_r (x : t) (s : option Source.t) : t :=
  {| r := s; filename := filename x; fileSize := fileSize x;
     streams := streams x; fileInfo := fileInfo x;
     moviOffset := moviOffset x; indexEntries := indexEntries x |}.

Definition set_filename (x : t) (f : string) : t :=
  {| r := r x; filename := f; fileSize := fileSize x;
     streams := streams x; fileInfo := fileInfo x;
     moviOffset := moviOffset x; indexEntries := indexEntries x |}.

Definition set_fileSize (x : t) (n : Z) : t :=
  {| r := r x; filename := filename x; fileSize := n;
     streams := streams x; fileInfo := fileInfo x;
     moviOffset := moviOffset x; indexEntries := indexEntries x |}.

Definition set_streams (x : t) (l : list Stream.t) : t :=
  {| r := r x; filename := filename x; fileSize := fileSize x;
     streams := l; fileInfo := fileInfo x;
     moviOffset := moviOffset x; indexEntries := indexEntries x |}.

Definition set_fileInfo (x : t) (fi : option FileInfo.t) : t :=
  {| r := r x; filename := filename x; fileSize := fileSize x;
     streams := streams x; fileInfo := fi;
     moviOffset := moviOffset x; indexEntries := indexEntries x |}.

Definition set_moviOffset (x : t) (n : Z) : t :=
  {| r := r x; filename := filename x; fileSize := fileSize x;
     streams := streams x; fileInfo := fileInfo x;
     moviOffset := n; indexEntries := indexEntries x |}.

Definition set_indexEntries (x : t) (l : list IndexEntry) : t :=
  {| r := r x; filename := filename x; fileSize := fileSize x;
     streams := streams x; fileInfo := fileInfo x;
     moviOffset := moviOffset x; indexEntries := l |}.

End Reader.

(** [NewDemuxer]: [&Reader{}]. *)
Definition NewDemuxer : Reader.t :=
  {| Reader.r := None; Reader.filename := ""; Reader.fileSize := 0;
     Reader.streams := []; Reader.fileInfo := None;
     Reader.moviOffset := 0; Reader.indexEntries := [] |}.

(** Methods with a pointer receiver: the receiver is threaded through, and
    it is kept as it stands when a method returns an error. *)
Definition ST (S A : Type) : Type := S -> outcome A * S.

Definition ret {S A} (a : A) : ST S A := fun st => (Ok a, st).

Definition bind {S A B} (c : ST S A) (k : A -> ST S B) : ST S B :=
  fun st =>
    match c st with
    | (Ok a, st') => k a st'
    | (Fail e, st') => (Fail e, st')
    | (Panic, st') => (Panic, st')
    | (OutOfFuel, st') => (OutOfFuel, st')
    end.

Definition fail {S A} (op : string) (e : cause) : ST S A :=
  fun st => (Fail {| Op := op; Err := e |}, st).

Definition panic {S A} : ST S A := fun st => (Panic, st).
Definition out_of_fuel {S A} : ST S A := fun st => (OutOfFuel, st).

Definition get {S} : ST S S := fun st => (Ok st, st).
Definition gets {S A} (f : S -> A) : ST S A := fun st => (Ok (f st), st).
Definition modify {S} (f : S -> S) : ST S unit := fun st => (Ok tt, f st).

(** Methods of [*Reader]. *)
Definition M (A : Type) : Type := ST Reader.t A.

Declare Scope method_scope.
Delimit Scope method_scope with method.
Notation "x <- c ;; k" := (bind c (fun x => k))
  (at level 61, c at next level, right associativity) : method_scope.
Notation "c ;;; k" := (bind c (fun _ => k))
  (at level 61, right associativity) : method_scope.
Local Open Scope method_scope.

(** [r.r.Seek(offset, whence)]; a nil [r.r] panics. *)
Definition rSeek (offset whence : Z) : M (Z + cause) :=
  fun rd =>
    match Reader.r rd with
    | None => (Panic, rd)
    | Some s =>
        let '(res, s') := Source.Seek s offset whence in
        (Ok res, Reader.set_r rd (Some s'))
    end.

(** [binary.Read(r.r, binary.LittleEndian, &v)] for a [v] of [n] bytes. *)
Definition binaryRead (n : Z) : M (list byte + cause) :=
  fun rd =>
    match Reader.r rd with
    | None => (Panic, rd)
    | Some s =>
        let '(res, s') := Source.ReadFull s n in
        (Ok res, Reader.set_r rd (Some s'))
    end.

(** [if _, err := r.r.Seek(n, io.SeekCurrent); err != nil { return &AVIError{op, err} }] *)
Definition skip (op : string) (n : Z) : M unit :=
  res <- rSeek n SeekCurrent ;;
  match res with
  | inr e => fail op e
  | inl _ => ret tt
  end.

(** [parseAVIHChunk] *)
Definition parseAVIHChunk (size : Z) (fileInfo : FileInfo.t) : M FileInfo.t :=
  res <- binaryRead AVIMainHeader_size ;;
  match res with
  | inr e => fail "read avih" e
  | inl bs =>
      let header := decode_AVIMainHeader bs in
      let fileInfo :=
        if avih_MicroSecPerFrame header >? 0 then
          {| FileInfo.Filename := FileInfo.Filename fileInfo;
             FileInfo.Duration :=
               int64 (int64 (avih_TotalFrames header * avih_MicroSecPerFrame header)
                      * Microsecond);
             FileInfo.FileSize := FileInfo.FileSize fileInfo;
             FileInfo.Streams := FileInfo.Streams fileInfo;
             FileInfo.VideoStreams := FileInfo.VideoStreams fileInfo;
             FileInfo.AudioStreams := FileInfo.AudioStreams fileInfo |}
        else fileInfo in
      (if size >? 56 then skip "skip avih remainder" (size - 56) else ret tt) ;;;
      ret fileInfo
  end.

(** The printable ASCII bytes of the handler tag, as a string. *)
Definition cleanName (handler : fourcc) : string :=
  string_of_list_ascii
    (map ascii_of_byte
       (filter (fun b => (32 <=? Z_of_byte b) && (Z_of_byte b <=? 126))
               (string_bytes (ChunkIDToString handler)))).

(** The assignments [parseSTRHChunk] makes to the stream from the header
    it has read. *)
Definition applySTRH (header : AVIStreamHeader) (stream : Stream.t) : Stream.t :=
  let ty :=
    if IsVideoStream (strh_Type header) then StreamTypeVideo
    else if IsAudioStream (strh_Type header) then StreamTypeAudio
    else Stream.Type_ stream in
  let cty :=
    if IsVideoStream (strh_Type header) then StreamTypeVideo
    else if IsAudioStream (strh_Type header) then StreamTypeAudio
    else Codec.Type_ (Stream.Codec stream) in
  let timed := (strh_Rate header >? 0) && (strh_Scale header >? 0) in
  let fps :=
    if timed && String.eqb ty StreamTypeVideo
    then PrimFloat.div (GoFloat.of_uint32 (strh_Rate header))
                       (GoFloat.of_uint32 (strh_Scale header))
    else Codec.FPS (Stream.Codec stream) in
  let duration :=
    if timed && (strh_Length header >? 0)
    then int64 (Z.quot (int64 (int64 (strh_Length header * strh_Scale header)
                               * Second))
                       (strh_Rate header))
    else Stream.Duration stream in
  let codec :=
    {| Codec.Name := cleanName (strh_Handler header);
       Codec.FourCC := strh_Handler header;
       Codec.Type_ := cty;
       Codec.Width := Codec.Width (Stream.Codec stream);
       Codec.Height := Codec.Height (Stream.Codec stream);
       Codec.FPS := fps;
       Codec.Channels := Codec.Channels (Stream.Codec stream);
       Codec.SampleRate := Codec.SampleRate (Stream.Codec stream);
       Codec.BitDepth := Codec.BitDepth (Stream.Codec stream) |} in
  {| Stream.Index := Stream.Index stream;
     Stream.Type_ := ty;
     Stream.Codec := codec;
     Stream.Duration := duration;
     Stream.PacketCount := Stream.PacketCount stream |}.

(** [parseSTRHChunk] *)
Definition parseSTRHChunk (size : Z) (stream : Stream.t) : M Stream.t :=
  res <- binaryRead AVIStreamHeader_size ;;
  match res with
  | inr e => fail "read strh" e
  | inl bs =>
      let stream := applySTRH (decode_AVIStreamHeader bs) stream in
      (if size >? 56 then skip "skip strh remainder" (size - 56) else ret tt) ;;;
      ret stream
  end.

Definition set_codec (stream : Stream.t) (c : Codec.t) : Stream.t :=
  {| Stream.Index := Stream.Index stream;
     Stream.Type_ := Stream.Type_ stream;
     Stream.Codec := c;
     Stream.Duration := Stream.Duration stream;
     Stream.PacketCount := Stream.PacketCount stream |}.

(** The assignments of [parseVideoFormat]. *)
Definition applyVideoFormat (bih : BitmapInfoHeader) (stream : Stream.t)
  : Stream.t :=
  let c := Stream.Codec stream in
  let height :=
    if bih_Height bih <? 0 then int64 (- bih_Height bih) else bih_Height bih in
  set_codec stream
    {| Codec.Name := Codec.Name c; Codec.FourCC := Codec.FourCC c;
       Codec.Type_ := Codec.Type_ c;
       Codec.Width := bih_Width bih;
       Codec.Height := height;
       Codec.FPS := Codec.FPS c; Codec.Channels := Codec.Channels c;
       Codec.SampleRate := Codec.SampleRate c;
       Codec.BitDepth := Codec.BitDepth c |}.

(** [parseVideoFormat] *)
Definition parseVideoFormat (size : Z) (stream : Stream.t) : M Stream.t :=
  res <- binaryRead BitmapInfoHeader_size ;;
  match res with
  | inr e => fail "read bitmap info" e
  | inl bs =>
      let stream := applyVideoFormat (decode_BitmapInfoHeader bs) stream in
      (if size >? 40 then skip "skip bitmap remainder" (size - 40) else ret tt) ;;;
      ret stream
  end.

(** The assignments of [parseAudioFormat]. *)
Definition applyAudioFormat (wfx : WaveFormatEx) (stream : Stream.t) : Stream.t :=
  let c := Stream.Codec stream in
  set_codec stream
    {| Codec.Name := Codec.Name c; Codec.FourCC := Codec.FourCC c;
       Codec.Type_ := Codec.Type_ c;
       Codec.Width := Codec.Width c; Codec.Height := Codec.Height c;
       Codec.FPS := Codec.FPS c;
       Codec.Channels := wfx_Channels wfx;
       Codec.SampleRate := wfx_SamplesPerSec wfx;
       Codec.BitDepth := wfx_BitsPerSample wfx |}.

(** [parseAudioFormat] *)
Definition parseAudioFormat (size : Z) (stream : Stream.t) : M Stream.t :=
  res <- binaryRead WaveFormatEx_size ;;
  match res with
  | inr e => fail "read wave format" e
  | inl bs =>
      let stream := applyAudioFormat (decode_WaveFormatEx bs) stream in
      (if size >? 18 then skip "skip wave remainder" (size - 18) else ret tt) ;;;
      ret stream
  end.

(** [parseSTRFChunk] *)
Definition parseSTRFChunk (size : Z) (stream : Stream.t) : M Stream.t :=
  if String.eqb (Stream.Type_ stream) StreamTypeVideo then
    parseVideoFormat size stream
  else if String.eqb (Stream.Type_ stream) StreamTypeAudio then
    parseAudioFormat size stream
  else
    skip "skip strf" (AlignSize size) ;;; ret stream.

(** The loop of [parseSTRLList]; the result is the stream record when the
    loop is left. *)
Fixpoint parseSTRLList_loop (fuel : nat) (endPos : Z) (stream : Stream.t)
  : M Stream.t :=
  match fuel with
  | O => out_of_fuel
  | S fuel =>
      p <- rSeek 0 SeekCurrent ;;
      match p with
      | inr _ => ret stream
      | inl pos =>
          if pos >=? endPos then ret stream
          else
            res <- binaryRead ChunkHeader_size ;;
            match res with
            | inr io_EOF => ret stream
            | inr e => fail "read strl chunk" e
            | inl bs =>
                let header := decode_ChunkHeader bs in
                let chunkID := ChunkIDToString (ch_ID header) in
                stream <-
                  (if String.eqb chunkID STRHChunk then
                     parseSTRHChunk (ch_Size header) stream
                   else if String.eqb chunkID STRFChunk then
                     parseSTRFChunk (ch_Size header) stream
                   else
                     skip "skip strl chunk" (AlignSize (ch_Size header)) ;;;
                     ret stream) ;;
                parseSTRLList_loop fuel endPos stream
            end
      end
  end.

(** [parseSTRLList]; [fuel] bounds the iterations of its loop. *)
Definition parseSTRLList (fuel : nat) (size : Z) (streams : list Stream.t)
  : M (list Stream.t) :=
  res <- binaryRead 4 ;;
  match res with
  | inr e => fail "read strl type" e
  | inl bs =>
      let listType := fourcc_at bs 0 in
      if negb (String.eqb (ChunkIDToString listType) STRLList) then
        skip "skip non-strl" (AlignSize (wrap32 (size - 4))) ;;;
        ret streams
      else
        let stream :=
          {| Stream.Index := len streams; Stream.Type_ := "";
             Stream.Codec := Codec.zero; Stream.Duration := 0;
             Stream.PacketCount := 0 |} in
        p <- rSeek 0 SeekCurrent ;;
        match p with
        | inr e => fail "get strl position" e
        | inl endPos =>
            let endPos := endPos + wrap32 (size - 4) in
            stream <- parseSTRLList_loop fuel endPos stream ;;
            ret (streams ++ [stream])
        end
  end.

(** The loop of [parseHDRLList]. *)
Fixpoint parseHDRLList_loop (fuel : nat) (endPos : Z)
    (streams : list Stream.t) (fileInfo : FileInfo.t)
  : M (list Stream.t * FileInfo.t) :=
  match fuel with
  | O => out_of_fuel
  | S fuel =>
      p <- rSeek 0 SeekCurrent ;;
      match p with
      | inr _ => ret (streams, fileInfo)
      | inl pos =>
          if pos >=? endPos then ret (streams, fileInfo)
          else
            res <- binaryRead ChunkHeader_size ;;
            match res with
            | inr io_EOF => ret (streams, fileInfo)
            | inr e => fail "read hdrl chunk" e
            | inl bs =>
                let header := decode_ChunkHeader bs in
                let chunkID := ChunkIDToString (ch_ID header) in
                st <-
                  (if String.eqb chunkID AVIHChunk then
                     fi <- parseAVIHChunk (ch_Size header) fileInfo ;;
                     ret (streams, fi)
                   else if String.eqb chunkID LISTSignature then
                     ss <- parseSTRLList fuel (ch_Size header) streams ;;
                     ret (ss, fileInfo)
                   else
                     skip "skip hdrl chunk" (AlignSize (ch_Size header)) ;;;
                     ret (streams, fileInfo)) ;;
                parseHDRLList_loop fuel endPos (fst st) (snd st)
            end
      end
  end.

(** [parseHDRLList] *)
Definition parseHDRLList (fuel : nat) (size : Z)
    (streams : list Stream.t) (fileInfo : FileInfo.t)
  : M (list Stream.t * FileInfo.t) :=
  p <- rSeek 0 SeekCurrent ;;
  match p with
  | inr e => fail "get position" e
  | inl endPos =>
      parseHDRLList_loop fuel (endPos + size) streams fileInfo
  end.

(** [parseLISTChunk] *)
Definition parseLISTChunk (fuel : nat) (size : Z)
    (streams : list Stream.t) (fileInfo : FileInfo.t)
  : M (list Stream.t * FileInfo.t) :=
  res <- binaryRead 4 ;;
  match res with
  | inr e => fail "read list type" e
  | inl bs =>
      let listTypeStr := ChunkIDToString (fourcc_at bs 0) in
      let remainingSize := wrap32 (size - 4) in
      if String.eqb listTypeStr HDRLList then
        parseHDRLList fuel remainingSize streams fileInfo
      else if String.eqb listTypeStr MOVIList then
        p <- rSeek 0 SeekCurrent ;;
        let currentPos := match p with inl pos => pos | inr _ => 0 end in
        modify (fun rd => Reader.set_moviOffset rd (currentPos - 4)) ;;;
        skip "skip movi" (AlignSize remainingSize) ;;;
        ret (streams, fileInfo)
      else
        skip "skip list" (AlignSize remainingSize) ;;;
        ret (streams, fileInfo)
  end.

(** The loop of [parseIDX1Chunk]: the entries still to read, and those of
    [r.indexEntries] filled so far (the rest of the slice is zero). *)
Definition zero_IndexEntry : IndexEntry :=
  {| ie_ChunkID := (x00, x00, x00, x00); ie_Flags := 0; ie_Offset := 0;
     ie_Size := 0 |}.

Fixpoint parseIDX1Chunk_loop (todo : nat) (done : list IndexEntry) : M unit :=
  match todo with
  | O => ret tt
  | S todo' =>
      res <- binaryRead IndexEntry_size ;;
      match res with
      | inr e => fail "read index entry" e
      | inl bs =>
          let done := done ++ [decode_IndexEntry bs] in
          modify (fun rd =>
                    Reader.set_indexEntries rd (done ++ repeat zero_IndexEntry todo')) ;;;
          parseIDX1Chunk_loop todo' done
      end
  end.

(** [parseIDX1Chunk] *)
Definition parseIDX1Chunk (size : Z) : M unit :=
  let numEntries := size / 16 in
  modify (fun rd =>
            Reader.set_indexEntries rd (repeat zero_IndexEntry (Z.to_nat numEntries))) ;;;
  parseIDX1Chunk_loop (Z.to_nat numEntries) [].

(** The loop of [parseChunks].  The bound [r.fileSize-8] is an [int64]
    difference, which wraps for the eight smallest sizes. *)
Fixpoint parseChunks_loop (fuel : nat)
    (streams : list Stream.t) (fileInfo : FileInfo.t)
  : M (list Stream.t * FileInfo.t) :=
  match fuel with
  | O => out_of_fuel
  | S fuel =>
      p <- rSeek 0 SeekCurrent ;;
      match p with
      | inr _ => ret (streams, fileInfo)
      | inl pos =>
          fileSize <- gets Reader.fileSize ;;
          if pos >=? int64 (fileSize - 8) then ret (streams, fileInfo)
          else
            res <- binaryRead ChunkHeader_size ;;
            match res with
            | inr io_EOF => ret (streams, fileInfo)
            | inr e => fail "read chunk header" e
            | inl bs =>
                let header := decode_ChunkHeader bs in
                let chunkID := ChunkIDToString (ch_ID header) in
                st <-
                  (if String.eqb chunkID LISTSignature then
                     parseLISTChunk fuel (ch_Size header) streams fileInfo
                   else if String.eqb chunkID IDX1Chunk then
                     parseIDX1Chunk (ch_Size header) ;;;
                     ret (streams, fileInfo)
                   else
                     skip "skip chunk" (AlignSize (ch_Size header)) ;;;
                     ret (streams, fileInfo)) ;;
                parseChunks_loop fuel (fst st) (snd st)
            end
      end
  end.

(** The stream-type counts of [parseChunks]. *)
Fixpoint count_streams (streams : list Stream.t) (fi : FileInfo.t) : FileInfo.t :=
  match streams with
  | [] => fi
  | stream :: rest =>
      let fi :=
        if String.eqb (Stream.Type_ stream) StreamTypeVideo then
          {| FileInfo.Filename := FileInfo.Filename fi;
             FileInfo.Duration := FileInfo.Duration fi;
             FileInfo.FileSize := FileInfo.FileSize fi;
             FileInfo.Streams := FileInfo.Streams fi;
             FileInfo.VideoStreams := FileInfo.VideoStreams fi + 1;
             FileInfo.AudioStreams := FileInfo.AudioStreams fi |}
        else if String.eqb (Stream.Type_ stream) StreamTypeAudio then
          {| FileInfo.Filename := FileInfo.Filename fi;
             FileInfo.Duration := FileInfo.Duration fi;
             FileInfo.FileSize := FileInfo.FileSize fi;
             FileInfo.Streams := FileInfo.Streams fi;
             FileInfo.VideoStreams := FileInfo.VideoStreams fi;
             FileInfo.AudioStreams := FileInfo.AudioStreams fi + 1 |}
        else fi in
      count_streams rest fi
  end.

(** [parseChunks] *)
Definition parseChunks (fuel : nat) : M unit :=
  filename <- gets Reader.filename ;;
  fileSize <- gets Reader.fileSize ;;
  let fileInfo :=
    {| FileInfo.Filename := filename; FileInfo.Duration := 0;
       FileInfo.FileSize := fileSize; FileInfo.Streams := [];
       FileInfo.VideoStreams := 0; FileInfo.AudioStreams := 0 |} in
  p <- rSeek 12 SeekStart ;;
  match p with
  | inr e => fail "seek" e
  | inl _ =>
      st <- parseChunks_loop fuel [] fileInfo ;;
      let '(streams, fileInfo) := st in
      let fileInfo :=
        {| FileInfo.Filename := FileInfo.Filename fileInfo;
           FileInfo.Duration := FileInfo.Duration fileInfo;
           FileInfo.FileSize := FileInfo.FileSize fileInfo;
           FileInfo.Streams := streams;
           FileInfo.VideoStreams := FileInfo.VideoStreams fileInfo;
           FileInfo.AudioStreams := FileInfo.AudioStreams fileInfo |} in
      modify (fun rd =>
                Reader.set_fileInfo (Reader.set_streams rd streams)
                  (Some (count_streams streams fileInfo)))
  end.

(** [parseFile] *)
Definition parseFile (fuel : nat) : M unit :=
  res <- binaryRead RIFFHeader_size ;;
  match res with
  | inr e => fail "read riff header" e
  | inl bs =>
      let riffHeader := decode_RIFFHeader bs in
      if negb (IsValidRIFFSignature (riff_Signature riffHeader)) then
        fail "validate riff" (Errorf "not a RIFF file")
      else if negb (IsValidAVISignature (riff_Type riffHeader)) then
        fail "validate avi" (Errorf "not an AVI file")
      else parseChunks fuel
  end.

(** Every iteration of a parsing loop consumes a chunk header of the
    source, so one more than its length bounds the iterations. *)
Definition parse_fuel (reader : Source.t) : nat :=
  S (List.length (Source.data reader)).

(** [Open] *)
Definition Open (reader : Source.t) (size : Z) : M unit :=
  modify (fun rd =>
            Reader.set_filename
              (Reader.set_fileSize (Reader.set_r rd (Some reader)) size) "") ;;;
  parseFile (parse_fuel reader).

(** [GetFileInfo] *)
Definition GetFileInfo : M FileInfo.t :=
  rd <- get ;;
  match Reader.fileInfo rd with
  | None => fail "get file info" (Errorf "file not opened")
  | Some fi => ret fi
  end.

(** [GetStreams] *)
Definition GetStreams : M (list Stream.t) :=
  rd <- get ;;
  match Reader.streams rd with
  | [] => fail "get streams" (Errorf "file not opened")
  | ss => ret ss
  end.

(** [ReadPacketData] *)
Definition ReadPacketData (packet : Packet.t) : M (list byte) :=
  rd <- get ;;
  match Reader.r rd with
  | None => fail "read packet data" (Errorf "file not open")
  | Some _ =>
      p <- rSeek 0 SeekCurrent ;;
      match p with
      | inr e => fail "get current position" e
      | inl currentPos =>
          p <- rSeek (Packet.Position packet) SeekStart ;;
          match p with
          | inr e => fail "seek to packet" e
          | inl _ =>
              res <- binaryRead ChunkHeader_size ;;
              match res with
              | inr e => fail "read packet header" e
              | inl bs =>
                  let header := decode_ChunkHeader bs in
                  let dataSize := ch_Size header in
                  p <- rSeek 0 SeekCurrent ;;
                  match p with
                  | inr e => fail "get position after header" e
                  | inl currentPosAfterHeader =>
                      if int64 (currentPosAfterHeader + dataSize) >? Reader.fileSize rd
                      then fail "read packet data"
                             (Errorf "packet would read beyond file bounds")
                      else
                        res <- binaryRead dataSize ;;
                        match res with
                        | inr e => fail "read packet data" e
                        | inl data =>
                            p <- rSeek currentPos SeekStart ;;
                            match p with
                            | inr e => fail "restore position" e
                            | inl _ => ret data
                            end
                        end
                  end
              end
          end
      end
  end.

(** The body of the loop of [ReadAllPackets] for one index entry, given the
    packets appended so far: [Ok None] is [continue], [Ok (Some p)] appends
    [p], and [Panic] is the integer division by zero of
    [time.Second / time.Duration(FPS)] for a frame rate below one. *)
Definition count_packets (packets : list Packet.t) (streamIndex : Z)
    (codec : StreamType) : Z :=
  len (filter (fun p => (Packet.StreamIndex p =? streamIndex)
                        && String.eqb (Packet.Codec p) codec) packets).

Definition decodeStreamIndex (chunkID : string) : Z :=
  let bs := string_bytes chunkID in
  let c0 := Z_of_byte (nth 0 bs x00) in
  let c1 := Z_of_byte (nth 1 bs x00) in
  wrap8 (wrap8 (wrap8 (c0 - 48) * 10) + wrap8 (c1 - 48)).

Definition chunkCodecType (chunkType : string) : option StreamType :=
  if String.eqb chunkType "dc" || String.eqb chunkType "db" then Some StreamTypeVideo
  else if String.eqb chunkType "wb" then Some StreamTypeAudio
  else None.

Definition readEntry (streams : list Stream.t) (moviOffset : Z)
    (packets : list Packet.t) (entry : IndexEntry) : outcome (option Packet.t) :=
  let chunkID := ChunkIDToString (ie_ChunkID entry) in
  if Z.of_nat (String.length chunkID) <? 4 then Ok None
  else
    let streamIndex := decodeStreamIndex chunkID in
    if streamIndex >=? len streams then Ok None
    else
      let chunkType := String.substring 2 2 chunkID in
      match chunkCodecType chunkType with
      | None => Ok None
      | Some codecType =>
          match index streams streamIndex with
          | None => Panic
          | Some stream =>
              let count := count_packets packets streamIndex codecType in
              let timing : outcome (Z * Z * Z) :=
                if String.eqb codecType StreamTypeVideo then
                  let dts := count in
                  if GoFloat.positive (Codec.FPS (Stream.Codec stream)) then
                    match int64_div Second
                            (GoFloat.to_int64 (Codec.FPS (Stream.Codec stream))) with
                    | None => Panic
                    | Some frameDuration =>
                        Ok (dts, int64 (dts * frameDuration), frameDuration)
                    end
                  else Ok (dts, 0, 0)
                else
                  let samplesPerPacket := 1024 in
                  let dts := int64 (count * samplesPerPacket) in
                  if Codec.SampleRate (Stream.Codec stream) >? 0 then
                    match int64_div Second (Codec.SampleRate (Stream.Codec stream)) with
                    | None => Panic
                    | Some sampleDuration =>
                        Ok (dts, int64 (dts * sampleDuration),
                            int64 (samplesPerPacket * sampleDuration))
                    end
                  else Ok (dts, 0, 0) in
              match timing with
              | Ok (dts, dtsTime, durationTime) =>
                  let flags :=
                    if negb (Z.land (ie_Flags entry) 16 =? 0) then "K__" else "___" in
                  let position := int64 (ie_Offset entry + moviOffset) in
                  Ok (Some
                        {| Packet.StreamIndex := streamIndex;
                           Packet.Codec := codecType;
                           Packet.Data := [];
                           Packet.PTS := dts;
                           Packet.DTS := dts;
                           Packet.Duration :=
                             if String.eqb codecType StreamTypeVideo then 1 else 1024;
                           Packet.Size := ie_Size entry;
                           Packet.Position := position;
                           Packet.Flags := flags;
                           Packet.PTSTime := dtsTime;
                           Packet.DTSTime := dtsTime;
                           Packet.DurationTime := durationTime |})
              | Fail e => Fail e
              | Panic => Panic
              | OutOfFuel => OutOfFuel
              end
          end
      end.

(** The loop of [ReadAllPackets] over the index entries. *)
Fixpoint ReadAllPackets_loop (streams : list Stream.t) (moviOffset : Z)
    (entries : list IndexEntry) (packets : list Packet.t)
  : outcome (list Packet.t) :=
  match entries with
  | [] => Ok packets
  | entry :: rest =>
      match readEntry streams moviOffset packets entry with
      | Ok None => ReadAllPackets_loop streams moviOffset rest packets
      | Ok (Some packet) =>
          ReadAllPackets_loop streams moviOffset rest (packets ++ [packet])
      | Fail e => Fail e
      | Panic => Panic
      | OutOfFuel => OutOfFuel
      end
  end.

(** [ReadAllPackets] *)
Definition ReadAllPackets : M (list Packet.t) :=
  fun rd =>
    if len (Reader.indexEntries rd) =? 0 then
      (Fail {| Op := "read packets"; Err := Errorf "no index entries found" |}, rd)
    else
      (ReadAllPackets_loop (Reader.streams rd) (Reader.moviOffset rd)
         (Reader.indexEntries rd) [], rd).

(** ** muxer.go *)

Module Writer.

(** [w] is the sink, an [io.WriteSeeker]; it is [None] when nil and
    otherwise the package's own [SeekableBuffer], whose [Write] never
    returns an error. *)
Record t := {
  w : option SeekableBuffer.t;
  filename : string;
  streams : list Stream.t;
  packets : list Packet.t }.

End Writer.

(** [NewMuxer]: [&Writer{}]. *)
Definition NewMuxer : Writer.t :=
  {| Writer.w := None; Writer.filename := ""; Writer.streams := [];
     Writer.packets := [] |}.

(** Methods of [*Writer]. *)
Definition W (A : Type) : Type := ST Writer.t A.

(** [Create] *)
Definition Create (writer : SeekableBuffer.t) : W unit :=
  modify (fun _ =>
            {| Writer.w := Some writer; Writer.filename := "";
               Writer.streams := []; Writer.packets := [] |}).

(** [AddStream]; the index returned with an error is [-1]. *)
Definition AddStream (codec : Codec.t) : W Z :=
  wr <- get ;;
  match Writer.w wr with
  | None => fail "add stream" (Errorf "file not created")
  | Some _ =>
      let stream :=
        {| Stream.Index := len (Writer.streams wr);
           Stream.Type_ := Codec.Type_ codec;
           Stream.Codec := codec;
           Stream.Duration := 0; Stream.PacketCount := 0 |} in
      modify (fun wr =>
                {| Writer.w := Writer.w wr; Writer.filename := Writer.filename wr;
                   Writer.streams := Writer.streams wr ++ [stream];
                   Writer.packets := Writer.packets wr |}) ;;;
      ret (Stream.Index stream)
  end.

(** [WritePacket] *)
Definition WritePacket (packet : Packet.t) : W unit :=
  wr <- get ;;
  match Writer.w wr with
  | None => fail "write packet" (Errorf "file not created")
  | Some _ =>
      if Packet.StreamIndex packet >=? len (Writer.streams wr) then
        fail "write packet" (Errorf "invalid stream index")
      else
        modify (fun wr =>
                  {| Writer.w := Writer.w wr; Writer.filename := Writer.filename wr;
                     Writer.streams := Writer.streams wr;
                     Writer.packets := Writer.packets wr ++ [packet] |})
  end.

(** [w.w.Write(p)], and so [binary.Write(w.w, binary.LittleEndian, &v)] for
    [p] the image of [v]. *)
Definition wWrite (p : list byte) : W unit :=
  fun wr =>
    match Writer.w wr with
    | None => (Panic, wr)
    | Some sb =>
        (Ok tt,
         {| Writer.w := Some (snd (SeekableBuffer.Write sb p));
            Writer.filename := Writer.filename wr;
            Writer.streams := Writer.streams wr;
            Writer.packets := Writer.packets wr |})
    end.

(** [w.streams[i]], which panics out of range. *)
Definition stream_at (i : Z) : W Stream.t :=
  wr <- get ;;
  match index (Writer.streams wr) i with
  | None => panic
  | Some s => ret s
  end.

(** A [for ... range] loop over a slice with a body that may fail. *)
Fixpoint for_each {S A} (l : list A) (body : A -> ST S unit) : ST S unit :=
  match l with
  | [] => ret tt
  | x :: rest => body x ;;; for_each rest body
  end.

(** A [for ... range] loop that updates a local variable. *)
Fixpoint for_fold {S A B} (l : list A) (acc : B) (body : B -> A -> ST S B)
  : ST S B :=
  match l with
  | [] => ret acc
  | x :: rest => acc <- body acc x ;; for_fold rest acc body
  end.

(** The indices [0 .. len(l) - 1] of [for i := range l]. *)
Definition indices {A} (l : list A) : list Z :=
  map Z.of_nat (seq 0 (List.length l)).

(** [calculateSTRLSize] *)
Definition calculateSTRLSize (streamIndex : Z) : W Z :=
  let size := 4 in
  let size := wrap32 (size + (8 + 56)) in
  stream <- stream_at streamIndex ;;
  if String.eqb (Stream.Type_ stream) StreamTypeVideo then
    ret (wrap32 (size + (8 + 40)))
  else if String.eqb (Stream.Type_ stream) StreamTypeAudio then
    ret (wrap32 (size + (8 + 16)))
  else ret size.

(** [calculateHDRLSize] *)
Definition calculateHDRLSize : W Z :=
  let size := 4 in
  let size := wrap32 (size + (8 + 56)) in
  wr <- get ;;
  for_fold (indices (Writer.streams wr)) size
    (fun size i =>
       strl <- calculateSTRLSize i ;;
       ret (wrap32 (size + wrap32 (strl + 8)))).

(** [calculateMOVISize] *)
Definition calculateMOVISize : W Z :=
  wr <- get ;;
  for_fold (Writer.packets wr) 4
    (fun size packet =>
       ret (wrap32 (size + wrap32 (8 + AlignSize (wrap32 (len (Packet.Data packet))))))).

(** [calculateIDX1Size] *)
Definition calculateIDX1Size : W Z :=
  wr <- get ;;
  ret (wrap32 (int64 (len (Writer.packets wr) * 16))).

(** The first video stream's dimensions and frame interval, for
    [writeAVIHChunk]. *)
Fixpoint first_video (streams : list Stream.t) : Z * Z * Z :=
  match streams with
  | [] => (0, 0, 0)
  | stream :: rest =>
      if String.eqb (Stream.Type_ stream) StreamTypeVideo then
        (wrap32 (Codec.Width (Stream.Codec stream)),
         wrap32 (Codec.Height (Stream.Codec stream)),
         if GoFloat.positive (Codec.FPS (Stream.Codec stream))
         then GoFloat.to_uint32
                (PrimFloat.div 1000000%float (Codec.FPS (Stream.Codec stream)))
         else 0)
      else first_video rest
  end.

(** [writeAVIHChunk] *)
Definition writeAVIHChunk : W unit :=
  wr <- get ;;
  let maxBytesPerSec := 0 in
  let '(width, height, microSecPerFrame) := first_video (Writer.streams wr) in
  totalFrames <-
    for_fold (Writer.packets wr) 0
      (fun totalFrames packet =>
         stream <- stream_at (Packet.StreamIndex packet) ;;
         if String.eqb (Stream.Type_ stream) StreamTypeVideo
         then ret (wrap32 (totalFrames + 1))
         else ret totalFrames) ;;
  let header :=
    {| avih_MicroSecPerFrame := microSecPerFrame;
       avih_MaxBytesPerSec := maxBytesPerSec;
       avih_PaddingGranularity := 0;
       avih_Flags := 2064;
       avih_TotalFrames := totalFrames;
       avih_InitialFrames := 0;
       avih_Streams := wrap32 (len (Writer.streams wr));
       avih_SuggestedBufferSize := 0;
       avih_Width := width;
       avih_Height := height;
       avih_Reserved := (0, 0, 0, 0) |} in
  let chunkHeader := {| ch_ID := StringToChunkID AVIHChunk; ch_Size := 56 |} in
  wWrite (encode_ChunkHeader chunkHeader) ;;;
  wWrite (encode_AVIMainHeader header).

(** [writeSTRHChunk] *)
Definition writeSTRHChunk (streamIndex : Z) : W unit :=
  stream <- stream_at streamIndex ;;
  wr <- get ;;
  let isVideo := String.eqb (Stream.Type_ stream) StreamTypeVideo in
  let isAudio := String.eqb (Stream.Type_ stream) StreamTypeAudio in
  let streamType :=
    if isVideo then StringToChunkID STREAMTypeVideo
    else if isAudio then StringToChunkID STREAMTypeAudio
    else (x00, x00, x00, x00) in
  let '(scale, rate) :=
    if isVideo && GoFloat.positive (Codec.FPS (Stream.Codec stream)) then
      (1000, GoFloat.to_uint32
               (PrimFloat.mul (Codec.FPS (Stream.Codec stream)) 1000%float))
    else if isAudio && (Codec.SampleRate (Stream.Codec stream) >? 0) then
      (1, wrap32 (Codec.SampleRate (Stream.Codec stream)))
    else (1, 1) in
  length <-
    for_fold (Writer.packets wr) 0
      (fun length packet =>
         ret (if Packet.StreamIndex packet =? streamIndex
              then wrap32 (length + 1) else length)) ;;
  let frame :=
    if isVideo then
      {| rc_Left := 0; rc_Top := 0;
         rc_Right := wrap16 (Codec.Width (Stream.Codec stream));
         rc_Bottom := wrap16 (Codec.Height (Stream.Codec stream)) |}
    else {| rc_Left := 0; rc_Top := 0; rc_Right := 0; rc_Bottom := 0 |} in
  let header :=
    {| strh_Type := streamType;
       strh_Handler := Codec.FourCC (Stream.Codec stream);
       strh_Flags := 0;
       strh_Priority := 0;
       strh_Language := 0;
       strh_InitialFrames := 0;
       strh_Scale := scale;
       strh_Rate := rate;
       strh_Start := 0;
       strh_Length := length;
       strh_SuggestedBufferSize := 0;
       strh_Quality := 4294967295;
       strh_SampleSize := 0;
       strh_Frame := frame |} in
  let chunkHeader := {| ch_ID := StringToChunkID STRHChunk; ch_Size := 56 |} in
  wWrite (encode_ChunkHeader chunkHeader) ;;;
  wWrite (encode_AVIStreamHeader header).

(** [writeVideoFormat] *)
Definition writeVideoFormat (streamIndex : Z) : W unit :=
  stream <- stream_at streamIndex ;;
  let bih :=
    {| bih_Size := 40;
       bih_Width := int32 (Codec.Width (Stream.Codec stream));
       bih_Height := int32 (Codec.Height (Stream.Codec stream));
       bih_Planes := 1;
       bih_BitCount := 24;
       bih_Compression := Codec.FourCC (Stream.Codec stream);
       bih_SizeImage := 0;
       bih_XPelsPerMeter := 0;
       bih_YPelsPerMeter := 0;
       bih_ClrUsed := 0;
       bih_ClrImportant := 0 |} in
  let chunkHeader := {| ch_ID := StringToChunkID STRFChunk; ch_Size := 40 |} in
  wWrite (encode_ChunkHeader chunkHeader) ;;;
  wWrite (encode_BitmapInfoHeader bih).

(** The image of the [WaveFormatEx] that [writeAudioFormat] fills in. *)
Definition audioFormat (stream : Stream.t) : WaveFormatEx :=
  let c := Stream.Codec stream in
  {| wfx_FormatTag := 1;
     wfx_Channels := wrap16 (Codec.Channels c);
     wfx_SamplesPerSec := wrap32 (Codec.SampleRate c);
     wfx_AvgBytesPerSec :=
       wrap32 (Z.quot (int64 (int64 (Codec.SampleRate c * Codec.Channels c)
                              * Codec.BitDepth c)) 8);
     wfx_BlockAlign :=
       wrap16 (Z.quot (int64 (Codec.Channels c * Codec.BitDepth c)) 8);
     wfx_BitsPerSample := wrap16 (Codec.BitDepth c);
     wfx_Size := 0 |}.

(** [writeAudioFormat] *)
Definition writeAudioFormat (streamIndex : Z) : W unit :=
  stream <- stream_at streamIndex ;;
  let wfx := audioFormat stream in
  let chunkHeader := {| ch_ID := StringToChunkID STRFChunk; ch_Size := 16 |} in
  wWrite (encode_ChunkHeader chunkHeader) ;;;
  wWrite (encode_WaveFormatEx wfx).

(** [writeSTRFChunk] *)
Definition writeSTRFChunk (streamIndex : Z) : W unit :=
  stream <- stream_at streamIndex ;;
  if String.eqb (Stream.Type_ stream) StreamTypeVideo then
    writeVideoFormat streamIndex
  else if String.eqb (Stream.Type_ stream) StreamTypeAudio then
    writeAudioFormat streamIndex
  else ret tt.

(** [writeSTRLList] *)
Definition writeSTRLList (streamIndex : Z) : W unit :=
  strlSize <- calculateSTRLSize streamIndex ;;
  let listHeader :=
    {| list_ChunkHeader :=
         {| ch_ID := StringToChunkID LISTSignature; ch_Size := strlSize |};
       list_Type := StringToChunkID STRLList |} in
  wWrite (encode_LISTHeader listHeader) ;;;
  writeSTRHChunk streamIndex ;;;
  writeSTRFChunk streamIndex.

(** [writeHDRLList] *)
Definition writeHDRLList : W unit :=
  hdrlSize <- calculateHDRLSize ;;
  let listHeader :=
    {| list_ChunkHeader :=
         {| ch_ID := StringToChunkID LISTSignature; ch_Size := hdrlSize |};
       list_Type := StringToChunkID HDRLList |} in
  wWrite (encode_LISTHeader listHeader) ;;;
  writeAVIHChunk ;;;
  wr <- get ;;
  for_each (indices (Writer.streams wr)) writeSTRLList.

(** The two-letter subtype of a packet's chunk, as [writePacketData] and
    [writeIDX1Chunk] both choose it. *)
Definition packetTwoCC (stream : Stream.t) (packet : Packet.t) : string :=
  if String.eqb (Stream.Type_ stream) StreamTypeVideo then
    if String.eqb (Packet.Flags packet) "K__" then "db" else "dc"
  else if String.eqb (Stream.Type_ stream) StreamTypeAudio then "wb"
  else "".

(** [writePacketData] *)
Definition writePacketData (packet : Packet.t) : W unit :=
  stream <- stream_at (Packet.StreamIndex packet) ;;
  let twoCC := packetTwoCC stream packet in
  match MakeChunkID (Packet.StreamIndex packet) twoCC with
  | None => panic
  | Some chunkID =>
      let chunkHeader :=
        {| ch_ID := chunkID; ch_Size := wrap32 (len (Packet.Data packet)) |} in
      wWrite (encode_ChunkHeader chunkHeader) ;;;
      wWrite (Packet.Data packet) ;;;
      if Z.rem (len (Packet.Data packet)) 2 =? 1 then wWrite [x00] else ret tt
  end.

(** [writeMOVIList] *)
Definition writeMOVIList : W unit :=
  moviSize <- calculateMOVISize ;;
  let listHeader :=
    {| list_ChunkHeader :=
         {| ch_ID := StringToChunkID LISTSignature; ch_Size := moviSize |};
       list_Type := StringToChunkID MOVIList |} in
  wWrite (encode_LISTHeader listHeader) ;;;
  wr <- get ;;
  for_each (Writer.packets wr) writePacketData.

(** [writeIDX1Chunk] *)
Definition writeIDX1Chunk : W unit :=
  wr <- get ;;
  let indexSize := int64 (len (Writer.packets wr) * 16) in
  let chunkHeader :=
    {| ch_ID := StringToChunkID IDX1Chunk; ch_Size := wrap32 indexSize |} in
  wWrite (encode_ChunkHeader chunkHeader) ;;;
  _ <- for_fold (Writer.packets wr) 4
    (fun currentOffset packet =>
       stream <- stream_at (Packet.StreamIndex packet) ;;
       let twoCC := packetTwoCC stream packet in
       match MakeChunkID (Packet.StreamIndex packet) twoCC with
       | None => panic
       | Some chunkID =>
           let flags := if String.eqb (Packet.Flags packet) "K__" then 16 else 0 in
           let entry :=
             {| ie_ChunkID := chunkID;
                ie_Flags := flags;
                ie_Offset := currentOffset;
                ie_Size := wrap32 (len (Packet.Data packet)) |} in
           wWrite (encode_IndexEntry entry) ;;;
           ret (wrap32 (currentOffset
                        + wrap32 (8 + AlignSize (wrap32 (len (Packet.Data packet))))))
       end) ;;
  ret tt.

(** [writeAVIFile] *)
Definition writeAVIFile : W unit :=
  moviSize <- calculateMOVISize ;;
  hdrlSize <- calculateHDRLSize ;;
  idx1Size <- calculateIDX1Size ;;
  let totalSize :=
    wrap32 (wrap32 (wrap32 (wrap32 (wrap32 (4 + hdrlSize) + 8) + moviSize) + 8)
            + idx1Size) in
  let riffHeader :=
    {| riff_Signature := StringToChunkID RIFFSignature;
       riff_FileSize := totalSize;
       riff_Type := StringToChunkID AVISignature |} in
  wWrite (encode_RIFFHeader riffHeader) ;;;
  writeHDRLList ;;;
  writeMOVIList ;;;
  writeIDX1Chunk.

(** [Finalize] *)
Definition Finalize : W unit :=
  wr <- get ;;
  match Writer.w wr with
  | None => fail "finalize" (Errorf "file not created")
  | Some _ => writeAVIFile
  end.

(** * Properties *)

(** Splits the conjunctions of a goal, and nothing else. *)
Ltac split_conj := repeat match goal with |- _ /\ _ => split end.

(** Closes the conjuncts of a closed goal by evaluation. *)
Ltac by_evaluation := split_conj; vm_compute; reflexivity.

(** ** Bytes, fields and tags *)

Lemma Z_of_byte_range (b : byte) : 0 <= Z_of_byte b < 256.
Proof.
  unfold Z_of_byte. pose proof (Byte.to_N_bounded b). lia.
Qed.

Lemma Z_of_byte_of_Z (z : Z) : Z_of_byte (byte_of_Z z) = z mod 256.
Proof.
  unfold Z_of_byte, byte_of_Z.
  pose proof (Z.mod_pos_bound z 256 ltac:(lia)) as Hr.
  destruct (Byte.of_N (Z.to_N (z mod 256))) as [b|] eqn:E.
  - apply Byte.to_of_N in E. rewrite E. lia.
  - apply Byte.of_N_None_iff in E. lia.
Qed.

Lemma byte_of_Z_of_byte (b : byte) : byte_of_Z (Z_of_byte b) = b.
Proof.
  unfold byte_of_Z. pose proof (Z_of_byte_range b) as Hr.
  rewrite Z.mod_small by lia. unfold Z_of_byte.
  rewrite N2Z.id, Byte.of_to_N. reflexivity.
Qed.

Lemma Z_of_byte_inj (a b : byte) : Z_of_byte a = Z_of_byte b -> a = b.
Proof.
  intros H. rewrite <- (byte_of_Z_of_byte a), <- (byte_of_Z_of_byte b).
  now rewrite H.
Qed.

Lemma string_bytes_ChunkIDToString (id : fourcc) :
  string_bytes (ChunkIDToString id) = fourcc_bytes id.
Proof.
  unfold string_bytes, ChunkIDToString.
  apply list_byte_of_string_of_list_byte.
Qed.

Lemma len_app {A} (l1 l2 : list A) : len (l1 ++ l2) = len l1 + len l2.
Proof. unfold len. rewrite length_app. lia. Qed.

Lemma len_nonneg {A} (l : list A) : 0 <= len l.
Proof. unfold len. lia. Qed.

(** ** The memory buffer *)

Section BufferLaws.

Import SeekableBuffer.

Lemma Write_pos (sb : t) (p : list byte) :
  pos (snd (Write sb p)) = pos sb + len p.
Proof. reflexivity. Qed.

(** Writing inside the content: the three pieces of the new content. *)
Lemma Write_inside (sb : t) (p : list byte) :
  0 <= pos sb -> pos sb + len p <= len (buf sb) ->
  buf (snd (Write sb p))
  = firstn (Z.to_nat (pos sb)) (buf sb) ++ p
    ++ skipn (Z.to_nat (pos sb + len p)) (buf sb).
Proof.
  intros Hc Hn. unfold Write, slice_to, slice_from; cbn [snd buf].
  destruct (Z.ltb_spec (pos sb) (len (buf sb))) as [Hlt | Hge].
  - destruct (Z.ltb_spec (pos sb + len p) (len (buf sb))) as [|Hend];
      [reflexivity|].
    rewrite skipn_all2 by (unfold len in *; lia). reflexivity.
  - assert (Hp : len p = 0) by (pose proof (len_nonneg p); lia).
    destruct p; [|unfold len in Hp; cbn in Hp; lia].
    rewrite firstn_all2 by (unfold len in *; lia).
    rewrite skipn_all2 by (unfold len in *; cbn; lia).
    reflexivity.
Qed.

Lemma Seek_start_beyond (sb : t) (c : Z) :
  len (buf sb) < c ->
  Seek sb c SeekStart
  = (inl c, {| buf := buf sb ++ repeat x00 (Z.to_nat (c - len (buf sb)));
               pos := c |}).
Proof.
  intros Hc. unfold Seek. cbn [Z.eqb SeekStart].
  pose proof (len_nonneg (buf sb)).
  destruct (Z.ltb_spec c 0); [lia|].
  destruct (Z.gtb_spec c (len (buf sb))); [reflexivity | lia].
Qed.

(** Writing with the cursor at the end appends, and leaves it at the end. *)
Lemma Write_at_end (sb : t) (p : list byte) :
  pos sb = len (buf sb) ->
  snd (Write sb p)
  = {| buf := buf sb ++ p; pos := len (buf sb ++ p) |}.
Proof.
  intros Hp. unfold Write. cbn [snd]. rewrite Hp, Z.ltb_irrefl.
  now rewrite len_app.
Qed.

End BufferLaws.

(** ** Indexing slices *)

Lemma index_app_l {A} (l1 l2 : list A) (i : Z) :
  i < len l1 -> index (l1 ++ l2) i = index l1 i.
Proof.
  intros Hi. unfold index. destruct (Z.ltb_spec i 0); [reflexivity|].
  apply nth_error_app1. unfold len in Hi. lia.
Qed.

Lemma index_app_r {A} (l1 l2 : list A) (i : Z) :
  len l1 <= i -> index (l1 ++ l2) i = index l2 (i - len l1).
Proof.
  intros Hi. unfold index, len in *.
  destruct (Z.ltb_spec i 0); [lia|].
  destruct (Z.ltb_spec (i - Z.of_nat (List.length l1)) 0); [lia|].
  rewrite nth_error_app2 by lia. f_equal. lia.
Qed.

Lemma index_firstn {A} (l : list A) (n i : Z) :
  i < n -> index (firstn (Z.to_nat n) l) i = index l i.
Proof.
  intros Hi. unfold index. destruct (Z.ltb_spec i 0); [reflexivity|].
  rewrite nth_error_firstn.
  destruct (Nat.ltb_spec (Z.to_nat i) (Z.to_nat n)); [reflexivity | lia].
Qed.

Lemma index_skipn {A} (l : list A) (n i : Z) :
  0 <= n -> 0 <= i -> index (skipn (Z.to_nat n) l) i = index l (i + n).
Proof.
  intros Hn Hi. unfold index.
  destruct (Z.ltb_spec i 0); [lia|]. destruct (Z.ltb_spec (i + n) 0); [lia|].
  rewrite nth_error_skipn. f_equal. lia.
Qed.

Lemma index_repeat {A} (x : A) (k : nat) (i : Z) :
  0 <= i < Z.of_nat k -> index (repeat x k) i = Some x.
Proof.
  intros Hi. unfold index. destruct (Z.ltb_spec i 0); [lia|].
  apply nth_error_repeat. lia.
Qed.

Lemma len_firstn {A} (l : list A) (n : Z) :
  0 <= n <= len l -> len (firstn (Z.to_nat n) l) = n.
Proof. intros H. unfold len in *. rewrite length_firstn. lia. Qed.

Lemma len_skipn {A} (l : list A) (n : Z) :
  0 <= n <= len l -> len (skipn (Z.to_nat n) l) = len l - n.
Proof. intros H. unfold len in *. rewrite length_skipn. lia. Qed.

Lemma len_repeat {A} (x : A) (k : nat) : len (repeat x k) = Z.of_nat k.
Proof. unfold len. now rewrite repeat_length. Qed.

(** C7.  The overwrite law of the memory buffer.  Writing [n] bytes at a
    cursor [c] with [c + n] within the content length [L] keeps the length,
    puts the written bytes at [[c, c+n)] and leaves every other byte, in
    particular those of [[c+n, L)], as it was; and seeking to an absolute
    offset [c' > L] and then writing [n] bytes gives a content of length
    [c' + n] whose bytes in [[L, c')] are zero (the old content and the
    written bytes around them). *)
Theorem buffer_overwrite_law (sb : SeekableBuffer.t) (p : list byte) :
  let c := SeekableBuffer.pos sb in
  let n := len p in
  let L := len (SeekableBuffer.buf sb) in
  (0 <= c -> c + n <= L ->
   let sb' := snd (SeekableBuffer.Write sb p) in
   len (SeekableBuffer.buf sb') = L
   /\ (forall i, c <= i < c + n ->
         index (SeekableBuffer.buf sb') i = index p (i - c))
   /\ (forall i, 0 <= i < c \/ c + n <= i < L ->
         index (SeekableBuffer.buf sb') i = index (SeekableBuffer.buf sb) i))
  /\ (forall c', L < c' ->
      exists sb1,
        SeekableBuffer.Seek sb c' SeekStart = (inl c', sb1)
        /\ let sb2 := snd (SeekableBuffer.Write sb1 p) in
           len (SeekableBuffer.buf sb2) = c' + n
           /\ (forall i, L <= i < c' ->
                 index (SeekableBuffer.buf sb2) i = Some x00)
           /\ (forall i, 0 <= i < L ->
                 index (SeekableBuffer.buf sb2) i
                 = index (SeekableBuffer.buf sb) i)
           /\ (forall i, c' <= i < c' + n ->
                 index (SeekableBuffer.buf sb2) i = index p (i - c'))).
Proof.
  intros c n L. pose proof (len_nonneg p) as Hn.
  pose proof (len_nonneg (SeekableBuffer.buf sb)) as HL.
  split.
  - intros Hc Hfit sb'. subst sb'.
    rewrite Write_inside by assumption.
    fold c n L.
    assert (Hpre : len (firstn (Z.to_nat c) (SeekableBuffer.buf sb)) = c)
      by (apply len_firstn; fold L; lia).
    repeat split.
    + rewrite !len_app, Hpre, len_skipn by (fold L; lia). fold L n. lia.
    + intros i Hi. rewrite index_app_r by lia. rewrite Hpre.
      apply index_app_l. fold n. lia.
    + intros i [Hi | Hi].
      * rewrite index_app_l by lia. apply index_firstn. lia.
      * rewrite index_app_r by lia. rewrite Hpre.
        rewrite index_app_r by (fold n; lia). fold n.
        rewrite index_skipn by lia. f_equal. lia.
  - intros c' Hc'. eexists. split; [apply Seek_start_beyond; assumption|].
    fold L. cbn zeta.
    set (padded := SeekableBuffer.buf sb ++ repeat x00 (Z.to_nat (c' - L))).
    assert (Hpad : len padded = c').
    { unfold padded. rewrite len_app, len_repeat. fold L. lia. }
    unfold SeekableBuffer.Write; cbn [snd SeekableBuffer.buf SeekableBuffer.pos].
    rewrite Hpad. rewrite Z.ltb_irrefl.
    repeat split.
    + rewrite len_app, Hpad. reflexivity.
    + intros i Hi. rewrite index_app_l by lia. unfold padded.
      rewrite index_app_r by (fold L; lia). fold L.
      apply index_repeat. lia.
    + intros i Hi. rewrite index_app_l by lia. unfold padded.
      apply index_app_l. fold L. lia.
    + intros i Hi. rewrite index_app_r by lia. now rewrite Hpad.
Qed.

(** The law at a buffer holding [1; 2; 3; 4; 5] with its cursor at 1. *)
Lemma buffer_overwrite_law_witness :
  let sb := {| SeekableBuffer.buf := [x01; x02; x03; x04; x05];
               SeekableBuffer.pos := 1 |} in
  SeekableBuffer.buf (snd (SeekableBuffer.Write sb [xaa; xbb]))
  = [x01; xaa; xbb; x04; x05]
  /\ index (SeekableBuffer.buf (snd (SeekableBuffer.Write sb [xaa; xbb]))) 3
     = Some x04
  /\ exists sb1,
       SeekableBuffer.Seek sb 7 SeekStart = (inl 7, sb1)
       /\ index (SeekableBuffer.buf (snd (SeekableBuffer.Write sb1 [xaa; xbb]))) 6
          = Some x00.
Proof.
  intros sb.
  destruct (buffer_overwrite_law sb [xaa; xbb]) as [Hin Hout].
  split; [reflexivity|]. split.
  - destruct Hin as (_ & _ & Hrest); [cbn; lia | cbn; lia |].
    rewrite (Hrest 3); [reflexivity | cbn; lia].
  - destruct (Hout 7) as (sb1 & Hseek & _ & Hzero & _); [cbn; lia|].
    exists sb1. split; [exact Hseek|]. apply Hzero. cbn. lia.
Defined.

(** ** The stream index of a chunk tag *)

(** The demuxer's decoding depends on the first two bytes of the tag only. *)
Lemma decodeStreamIndex_tag (b0 b1 c0 c1 : byte) :
  decodeStreamIndex (ChunkIDToString (b0, b1, c0, c1))
  = wrap8 (wrap8 (wrap8 (Z_of_byte b0 - 48) * 10) + wrap8 (Z_of_byte b1 - 48)).
Proof.
  unfold decodeStreamIndex. rewrite string_bytes_ChunkIDToString. reflexivity.
Qed.

(** The decoding is done on bytes, so it undoes [MakeChunkID] for every
    index that fits a byte, also where the first byte is past ['9']. *)
Lemma decode_MakeChunkID (i : Z) (c0 c1 : byte) :
  0 <= i <= 255 ->
  decodeStreamIndex
    (ChunkIDToString (byte_of_Z (48 + Z.quot i 10), byte_of_Z (48 + Z.rem i 10),
                      c0, c1)) = i.
Proof.
  intros Hi. rewrite decodeStreamIndex_tag, !Z_of_byte_of_Z.
  rewrite Z.quot_div_nonneg, Z.rem_mod_nonneg by lia.
  pose proof (Z.div_mod i 10 ltac:(lia)) as Hdm.
  pose proof (Z.mod_pos_bound i 10 ltac:(lia)) as Hm.
  assert (Hq : 0 <= i / 10 <= 25).
  { split; [apply Z.div_pos; lia|].
    enough (i / 10 < 26) by lia. apply Z.div_lt_upper_bound; lia. }
  unfold wrap8. change (2 ^ 8) with 256.
  rewrite (Z.mod_small (48 + i / 10)) by lia.
  rewrite (Z.mod_small (48 + i mod 10)) by lia.
  replace (48 + i / 10 - 48) with (i / 10) by lia.
  replace (48 + i mod 10 - 48) with (i mod 10) by lia.
  rewrite (Z.mod_small (i / 10)) by lia.
  rewrite (Z.mod_small (i / 10 * 10)) by lia.
  rewrite (Z.mod_small (i mod 10)) by lia.
  rewrite Z.mod_small by lia. lia.
Qed.

Lemma MakeChunkID_two (i : Z) (cc : string) :
  String.length cc = 2%nat ->
  exists c0 c1,
    MakeChunkID i cc
    = Some (byte_of_Z (48 + Z.quot i 10), byte_of_Z (48 + Z.rem i 10), c0, c1).
Proof.
  intros Hcc. destruct cc as [|a [|b [|]]]; try discriminate.
  unfold MakeChunkID. cbn. eauto.
Qed.

(** C10.  For every stream index from 0 to 99 and every two-letter subtype,
    decoding the first two bytes of the tag [MakeChunkID] makes, the way
    [ReadAllPackets] decodes them, gives the index back; and there is an
    index of at least 100 (256) whose tag starts with a byte past ['9'] and
    does not decode to the index. *)
Theorem chunk_tag_index_roundtrip :
  (forall (i : Z) (cc : string),
      0 <= i <= 99 -> String.length cc = 2%nat ->
      exists id,
        MakeChunkID i cc = Some id
        /\ decodeStreamIndex (ChunkIDToString id) = i)
  /\ (exists (i : Z) (id : fourcc),
        100 <= i
        /\ MakeChunkID i "dc" = Some id
        /\ Z_of_byte "9" < Z_of_byte (fst (fst (fst id)))
        /\ decodeStreamIndex (ChunkIDToString id) <> i).
Proof.
  split.
  - intros i cc Hi Hcc.
    destruct (MakeChunkID_two i cc Hcc) as (c0 & c1 & Hid).
    eexists. split; [exact Hid|]. apply decode_MakeChunkID. lia.
  - exists 256. eexists. split; [lia|]. split; [reflexivity|].
    split; vm_compute; [reflexivity | discriminate].
Qed.

(** The tag of stream 42 decodes to 42. *)
Lemma chunk_tag_index_roundtrip_witness :
  exists id,
    MakeChunkID 42 "wb" = Some id /\ decodeStreamIndex (ChunkIDToString id) = 42.
Proof.
  apply (proj1 chunk_tag_index_roundtrip); [lia | reflexivity].
Defined.

(** The indices from 100 to 255 have a first tag byte past ['9'] and are
    decoded correctly all the same. *)
Lemma chunk_tag_index_100 :
  MakeChunkID 100 "dc" = Some (":"%byte, "0"%byte, "d"%byte, "c"%byte)
  /\ decodeStreamIndex (ChunkIDToString (":"%byte, "0"%byte, "d"%byte, "c"%byte))
     = 100.
Proof. split; reflexivity. Qed.

(** ** WritePacket *)

(** A packet for a stream index at or past the number of declared streams
    is refused, and the writer is left as it was. *)
Lemma WritePacket_rejects_undeclared (wr : Writer.t) (packet : Packet.t) :
  len (Writer.streams wr) <= Packet.StreamIndex packet ->
  exists e, WritePacket packet wr = (Fail e, wr).
Proof.
  intros Hi. unfold WritePacket, bind, get, fail.
  destruct (Writer.w wr); [|eauto].
  destruct (Z.geb_spec (Packet.StreamIndex packet) (len (Writer.streams wr)));
    [eauto | lia].
Qed.

(** A packet for a negative stream index passes the check and is buffered. *)
Lemma WritePacket_accepts_negative (wr : Writer.t) (packet : Packet.t) :
  Writer.w wr <> None ->
  Packet.StreamIndex packet < 0 ->
  WritePacket packet wr
  = (Ok tt,
     {| Writer.w := Writer.w wr; Writer.filename := Writer.filename wr;
        Writer.streams := Writer.streams wr;
        Writer.packets := Writer.packets wr ++ [packet] |}).
Proof.
  intros Hw Hi. unfold WritePacket, bind, get, modify.
  destruct (Writer.w wr) eqn:Ew; [|congruence].
  pose proof (len_nonneg (Writer.streams wr)).
  destruct (Z.geb_spec (Packet.StreamIndex packet) (len (Writer.streams wr)));
    [lia | cbn; now rewrite Ew].
Qed.

(** A video codec and a packet as the tests write them. *)
Definition mjpg_codec : Codec.t :=
  {| Codec.Name := "MJPG";
     Codec.FourCC := ("M"%byte, "J"%byte, "P"%byte, "G"%byte);
     Codec.Type_ := StreamTypeVideo;
     Codec.Width := 640; Codec.Height := 480; Codec.FPS := 30%float;
     Codec.Channels := 0; Codec.SampleRate := 0; Codec.BitDepth := 0 |}.

Definition pcm_codec : Codec.t :=
  {| Codec.Name := "PCM";
     Codec.FourCC := (x00, x00, x00, x00);
     Codec.Type_ := StreamTypeAudio;
     Codec.Width := 0; Codec.Height := 0; Codec.FPS := 0%float;
     Codec.Channels := 2; Codec.SampleRate := 44100; Codec.BitDepth := 16 |}.

Definition mk_packet (streamIndex : Z) (codec : StreamType) (data : list byte)
    (dts duration : Z) (flags : string) : Packet.t :=
  {| Packet.StreamIndex := streamIndex; Packet.Codec := codec;
     Packet.Data := data; Packet.PTS := dts; Packet.DTS := dts;
     Packet.Duration := duration; Packet.Size := len data;
     Packet.Position := 0; Packet.Flags := flags;
     Packet.PTSTime := 0; Packet.DTSTime := 0; Packet.DurationTime := 0 |}.

(** Running a sequence of method calls from a given receiver. *)
Definition run {S A} (c : ST S A) (st : S) : outcome A * S := c st.

(** C8 at the stream index -1.  With one declared stream, [WritePacket]
    returns no error for a packet of stream -1 and appends it to the
    pending packets; [Finalize] then panics on [w.streams[-1]]. *)
Theorem WritePacket_negative_index_is_buffered :
  let packet := mk_packet (-1) StreamTypeVideo [x01; x02] 0 1 "K__" in
  let setup := Create SeekableBuffer.NewSeekableBuffer ;;; AddStream mjpg_codec in
  exists wr,
    run setup NewMuxer = (Ok 0, wr)
    /\ Writer.packets wr = []
    /\ fst (run (WritePacket packet) wr) = Ok tt
    /\ Writer.packets (snd (run (WritePacket packet) wr)) = [packet]
    /\ fst (run (WritePacket packet ;;; Finalize) wr) = Panic.
Proof.
  cbv zeta.
  exists (snd (run (Create SeekableBuffer.NewSeekableBuffer ;;; AddStream mjpg_codec)
                   NewMuxer)).
  by_evaluation.
Qed.

(** ** The round trip as a program *)

(** Serialize: [Create] on a fresh memory buffer, [AddStream] per codec,
    [WritePacket] per packet, [Finalize]. *)
Definition Serialize (codecs : list Codec.t) (packets : list Packet.t) : W unit :=
  Create SeekableBuffer.NewSeekableBuffer ;;;
  for_each codecs (fun c => AddStream c ;;; ret tt) ;;;
  for_each packets WritePacket ;;;
  Finalize.

(** The bytes in the sink of a writer. *)
Definition sink_bytes (wr : Writer.t) : list byte :=
  match Writer.w wr with
  | Some sb => SeekableBuffer.Bytes sb
  | None => []
  end.

(** Parse and reconstruct: [Open] on a fresh [bytes.Reader] over the bytes,
    with their length as the size, then [ReadAllPackets]. *)
Definition Parse (bytes : list byte) : M (list Packet.t) :=
  Open (Source.NewReader bytes) (len bytes) ;;; ReadAllPackets.

(** ** Reasoning about method calls *)

Lemma bind_Ok_inv {S A B} (c : ST S A) (k : A -> ST S B) (st st'' : S) (b : B) :
  bind c k st = (Ok b, st'') ->
  exists a st', c st = (Ok a, st') /\ k a st' = (Ok b, st'').
Proof.
  unfold bind. destruct (c st) as [[a| | |] st']; try discriminate. eauto.
Qed.

Lemma bind_Ok {S A B} (c : ST S A) (k : A -> ST S B) (st st' : S) (a : A) :
  c st = (Ok a, st') -> bind c k st = k a st'.
Proof. intros H. unfold bind. now rewrite H. Qed.

Lemma rSeek_inv (offset whence : Z) (rd rd' : Reader.t) (res : Z + cause) :
  rSeek offset whence rd = (Ok res, rd') ->
  exists s, Reader.r rd = Some s
            /\ fst (Source.Seek s offset whence) = res
            /\ rd' = Reader.set_r rd (Some (snd (Source.Seek s offset whence))).
Proof.
  unfold rSeek. destruct (Reader.r rd) as [s|]; [|discriminate].
  destruct (Source.Seek s offset whence) as [res' s'] eqn:E.
  intros H. injection H as <- <-. exists s. rewrite E. repeat split.
Qed.

Lemma binaryRead_inv (n : Z) (rd rd' : Reader.t) (res : list byte + cause) :
  binaryRead n rd = (Ok res, rd') ->
  exists s, Reader.r rd = Some s
            /\ fst (Source.ReadFull s n) = res
            /\ rd' = Reader.set_r rd (Some (snd (Source.ReadFull s n))).
Proof.
  unfold binaryRead. destruct (Reader.r rd) as [s|]; [|discriminate].
  destruct (Source.ReadFull s n) as [res' s'] eqn:E.
  intros H. injection H as <- <-. exists s. rewrite E. repeat split.
Qed.

(** ** ReadPacketData and the cursor of the source *)

(** The cursor of the byte source of a reader. *)
Definition cursor (rd : Reader.t) : option Z := option_map Source.pos (Reader.r rd).

Lemma Seek_start_eq (s : Source.t) (offset : Z) :
  Source.Seek s offset SeekStart
  = if offset <? 0
    then (inr (Errorf "bytes.Reader.Seek: negative position"), s)
    else (inl offset, {| Source.data := Source.data s; Source.pos := offset |}).
Proof. reflexivity. Qed.

Lemma Seek_current_eq (s : Source.t) (offset : Z) :
  Source.Seek s offset SeekCurrent
  = if Source.pos s + offset <? 0
    then (inr (Errorf "bytes.Reader.Seek: negative position"), s)
    else (inl (Source.pos s + offset),
          {| Source.data := Source.data s; Source.pos := Source.pos s + offset |}).
Proof. reflexivity. Qed.

Lemma rSeek_current (rd : Reader.t) (s : Source.t) :
  Reader.r rd = Some s -> 0 <= Source.pos s ->
  rSeek 0 SeekCurrent rd = (Ok (inl (Source.pos s)), rd).
Proof.
  intros Hr Hp. unfold rSeek. rewrite Hr, Seek_current_eq, Z.add_0_r.
  destruct (Z.ltb_spec (Source.pos s) 0); [lia|].
  f_equal. destruct rd, s; cbn in *. subst; reflexivity.
Qed.

Lemma Seek_data (s : Source.t) (offset whence : Z) :
  Source.data (snd (Source.Seek s offset whence)) = Source.data s.
Proof.
  unfold Source.Seek.
  destruct (if whence =? SeekStart then _ else _) as [a|]; [|reflexivity].
  destruct (a <? 0); reflexivity.
Qed.

Lemma ReadFull_data (s : Source.t) (n : Z) :
  Source.data (snd (Source.ReadFull s n)) = Source.data s.
Proof.
  unfold Source.ReadFull.
  destruct (n <=? 0); [reflexivity|].
  destruct (n <=? _); [reflexivity|].
  destruct (0 <? _); reflexivity.
Qed.

(** When [ReadPacketData] returns the payload, the cursor of the source is
    where it was before the call. *)
Lemma ReadPacketData_success_restores_cursor
    (rd rd' : Reader.t) (packet : Packet.t) (bytes : list byte) :
  ReadPacketData packet rd = (Ok bytes, rd') ->
  cursor rd' = cursor rd /\ cursor rd <> None.
Proof.
  unfold ReadPacketData. intros H.
  apply bind_Ok_inv in H as (rd0 & st0 & Hget & H).
  injection Hget as <- <-.
  destruct (Reader.r rd) as [s|] eqn:Hr; [|discriminate].
  apply bind_Ok_inv in H as ([currentPos|e] & st1 & H1 & H); [|discriminate].
  apply bind_Ok_inv in H as ([p2|e] & st2 & H2 & H); [|discriminate].
  apply bind_Ok_inv in H as ([bs|e] & st3 & H3 & H); [|discriminate].
  apply bind_Ok_inv in H as ([p4|e] & st4 & H4 & H); [|discriminate].
  destruct (_ >? _); [discriminate|].
  apply bind_Ok_inv in H as ([data|e] & st5 & H5 & H); [|discriminate].
  apply bind_Ok_inv in H as ([p6|e] & st6 & H6 & H); [|discriminate].
  injection H as _ <-.
  apply rSeek_inv in H1 as (s1 & Hs1 & Hres1 & _).
  apply rSeek_inv in H6 as (s6 & _ & Hres6 & ->).
  rewrite Hr in Hs1. injection Hs1 as <-.
  rewrite Seek_current_eq in Hres1. rewrite Seek_start_eq in Hres6.
  unfold cursor. rewrite Hr. cbn [Reader.r Reader.set_r option_map].
  split; [|discriminate]. f_equal. rewrite Seek_start_eq.
  destruct (Source.pos s + 0 <? 0); [discriminate|].
  destruct (currentPos <? 0); [discriminate|].
  cbn in Hres1. injection Hres1 as <-. cbn. lia.
Qed.

(** C5 on the error paths.  A file with one video stream and one packet is
    serialized and opened, which leaves the cursor of the source at its end
    (260).  [ReadPacketData] for a packet whose position is 4 reads the
    chunk header there, finds that its size runs past the file, and returns
    the out-of-bounds error with the cursor left after that header, at 12;
    for a position past the end it returns the header-read error with the
    cursor left at that position. *)
Theorem ReadPacketData_error_moves_cursor :
  let packet := mk_packet 0 StreamTypeVideo [x01; x02; x03; x04] 0 1 "K__" in
  let file := sink_bytes (snd (run (Serialize [mjpg_codec] [packet]) NewMuxer)) in
  let rd := snd (run (Open (Source.NewReader file) (len file)) NewDemuxer) in
  let stray (p : Z) : Packet.t :=
    {| Packet.StreamIndex := 0; Packet.Codec := StreamTypeVideo;
       Packet.Data := []; Packet.PTS := 0; Packet.DTS := 0;
       Packet.Duration := 1; Packet.Size := 4; Packet.Position := p;
       Packet.Flags := "K__"; Packet.PTSTime := 0; Packet.DTSTime := 0;
       Packet.DurationTime := 0 |} in
  fst (run (Open (Source.NewReader file) (len file)) NewDemuxer) = Ok tt
  /\ cursor rd = Some 260
  /\ fst (run (ReadPacketData (stray 4)) rd)
     = Fail {| Op := "read packet data";
               Err := Errorf "packet would read beyond file bounds" |}
  /\ cursor (snd (run (ReadPacketData (stray 4)) rd)) = Some 12
  /\ fst (run (ReadPacketData (stray 1000)) rd)
     = Fail {| Op := "read packet header"; Err := io_EOF |}
  /\ cursor (snd (run (ReadPacketData (stray 1000)) rd)) = Some 1000.
Proof.
  cbv zeta. by_evaluation.
Qed.

(** ** The audio format chunk *)

Lemma stream_at_Some (wr : Writer.t) (i : Z) (stream : Stream.t) :
  index (Writer.streams wr) i = Some stream ->
  stream_at i wr = (Ok stream, wr).
Proof. intros H. unfold stream_at, bind, get. now rewrite H. Qed.

Lemma wWrite_Some (wr : Writer.t) (sb : SeekableBuffer.t) (p : list byte) :
  Writer.w wr = Some sb ->
  wWrite p wr
  = (Ok tt, {| Writer.w := Some (snd (SeekableBuffer.Write sb p));
               Writer.filename := Writer.filename wr;
               Writer.streams := Writer.streams wr;
               Writer.packets := Writer.packets wr |}).
Proof. intros H. unfold wWrite. now rewrite H. Qed.

(** C3, as the code has it.  For every declared stream, [writeAudioFormat]
    writes a chunk header that declares 16 bytes and then the 18 bytes of
    the [WaveFormatEx] image: the body written is two bytes longer than
    the size declared. *)
Theorem writeAudioFormat_declares_16_writes_18
    (wr : Writer.t) (sb : SeekableBuffer.t) (i : Z) (stream : Stream.t) :
  Writer.w wr = Some sb ->
  index (Writer.streams wr) i = Some stream ->
  exists (hdr body : list byte) (wr' : Writer.t),
    writeAudioFormat i wr = (Ok tt, wr')
    /\ Writer.w wr'
       = Some (snd (SeekableBuffer.Write (snd (SeekableBuffer.Write sb hdr)) body))
    /\ decode_ChunkHeader hdr
       = {| ch_ID := StringToChunkID STRFChunk; ch_Size := 16 |}
    /\ body = encode_WaveFormatEx (audioFormat stream)
    /\ len hdr = 8
    /\ len body = 18.
Proof.
  intros Hw Hs.
  exists (encode_ChunkHeader {| ch_ID := StringToChunkID STRFChunk; ch_Size := 16 |}).
  exists (encode_WaveFormatEx (audioFormat stream)).
  eexists. split.
  - unfold writeAudioFormat.
    erewrite bind_Ok by (apply stream_at_Some; eassumption).
    erewrite bind_Ok by (apply wWrite_Some; eassumption).
    apply wWrite_Some. reflexivity.
  - cbn [Writer.w]. repeat split.
Qed.

(** The audio stream of the tests, written to an empty buffer: 26 bytes
    for a chunk that declares 16. *)
Lemma writeAudioFormat_declares_16_writes_18_witness :
  let wr := snd (run (Create SeekableBuffer.NewSeekableBuffer ;;; AddStream pcm_codec)
                     NewMuxer) in
  exists (hdr body : list byte) (wr' : Writer.t),
    writeAudioFormat 0 wr = (Ok tt, wr')
    /\ sink_bytes wr' = hdr ++ body
    /\ u32_at hdr 4 = 16
    /\ len body = 18.
Proof.
  intros wr.
  destruct (writeAudioFormat_declares_16_writes_18 wr SeekableBuffer.NewSeekableBuffer
              0 {| Stream.Index := 0; Stream.Type_ := StreamTypeAudio;
                   Stream.Codec := pcm_codec; Stream.Duration := 0;
                   Stream.PacketCount := 0 |})
    as (hdr & body & wr' & Hrun & Hsink & Hhdr & Hbody & Hlh & Hlb);
    [reflexivity | reflexivity |].
  exists hdr, body, wr'. split; [exact Hrun|].
  split; [|split; [|exact Hlb]].
  - unfold sink_bytes. rewrite Hsink.
    rewrite Write_at_end by reflexivity.
    rewrite Write_at_end by reflexivity. reflexivity.
  - change (u32_at hdr 4) with (ch_Size (decode_ChunkHeader hdr)).
    now rewrite Hhdr.
Defined.

(** ** Reconstruction of the packets from the index *)

(** The payload kind a tag's last two characters select. *)
Definition entry_kind (entry : IndexEntry) : option StreamType :=
  chunkCodecType (String.substring 2 2 (ChunkIDToString (ie_ChunkID entry))).

(** The stream index a tag's first two characters decode to. *)
Definition entry_stream (entry : IndexEntry) : Z :=
  decodeStreamIndex (ChunkIDToString (ie_ChunkID entry)).

(** The two tests of [ReadAllPackets]: the subtype is a video or audio one,
    and the decoded stream index is in range for the stream list. *)
Definition entry_accepted (streams : list Stream.t) (entry : IndexEntry) : bool :=
  (entry_stream entry <? len streams)
  && match entry_kind entry with Some _ => true | None => false end.

(** [packet] is the packet of [entry]. *)
Definition describes (moviOffset : Z) (entry : IndexEntry) (packet : Packet.t)
  : Prop :=
  Packet.StreamIndex packet = entry_stream entry
  /\ Some (Packet.Codec packet) = entry_kind entry
  /\ Packet.Size packet = ie_Size entry
  /\ Packet.Position packet = int64 (ie_Offset entry + moviOffset)
  /\ Packet.Flags packet
     = (if Z.land (ie_Flags entry) 16 =? 0 then "___" else "K__")
  /\ Packet.Data packet = [].

(** The tick fields of [packet], given the packets [earlier] in the output. *)
Definition ticks_ok (earlier : list Packet.t) (packet : Packet.t) : Prop :=
  let n := count_packets earlier (Packet.StreamIndex packet) (Packet.Codec packet) in
  (Packet.Codec packet = StreamTypeVideo
   /\ Packet.DTS packet = n /\ Packet.PTS packet = n
   /\ Packet.Duration packet = 1)
  \/ (Packet.Codec packet = StreamTypeAudio
      /\ Packet.DTS packet = 1024 * n /\ Packet.PTS packet = 1024 * n
      /\ Packet.Duration packet = 1024).

(** The same with the [int64] product of the audio timestamp as computed. *)
Definition ticks_raw (earlier : list Packet.t) (packet : Packet.t) : Prop :=
  let n := count_packets earlier (Packet.StreamIndex packet) (Packet.Codec packet) in
  (Packet.Codec packet = StreamTypeVideo
   /\ Packet.DTS packet = n /\ Packet.PTS packet = n
   /\ Packet.Duration packet = 1)
  \/ (Packet.Codec packet = StreamTypeAudio
      /\ Packet.DTS packet = int64 (n * 1024)
      /\ Packet.PTS packet = int64 (n * 1024)
      /\ Packet.Duration packet = 1024).

(** No stream has a frame rate between zero and one, for which
    [time.Second / time.Duration(FPS)] divides by zero. *)
Definition frame_rates_ok (streams : list Stream.t) : Prop :=
  Forall (fun s =>
            GoFloat.positive (Codec.FPS (Stream.Codec s)) = true ->
            GoFloat.to_int64 (Codec.FPS (Stream.Codec s)) <> 0) streams.

Lemma ChunkIDToString_length (id : fourcc) :
  String.length (ChunkIDToString id) = 4%nat.
Proof. destruct id as [[[a b] c] d]. reflexivity. Qed.

Lemma chunkCodecType_cases (t : string) (k : StreamType) :
  chunkCodecType t = Some k -> k = StreamTypeVideo \/ k = StreamTypeAudio.
Proof.
  unfold chunkCodecType.
  destruct (_ || _); [intros [= <-]; now left|].
  destruct (String.eqb t "wb"); [intros [= <-]; now right | discriminate].
Qed.

Lemma index_in_range {A} (l : list A) (i : Z) :
  0 <= i < len l -> exists x, index l i = Some x.
Proof.
  intros Hi. unfold index, len in *. destruct (Z.ltb_spec i 0); [lia|].
  destruct (nth_error l (Z.to_nat i)) eqn:E; [eauto|].
  apply nth_error_None in E. lia.
Qed.

Lemma index_In {A} (l : list A) (i : Z) (x : A) : index l i = Some x -> In x l.
Proof.
  unfold index. destruct (i <? 0); [discriminate|]. apply nth_error_In.
Qed.

Lemma decodeStreamIndex_range (s : string) : 0 <= decodeStreamIndex s < 256.
Proof. unfold decodeStreamIndex, wrap8. apply Z.mod_pos_bound. lia. Qed.

Lemma count_packets_bounds (packets : list Packet.t) (i : Z) (k : StreamType) :
  0 <= count_packets packets i k <= len packets.
Proof.
  unfold count_packets, len. pose proof (filter_length_le
    (fun p => (Packet.StreamIndex p =? i) && String.eqb (Packet.Codec p) k) packets).
  lia.
Qed.

Lemma int64_small (z : Z) : - 2 ^ 63 <= z < 2 ^ 63 -> int64 z = z.
Proof.
  intros Hz. unfold int64, swrap. change (64 - 1) with 63.
  rewrite Z.mod_small; lia.
Qed.

(** What one iteration does: an entry failing a test is skipped; an entry
    passing both yields its packet, timed from the packets so far, unless
    the frame-rate division panics. *)
Lemma readEntry_spec (streams : list Stream.t) (moviOffset : Z)
    (packets : list Packet.t) (entry : IndexEntry) :
  if entry_accepted streams entry then
    readEntry streams moviOffset packets entry = Panic
    \/ exists packet,
        readEntry streams moviOffset packets entry = Ok (Some packet)
        /\ describes moviOffset entry packet
        /\ ticks_raw packets packet
  else readEntry streams moviOffset packets entry = Ok None.
Proof.
  unfold entry_accepted, entry_kind, entry_stream, readEntry.
  rewrite ChunkIDToString_length. change (Z.of_nat 4 <? 4) with false. cbv iota.
  set (chunkID := ChunkIDToString (ie_ChunkID entry)).
  pose proof (decodeStreamIndex_range chunkID) as Hrange.
  destruct (Z.geb_spec (decodeStreamIndex chunkID) (len streams)) as [Hge|Hlt].
  { destruct (Z.ltb_spec (decodeStreamIndex chunkID) (len streams)); [lia|].
    reflexivity. }
  destruct (Z.ltb_spec (decodeStreamIndex chunkID) (len streams)); [|lia].
  cbn [andb].
  destruct (chunkCodecType (String.substring 2 2 chunkID)) as [k|] eqn:Hk;
    [|reflexivity].
  destruct (index_in_range streams (decodeStreamIndex chunkID)) as [stream Hs];
    [lia|]. rewrite Hs.
  assert (Hdesc : forall dts dtsTime durationTime,
    describes moviOffset entry
      {| Packet.StreamIndex := decodeStreamIndex chunkID; Packet.Codec := k;
         Packet.Data := []; Packet.PTS := dts; Packet.DTS := dts;
         Packet.Duration := if String.eqb k StreamTypeVideo then 1 else 1024;
         Packet.Size := ie_Size entry;
         Packet.Position := int64 (ie_Offset entry + moviOffset);
         Packet.Flags :=
           if negb (Z.land (ie_Flags entry) 16 =? 0) then "K__" else "___";
         Packet.PTSTime := dtsTime; Packet.DTSTime := dtsTime;
         Packet.DurationTime := durationTime |}).
  { intros. unfold describes, entry_kind, entry_stream. fold chunkID.
    cbn [Packet.StreamIndex Packet.Codec Packet.Size Packet.Position
         Packet.Flags Packet.Data].
    rewrite Hk. destruct (Z.land (ie_Flags entry) 16 =? 0); repeat split. }
  destruct (chunkCodecType_cases _ _ Hk) as [-> | ->].
  - change (String.eqb StreamTypeVideo StreamTypeVideo) with true. cbv iota.
    destruct (GoFloat.positive _).
    + destruct (int64_div Second _) as [fd|]; [|now left].
      right. eexists. split; [reflexivity|]. split; [apply Hdesc|].
      left. repeat split.
    + right. eexists. split; [reflexivity|]. split; [apply Hdesc|].
      left. repeat split.
  - change (String.eqb StreamTypeAudio StreamTypeVideo) with false. cbv iota.
    destruct (_ >? 0).
    + destruct (int64_div Second _) as [sd|]; [|now left].
      right. eexists. split; [reflexivity|]. split; [apply Hdesc|].
      right. repeat split.
    + right. eexists. split; [reflexivity|]. split; [apply Hdesc|].
      right. repeat split.
Qed.

Lemma readEntry_no_panic (streams : list Stream.t) (moviOffset : Z)
    (packets : list Packet.t) (entry : IndexEntry) :
  frame_rates_ok streams ->
  readEntry streams moviOffset packets entry <> Panic.
Proof.
  intros Hok. unfold readEntry.
  destruct (_ <? 4); [discriminate|].
  destruct (Z.geb_spec (decodeStreamIndex (ChunkIDToString (ie_ChunkID entry)))
              (len streams)) as [|Hlt]; [discriminate|].
  destruct (chunkCodecType _) as [k|]; [|discriminate].
  pose proof (decodeStreamIndex_range (ChunkIDToString (ie_ChunkID entry))).
  destruct (index_in_range streams
              (decodeStreamIndex (ChunkIDToString (ie_ChunkID entry))))
    as [stream Hs]; [lia|]. rewrite Hs.
  apply index_In in Hs.
  unfold frame_rates_ok in Hok. rewrite Forall_forall in Hok.
  specialize (Hok stream Hs).
  destruct (String.eqb k StreamTypeVideo).
  - destruct (GoFloat.positive _); [|discriminate].
    unfold int64_div.
    destruct (Z.eqb_spec (GoFloat.to_int64 (Codec.FPS (Stream.Codec stream))) 0)
      as [E|]; [now apply Hok in E | discriminate].
  - destruct (Z.gtb_spec (Codec.SampleRate (Stream.Codec stream)) 0);
      [|discriminate].
    unfold int64_div.
    destruct (Z.eqb_spec (Codec.SampleRate (Stream.Codec stream)) 0);
      [lia | discriminate].
Qed.

(** Every packet of the list is timed from the packets before it. *)
Definition well_timed (packets : list Packet.t) : Prop :=
  forall (k : nat) (p : Packet.t),
    nth_error packets k = Some p -> ticks_raw (firstn k packets) p.

Lemma well_timed_snoc (packets : list Packet.t) (p : Packet.t) :
  well_timed packets -> ticks_raw packets p -> well_timed (packets ++ [p]).
Proof.
  intros Hw Hp k q Hk.
  destruct (Nat.lt_ge_cases k (List.length packets)) as [Hlt | Hge].
  - rewrite nth_error_app1 in Hk by assumption.
    rewrite firstn_app. replace (k - List.length packets)%nat with 0%nat by lia.
    cbn [firstn]. rewrite app_nil_r. now apply Hw.
  - rewrite nth_error_app2 in Hk by assumption.
    destruct (k - List.length packets)%nat as [|m] eqn:Ek.
    + injection Hk as <-. assert (k = List.length packets) as -> by lia.
      rewrite firstn_app, Nat.sub_diag, firstn_all. cbn [firstn].
      now rewrite app_nil_r.
    + destruct m; discriminate.
Qed.

(** The loop appends to the packets it is given one packet per accepted
    entry, in the order of the entries. *)
Lemma ReadAllPackets_loop_spec (streams : list Stream.t) (moviOffset : Z)
    (entries : list IndexEntry) :
  forall (acc packets : list Packet.t),
    ReadAllPackets_loop streams moviOffset entries acc = Ok packets ->
    exists new,
      packets = acc ++ new
      /\ Forall2 (describes moviOffset) (filter (entry_accepted streams) entries) new
      /\ (well_timed acc -> well_timed packets).
Proof.
  induction entries as [|entry rest IH]; intros acc packets Hrun.
  - cbn in Hrun. injection Hrun as <-. exists []. rewrite app_nil_r.
    repeat split; [constructor | auto].
  - cbn [ReadAllPackets_loop] in Hrun. cbn [filter].
    pose proof (readEntry_spec streams moviOffset acc entry) as Hent.
    destruct (entry_accepted streams entry).
    + destruct Hent as [Hp | (p & Hp & Hdesc & Hticks)];
        rewrite Hp in Hrun; [discriminate|].
      apply IH in Hrun as (new & -> & Hall & Hwt).
      exists (p :: new). rewrite <- app_assoc. repeat split.
      * now constructor.
      * intros Hacc. rewrite app_assoc. apply Hwt.
        now apply well_timed_snoc.
    + rewrite Hent in Hrun. apply IH in Hrun. exact Hrun.
Qed.

Lemma ReadAllPackets_loop_total (streams : list Stream.t) (moviOffset : Z)
    (entries : list IndexEntry) :
  frame_rates_ok streams ->
  forall acc,
    exists packets,
      ReadAllPackets_loop streams moviOffset entries acc = Ok packets.
Proof.
  intros Hok. induction entries as [|entry rest IH]; intros acc.
  - cbn. eauto.
  - cbn [ReadAllPackets_loop].
    pose proof (readEntry_spec streams moviOffset acc entry) as Hent.
    pose proof (readEntry_no_panic streams moviOffset acc entry Hok) as Hnp.
    destruct (entry_accepted streams entry).
    + destruct Hent as [Hp | (p & Hp & _)]; [contradiction|].
      rewrite Hp. apply IH.
    + rewrite Hent. apply IH.
Qed.

Lemma well_timed_nil : well_timed [].
Proof. intros [|k] p H; discriminate. Qed.

Lemma ReadAllPackets_Ok_inv (rd rd' : Reader.t) (packets : list Packet.t) :
  ReadAllPackets rd = (Ok packets, rd') ->
  rd' = rd
  /\ Reader.indexEntries rd <> []
  /\ ReadAllPackets_loop (Reader.streams rd) (Reader.moviOffset rd)
       (Reader.indexEntries rd) [] = Ok packets.
Proof.
  unfold ReadAllPackets.
  destruct (Z.eqb_spec (len (Reader.indexEntries rd)) 0) as [|Hne];
    [discriminate|].
  intros H. injection H as H <-. repeat split; [|exact H].
  intros E. rewrite E in Hne. now apply Hne.
Qed.

Lemma Forall2_filter_length {A B} (R : A -> B -> Prop) (f : A -> bool)
    (l : list A) (l' : list B) :
  Forall2 R (filter f l) l' -> len l' <= len l.
Proof.
  intros H. apply Forall2_length in H. unfold len. rewrite <- H.
  pose proof (filter_length_le f l). lia.
Qed.

(** The tick fields of the packets [ReadAllPackets] returns, for an index
    short enough for the audio timestamps not to wrap. *)
Lemma ReadAllPackets_ticks (rd rd' : Reader.t) (packets : list Packet.t) :
  len (Reader.indexEntries rd) < 2 ^ 53 ->
  ReadAllPackets rd = (Ok packets, rd') ->
  forall (k : nat) (p : Packet.t),
    nth_error packets k = Some p -> ticks_ok (firstn k packets) p.
Proof.
  intros Hlen Hrun k p Hk.
  apply ReadAllPackets_Ok_inv in Hrun as (_ & _ & Hloop).
  apply ReadAllPackets_loop_spec in Hloop as (new & -> & Hall & Hwt).
  cbn [app] in *. specialize (Hwt well_timed_nil k p Hk).
  apply Forall2_filter_length in Hall.
  pose proof (count_packets_bounds (firstn k new) (Packet.StreamIndex p)
                (Packet.Codec p)) as Hc.
  assert (Hfk : len (firstn k new) <= len new).
  { unfold len. rewrite length_firstn. lia. }
  unfold ticks_ok. destruct Hwt as [Hv | (Ha & Hd & Hp & Hdur)];
    [now left | right].
  rewrite int64_small in Hd, Hp by lia.
  repeat split; [assumption | lia | lia | assumption].
Qed.

(** *** When the loop panics *)

(** An index entry that passes both tests of [ReadAllPackets], is of a
    video subtype, and belongs to a stream whose frame rate is positive but
    has the integer part 0. *)
Definition slow_video (streams : list Stream.t) (entry : IndexEntry) : bool :=
  entry_accepted streams entry
  && match entry_kind entry with
     | Some k => String.eqb k StreamTypeVideo
     | None => false
     end
  && match index streams (entry_stream entry) with
     | Some s =>
         GoFloat.positive (Codec.FPS (Stream.Codec s))
         && (GoFloat.to_int64 (Codec.FPS (Stream.Codec s)) =? 0)
     | None => false
     end.

Lemma readEntry_panics_iff (streams : list Stream.t) (moviOffset : Z)
    (packets : list Packet.t) (entry : IndexEntry) :
  readEntry streams moviOffset packets entry = Panic
  <-> slow_video streams entry = true.
Proof.
  unfold slow_video, entry_accepted, entry_kind, entry_stream, readEntry.
  rewrite ChunkIDToString_length. change (Z.of_nat 4 <? 4) with false. cbv iota.
  set (chunkID := ChunkIDToString (ie_ChunkID entry)).
  pose proof (decodeStreamIndex_range chunkID) as Hrange.
  destruct (Z.geb_spec (decodeStreamIndex chunkID) (len streams)) as [Hge|Hlt].
  { destruct (Z.ltb_spec (decodeStreamIndex chunkID) (len streams)); [lia|].
    cbn [andb]. split; discriminate. }
  destruct (Z.ltb_spec (decodeStreamIndex chunkID) (len streams)); [|lia].
  cbn [andb].
  destruct (chunkCodecType (String.substring 2 2 chunkID)) as [k|] eqn:Hk;
    [|split; discriminate].
  destruct (index_in_range streams (decodeStreamIndex chunkID)) as [stream Hs];
    [lia|]. rewrite Hs.
  destruct (chunkCodecType_cases _ _ Hk) as [-> | ->].
  - change (String.eqb StreamTypeVideo StreamTypeVideo) with true. cbv iota.
    cbn [andb].
    destruct (GoFloat.positive _); cbn [andb]; [|split; discriminate].
    unfold int64_div.
    destruct (Z.eqb_spec (GoFloat.to_int64 (Codec.FPS (Stream.Codec stream))) 0);
      split; (reflexivity || discriminate).
  - change (String.eqb StreamTypeAudio StreamTypeVideo) with false. cbv iota.
    cbn [andb]. split; [|discriminate].
    destruct (Z.gtb_spec (Codec.SampleRate (Stream.Codec stream)) 0);
      [|discriminate].
    unfold int64_div.
    destruct (Z.eqb_spec (Codec.SampleRate (Stream.Codec stream)) 0);
      [lia | discriminate].
Qed.

Lemma readEntry_outcomes (streams : list Stream.t) (moviOffset : Z)
    (packets : list Packet.t) (entry : IndexEntry) :
  readEntry streams moviOffset packets entry = Panic
  \/ exists r, readEntry streams moviOffset packets entry = Ok r.
Proof.
  pose proof (readEntry_spec streams moviOffset packets entry) as H.
  destruct (entry_accepted streams entry).
  - destruct H as [H | (p & H & _)]; [now left | right; eauto].
  - right. eauto.
Qed.

Lemma ReadAllPackets_loop_panics_iff (streams : list Stream.t) (moviOffset : Z)
    (entries : list IndexEntry) :
  forall acc,
    (existsb (slow_video streams) entries = true ->
     ReadAllPackets_loop streams moviOffset entries acc = Panic)
    /\ (existsb (slow_video streams) entries = false ->
        exists packets,
          ReadAllPackets_loop streams moviOffset entries acc = Ok packets).
Proof.
  induction entries as [|entry rest IH]; intros acc;
    cbn [existsb ReadAllPackets_loop].
  - split; [discriminate | eauto].
  - pose proof (readEntry_panics_iff streams moviOffset acc entry) as Hiff.
    destruct (readEntry_outcomes streams moviOffset acc entry) as [Hp | [r Hr]].
    + rewrite Hp. apply Hiff in Hp. rewrite Hp. cbn [orb].
      split; [reflexivity | discriminate].
    + rewrite Hr.
      destruct (slow_video streams entry) eqn:Hslow.
      { pose proof (proj2 Hiff eq_refl). congruence. }
      cbn [orb]. destruct r as [p|]; apply IH.
Qed.

(** *** The reconstruction as the specification words it *)

(** From the specification: the number of packets of the kind [kind] of the
    stream [streamIndex] among the packets reconstructed from earlier
    entries. *)
Fixpoint running_count_spec (kind : StreamType) (streamIndex : Z)
    (earlier : list Packet.t) : Z :=
  match earlier with
  | [] => 0
  | q :: rest =>
      (if Z.eq_dec (Packet.StreamIndex q) streamIndex then
         if string_dec (Packet.Codec q) kind then 1 else 0
       else 0)
      + running_count_spec kind streamIndex rest
  end.

(** From the specification: a video packet has DTS = PTS = the running
    count of video packets of its stream and lasts 1 tick; an audio packet
    has DTS = PTS = 1024 times the running count of audio packets of its
    stream and lasts 1024 ticks. *)
Definition ticks_spec (earlier : list Packet.t) (p : Packet.t) : Prop :=
  (Packet.Codec p = StreamTypeVideo
   /\ Packet.DTS p
      = running_count_spec StreamTypeVideo (Packet.StreamIndex p) earlier
   /\ Packet.PTS p = Packet.DTS p
   /\ Packet.Duration p = 1)
  \/ (Packet.Codec p = StreamTypeAudio
      /\ Packet.DTS p
         = 1024 * running_count_spec StreamTypeAudio (Packet.StreamIndex p) earlier
      /\ Packet.PTS p = Packet.DTS p
      /\ Packet.Duration p = 1024).

(** From the specification: the last two characters of a tag select the
    payload kind; the two video subtype codes are "dc" and "db", the audio
    subtype code is "wb". *)
Definition tag_kind (tag : fourcc) : option StreamType :=
  let '(_, _, c, d) := tag in
  if Byte.eqb c "d"%byte && (Byte.eqb d "c"%byte || Byte.eqb d "b"%byte)
  then Some StreamTypeVideo
  else if Byte.eqb c "w"%byte && Byte.eqb d "b"%byte then Some StreamTypeAudio
  else None.

(** From the specification: the first two characters of a tag are a decimal
    stream index.  For two digits this is the number they spell; on other
    characters it is the same sum of their codes, kept in eight bits. *)
Definition tag_stream (tag : fourcc) : Z :=
  let '(a, b, _, _) := tag in
  ((Z_of_byte a - 48) * 10 + (Z_of_byte b - 48)) mod 256.

(** The two tests an index entry has to pass: a video or audio subtype, and
    a stream index in range for the stream list. *)
Definition passes_both_tests (streams : list Stream.t) (entry : IndexEntry)
  : bool :=
  match tag_kind (ie_ChunkID entry) with
  | Some _ => tag_stream (ie_ChunkID entry) <? len streams
  | None => false
  end.

(** The packet of an index entry: the stream and kind of its tag, its size,
    its offset from the payload list's start, and its keyframe bit. *)
Definition packet_of_entry (moviOffset : Z) (entry : IndexEntry)
    (packet : Packet.t) : Prop :=
  Packet.StreamIndex packet = tag_stream (ie_ChunkID entry)
  /\ tag_kind (ie_ChunkID entry) = Some (Packet.Codec packet)
  /\ Packet.Size packet = ie_Size entry
  /\ Packet.Position packet = int64 (ie_Offset entry + moviOffset)
  /\ Packet.Flags packet
     = (if Z.land (ie_Flags entry) 16 =? 0 then "___" else "K__")
  /\ Packet.Data packet = [].

(** A video entry that passes both tests and whose stream has a positive
    frame rate with the integer part 0: its frame time is
    [time.Second] divided by zero. *)
Definition frame_time_is_zero (streams : list Stream.t) (entry : IndexEntry)
  : bool :=
  passes_both_tests streams entry
  && match tag_kind (ie_ChunkID entry),
           index streams (tag_stream (ie_ChunkID entry)) with
     | Some kind, Some s =>
         String.eqb kind StreamTypeVideo
         && GoFloat.positive (Codec.FPS (Stream.Codec s))
         && (GoFloat.to_int64 (Codec.FPS (Stream.Codec s)) =? 0)
     | _, _ => false
     end.

Lemma count_packets_running_count (earlier : list Packet.t) (i : Z)
    (k : StreamType) :
  count_packets earlier i k = running_count_spec k i earlier.
Proof.
  unfold count_packets.
  induction earlier as [|q rest IH]; [reflexivity|].
  cbn [filter running_count_spec]. rewrite <- IH.
  destruct (Z.eqb_spec (Packet.StreamIndex q) i) as [Hi|Hi];
    destruct (Z.eq_dec (Packet.StreamIndex q) i) as [Hi'|Hi'];
    try contradiction; cbn [andb]; [|reflexivity].
  destruct (String.eqb_spec (Packet.Codec q) k) as [Hk|Hk];
    destruct (string_dec (Packet.Codec q) k) as [Hk'|Hk'];
    try contradiction; [unfold len; cbn [List.length]; lia | reflexivity].
Qed.

Lemma ticks_ok_spec (earlier : list Packet.t) (p : Packet.t) :
  ticks_ok earlier p -> ticks_spec earlier p.
Proof.
  unfold ticks_ok, ticks_spec. rewrite count_packets_running_count.
  intros [(Hk & Hd & Hp & Hdur) | (Hk & Hd & Hp & Hdur)]; [left | right];
    rewrite Hk in *; split_conj; congruence.
Qed.

Lemma tag_stream_decoded (entry : IndexEntry) :
  tag_stream (ie_ChunkID entry) = entry_stream entry.
Proof.
  unfold entry_stream. destruct (ie_ChunkID entry) as [[[a b] c] d].
  rewrite decodeStreamIndex_tag. unfold tag_stream, wrap8.
  rewrite Z.mul_mod_idemp_l by lia.
  rewrite <- Z.add_mod by lia. reflexivity.
Qed.

Lemma ascii_eqb_of_byte (x y : byte) :
  Ascii.eqb (ascii_of_byte x) (ascii_of_byte y) = Byte.eqb x y.
Proof.
  destruct (Byte.eqb x y) eqn:E.
  - apply Byte.byte_dec_bl in E. subst. apply Ascii.eqb_refl.
  - apply Ascii.eqb_neq. intros H. apply Byte.eqb_false in E. apply E.
    apply (f_equal byte_of_ascii) in H.
    now rewrite !byte_of_ascii_of_byte in H.
Qed.

Lemma tag_kind_decoded (entry : IndexEntry) :
  tag_kind (ie_ChunkID entry) = entry_kind entry.
Proof.
  unfold entry_kind. destruct (ie_ChunkID entry) as [[[a b] c] d].
  unfold tag_kind, chunkCodecType, ChunkIDToString.
  cbn [fourcc_bytes map string_of_list_ascii String.substring String.eqb].
  change "d"%char with (ascii_of_byte "d"%byte).
  change "c"%char with (ascii_of_byte "c"%byte).
  change "b"%char with (ascii_of_byte "b"%byte).
  change "w"%char with (ascii_of_byte "w"%byte).
  rewrite !ascii_eqb_of_byte.
  destruct (Byte.eqb c "d"), (Byte.eqb c "w"), (Byte.eqb d "c"), (Byte.eqb d "b");
    reflexivity.
Qed.

Lemma passes_both_tests_accepted (streams : list Stream.t) (entry : IndexEntry) :
  passes_both_tests streams entry = entry_accepted streams entry.
Proof.
  unfold passes_both_tests, entry_accepted.
  rewrite tag_kind_decoded, tag_stream_decoded.
  destruct (entry_kind entry); [now rewrite andb_true_r | now rewrite andb_false_r].
Qed.

Lemma existsb_same {A} (f g : A -> bool) (l : list A) :
  (forall a, f a = g a) -> existsb f l = existsb g l.
Proof.
  intros H. induction l as [|a l IH]; [reflexivity|].
  cbn [existsb]. now rewrite H, IH.
Qed.

Lemma describes_packet_of_entry (moviOffset : Z) (entry : IndexEntry)
    (packet : Packet.t) :
  describes moviOffset entry packet -> packet_of_entry moviOffset entry packet.
Proof.
  unfold describes, packet_of_entry.
  rewrite tag_kind_decoded, tag_stream_decoded.
  intros (H1 & H2 & H3 & H4 & H5 & H6). split_conj; auto.
Qed.

Lemma frame_time_is_zero_slow (streams : list Stream.t) (entry : IndexEntry) :
  frame_time_is_zero streams entry = slow_video streams entry.
Proof.
  unfold frame_time_is_zero, slow_video.
  rewrite passes_both_tests_accepted, tag_kind_decoded, tag_stream_decoded.
  destruct (entry_kind entry) as [k|]; [|now rewrite !andb_false_r].
  destruct (index streams (entry_stream entry)) as [s0|];
    [|now rewrite !andb_false_r].
  now rewrite !andb_assoc.
Qed.

(** The interleaved packets of the scenario: five video packets, the first
    a keyframe, and five audio packets. *)
Definition scenario_packets : list Packet.t :=
  flat_map (fun i =>
              [mk_packet 0 StreamTypeVideo [x01; x02; x03] i 1
                 (if i =? 0 then "K__" else "___");
               mk_packet 1 StreamTypeAudio [x0a; x0b; x0c; x0d] (i * 1024) 1024
                 "K__"])
           [0; 1; 2; 3; 4].

Definition scenario_file : list byte :=
  sink_bytes (snd (run (Serialize [mjpg_codec; pcm_codec] scenario_packets) NewMuxer)).

Definition of_kind (k : StreamType) (packets : list Packet.t) : list Packet.t :=
  filter (fun p => String.eqb (Packet.Codec p) k) packets.

(** C4.  Every packet [ReadAllPackets] produces is video or audio; a video
    packet has DTS = PTS = the number of video packets of the same stream
    among the packets produced before it, and lasts 1 tick; an audio packet
    has DTS = PTS = 1024 times the number of audio packets of the same
    stream among them, and lasts 1024 ticks.  The numbers are those of the
    specification's running count, not of the loop that computes them.
    This holds for every stream list and every index table an [idx1] chunk
    can hold (its size is a [uint32], so fewer than [2^28] entries).  For
    the scenario of one video and one audio stream with five interleaved
    packets each, the video DTS are 0..4 and the audio DTS are 0, 1024,
    2048, 3072, 4096. *)
Theorem reconstruction_ticks :
  (forall (rd rd' : Reader.t) (packets : list Packet.t),
      len (Reader.indexEntries rd) < 2 ^ 28 ->
      ReadAllPackets rd = (Ok packets, rd') ->
      forall (k : nat) (p : Packet.t),
        nth_error packets k = Some p -> ticks_spec (firstn k packets) p)
  /\ (exists (packets : list Packet.t) (rd : Reader.t),
        run (Parse scenario_file) NewDemuxer = (Ok packets, rd)
        /\ map Packet.DTS (of_kind StreamTypeVideo packets) = [0; 1; 2; 3; 4]
        /\ map Packet.PTS (of_kind StreamTypeVideo packets) = [0; 1; 2; 3; 4]
        /\ map Packet.Duration (of_kind StreamTypeVideo packets) = [1; 1; 1; 1; 1]
        /\ map Packet.DTS (of_kind StreamTypeAudio packets)
           = [0; 1024; 2048; 3072; 4096]
        /\ map Packet.PTS (of_kind StreamTypeAudio packets)
           = [0; 1024; 2048; 3072; 4096]
        /\ map Packet.Duration (of_kind StreamTypeAudio packets)
           = [1024; 1024; 1024; 1024; 1024]
        /\ option_map FileInfo.VideoStreams (Reader.fileInfo rd) = Some 1
        /\ option_map FileInfo.AudioStreams (Reader.fileInfo rd) = Some 1).
Proof.
  split.
  - intros rd rd' packets Hlen Hrun k p Hk. apply ticks_ok_spec.
    apply (ReadAllPackets_ticks rd rd' packets); [lia | exact Hrun | exact Hk].
  - exists (match fst (run (Parse scenario_file) NewDemuxer) with
            | Ok l => l | _ => [] end),
           (snd (run (Parse scenario_file) NewDemuxer)).
    by_evaluation.
Qed.

(** Two video streams and an audio entry on the second: each stream is
    counted on its own, and each kind on its own. *)
Lemma reconstruction_ticks_witness :
  let e a b c d :=
    {| ie_ChunkID := (a, b, c, d); ie_Flags := 16; ie_Offset := 4;
       ie_Size := 8 |} in
  let rd :=
    Reader.set_indexEntries
      (Reader.set_streams NewDemuxer [Stream.zero; Stream.zero])
      [e "0"%byte "0"%byte "d"%byte "c"%byte;
       e "0"%byte "1"%byte "d"%byte "c"%byte;
       e "0"%byte "0"%byte "d"%byte "b"%byte;
       e "0"%byte "1"%byte "w"%byte "b"%byte;
       e "0"%byte "1"%byte "d"%byte "c"%byte;
       e "0"%byte "1"%byte "w"%byte "b"%byte] in
  exists packets,
    ReadAllPackets rd = (Ok packets, rd)
    /\ map Packet.StreamIndex packets = [0; 1; 0; 1; 1; 1]
    /\ map Packet.DTS packets = [0; 0; 1; 0; 1; 1024]
    /\ (forall (k : nat) (p : Packet.t),
           nth_error packets k = Some p -> ticks_spec (firstn k packets) p).
Proof.
  intros e rd.
  assert (Hrun : ReadAllPackets rd
                 = (Ok (match fst (ReadAllPackets rd) with Ok l => l | _ => [] end),
                    rd)) by (vm_compute; reflexivity).
  eexists. split; [exact Hrun|].
  split; [vm_compute; reflexivity|]. split; [vm_compute; reflexivity|].
  apply (proj1 reconstruction_ticks rd rd _); [vm_compute; reflexivity | exact Hrun].
Defined.

(** C6, with the two inputs at which it fails set apart.  For a non-empty
    index table in which no video entry that passes both tests belongs to
    a stream whose frame time is a division by zero, [ReadAllPackets]
    returns, without an error and leaving the reader as it was, the
    packets of the entries that pass both tests (a video or audio subtype,
    a stream index in range for the stream list), one packet per such
    entry, in the order of the index table; entries failing a test leave
    no trace.  For an empty index table it returns the error "no index
    entries found". *)
Theorem ReadAllPackets_one_packet_per_accepted_entry (rd : Reader.t) :
  (Reader.indexEntries rd <> [] ->
   existsb (frame_time_is_zero (Reader.streams rd)) (Reader.indexEntries rd)
   = false ->
   exists packets,
     run ReadAllPackets rd = (Ok packets, rd)
     /\ Forall2 (packet_of_entry (Reader.moviOffset rd))
          (filter (passes_both_tests (Reader.streams rd)) (Reader.indexEntries rd))
          packets)
  /\ (Reader.indexEntries rd = [] ->
      run ReadAllPackets rd
      = (Fail {| Op := "read packets"; Err := Errorf "no index entries found" |},
         rd)).
Proof.
  split.
  - intros Hne Hzero. unfold run, ReadAllPackets.
    destruct (Z.eqb_spec (len (Reader.indexEntries rd)) 0) as [E|_].
    { destruct (Reader.indexEntries rd); [congruence|].
      unfold len in E. cbn in E. lia. }
    rewrite (existsb_same _ _ _ (frame_time_is_zero_slow (Reader.streams rd)))
      in Hzero.
    destruct (proj2 (ReadAllPackets_loop_panics_iff (Reader.streams rd)
                       (Reader.moviOffset rd) (Reader.indexEntries rd) [])
                Hzero) as [packets Hloop].
    rewrite Hloop. exists packets. split; [reflexivity|].
    apply ReadAllPackets_loop_spec in Hloop as (new & -> & Hall & _).
    cbn [app].
    rewrite (filter_ext _ _ (passes_both_tests_accepted (Reader.streams rd))).
    eapply Forall2_impl; [|exact Hall].
    intros entry packet. apply describes_packet_of_entry.
  - intros E. unfold run, ReadAllPackets. rewrite E. reflexivity.
Qed.

(** An index whose second entry has an unknown subtype and whose third
    names a stream that does not exist: one packet, no error. *)
Lemma ReadAllPackets_one_packet_per_accepted_entry_witness :
  let e id := {| ie_ChunkID := id; ie_Flags := 0; ie_Offset := 4; ie_Size := 8 |} in
  let rd :=
    Reader.set_indexEntries
      (Reader.set_streams NewDemuxer [Stream.zero])
      [e ("0"%byte, "0"%byte, "d"%byte, "c"%byte);
       e ("0"%byte, "0"%byte, "t"%byte, "x"%byte);
       e ("0"%byte, "7"%byte, "w"%byte, "b"%byte)] in
  exists p,
    run ReadAllPackets rd = (Ok [p], rd)
    /\ packet_of_entry 0 (e ("0"%byte, "0"%byte, "d"%byte, "c"%byte)) p.
Proof.
  intros e rd.
  destruct (proj1 (ReadAllPackets_one_packet_per_accepted_entry rd))
    as (packets & Hrun & Hall).
  - discriminate.
  - vm_compute. reflexivity.
  - change (filter _ _) with [e ("0"%byte, "0"%byte, "d"%byte, "c"%byte)] in Hall.
    inversion Hall as [|? p ? rest Hp Hrest]; subst.
    inversion Hrest; subst. exists p. split; assumption.
Defined.

(** C6 as stated fails at two inputs.  On an empty index table
    [ReadAllPackets] does not return the empty sequence of packets but the
    error "no index entries found".  On a reader with one video stream of
    half a frame per second and one index entry "00dc", which passes both
    tests, it returns no packet: it panics on the division of
    [time.Second] by the integer part of the frame rate. *)
Lemma ReadAllPackets_no_packets_on_empty_index_or_slow_video :
  (Reader.indexEntries NewDemuxer = []
   /\ run ReadAllPackets NewDemuxer
      = (Fail {| Op := "read packets"; Err := Errorf "no index entries found" |},
         NewDemuxer))
  /\ (let slow :=
        {| Stream.Index := 0; Stream.Type_ := StreamTypeVideo;
           Stream.Codec :=
             {| Codec.Name := "MJPG";
                Codec.FourCC := ("M"%byte, "J"%byte, "P"%byte, "G"%byte);
                Codec.Type_ := StreamTypeVideo;
                Codec.Width := 640; Codec.Height := 480; Codec.FPS := 0.5%float;
                Codec.Channels := 0; Codec.SampleRate := 0;
                Codec.BitDepth := 0 |};
           Stream.Duration := 0; Stream.PacketCount := 0 |} in
      let entry :=
        {| ie_ChunkID := ("0"%byte, "0"%byte, "d"%byte, "c"%byte);
           ie_Flags := 16; ie_Offset := 4; ie_Size := 8 |} in
      let rd :=
        Reader.set_indexEntries (Reader.set_streams NewDemuxer [slow]) [entry] in
      passes_both_tests (Reader.streams rd) entry = true
      /\ fst (run ReadAllPackets rd) = Panic
      /\ ~ exists packets, fst (run ReadAllPackets rd) = Ok packets).
Proof.
  split; [split; reflexivity|].
  cbv zeta. split; [vm_compute; reflexivity|].
  assert (H : fst (run ReadAllPackets
                     (Reader.set_indexEntries
                        (Reader.set_streams NewDemuxer
                           [{| Stream.Index := 0; Stream.Type_ := StreamTypeVideo;
                               Stream.Codec :=
                                 {| Codec.Name := "MJPG";
                                    Codec.FourCC :=
                                      ("M"%byte, "J"%byte, "P"%byte, "G"%byte);
                                    Codec.Type_ := StreamTypeVideo;
                                    Codec.Width := 640; Codec.Height := 480;
                                    Codec.FPS := 0.5%float;
                                    Codec.Channels := 0; Codec.SampleRate := 0;
                                    Codec.BitDepth := 0 |};
                               Stream.Duration := 0; Stream.PacketCount := 0 |}])
                        [{| ie_ChunkID := ("0"%byte, "0"%byte, "d"%byte, "c"%byte);
                            ie_Flags := 16; ie_Offset := 4; ie_Size := 8 |}]))
              = Panic) by (vm_compute; reflexivity).
  split; [exact H|]. intros [packets Hp]. rewrite H in Hp. discriminate Hp.
Qed.

(** ** Parsing does not depend on what the reader held before *)

(** A reader with its stream list and file metadata replaced. *)
Definition with_meta (rd : Reader.t) (ss : list Stream.t)
    (fi : option FileInfo.t) : Reader.t :=
  Reader.set_fileInfo (Reader.set_streams rd ss) fi.

(** A method that neither reads nor writes [r.streams] and [r.fileInfo]. *)
Definition frame {A} (c : M A) : Prop :=
  forall rd ss fi,
    c (with_meta rd ss fi) = (fst (c rd), with_meta (snd (c rd)) ss fi).

Lemma frame_ret {A} (a : A) : frame (ret a).
Proof. intros rd ss fi. reflexivity. Qed.

Lemma frame_fail {A} (op : string) (e : cause) : frame (@fail _ A op e).
Proof. intros rd ss fi. reflexivity. Qed.

Lemma frame_out_of_fuel {A} : frame (@out_of_fuel _ A).
Proof. intros rd ss fi. reflexivity. Qed.

Lemma frame_bind {A B} (c : M A) (k : A -> M B) :
  frame c -> (forall a, frame (k a)) -> frame (bind c k).
Proof.
  intros Hc Hk rd ss fi. unfold bind. rewrite (Hc rd ss fi).
  destruct (c rd) as [[a| | |] rd']; cbn [fst snd]; try reflexivity.
  apply Hk.
Qed.

Lemma frame_rSeek (offset whence : Z) : frame (rSeek offset whence).
Proof.
  intros rd ss fi. unfold rSeek, with_meta. cbn [Reader.r Reader.set_fileInfo
    Reader.set_streams].
  destruct (Reader.r rd) as [s|]; [|reflexivity].
  destruct (Source.Seek s offset whence). reflexivity.
Qed.

Lemma frame_binaryRead (n : Z) : frame (binaryRead n).
Proof.
  intros rd ss fi. unfold binaryRead, with_meta. cbn [Reader.r Reader.set_fileInfo
    Reader.set_streams].
  destruct (Reader.r rd) as [s|]; [|reflexivity].
  destruct (Source.ReadFull s n). reflexivity.
Qed.

Lemma frame_set_moviOffset (n : Z) :
  frame (modify (fun rd => Reader.set_moviOffset rd n)).
Proof. intros rd ss fi. reflexivity. Qed.

Lemma frame_set_indexEntries (l : list IndexEntry) :
  frame (modify (fun rd => Reader.set_indexEntries rd l)).
Proof. intros rd ss fi. reflexivity. Qed.

Lemma frame_gets_fileSize : frame (gets Reader.fileSize).
Proof. intros rd ss fi. reflexivity. Qed.

Lemma frame_gets_filename : frame (gets Reader.filename).
Proof. intros rd ss fi. reflexivity. Qed.

(** Decomposes a method built from the pieces above. *)
Ltac frame_step :=
  match goal with
  | |- frame (bind _ _) => apply frame_bind; [|intros ?]
  | |- frame (ret _) => apply frame_ret
  | |- frame (fail _ _) => apply frame_fail
  | |- frame out_of_fuel => apply frame_out_of_fuel
  | |- frame (rSeek _ _) => apply frame_rSeek
  | |- frame (binaryRead _) => apply frame_binaryRead
  | |- frame (gets Reader.fileSize) => apply frame_gets_fileSize
  | |- frame (gets Reader.filename) => apply frame_gets_filename
  | |- frame (modify (fun rd => Reader.set_moviOffset rd _)) =>
      apply frame_set_moviOffset
  | |- frame (modify (fun rd => Reader.set_indexEntries rd _)) =>
      apply frame_set_indexEntries
  | |- frame (if ?b then _ else _) => destruct b
  | |- frame (match ?x with _ => _ end) => destruct x
  | |- frame (let '(_, _) := ?x in _) => destruct x
  | H : _ |- _ => apply H
  end.

Ltac frame_auto := repeat frame_step.

Lemma frame_skip (op : string) (n : Z) : frame (skip op n).
Proof. unfold skip. frame_auto. Qed.

Lemma frame_parseAVIHChunk (size : Z) (fi : FileInfo.t) :
  frame (parseAVIHChunk size fi).
Proof. unfold parseAVIHChunk. frame_auto; apply frame_skip. Qed.

Lemma frame_parseSTRHChunk (size : Z) (stream : Stream.t) :
  frame (parseSTRHChunk size stream).
Proof. unfold parseSTRHChunk. frame_auto; apply frame_skip. Qed.

Lemma frame_parseVideoFormat (size : Z) (stream : Stream.t) :
  frame (parseVideoFormat size stream).
Proof. unfold parseVideoFormat. frame_auto; apply frame_skip. Qed.

Lemma frame_parseAudioFormat (size : Z) (stream : Stream.t) :
  frame (parseAudioFormat size stream).
Proof. unfold parseAudioFormat. frame_auto; apply frame_skip. Qed.

Lemma frame_parseSTRFChunk (size : Z) (stream : Stream.t) :
  frame (parseSTRFChunk size stream).
Proof.
  unfold parseSTRFChunk.
  destruct (String.eqb _ _); [apply frame_parseVideoFormat|].
  destruct (String.eqb _ _); [apply frame_parseAudioFormat|].
  frame_auto. apply frame_skip.
Qed.

Lemma frame_parseSTRLList_loop (fuel : nat) :
  forall endPos stream, frame (parseSTRLList_loop fuel endPos stream).
Proof.
  induction fuel as [|fuel IH]; intros endPos stream; cbn [parseSTRLList_loop].
  - apply frame_out_of_fuel.
  - apply frame_bind; [apply frame_rSeek|]. intros [pos|e]; [|apply frame_ret].
    destruct (pos >=? endPos); [apply frame_ret|].
    apply frame_bind; [apply frame_binaryRead|].
    intros [bs|[| |msg]]; try apply frame_ret; try apply frame_fail.
    apply frame_bind; [|intros s; apply IH].
    destruct (String.eqb _ _); [apply frame_parseSTRHChunk|].
    destruct (String.eqb _ _); [apply frame_parseSTRFChunk|].
    apply frame_bind; [apply frame_skip | intros; apply frame_ret].
Qed.

Lemma frame_parseSTRLList (fuel : nat) (size : Z) (streams : list Stream.t) :
  frame (parseSTRLList fuel size streams).
Proof.
  unfold parseSTRLList.
  apply frame_bind; [apply frame_binaryRead|].
  intros [bs|e]; [|apply frame_fail].
  destruct (negb _).
  - apply frame_bind; [apply frame_skip | intros; apply frame_ret].
  - apply frame_bind; [apply frame_rSeek|]. intros [endPos|e]; [|apply frame_fail].
    apply frame_bind; [apply frame_parseSTRLList_loop | intros; apply frame_ret].
Qed.

Lemma frame_parseHDRLList_loop (fuel : nat) :
  forall endPos streams fileInfo,
    frame (parseHDRLList_loop fuel endPos streams fileInfo).
Proof.
  induction fuel as [|fuel IH]; intros endPos streams fileInfo;
    cbn [parseHDRLList_loop].
  - apply frame_out_of_fuel.
  - apply frame_bind; [apply frame_rSeek|]. intros [pos|e]; [|apply frame_ret].
    destruct (pos >=? endPos); [apply frame_ret|].
    apply frame_bind; [apply frame_binaryRead|].
    intros [bs|[| |msg]]; try apply frame_ret; try apply frame_fail.
    apply frame_bind; [|intros st; apply IH].
    destruct (String.eqb _ _).
    { apply frame_bind; [apply frame_parseAVIHChunk | intros; apply frame_ret]. }
    destruct (String.eqb _ _).
    { apply frame_bind; [apply frame_parseSTRLList | intros; apply frame_ret]. }
    apply frame_bind; [apply frame_skip | intros; apply frame_ret].
Qed.

Lemma frame_parseLISTChunk (fuel : nat) (size : Z) (streams : list Stream.t)
    (fileInfo : FileInfo.t) :
  frame (parseLISTChunk fuel size streams fileInfo).
Proof.
  unfold parseLISTChunk.
  apply frame_bind; [apply frame_binaryRead|].
  intros [bs|e]; [|apply frame_fail].
  destruct (String.eqb _ _).
  { unfold parseHDRLList. apply frame_bind; [apply frame_rSeek|].
    intros [endPos|e]; [apply frame_parseHDRLList_loop | apply frame_fail]. }
  destruct (String.eqb _ _).
  - apply frame_bind; [apply frame_rSeek|]. intros p.
    apply frame_bind; [apply frame_set_moviOffset|]. intros _.
    apply frame_bind; [apply frame_skip | intros; apply frame_ret].
  - apply frame_bind; [apply frame_skip | intros; apply frame_ret].
Qed.

Lemma frame_parseIDX1Chunk_loop (todo : nat) :
  forall done, frame (parseIDX1Chunk_loop todo done).
Proof.
  induction todo as [|todo IH]; intros done; cbn [parseIDX1Chunk_loop].
  - apply frame_ret.
  - apply frame_bind; [apply frame_binaryRead|].
    intros [bs|e]; [|apply frame_fail].
    apply frame_bind; [apply frame_set_indexEntries | intros; apply IH].
Qed.

Lemma frame_parseIDX1Chunk (size : Z) : frame (parseIDX1Chunk size).
Proof.
  unfold parseIDX1Chunk.
  apply frame_bind; [apply frame_set_indexEntries|].
  intros; apply frame_parseIDX1Chunk_loop.
Qed.

Lemma frame_parseChunks_loop (fuel : nat) :
  forall streams fileInfo, frame (parseChunks_loop fuel streams fileInfo).
Proof.
  induction fuel as [|fuel IH]; intros streams fileInfo; cbn [parseChunks_loop].
  - apply frame_out_of_fuel.
  - apply frame_bind; [apply frame_rSeek|]. intros [pos|e]; [|apply frame_ret].
    apply frame_bind; [apply frame_gets_fileSize|]. intros fileSize.
    destruct (pos >=? int64 (fileSize - 8)); [apply frame_ret|].
    apply frame_bind; [apply frame_binaryRead|].
    intros [bs|[| |msg]]; try apply frame_ret; try apply frame_fail.
    apply frame_bind; [|intros st; apply IH].
    destruct (String.eqb _ _); [apply frame_parseLISTChunk|].
    destruct (String.eqb _ _).
    { apply frame_bind; [apply frame_parseIDX1Chunk | intros; apply frame_ret]. }
    apply frame_bind; [apply frame_skip | intros; apply frame_ret].
Qed.

(** A method whose outcome does not depend on [r.streams] and [r.fileInfo]
    and which, when it succeeds, overwrites both. *)
Definition absorbing (c : M unit) : Prop :=
  forall rd ss fi,
    fst (c (with_meta rd ss fi)) = fst (c rd)
    /\ (fst (c rd) = Ok tt -> snd (c (with_meta rd ss fi)) = snd (c rd)).

Lemma absorbing_bind_frame {A} (c : M A) (k : A -> M unit) :
  frame c -> (forall a, absorbing (k a)) -> absorbing (bind c k).
Proof.
  intros Hc Hk rd ss fi. unfold bind. rewrite (Hc rd ss fi).
  destruct (c rd) as [[a| | |] rd']; cbn [fst snd];
    try (split; [reflexivity | discriminate]).
  apply Hk.
Qed.

Lemma absorbing_fail (op : string) (e : cause) : absorbing (fail op e).
Proof. intros rd ss fi. split; [reflexivity | discriminate]. Qed.

Lemma absorbing_parseChunks (fuel : nat) : absorbing (parseChunks fuel).
Proof.
  unfold parseChunks.
  apply absorbing_bind_frame; [apply frame_gets_filename|]. intros filename.
  apply absorbing_bind_frame; [apply frame_gets_fileSize|]. intros fileSize.
  apply absorbing_bind_frame; [apply frame_rSeek|].
  intros [p|e]; [|apply absorbing_fail].
  apply absorbing_bind_frame; [apply frame_parseChunks_loop|].
  intros [streams fileInfo] rd ss fi. split; reflexivity.
Qed.

Lemma absorbing_parseFile (fuel : nat) : absorbing (parseFile fuel).
Proof.
  unfold parseFile.
  apply absorbing_bind_frame; [apply frame_binaryRead|].
  intros [bs|e]; [|apply absorbing_fail].
  destruct (negb _); [apply absorbing_fail|].
  destruct (negb _); [apply absorbing_fail|].
  apply absorbing_parseChunks.
Qed.

(** What [Open] keeps of the reader it is called on. *)
Definition opened_base (reader : Source.t) (size : Z) (rd : Reader.t) : Reader.t :=
  {| Reader.r := Some reader; Reader.filename := ""; Reader.fileSize := size;
     Reader.streams := []; Reader.fileInfo := None;
     Reader.moviOffset := Reader.moviOffset rd;
     Reader.indexEntries := Reader.indexEntries rd |}.

Lemma Open_from_base (reader : Source.t) (size : Z) (rd : Reader.t) :
  Open reader size rd
  = parseFile (parse_fuel reader)
      (with_meta (opened_base reader size rd) (Reader.streams rd)
         (Reader.fileInfo rd)).
Proof. reflexivity. Qed.

(** What a caller can see of a reader after [Open]: the metadata, the
    stream list, and the packets [ReadAllPackets] reconstructs. *)
Definition observed (rd : Reader.t)
  : outcome FileInfo.t * outcome (list Stream.t) * outcome (list Packet.t) :=
  (fst (GetFileInfo rd), fst (GetStreams rd), fst (ReadAllPackets rd)).

(** What [Open] takes from the reader it is called on.  Two readers that
    are opened on the same bytes (the same size and the same starting
    cursor) and hold the same payload offset and index before the call get
    the same result from [Open] and, when it succeeds, end in the same
    state: nothing else of what a reader held before has an influence. *)
Lemma parse_is_deterministic
    (reader : Source.t) (size : Z) (rd1 rd2 : Reader.t) :
  Reader.moviOffset rd1 = Reader.moviOffset rd2 ->
  Reader.indexEntries rd1 = Reader.indexEntries rd2 ->
  fst (run (Open reader size) rd1) = fst (run (Open reader size) rd2)
  /\ (fst (run (Open reader size) rd1) = Ok tt ->
      snd (run (Open reader size) rd1) = snd (run (Open reader size) rd2)
      /\ observed (snd (run (Open reader size) rd1))
         = observed (snd (run (Open reader size) rd2))).
Proof.
  intros Hm Hi. unfold run. rewrite !Open_from_base.
  assert (Hbase : opened_base reader size rd1 = opened_base reader size rd2).
  { unfold opened_base. now rewrite Hm, Hi. }
  rewrite Hbase.
  set (base := opened_base reader size rd2).
  destruct (absorbing_parseFile (parse_fuel reader) base
              (Reader.streams rd1) (Reader.fileInfo rd1)) as [Ho1 Hs1].
  destruct (absorbing_parseFile (parse_fuel reader) base
              (Reader.streams rd2) (Reader.fileInfo rd2)) as [Ho2 Hs2].
  split; [congruence|].
  intros Hok. rewrite Ho1 in Hok.
  assert (Heq : snd (parseFile (parse_fuel reader)
                       (with_meta base (Reader.streams rd1) (Reader.fileInfo rd1)))
                = snd (parseFile (parse_fuel reader)
                         (with_meta base (Reader.streams rd2) (Reader.fileInfo rd2)))).
  { rewrite Hs1, Hs2 by assumption. reflexivity. }
  split; [exact Heq | now rewrite Heq].
Qed.

(** A fresh reader and one that was used before agree on the scenario file. *)
Lemma parse_is_deterministic_witness :
  let used := with_meta NewDemuxer [Stream.zero] None in
  fst (run (Open (Source.NewReader scenario_file) (len scenario_file)) NewDemuxer)
  = Ok tt
  /\ observed (snd (run (Open (Source.NewReader scenario_file) (len scenario_file))
                        NewDemuxer))
     = observed (snd (run (Open (Source.NewReader scenario_file) (len scenario_file))
                          used)).
Proof.
  intros used.
  destruct (parse_is_deterministic (Source.NewReader scenario_file)
              (len scenario_file) NewDemuxer used) as [_ Hsame];
    [reflexivity | reflexivity |].
  assert (Hok : fst (run (Open (Source.NewReader scenario_file) (len scenario_file))
                         NewDemuxer) = Ok tt) by (vm_compute; reflexivity).
  split; [exact Hok | exact (proj2 (Hsame Hok))].
Defined.

(** The file the muxer writes for one video stream and no packet. *)
Definition no_packet_file : list byte :=
  sink_bytes (snd (run (Serialize [mjpg_codec] []) NewMuxer)).

(** C9 at a reader that was used before.  [Open] sets the source, the size,
    the stream list and the metadata of the reader, but it never clears
    the index and the payload offset that an earlier [Open] left in it.
    The file of one video stream and no packet has 232 bytes, and its
    index chunk starts where the chunk walk stops, so [Open] reads no
    index from it.  Opened on these bytes, a fresh reader and a reader that
    was opened on the scenario file before both return nil and hold the
    same metadata and stream list; but [ReadAllPackets] returns the error
    "no index entries found" on the fresh one, and on the other one the
    five video packets of the scenario file's index. *)
Theorem reopened_reader_returns_stale_packets :
  let open := Open (Source.NewReader no_packet_file) (len no_packet_file) in
  let used := snd (run (Parse scenario_file) NewDemuxer) in
  let rd1 := snd (run open NewDemuxer) in
  let rd2 := snd (run open used) in
  len no_packet_file = 232
  /\ fst (run open NewDemuxer) = Ok tt
  /\ fst (run open used) = Ok tt
  /\ fst (run GetFileInfo rd1) = fst (run GetFileInfo rd2)
  /\ fst (run GetStreams rd1) = fst (run GetStreams rd2)
  /\ fst (run ReadAllPackets rd1)
     = Fail {| Op := "read packets"; Err := Errorf "no index entries found" |}
  /\ (exists packets,
         fst (run ReadAllPackets rd2) = Ok packets
         /\ len packets = 5
         /\ map Packet.DTS packets = [0; 1; 2; 3; 4]
         /\ map Packet.Size packets = [3; 3; 3; 3; 3])
  /\ Reader.indexEntries rd1 = []
  /\ Reader.indexEntries rd2 = Reader.indexEntries used
  /\ len (Reader.indexEntries used) = 10.
Proof.
  cbv zeta. split_conj; try (vm_compute; reflexivity).
  exists (match fst (run ReadAllPackets
                       (snd (run (Open (Source.NewReader no_packet_file)
                                    (len no_packet_file))
                               (snd (run (Parse scenario_file) NewDemuxer)))))
          with Ok l => l | _ => [] end).
  split_conj; vm_compute; reflexivity.
Qed.

(** ** The bytes the muxer writes *)

(** The stream [AddStream] appends for a codec when [i] streams exist. *)
Definition declared_stream (i : Z) (codec : Codec.t) : Stream.t :=
  {| Stream.Index := i; Stream.Type_ := Codec.Type_ codec;
     Stream.Codec := codec; Stream.Duration := 0; Stream.PacketCount := 0 |}.

(** The streams declared for a list of codecs, the first with index [i]. *)
Fixpoint declared_streams (i : Z) (codecs : list Codec.t) : list Stream.t :=
  match codecs with
  | [] => []
  | c :: rest => declared_stream i c :: declared_streams (i + 1) rest
  end.

(** A writer whose sink holds [out] with the cursor at its end. *)
Definition writing (streams : list Stream.t) (packets : list Packet.t)
    (out : list byte) : Writer.t :=
  {| Writer.w := Some {| SeekableBuffer.buf := out; SeekableBuffer.pos := len out |};
     Writer.filename := ""; Writer.streams := streams;
     Writer.packets := packets |}.

Definition is_video (s : Stream.t) : bool := String.eqb (Stream.Type_ s) StreamTypeVideo.
Definition is_audio (s : Stream.t) : bool := String.eqb (Stream.Type_ s) StreamTypeAudio.

(** The sizes the [calculate...Size] methods return. *)
Definition strl_size (s : Stream.t) : Z :=
  if is_video s then 116 else if is_audio s then 92 else 68.

Definition hdrl_size (streams : list Stream.t) : Z :=
  fold_left (fun size s => wrap32 (size + wrap32 (strl_size s + 8))) streams 68.

Definition packet_span (p : Packet.t) : Z :=
  wrap32 (8 + AlignSize (wrap32 (len (Packet.Data p)))).

Definition movi_size (packets : list Packet.t) : Z :=
  fold_left (fun size p => wrap32 (size + packet_span p)) packets 4.

Definition idx1_size (packets : list Packet.t) : Z :=
  wrap32 (int64 (len packets * 16)).

Definition riff_size (streams : list Stream.t) (packets : list Packet.t) : Z :=
  wrap32 (wrap32 (wrap32 (wrap32 (wrap32 (4 + hdrl_size streams) + 8)
                          + movi_size packets) + 8)
          + idx1_size packets).

(** The header fields [writeSTRHChunk] fills in for a stream. *)
Definition stream_scale_rate (s : Stream.t) : Z * Z :=
  if is_video s && GoFloat.positive (Codec.FPS (Stream.Codec s)) then
    (1000, GoFloat.to_uint32 (PrimFloat.mul (Codec.FPS (Stream.Codec s)) 1000%float))
  else if is_audio s && (Codec.SampleRate (Stream.Codec s) >? 0) then
    (1, wrap32 (Codec.SampleRate (Stream.Codec s)))
  else (1, 1).

Definition stream_length (packets : list Packet.t) (streamIndex : Z) : Z :=
  fold_left (fun length p =>
               if Packet.StreamIndex p =? streamIndex
               then wrap32 (length + 1) else length) packets 0.

Definition stream_header (packets : list Packet.t) (i : Z) (s : Stream.t)
  : AVIStreamHeader :=
  {| strh_Type :=
       if is_video s then StringToChunkID STREAMTypeVideo
       else if is_audio s then StringToChunkID STREAMTypeAudio
       else (x00, x00, x00, x00);
     strh_Handler := Codec.FourCC (Stream.Codec s);
     strh_Flags := 0; strh_Priority := 0; strh_Language := 0;
     strh_InitialFrames := 0;
     strh_Scale := fst (stream_scale_rate s);
     strh_Rate := snd (stream_scale_rate s);
     strh_Start := 0;
     strh_Length := stream_length packets i;
     strh_SuggestedBufferSize := 0;
     strh_Quality := 4294967295;
     strh_SampleSize := 0;
     strh_Frame :=
       if is_video s then
         {| rc_Left := 0; rc_Top := 0;
            rc_Right := wrap16 (Codec.Width (Stream.Codec s));
            rc_Bottom := wrap16 (Codec.Height (Stream.Codec s)) |}
       else {| rc_Left := 0; rc_Top := 0; rc_Right := 0; rc_Bottom := 0 |} |}.

Definition video_format (s : Stream.t) : BitmapInfoHeader :=
  {| bih_Size := 40;
     bih_Width := int32 (Codec.Width (Stream.Codec s));
     bih_Height := int32 (Codec.Height (Stream.Codec s));
     bih_Planes := 1; bih_BitCount := 24;
     bih_Compression := Codec.FourCC (Stream.Codec s);
     bih_SizeImage := 0; bih_XPelsPerMeter := 0; bih_YPelsPerMeter := 0;
     bih_ClrUsed := 0; bih_ClrImportant := 0 |}.

Definition chunk (id : string) (size : Z) : list byte :=
  encode_ChunkHeader {| ch_ID := StringToChunkID id; ch_Size := size |}.

Definition list_header (size : Z) (type : string) : list byte :=
  encode_LISTHeader
    {| list_ChunkHeader := {| ch_ID := StringToChunkID LISTSignature; ch_Size := size |};
       list_Type := StringToChunkID type |}.

(** The bytes of one [strl] list. *)
Definition strf_bytes (s : Stream.t) : list byte :=
  if is_video s then chunk STRFChunk 40 ++ encode_BitmapInfoHeader (video_format s)
  else if is_audio s then chunk STRFChunk 16 ++ encode_WaveFormatEx (audioFormat s)
  else [].

Definition strl_bytes (packets : list Packet.t) (i : Z) (s : Stream.t) : list byte :=
  list_header (strl_size s) STRLList
  ++ (chunk STRHChunk 56 ++ encode_AVIStreamHeader (stream_header packets i s))
  ++ strf_bytes s.

(** The [strl] lists of the streams [rest], the first of which has index [i]. *)
Fixpoint strls_bytes (packets : list Packet.t) (i : Z) (rest : list Stream.t)
  : list byte :=
  match rest with
  | [] => []
  | s :: rest => strl_bytes packets i s ++ strls_bytes packets (i + 1) rest
  end.

(** The frame count of [writeAVIHChunk]; [None] when a packet's stream
    index is out of range. *)
Fixpoint total_frames (streams : list Stream.t) (packets : list Packet.t)
    (totalFrames : Z) : option Z :=
  match packets with
  | [] => Some totalFrames
  | p :: rest =>
      match index streams (Packet.StreamIndex p) with
      | None => None
      | Some s =>
          total_frames streams rest
            (if is_video s then wrap32 (totalFrames + 1) else totalFrames)
      end
  end.

Definition main_header (streams : list Stream.t) (totalFrames : Z) : AVIMainHeader :=
  let '(width, height, microSecPerFrame) := first_video streams in
  {| avih_MicroSecPerFrame := microSecPerFrame;
     avih_MaxBytesPerSec := 0;
     avih_PaddingGranularity := 0;
     avih_Flags := 2064;
     avih_TotalFrames := totalFrames;
     avih_InitialFrames := 0;
     avih_Streams := wrap32 (len streams);
     avih_SuggestedBufferSize := 0;
     avih_Width := width;
     avih_Height := height;
     avih_Reserved := (0, 0, 0, 0) |}.

Definition avih_bytes (streams : list Stream.t) (totalFrames : Z) : list byte :=
  chunk AVIHChunk 56 ++ encode_AVIMainHeader (main_header streams totalFrames).

Definition hdrl_bytes (streams : list Stream.t) (packets : list Packet.t)
    (totalFrames : Z) : list byte :=
  list_header (hdrl_size streams) HDRLList
  ++ avih_bytes streams totalFrames
  ++ strls_bytes packets 0 streams.

(** The tag of a packet's chunk. *)
Definition packet_tag (streams : list Stream.t) (p : Packet.t) : option fourcc :=
  match index streams (Packet.StreamIndex p) with
  | None => None
  | Some s => MakeChunkID (Packet.StreamIndex p) (packetTwoCC s p)
  end.

Definition packet_bytes (id : fourcc) (p : Packet.t) : list byte :=
  encode_ChunkHeader {| ch_ID := id; ch_Size := wrap32 (len (Packet.Data p)) |}
  ++ Packet.Data p
  ++ (if Z.rem (len (Packet.Data p)) 2 =? 1 then [x00] else []).

Fixpoint packets_bytes (streams : list Stream.t) (packets : list Packet.t)
  : option (list byte) :=
  match packets with
  | [] => Some []
  | p :: rest =>
      match packet_tag streams p, packets_bytes streams rest with
      | Some id, Some bs => Some (packet_bytes id p ++ bs)
      | _, _ => None
      end
  end.

Definition index_entry (id : fourcc) (p : Packet.t) (offset : Z) : IndexEntry :=
  {| ie_ChunkID := id;
     ie_Flags := if String.eqb (Packet.Flags p) "K__" then 16 else 0;
     ie_Offset := offset;
     ie_Size := wrap32 (len (Packet.Data p)) |}.

(** The index entries of the packets, the first at [offset]. *)
Fixpoint index_entries (streams : list Stream.t) (packets : list Packet.t)
    (offset : Z) : option (list IndexEntry) :=
  match packets with
  | [] => Some []
  | p :: rest =>
      match packet_tag streams p,
            index_entries streams rest (wrap32 (offset + packet_span p)) with
      | Some id, Some es => Some (index_entry id p offset :: es)
      | _, _ => None
      end
  end.

Definition entries_bytes (entries : list IndexEntry) : list byte :=
  flat_map encode_IndexEntry entries.

(** The whole file. *)
Definition file_bytes (streams : list Stream.t) (packets : list Packet.t)
  : option (list byte) :=
  match total_frames streams packets 0, packets_bytes streams packets,
        index_entries streams packets 4 with
  | Some totalFrames, Some payload, Some entries =>
      Some (encode_RIFFHeader
              {| riff_Signature := StringToChunkID RIFFSignature;
                 riff_FileSize := riff_size streams packets;
                 riff_Type := StringToChunkID AVISignature |}
            ++ hdrl_bytes streams packets totalFrames
            ++ (list_header (movi_size packets) MOVIList ++ payload)
            ++ (chunk IDX1Chunk (idx1_size packets) ++ entries_bytes entries))
  | _, _, _ => None
  end.

(** *** The writer, method by method *)

Lemma wWrite_writing (ss : list Stream.t) (ps : list Packet.t)
    (out p : list byte) :
  wWrite p (writing ss ps out) = (Ok tt, writing ss ps (out ++ p)).
Proof.
  unfold wWrite, writing. cbn [Writer.w Writer.filename Writer.streams
    Writer.packets]. rewrite Write_at_end by reflexivity. reflexivity.
Qed.

Lemma stream_at_writing (ss : list Stream.t) (ps : list Packet.t)
    (out : list byte) (i : Z) (s : Stream.t) :
  index ss i = Some s ->
  stream_at i (writing ss ps out) = (Ok s, writing ss ps out).
Proof. intros H. now apply stream_at_Some. Qed.

Lemma index_middle {A} (pre rest : list A) (x : A) :
  index (pre ++ x :: rest) (len pre) = Some x.
Proof.
  unfold index, len. destruct (Z.ltb_spec (Z.of_nat (List.length pre)) 0); [lia|].
  rewrite Nat2Z.id, nth_error_app2, Nat.sub_diag by lia. reflexivity.
Qed.

Lemma len_cons {A} (x : A) (l : list A) : len (x :: l) = 1 + len l.
Proof. unfold len. cbn [List.length]. lia. Qed.

Lemma len_snoc {A} (l : list A) (x : A) : len (l ++ [x]) = len l + 1.
Proof. rewrite len_app. reflexivity. Qed.

Lemma calculateSTRLSize_writing (ss : list Stream.t) (ps : list Packet.t)
    (out : list byte) (i : Z) (s : Stream.t) :
  index ss i = Some s ->
  calculateSTRLSize i (writing ss ps out) = (Ok (strl_size s), writing ss ps out).
Proof.
  intros H. unfold calculateSTRLSize.
  erewrite bind_Ok by (apply stream_at_writing; exact H).
  unfold strl_size, is_video, is_audio.
  destruct (String.eqb _ StreamTypeVideo); [reflexivity|].
  destruct (String.eqb _ StreamTypeAudio); reflexivity.
Qed.

Lemma indices_split {A} (pre : list A) (x : A) (rest : list A) :
  map Z.of_nat (seq (List.length pre) (List.length (x :: rest)))
  = len pre :: map Z.of_nat (seq (List.length (pre ++ [x])) (List.length rest)).
Proof.
  cbn [List.length seq map]. unfold len. f_equal.
  rewrite length_app. cbn [List.length]. now rewrite Nat.add_1_r.
Qed.

Lemma calculateHDRLSize_loop (ps : list Packet.t) (out : list byte)
    (rest : list Stream.t) :
  forall (pre : list Stream.t) (size : Z),
    for_fold (map Z.of_nat (seq (List.length pre) (List.length rest))) size
      (fun size i =>
         strl <- calculateSTRLSize i ;;
         ret (wrap32 (size + wrap32 (strl + 8))))
      (writing (pre ++ rest) ps out)
    = (Ok (fold_left (fun size s => wrap32 (size + wrap32 (strl_size s + 8)))
                     rest size),
       writing (pre ++ rest) ps out).
Proof.
  induction rest as [|s rest IH]; intros pre size.
  - reflexivity.
  - rewrite indices_split. cbn [for_fold fold_left].
    erewrite bind_Ok.
    2:{ erewrite bind_Ok by (apply calculateSTRLSize_writing, index_middle).
        reflexivity. }
    replace (pre ++ s :: rest) with ((pre ++ [s]) ++ rest)
      by (now rewrite <- app_assoc).
    apply IH.
Qed.

Lemma calculateHDRLSize_writing (ss : list Stream.t) (ps : list Packet.t)
    (out : list byte) :
  calculateHDRLSize (writing ss ps out) = (Ok (hdrl_size ss), writing ss ps out).
Proof.
  unfold calculateHDRLSize, bind at 1, get.
  exact (calculateHDRLSize_loop ps out ss [] 68).
Qed.

Lemma for_fold_pure {S A B} (f : B -> A -> B) (l : list A) (st : S) :
  forall acc,
    for_fold l acc (fun acc x => ret (f acc x)) st = (Ok (fold_left f l acc), st).
Proof.
  induction l as [|x l IH]; intros acc; [reflexivity|].
  cbn [for_fold fold_left]. unfold bind at 1, ret at 1. apply IH.
Qed.

Lemma calculateMOVISize_writing (ss : list Stream.t) (ps : list Packet.t)
    (out : list byte) :
  calculateMOVISize (writing ss ps out) = (Ok (movi_size ps), writing ss ps out).
Proof.
  unfold calculateMOVISize, bind at 1, get.
  exact (for_fold_pure _ ps _ 4).
Qed.

Lemma calculateIDX1Size_writing (ss : list Stream.t) (ps : list Packet.t)
    (out : list byte) :
  calculateIDX1Size (writing ss ps out) = (Ok (idx1_size ps), writing ss ps out).
Proof. reflexivity. Qed.

Lemma total_frames_loop (ss : list Stream.t) (ps0 : list Packet.t)
    (out : list byte) (ps : list Packet.t) :
  forall totalFrames n,
    total_frames ss ps totalFrames = Some n ->
    for_fold ps totalFrames
      (fun totalFrames packet =>
         stream <- stream_at (Packet.StreamIndex packet) ;;
         if String.eqb (Stream.Type_ stream) StreamTypeVideo
         then ret (wrap32 (totalFrames + 1))
         else ret totalFrames)
      (writing ss ps0 out)
    = (Ok n, writing ss ps0 out).
Proof.
  induction ps as [|p ps IH]; intros totalFrames n H; cbn in H.
  - injection H as <-. reflexivity.
  - destruct (index ss (Packet.StreamIndex p)) as [s|] eqn:Hs; [|discriminate].
    cbn [for_fold].
    rewrite (bind_Ok _ _ _ (writing ss ps0 out)
               (if is_video s then wrap32 (totalFrames + 1) else totalFrames)).
    + apply IH. exact H.
    + erewrite bind_Ok by (apply stream_at_writing; exact Hs).
      unfold is_video. destruct (String.eqb _ _); reflexivity.
Qed.

Lemma writeAVIHChunk_writing (ss : list Stream.t) (ps : list Packet.t)
    (out : list byte) (n : Z) :
  total_frames ss ps 0 = Some n ->
  writeAVIHChunk (writing ss ps out)
  = (Ok tt, writing ss ps (out ++ avih_bytes ss n)).
Proof.
  intros Hn. unfold writeAVIHChunk, bind at 1, get.
  unfold avih_bytes, main_header. cbn [Writer.streams Writer.packets writing].
  destruct (first_video ss) as [[width height] us].
  erewrite bind_Ok by (apply total_frames_loop; exact Hn).
  erewrite bind_Ok by apply wWrite_writing.
  rewrite wWrite_writing. now rewrite <- app_assoc.
Qed.

Lemma writeSTRHChunk_writing (ss : list Stream.t) (ps : list Packet.t)
    (out : list byte) (i : Z) (s : Stream.t) :
  index ss i = Some s ->
  writeSTRHChunk i (writing ss ps out)
  = (Ok tt,
     writing ss ps
       (out ++ chunk STRHChunk 56 ++ encode_AVIStreamHeader (stream_header ps i s))).
Proof.
  intros Hs. unfold writeSTRHChunk.
  erewrite bind_Ok by (apply stream_at_writing; exact Hs).
  unfold bind at 1, get. cbn [Writer.packets writing].
  unfold stream_header, stream_scale_rate, is_video, is_audio.
  destruct (if _ && _ then _ else _) as [scale rate] eqn:Esr.
  erewrite bind_Ok.
  2:{ apply (for_fold_pure
               (fun length p => if Packet.StreamIndex p =? i
                                then wrap32 (length + 1) else length)). }
  erewrite bind_Ok by apply wWrite_writing.
  rewrite wWrite_writing. rewrite <- app_assoc. reflexivity.
Qed.

Lemma writeSTRFChunk_writing (ss : list Stream.t) (ps : list Packet.t)
    (out : list byte) (i : Z) (s : Stream.t) :
  index ss i = Some s ->
  writeSTRFChunk i (writing ss ps out)
  = (Ok tt, writing ss ps (out ++ strf_bytes s)).
Proof.
  intros Hs. unfold writeSTRFChunk, strf_bytes, is_video, is_audio.
  erewrite bind_Ok by (apply stream_at_writing; exact Hs).
  destruct (String.eqb _ StreamTypeVideo).
  { unfold writeVideoFormat.
    erewrite bind_Ok by (apply stream_at_writing; exact Hs).
    erewrite bind_Ok by apply wWrite_writing.
    rewrite wWrite_writing. now rewrite <- app_assoc. }
  destruct (String.eqb _ StreamTypeAudio).
  { unfold writeAudioFormat.
    erewrite bind_Ok by (apply stream_at_writing; exact Hs).
    erewrite bind_Ok by apply wWrite_writing.
    rewrite wWrite_writing. now rewrite <- app_assoc. }
  unfold ret. now rewrite app_nil_r.
Qed.

Lemma writeSTRLList_writing (ss : list Stream.t) (ps : list Packet.t)
    (out : list byte) (i : Z) (s : Stream.t) :
  index ss i = Some s ->
  writeSTRLList i (writing ss ps out)
  = (Ok tt, writing ss ps (out ++ strl_bytes ps i s)).
Proof.
  intros Hs. unfold writeSTRLList, strl_bytes.
  erewrite bind_Ok by (apply calculateSTRLSize_writing; exact Hs).
  erewrite bind_Ok by apply wWrite_writing.
  erewrite bind_Ok by (apply writeSTRHChunk_writing; exact Hs).
  rewrite (writeSTRFChunk_writing _ _ _ _ _ Hs).
  now rewrite <- !app_assoc.
Qed.

Lemma writeSTRLList_loop (ps : list Packet.t) (rest : list Stream.t) :
  forall (pre : list Stream.t) (out : list byte),
    for_each (map Z.of_nat (seq (List.length pre) (List.length rest)))
      writeSTRLList (writing (pre ++ rest) ps out)
    = (Ok tt, writing (pre ++ rest) ps (out ++ strls_bytes ps (len pre) rest)).
Proof.
  induction rest as [|s rest IH]; intros pre out.
  - cbn [List.length seq map for_each strls_bytes]. unfold ret.
    now rewrite !app_nil_r.
  - rewrite indices_split. cbn [for_each strls_bytes].
    erewrite bind_Ok by (apply writeSTRLList_writing, index_middle).
    replace (pre ++ s :: rest) with ((pre ++ [s]) ++ rest)
      by (now rewrite <- app_assoc).
    rewrite IH. rewrite len_snoc, <- !app_assoc. reflexivity.
Qed.

Lemma writeHDRLList_writing (ss : list Stream.t) (ps : list Packet.t)
    (out : list byte) (n : Z) :
  total_frames ss ps 0 = Some n ->
  writeHDRLList (writing ss ps out)
  = (Ok tt, writing ss ps (out ++ hdrl_bytes ss ps n)).
Proof.
  intros Hn. unfold writeHDRLList, hdrl_bytes.
  erewrite bind_Ok by apply calculateHDRLSize_writing.
  erewrite bind_Ok by apply wWrite_writing.
  erewrite bind_Ok by (apply writeAVIHChunk_writing; exact Hn).
  unfold bind at 1, get. cbn [Writer.streams writing].
  pose proof (writeSTRLList_loop ps ss [] ((out ++ list_header (hdrl_size ss) HDRLList)
                                            ++ avih_bytes ss n)) as H.
  cbn [app List.length] in H. unfold indices, list_header in *. rewrite H.
  change (len (@nil Stream.t)) with 0. now rewrite <- !app_assoc.
Qed.

Lemma writePacketData_writing (ss : list Stream.t) (ps : list Packet.t)
    (out : list byte) (p : Packet.t) (id : fourcc) :
  packet_tag ss p = Some id ->
  writePacketData p (writing ss ps out)
  = (Ok tt, writing ss ps (out ++ packet_bytes id p)).
Proof.
  unfold packet_tag, writePacketData, packet_bytes. intros Hid.
  destruct (index ss (Packet.StreamIndex p)) as [s|] eqn:Hs; [|discriminate].
  erewrite bind_Ok by (apply stream_at_writing; exact Hs).
  rewrite Hid.
  erewrite bind_Ok by apply wWrite_writing.
  erewrite bind_Ok by apply wWrite_writing.
  destruct (Z.rem _ 2 =? 1).
  - rewrite wWrite_writing. now rewrite <- !app_assoc.
  - unfold ret. now rewrite app_nil_r, <- !app_assoc.
Qed.

Lemma writePacketData_loop (ss : list Stream.t) (ps0 : list Packet.t)
    (ps : list Packet.t) :
  forall (out payload : list byte),
    packets_bytes ss ps = Some payload ->
    for_each ps writePacketData (writing ss ps0 out)
    = (Ok tt, writing ss ps0 (out ++ payload)).
Proof.
  induction ps as [|p ps IH]; intros out payload H; cbn in H.
  - injection H as <-. cbn. unfold ret. now rewrite app_nil_r.
  - destruct (packet_tag ss p) as [id|] eqn:Hid; [|discriminate].
    destruct (packets_bytes ss ps) as [bs|] eqn:Hbs; [|discriminate].
    injection H as <-. cbn [for_each].
    erewrite bind_Ok by (apply writePacketData_writing; exact Hid).
    rewrite (IH _ bs eq_refl). now rewrite <- app_assoc.
Qed.

Lemma writeMOVIList_writing (ss : list Stream.t) (ps : list Packet.t)
    (out payload : list byte) :
  packets_bytes ss ps = Some payload ->
  writeMOVIList (writing ss ps out)
  = (Ok tt, writing ss ps (out ++ list_header (movi_size ps) MOVIList ++ payload)).
Proof.
  intros H. unfold writeMOVIList.
  erewrite bind_Ok by apply calculateMOVISize_writing.
  erewrite bind_Ok by apply wWrite_writing.
  unfold bind at 1, get. cbn [Writer.packets writing].
  rewrite (writePacketData_loop ss ps ps _ payload H).
  unfold list_header. now rewrite <- app_assoc.
Qed.

Lemma writeIDX1_loop (ss : list Stream.t) (ps0 : list Packet.t)
    (ps : list Packet.t) :
  forall (out : list byte) (offset : Z) (entries : list IndexEntry),
    index_entries ss ps offset = Some entries ->
    exists final,
      for_fold ps offset
        (fun currentOffset packet =>
           stream <- stream_at (Packet.StreamIndex packet) ;;
           let twoCC := packetTwoCC stream packet in
           match MakeChunkID (Packet.StreamIndex packet) twoCC with
           | None => panic
           | Some chunkID =>
               let flags :=
                 if String.eqb (Packet.Flags packet) "K__" then 16 else 0 in
               let entry :=
                 {| ie_ChunkID := chunkID;
                    ie_Flags := flags;
                    ie_Offset := currentOffset;
                    ie_Size := wrap32 (len (Packet.Data packet)) |} in
               wWrite (encode_IndexEntry entry) ;;;
               ret (wrap32 (currentOffset
                            + wrap32 (8 + AlignSize (wrap32 (len (Packet.Data packet))))))
           end)
        (writing ss ps0 out)
      = (Ok final, writing ss ps0 (out ++ entries_bytes entries)).
Proof.
  induction ps as [|p ps IH]; intros out offset entries H; cbn in H.
  - injection H as <-. exists offset. cbn. unfold ret. now rewrite app_nil_r.
  - unfold packet_tag in H.
    destruct (index ss (Packet.StreamIndex p)) as [s|] eqn:Hs; [|discriminate].
    destruct (MakeChunkID _ _) as [id|] eqn:Hid; [|discriminate].
    destruct (index_entries ss ps _) as [es|] eqn:Hes; [|discriminate].
    injection H as <-.
    destruct (IH (out ++ encode_IndexEntry (index_entry id p offset)) _ es Hes)
      as [final Hfinal].
    exists final. cbn [for_fold].
    erewrite bind_Ok.
    2:{ erewrite bind_Ok by (apply stream_at_writing; exact Hs).
        cbv zeta. rewrite Hid.
        erewrite bind_Ok by apply wWrite_writing. reflexivity. }
    unfold packet_span in Hfinal. unfold index_entry in Hfinal.
    rewrite Hfinal. cbn [entries_bytes flat_map]. now rewrite <- app_assoc.
Qed.

Lemma writeIDX1Chunk_writing (ss : list Stream.t) (ps : list Packet.t)
    (out : list byte) (entries : list IndexEntry) :
  index_entries ss ps 4 = Some entries ->
  writeIDX1Chunk (writing ss ps out)
  = (Ok tt,
     writing ss ps (out ++ chunk IDX1Chunk (idx1_size ps) ++ entries_bytes entries)).
Proof.
  intros H. unfold writeIDX1Chunk, bind at 1, get.
  cbn [Writer.packets writing].
  erewrite bind_Ok by apply wWrite_writing.
  destruct (writeIDX1_loop ss ps ps
              (out ++ chunk IDX1Chunk (idx1_size ps)) 4 entries H) as [final Hf].
  unfold chunk, idx1_size in *.
  erewrite bind_Ok by exact Hf.
  unfold ret. now rewrite <- app_assoc.
Qed.

Lemma Some_inj {A} (a b : A) : Some a = Some b -> a = b.
Proof. now intros [= ->]. Qed.

(** [Finalize] appends the file to a sink whose cursor is at its end. *)
Lemma Finalize_writing (ss : list Stream.t) (ps : list Packet.t)
    (out file : list byte) :
  file_bytes ss ps = Some file ->
  Finalize (writing ss ps out) = (Ok tt, writing ss ps (out ++ file)).
Proof.
  unfold file_bytes. intros H.
  destruct (total_frames ss ps 0) as [n|] eqn:Hn; [|discriminate].
  destruct (packets_bytes ss ps) as [payload|] eqn:Hp; [|discriminate].
  destruct (index_entries ss ps 4) as [entries|] eqn:He; [|discriminate].
  apply Some_inj in H. subst file.
  unfold Finalize, bind at 1, get. cbn [Writer.w writing].
  unfold writeAVIFile.
  erewrite bind_Ok by apply calculateMOVISize_writing.
  erewrite bind_Ok by apply calculateHDRLSize_writing.
  erewrite bind_Ok by apply calculateIDX1Size_writing.
  erewrite bind_Ok by apply wWrite_writing.
  erewrite bind_Ok by (apply writeHDRLList_writing; exact Hn).
  erewrite bind_Ok by (apply writeMOVIList_writing; exact Hp).
  rewrite (writeIDX1Chunk_writing _ _ _ _ He).
  unfold riff_size. now rewrite <- !app_assoc.
Qed.

Lemma AddStream_loop (codecs : list Codec.t) :
  forall (ss : list Stream.t) (out : list byte),
    for_each codecs (fun c => AddStream c ;;; ret tt) (writing ss [] out)
    = (Ok tt, writing (ss ++ declared_streams (len ss) codecs) [] out).
Proof.
  induction codecs as [|c codecs IH]; intros ss out.
  - cbn. unfold ret. now rewrite app_nil_r.
  - cbn [for_each declared_streams].
    rewrite (bind_Ok _ _ _ (writing (ss ++ [declared_stream (len ss) c]) [] out) tt)
      by reflexivity.
    rewrite IH, len_snoc, <- app_assoc. reflexivity.
Qed.

(** The packets refer to declared streams. *)
Definition indices_declared (n : Z) (packets : list Packet.t) : Prop :=
  Forall (fun p => 0 <= Packet.StreamIndex p < n) packets.

Lemma WritePacket_loop (ss : list Stream.t) (out : list byte)
    (packets : list Packet.t) :
  indices_declared (len ss) packets ->
  forall ps,
    for_each packets WritePacket (writing ss ps out)
    = (Ok tt, writing ss (ps ++ packets) out).
Proof.
  induction 1 as [|p packets Hp _ IH]; intros ps.
  - cbn. unfold ret. now rewrite app_nil_r.
  - cbn [for_each].
    rewrite (bind_Ok _ _ _ (writing ss (ps ++ [p]) out) tt).
    + rewrite IH, <- app_assoc. reflexivity.
    + unfold WritePacket, bind, get. cbn [Writer.w Writer.streams writing].
      destruct (Z.geb_spec (Packet.StreamIndex p) (len ss)); [lia | reflexivity].
Qed.

(** Serialization succeeds when the layout is defined, and leaves exactly
    the file in the sink. *)
Lemma Serialize_spec (codecs : list Codec.t) (packets : list Packet.t)
    (file : list byte) :
  indices_declared (len codecs) packets ->
  file_bytes (declared_streams 0 codecs) packets = Some file ->
  run (Serialize codecs packets) NewMuxer
  = (Ok tt, writing (declared_streams 0 codecs) packets file).
Proof.
  intros Hidx Hfile. unfold run, Serialize.
  rewrite (bind_Ok _ _ _ (writing [] [] []) tt) by reflexivity.
  erewrite bind_Ok by apply AddStream_loop.
  cbn [app]. change (len (@nil Stream.t)) with 0.
  erewrite bind_Ok.
  2:{ apply WritePacket_loop.
      replace (len (declared_streams 0 codecs)) with (len codecs); [exact Hidx|].
      clear. generalize 0. induction codecs as [|c l IH]; intros i; [reflexivity|].
      cbn [declared_streams]. rewrite !len_cons. now rewrite <- (IH (i + 1)). }
  cbn [app]. apply (Finalize_writing _ _ [] file Hfile).
Qed.

(** ** Decoding what was encoded *)

Lemma le_decode_le16 (z : Z) : le_decode (le16 z) = wrap16 z.
Proof.
  unfold le16, wrap16. cbn [le_decode]. rewrite !Z_of_byte_of_Z.
  rewrite Z.shiftr_div_pow2 by lia.
  change (2 ^ 16) with (256 * 256). change (2 ^ 8) with 256.
  rewrite (Z.rem_mul_r z 256 256) by lia. ring.
Qed.

Lemma le_decode_le32 (z : Z) : le_decode (le32 z) = wrap32 z.
Proof.
  unfold le32, wrap32. cbn [le_decode]. rewrite !Z_of_byte_of_Z.
  rewrite !Z.shiftr_div_pow2 by lia.
  change (2 ^ 32) with (256 * (256 * (256 * 256))).
  change (2 ^ 8) with 256. change (2 ^ 16) with (256 * 256).
  change (2 ^ 24) with (256 * (256 * 256)).
  rewrite (Z.rem_mul_r z 256 (256 * (256 * 256))) by lia.
  rewrite (Z.rem_mul_r (z / 256) 256 (256 * 256)) by lia.
  rewrite (Z.rem_mul_r (z / 256 / 256) 256 256) by lia.
  rewrite !Z.div_div by lia.
  change (256 * 256 * 256) with (256 * (256 * 256)). ring.
Qed.

Lemma wrap32_small (z : Z) : 0 <= z < 2 ^ 32 -> wrap32 z = z.
Proof. intros H. unfold wrap32. now apply Z.mod_small. Qed.

Lemma wrap16_small (z : Z) : 0 <= z < 2 ^ 16 -> wrap16 z = z.
Proof. intros H. unfold wrap16. now apply Z.mod_small. Qed.

Lemma wrap32_range (z : Z) : 0 <= wrap32 z < 2 ^ 32.
Proof. unfold wrap32. apply Z.mod_pos_bound. lia. Qed.

Lemma int32_wrap32 (z : Z) : - 2 ^ 31 <= z < 2 ^ 31 -> int32 (wrap32 z) = z.
Proof.
  intros H. unfold int32, swrap, wrap32. change (32 - 1) with 31.
  rewrite Zplus_mod_idemp_l. rewrite Z.mod_small; lia.
Qed.

Lemma int32_small (z : Z) : - 2 ^ 31 <= z < 2 ^ 31 -> int32 z = z.
Proof.
  intros H. unfold int32, swrap. change (32 - 1) with 31.
  rewrite Z.mod_small; lia.
Qed.

(** The fields of an encoded struct, one by one. *)
Ltac decode_fields :=
  cbv [u32_at u16_at i32_at fourcc_at field];
  cbn [app firstn skipn nth Nat.add fourcc_bytes];
  repeat match goal with
    | |- context [le_decode [byte_of_Z ?z; byte_of_Z (Z.shiftr ?z 8);
                             byte_of_Z (Z.shiftr ?z 16);
                             byte_of_Z (Z.shiftr ?z 24)]] =>
        change (le_decode [byte_of_Z z; byte_of_Z (Z.shiftr z 8);
                           byte_of_Z (Z.shiftr z 16); byte_of_Z (Z.shiftr z 24)])
          with (le_decode (le32 z));
        rewrite (le_decode_le32 z)
    | |- context [le_decode [byte_of_Z ?z; byte_of_Z (Z.shiftr ?z 8)]] =>
        change (le_decode [byte_of_Z z; byte_of_Z (Z.shiftr z 8)])
          with (le_decode (le16 z));
        rewrite (le_decode_le16 z)
    end.

Lemma decode_encode_ChunkHeader (h : ChunkHeader) :
  decode_ChunkHeader (encode_ChunkHeader h)
  = {| ch_ID := ch_ID h; ch_Size := wrap32 (ch_Size h) |}.
Proof.
  destruct h as [[[[a b] c] d] size].
  unfold decode_ChunkHeader, encode_ChunkHeader, le32.
  cbn [ch_ID ch_Size]. decode_fields. reflexivity.
Qed.

Lemma decode_encode_IndexEntry (e : IndexEntry) :
  decode_IndexEntry (encode_IndexEntry e)
  = {| ie_ChunkID := ie_ChunkID e; ie_Flags := wrap32 (ie_Flags e);
       ie_Offset := wrap32 (ie_Offset e); ie_Size := wrap32 (ie_Size e) |}.
Proof.
  destruct e as [[[[a b] c] d] flags offset size].
  unfold decode_IndexEntry, encode_IndexEntry, le32.
  cbn [ie_ChunkID ie_Flags ie_Offset ie_Size]. decode_fields. reflexivity.
Qed.

Lemma decode_encode_AVIStreamHeader (h : AVIStreamHeader) :
  let d := decode_AVIStreamHeader (encode_AVIStreamHeader h) in
  strh_Type d = strh_Type h
  /\ strh_Handler d = strh_Handler h
  /\ strh_Scale d = wrap32 (strh_Scale h)
  /\ strh_Rate d = wrap32 (strh_Rate h)
  /\ strh_Length d = wrap32 (strh_Length h).
Proof.
  destruct h as [[[[a b] c] d] [[[e f] g] i] ? ? ? ? ? ? ? ? ? ? ? [? ? ? ?]].
  unfold decode_AVIStreamHeader, encode_AVIStreamHeader, le32, le16.
  cbn [strh_Type strh_Handler strh_Flags strh_Priority strh_Language
       strh_InitialFrames strh_Scale strh_Rate strh_Start strh_Length
       strh_SuggestedBufferSize strh_Quality strh_SampleSize strh_Frame
       rc_Left rc_Top rc_Right rc_Bottom].
  decode_fields. repeat split.
Qed.

Lemma decode_encode_BitmapInfoHeader (h : BitmapInfoHeader) :
  let d := decode_BitmapInfoHeader (encode_BitmapInfoHeader h) in
  bih_Width d = int32 (wrap32 (bih_Width h))
  /\ bih_Height d = int32 (wrap32 (bih_Height h)).
Proof.
  destruct h as [? ? ? ? ? [[[a b] c] d] ? ? ? ? ?].
  unfold decode_BitmapInfoHeader, encode_BitmapInfoHeader, le32, le16.
  cbn [bih_Size bih_Width bih_Height bih_Planes bih_BitCount bih_Compression
       bih_SizeImage bih_XPelsPerMeter bih_YPelsPerMeter bih_ClrUsed
       bih_ClrImportant].
  decode_fields. repeat split.
Qed.

Lemma decode_encode_WaveFormatEx (h : WaveFormatEx) :
  let d := decode_WaveFormatEx (encode_WaveFormatEx h) in
  wfx_Channels d = wrap16 (wfx_Channels h)
  /\ wfx_SamplesPerSec d = wrap32 (wfx_SamplesPerSec h)
  /\ wfx_BitsPerSample d = wrap16 (wfx_BitsPerSample h).
Proof.
  destruct h as [? ? ? ? ? ? ?].
  unfold decode_WaveFormatEx, encode_WaveFormatEx, le32, le16.
  cbn [wfx_FormatTag wfx_Channels wfx_SamplesPerSec wfx_AvgBytesPerSec
       wfx_BlockAlign wfx_BitsPerSample wfx_Size].
  decode_fields. repeat split.
Qed.

(** ** Lengths *)

Lemma len_chunk (id : string) (size : Z) : len (chunk id size) = 8.
Proof. reflexivity. Qed.

Lemma len_list_header (size : Z) (type : string) : len (list_header size type) = 12.
Proof. reflexivity. Qed.

Lemma len_encode_ChunkHeader (h : ChunkHeader) : len (encode_ChunkHeader h) = 8.
Proof. destruct h as [[[[a b] c] d] size]. reflexivity. Qed.

Lemma len_encode_RIFFHeader (h : RIFFHeader) : len (encode_RIFFHeader h) = 12.
Proof. destruct h as [[[[a b] c] d] size [[[e f] g] i]]. reflexivity. Qed.

Lemma len_encode_AVIMainHeader (h : AVIMainHeader) :
  len (encode_AVIMainHeader h) = 56.
Proof.
  destruct h as [? ? ? ? ? ? ? ? ? ? [[[r0 r1] r2] r3]]. reflexivity.
Qed.

Lemma len_encode_AVIStreamHeader (h : AVIStreamHeader) :
  len (encode_AVIStreamHeader h) = 56.
Proof.
  destruct h as [[[[a b] c] d] [[[e f] g] i] ? ? ? ? ? ? ? ? ? ? ? ?].
  reflexivity.
Qed.

Lemma len_encode_BitmapInfoHeader (h : BitmapInfoHeader) :
  len (encode_BitmapInfoHeader h) = 40.
Proof. destruct h as [? ? ? ? ? [[[a b] c] d] ? ? ? ? ?]. reflexivity. Qed.

Lemma len_encode_WaveFormatEx (h : WaveFormatEx) :
  len (encode_WaveFormatEx h) = 18.
Proof. reflexivity. Qed.

Lemma len_encode_IndexEntry (e : IndexEntry) : len (encode_IndexEntry e) = 16.
Proof. destruct e as [[[[a b] c] d] ? ? ?]. reflexivity. Qed.

(** ** The demuxer on a known input *)

(** A reader in the middle of [Open] on the bytes [D]: the cursor at [p],
    and the index state found so far. *)
Definition reading (D : list byte) (p mo : Z) (ie : list IndexEntry) : Reader.t :=
  {| Reader.r := Some {| Source.data := D; Source.pos := p |};
     Reader.filename := ""; Reader.fileSize := len D;
     Reader.streams := []; Reader.fileInfo := None;
     Reader.moviOffset := mo; Reader.indexEntries := ie |}.

(** The bytes of [D] from the cursor [p] on are [rest]. *)
Definition ahead (D : list byte) (p : Z) (rest : list byte) : Prop :=
  0 <= p <= len D /\ skipn (Z.to_nat p) D = rest.

Lemma ahead_len (D : list byte) (p : Z) (rest : list byte) :
  ahead D p rest -> len rest = len D - p.
Proof. intros [Hp <-]. apply len_skipn. exact Hp. Qed.

Lemma ahead_app (D : list byte) (p : Z) (a rest : list byte) :
  ahead D p (a ++ rest) -> ahead D (p + len a) rest.
Proof.
  intros H. pose proof (ahead_len _ _ _ H) as Hl. destruct H as [Hp Hs].
  rewrite len_app in Hl. pose proof (len_nonneg a). pose proof (len_nonneg rest).
  split; [lia|].
  replace (Z.to_nat (p + len a)) with (List.length a + Z.to_nat p)%nat
    by (unfold len; lia).
  rewrite <- skipn_skipn, Hs. rewrite skipn_app, skipn_all, Nat.sub_diag.
  reflexivity.
Qed.

Lemma ahead_start (D : list byte) : ahead D 0 D.
Proof. split; [pose proof (len_nonneg D); lia | reflexivity]. Qed.

Lemma binaryRead_ahead (D : list byte) (p mo : Z) (ie : list IndexEntry)
    (n : Z) (bs rest : list byte) :
  ahead D p (bs ++ rest) -> len bs = n -> 0 < n ->
  binaryRead n (reading D p mo ie) = (Ok (inl bs), reading D (p + n) mo ie).
Proof.
  intros H Hn Hpos. pose proof (ahead_len _ _ _ H) as Hl.
  destruct H as [Hp Hs]. rewrite len_app in Hl. pose proof (len_nonneg rest).
  unfold binaryRead, reading, Source.ReadFull.
  cbn [Reader.r Source.data Source.pos].
  destruct (Z.leb_spec n 0); [lia|].
  destruct (Z.leb_spec n (len D - p)); [|lia].
  unfold slice_from. rewrite Hs, firstn_app.
  replace (Z.to_nat n) with (List.length bs) by (unfold len in Hn; lia).
  rewrite firstn_all, Nat.sub_diag. cbn [firstn]. rewrite app_nil_r.
  reflexivity.
Qed.

Lemma binaryRead_at_end (D : list byte) (p mo : Z) (ie : list IndexEntry) (n : Z) :
  len D <= p -> 0 < n ->
  binaryRead n (reading D p mo ie) = (Ok (inr io_EOF), reading D p mo ie).
Proof.
  intros Hp Hn. unfold binaryRead, reading, Source.ReadFull.
  cbn [Reader.r Source.data Source.pos].
  destruct (Z.leb_spec n 0); [lia|].
  destruct (Z.leb_spec n (len D - p)); [lia|].
  destruct (Z.ltb_spec 0 (len D - p)); [lia|]. reflexivity.
Qed.

Lemma rSeek_reading (D : list byte) (p mo : Z) (ie : list IndexEntry) :
  0 <= p ->
  rSeek 0 SeekCurrent (reading D p mo ie) = (Ok (inl p), reading D p mo ie).
Proof.
  intros Hp. unfold rSeek, reading. cbn [Reader.r].
  rewrite Seek_current_eq. cbn [Source.pos Source.data]. rewrite Z.add_0_r.
  destruct (Z.ltb_spec p 0); [lia | reflexivity].
Qed.

Lemma rSeek_start_reading (D : list byte) (p mo : Z) (ie : list IndexEntry)
    (q : Z) :
  0 <= q ->
  rSeek q SeekStart (reading D p mo ie) = (Ok (inl q), reading D q mo ie).
Proof.
  intros Hq. unfold rSeek, reading. cbn [Reader.r].
  rewrite Seek_start_eq. cbn [Source.pos Source.data].
  destruct (Z.ltb_spec q 0); [lia | reflexivity].
Qed.

Lemma skip_reading (D : list byte) (p mo : Z) (ie : list IndexEntry)
    (op : string) (n : Z) :
  0 <= p + n ->
  skip op n (reading D p mo ie) = (Ok tt, reading D (p + n) mo ie).
Proof.
  intros Hp. unfold skip, bind, rSeek, reading. cbn [Reader.r].
  rewrite Seek_current_eq. cbn [Source.pos Source.data].
  destruct (Z.ltb_spec (p + n) 0); [lia | reflexivity].
Qed.

(** ** Streams that survive the round trip *)

(** A frame rate that the [strh] scale/rate pair carries exactly: it is
    positive, it is the quotient of its thousandfold, truncated, by 1000,
    and its integer part is not zero. *)
Definition fps_survives (f : float) : Prop :=
  GoFloat.positive f = true
  /\ PrimFloat.div
       (GoFloat.of_uint32 (GoFloat.to_uint32 (PrimFloat.mul f 1000%float)))
       (GoFloat.of_uint32 1000) = f
  /\ GoFloat.to_int64 f <> 0.

(** A codec whose fields fit the fields of the format blocks. *)
Definition valid_codec (c : Codec.t) : Prop :=
  (Codec.Type_ c = StreamTypeVideo
   /\ - 2 ^ 31 <= Codec.Width c < 2 ^ 31
   /\ 0 <= Codec.Height c < 2 ^ 31
   /\ fps_survives (Codec.FPS c))
  \/ (Codec.Type_ c = StreamTypeAudio
      /\ 0 <= Codec.Channels c < 2 ^ 16
      /\ 0 <= Codec.SampleRate c < 2 ^ 32
      /\ 0 <= Codec.BitDepth c < 2 ^ 16).

(** The parsed stream [s'] is the declared codec [c] at index [i]: the same
    kind, codec tag, dimensions and rate. *)
Definition codec_matches (i : Z) (c : Codec.t) (s' : Stream.t) : Prop :=
  Stream.Index s' = i
  /\ Stream.Type_ s' = Codec.Type_ c
  /\ Codec.Type_ (Stream.Codec s') = Codec.Type_ c
  /\ Codec.FourCC (Stream.Codec s') = Codec.FourCC c
  /\ (Codec.Type_ c = StreamTypeVideo ->
      Codec.Width (Stream.Codec s') = Codec.Width c
      /\ Codec.Height (Stream.Codec s') = Codec.Height c
      /\ Codec.FPS (Stream.Codec s') = Codec.FPS c)
  /\ (Codec.Type_ c = StreamTypeAudio ->
      Codec.Channels (Stream.Codec s') = Codec.Channels c
      /\ Codec.SampleRate (Stream.Codec s') = Codec.SampleRate c
      /\ Codec.BitDepth (Stream.Codec s') = Codec.BitDepth c).

(** The stream record [parseSTRLList] starts from. *)
Definition blank_stream (i : Z) : Stream.t :=
  {| Stream.Index := i; Stream.Type_ := ""; Stream.Codec := Codec.zero;
     Stream.Duration := 0; Stream.PacketCount := 0 |}.

(** What the demuxer makes of the two chunks of a declared stream. *)
Definition parsed_stream (packets : list Packet.t) (i : Z) (s : Stream.t)
  : Stream.t :=
  let s1 :=
    applySTRH (decode_AVIStreamHeader
                 (encode_AVIStreamHeader (stream_header packets i s)))
              (blank_stream i) in
  if is_video s then
    applyVideoFormat
      (decode_BitmapInfoHeader (encode_BitmapInfoHeader (video_format s))) s1
  else
    applyAudioFormat
      (decode_WaveFormatEx (encode_WaveFormatEx (audioFormat s))) s1.

Lemma wrap32_idem (z : Z) : wrap32 (wrap32 z) = wrap32 z.
Proof. unfold wrap32. apply Z.mod_mod. lia. Qed.

Lemma to_uint32_range (f : float) : 0 <= GoFloat.to_uint32 f < 2 ^ 32.
Proof. apply wrap32_range. Qed.

Lemma fps_rate_positive (f : float) :
  fps_survives f -> 0 < GoFloat.to_uint32 (PrimFloat.mul f 1000%float).
Proof.
  intros (Hpos & Hback & _).
  pose proof (to_uint32_range (PrimFloat.mul f 1000%float)) as Hr.
  destruct (Z.eq_dec (GoFloat.to_uint32 (PrimFloat.mul f 1000%float)) 0) as [E|];
    [|lia].
  rewrite E in Hback. vm_compute in Hback. subst f. discriminate Hpos.
Qed.

Lemma eqb_video_audio : String.eqb StreamTypeAudio StreamTypeVideo = false.
Proof. reflexivity. Qed.

Lemma applyVideoFormat_declared (s s1 : Stream.t) :
  - 2 ^ 31 <= Codec.Width (Stream.Codec s) < 2 ^ 31 ->
  0 <= Codec.Height (Stream.Codec s) < 2 ^ 31 ->
  applyVideoFormat
    (decode_BitmapInfoHeader (encode_BitmapInfoHeader (video_format s))) s1
  = set_codec s1
      {| Codec.Name := Codec.Name (Stream.Codec s1);
         Codec.FourCC := Codec.FourCC (Stream.Codec s1);
         Codec.Type_ := Codec.Type_ (Stream.Codec s1);
         Codec.Width := Codec.Width (Stream.Codec s);
         Codec.Height := Codec.Height (Stream.Codec s);
         Codec.FPS := Codec.FPS (Stream.Codec s1);
         Codec.Channels := Codec.Channels (Stream.Codec s1);
         Codec.SampleRate := Codec.SampleRate (Stream.Codec s1);
         Codec.BitDepth := Codec.BitDepth (Stream.Codec s1) |}.
Proof.
  intros HW HH.
  pose proof (decode_encode_BitmapInfoHeader (video_format s)) as (HbW & HbH).
  unfold applyVideoFormat. rewrite HbW, HbH.
  unfold video_format. cbn [bih_Width bih_Height].
  rewrite (int32_small (Codec.Width (Stream.Codec s))) by lia.
  rewrite (int32_small (Codec.Height (Stream.Codec s))) by lia.
  rewrite !int32_wrap32 by lia.
  destruct (Z.ltb_spec (Codec.Height (Stream.Codec s)) 0); [lia | reflexivity].
Qed.

Lemma applyAudioFormat_declared (s s1 : Stream.t) :
  0 <= Codec.Channels (Stream.Codec s) < 2 ^ 16 ->
  0 <= Codec.SampleRate (Stream.Codec s) < 2 ^ 32 ->
  0 <= Codec.BitDepth (Stream.Codec s) < 2 ^ 16 ->
  applyAudioFormat
    (decode_WaveFormatEx (encode_WaveFormatEx (audioFormat s))) s1
  = set_codec s1
      {| Codec.Name := Codec.Name (Stream.Codec s1);
         Codec.FourCC := Codec.FourCC (Stream.Codec s1);
         Codec.Type_ := Codec.Type_ (Stream.Codec s1);
         Codec.Width := Codec.Width (Stream.Codec s1);
         Codec.Height := Codec.Height (Stream.Codec s1);
         Codec.FPS := Codec.FPS (Stream.Codec s1);
         Codec.Channels := Codec.Channels (Stream.Codec s);
         Codec.SampleRate := Codec.SampleRate (Stream.Codec s);
         Codec.BitDepth := Codec.BitDepth (Stream.Codec s) |}.
Proof.
  intros HC HS HB.
  pose proof (decode_encode_WaveFormatEx (audioFormat s)) as (HwC & HwS & HwB).
  unfold applyAudioFormat. rewrite HwC, HwS, HwB.
  unfold audioFormat. cbn [wfx_Channels wfx_SamplesPerSec wfx_BitsPerSample].
  rewrite wrap32_idem, wrap32_small by lia.
  unfold wrap16. rewrite !Z.mod_mod by lia. rewrite !Z.mod_small by lia.
  reflexivity.
Qed.

Lemma applySTRH_video (packets : list Packet.t) (i : Z) (s : Stream.t) :
  Stream.Type_ s = StreamTypeVideo ->
  fps_survives (Codec.FPS (Stream.Codec s)) ->
  exists duration,
    applySTRH (decode_AVIStreamHeader
                 (encode_AVIStreamHeader (stream_header packets i s)))
              (blank_stream i)
    = {| Stream.Index := i; Stream.Type_ := StreamTypeVideo;
         Stream.Codec :=
           {| Codec.Name := cleanName (Codec.FourCC (Stream.Codec s));
              Codec.FourCC := Codec.FourCC (Stream.Codec s);
              Codec.Type_ := StreamTypeVideo;
              Codec.Width := 0; Codec.Height := 0;
              Codec.FPS := Codec.FPS (Stream.Codec s);
              Codec.Channels := 0; Codec.SampleRate := 0; Codec.BitDepth := 0 |};
         Stream.Duration := duration; Stream.PacketCount := 0 |}.
Proof.
  intros Hty Hfps.
  pose proof (decode_encode_AVIStreamHeader (stream_header packets i s))
    as (HT & HH & HS & HR & _).
  pose proof (fps_rate_positive _ Hfps) as Hrate.
  destruct Hfps as (Hpos & Hback & _).
  unfold applySTRH. rewrite HT, HH, HS, HR.
  unfold stream_header, stream_scale_rate, is_video.
  cbn [strh_Type strh_Handler strh_Scale strh_Rate].
  rewrite Hty, Hpos.
  change (String.eqb StreamTypeVideo StreamTypeVideo) with true.
  cbn [andb fst snd]. cbv iota.
  change (IsVideoStream (StringToChunkID STREAMTypeVideo)) with true. cbv iota.
  change (wrap32 1000) with 1000.
  unfold GoFloat.to_uint32 at 1 2 3. rewrite !wrap32_idem.
  fold (GoFloat.to_uint32 (PrimFloat.mul (Codec.FPS (Stream.Codec s)) 1000%float)).
  destruct (Z.gtb_spec
              (GoFloat.to_uint32 (PrimFloat.mul (Codec.FPS (Stream.Codec s)) 1000%float))
              0); [|lia].
  change (1000 >? 0) with true. cbn [andb].
  change (String.eqb StreamTypeVideo StreamTypeVideo) with true. cbv iota.
  rewrite Hback. eexists. reflexivity.
Qed.

Lemma applySTRH_audio (packets : list Packet.t) (i : Z) (s : Stream.t) :
  Stream.Type_ s = StreamTypeAudio ->
  exists duration,
    applySTRH (decode_AVIStreamHeader
                 (encode_AVIStreamHeader (stream_header packets i s)))
              (blank_stream i)
    = {| Stream.Index := i; Stream.Type_ := StreamTypeAudio;
         Stream.Codec :=
           {| Codec.Name := cleanName (Codec.FourCC (Stream.Codec s));
              Codec.FourCC := Codec.FourCC (Stream.Codec s);
              Codec.Type_ := StreamTypeAudio;
              Codec.Width := 0; Codec.Height := 0;
              Codec.FPS := 0%float;
              Codec.Channels := 0; Codec.SampleRate := 0; Codec.BitDepth := 0 |};
         Stream.Duration := duration; Stream.PacketCount := 0 |}.
Proof.
  intros Hty.
  pose proof (decode_encode_AVIStreamHeader (stream_header packets i s))
    as (HT & HH & _).
  assert (HTy : strh_Type (stream_header packets i s)
                = StringToChunkID STREAMTypeAudio).
  { unfold stream_header, is_video, is_audio. cbn [strh_Type].
    now rewrite Hty, eqb_video_audio. }
  unfold applySTRH. rewrite HT, HH, HTy.
  change (IsVideoStream (StringToChunkID STREAMTypeAudio)) with false.
  change (IsAudioStream (StringToChunkID STREAMTypeAudio)) with true.
  cbv iota zeta. rewrite eqb_video_audio, andb_false_r.
  eexists. reflexivity.
Qed.

(** A declared stream of a valid codec is parsed back as that codec, and
    with a frame rate that [ReadAllPackets] can divide by. *)
Lemma parsed_stream_matches (packets : list Packet.t) (i : Z) (c : Codec.t) :
  valid_codec c ->
  let s' := parsed_stream packets i (declared_stream i c) in
  codec_matches i c s'
  /\ (GoFloat.positive (Codec.FPS (Stream.Codec s')) = true ->
      GoFloat.to_int64 (Codec.FPS (Stream.Codec s')) <> 0).
Proof.
  intros Hv. cbv zeta. unfold parsed_stream, is_video.
  set (s := declared_stream i c).
  destruct Hv as [(Hty & HW & HHt & Hfps) | (Hty & HCh & HSr & HBd)].
  - destruct (applySTRH_video packets i s Hty Hfps) as [duration ->].
    change (Stream.Type_ s) with (Codec.Type_ c). rewrite Hty.
    change (String.eqb StreamTypeVideo StreamTypeVideo) with true. cbv iota.
    rewrite applyVideoFormat_declared by assumption.
    unfold codec_matches, set_codec.
    cbn [Stream.Index Stream.Type_ Stream.Codec Codec.Type_ Codec.FourCC
         Codec.Width Codec.Height Codec.FPS Codec.Channels Codec.SampleRate
         Codec.BitDepth s declared_stream].
    rewrite Hty. split; [|intros _; apply Hfps].
    repeat split; discriminate.
  - destruct (applySTRH_audio packets i s Hty) as [duration ->].
    change (Stream.Type_ s) with (Codec.Type_ c). rewrite Hty, eqb_video_audio.
    rewrite applyAudioFormat_declared by assumption.
    unfold codec_matches, set_codec.
    cbn [Stream.Index Stream.Type_ Stream.Codec Codec.Type_ Codec.FourCC
         Codec.Width Codec.Height Codec.FPS Codec.Channels Codec.SampleRate
         Codec.BitDepth s declared_stream].
    rewrite Hty. split; [|intros E; discriminate E].
    repeat split; discriminate.
Qed.

Lemma len_fourcc_bytes (id : fourcc) : len (fourcc_bytes id) = 4.
Proof. destruct id as [[[a b] c] d]. reflexivity. Qed.

Lemma fourcc_at_bytes (id : fourcc) : fourcc_at (fourcc_bytes id) 0 = id.
Proof. destruct id as [[[a b] c] d]. reflexivity. Qed.

Create Rewrite HintDb lens.
#[local] Hint Rewrite len_chunk len_list_header len_encode_ChunkHeader
  len_encode_RIFFHeader len_encode_AVIMainHeader len_encode_AVIStreamHeader
  len_encode_BitmapInfoHeader len_encode_WaveFormatEx len_encode_IndexEntry
  len_fourcc_bytes : lens.

(** Reads the next [n] bytes of the input [H] describes, in a goal that
    starts with a [binaryRead], and advances [H]. *)
Ltac read_next H :=
  try unfold ChunkHeader_size; try unfold IndexEntry_size;
  try unfold RIFFHeader_size; try unfold AVIMainHeader_size;
  erewrite bind_Ok by
    (eapply binaryRead_ahead;
     [exact H | autorewrite with lens; reflexivity | lia]);
  apply ahead_app in H; autorewrite with lens in H; cbv beta iota.

Ltac where_am_i :=
  erewrite bind_Ok by (apply rSeek_reading; lia); cbv beta iota.

Lemma applySTRH_type (packets : list Packet.t) (i : Z) (s st : Stream.t) :
  Stream.Type_ s = StreamTypeVideo \/ Stream.Type_ s = StreamTypeAudio ->
  Stream.Type_
    (applySTRH (decode_AVIStreamHeader
                  (encode_AVIStreamHeader (stream_header packets i s))) st)
  = Stream.Type_ s.
Proof.
  intros Hty.
  pose proof (decode_encode_AVIStreamHeader (stream_header packets i s))
    as (HT & _).
  unfold applySTRH. cbn [Stream.Type_]. rewrite HT.
  unfold stream_header, is_video, is_audio. cbn [strh_Type].
  destruct Hty as [-> | ->]; reflexivity.
Qed.

(** The number of bytes a declared stream's [strl] list takes after its
    eight-byte chunk header: the declared size, and two more for audio. *)
Definition strl_body_len (s : Stream.t) : Z :=
  strl_size s + (if is_video s then 0 else if is_audio s then 2 else 0).

Lemma parseSTRHChunk_ahead (D : list byte) (p mo : Z) (ie : list IndexEntry)
    (bs rest : list byte) (st : Stream.t) :
  ahead D p (bs ++ rest) -> len bs = 56 ->
  parseSTRHChunk 56 st (reading D p mo ie)
  = (Ok (applySTRH (decode_AVIStreamHeader bs) st), reading D (p + 56) mo ie).
Proof.
  intros H Hl. unfold parseSTRHChunk. change AVIStreamHeader_size with 56.
  erewrite bind_Ok by (eapply binaryRead_ahead; [exact H | exact Hl | lia]).
  reflexivity.
Qed.

Lemma parseVideoFormat_ahead (D : list byte) (p mo : Z) (ie : list IndexEntry)
    (bs rest : list byte) (st : Stream.t) :
  ahead D p (bs ++ rest) -> len bs = 40 ->
  parseVideoFormat 40 st (reading D p mo ie)
  = (Ok (applyVideoFormat (decode_BitmapInfoHeader bs) st),
     reading D (p + 40) mo ie).
Proof.
  intros H Hl. unfold parseVideoFormat. change BitmapInfoHeader_size with 40.
  erewrite bind_Ok by (eapply binaryRead_ahead; [exact H | exact Hl | lia]).
  reflexivity.
Qed.

Lemma parseAudioFormat_ahead (D : list byte) (p mo : Z) (ie : list IndexEntry)
    (bs rest : list byte) (st : Stream.t) :
  ahead D p (bs ++ rest) -> len bs = 18 ->
  parseAudioFormat 16 st (reading D p mo ie)
  = (Ok (applyAudioFormat (decode_WaveFormatEx bs) st),
     reading D (p + 18) mo ie).
Proof.
  intros H Hl. unfold parseAudioFormat. change WaveFormatEx_size with 18.
  erewrite bind_Ok by (eapply binaryRead_ahead; [exact H | exact Hl | lia]).
  reflexivity.
Qed.

Lemma parseSTRLList_loop_S (fuel : nat) (endPos : Z) (stream : Stream.t) :
  parseSTRLList_loop (S fuel) endPos stream
  = (p <- rSeek 0 SeekCurrent ;;
     match p with
     | inr _ => ret stream
     | inl pos =>
         if pos >=? endPos then ret stream
         else
           res <- binaryRead ChunkHeader_size ;;
           match res with
           | inr io_EOF => ret stream
           | inr e => fail "read strl chunk" e
           | inl bs =>
               let header := decode_ChunkHeader bs in
               let chunkID := ChunkIDToString (ch_ID header) in
               stream <-
                 (if String.eqb chunkID STRHChunk then
                    parseSTRHChunk (ch_Size header) stream
                  else if String.eqb chunkID STRFChunk then
                    parseSTRFChunk (ch_Size header) stream
                  else
                    skip "skip strl chunk" (AlignSize (ch_Size header)) ;;;
                    ret stream) ;;
               parseSTRLList_loop fuel endPos stream
           end
     end).
Proof. reflexivity. Qed.

Lemma strf_bytes_video (s : Stream.t) :
  Stream.Type_ s = StreamTypeVideo ->
  strf_bytes s = chunk STRFChunk 40 ++ encode_BitmapInfoHeader (video_format s).
Proof. intros H. unfold strf_bytes, is_video. now rewrite H. Qed.

Lemma strf_bytes_audio (s : Stream.t) :
  Stream.Type_ s = StreamTypeAudio ->
  strf_bytes s = chunk STRFChunk 16 ++ encode_WaveFormatEx (audioFormat s).
Proof.
  intros H. unfold strf_bytes, is_video, is_audio.
  now rewrite H, eqb_video_audio.
Qed.

Lemma parseSTRLList_loop_declared (D : list byte) (p mo : Z)
    (ie : list IndexEntry) (fuel : nat) (packets : list Packet.t) (i : Z)
    (s : Stream.t) (rest : list byte) :
  Stream.Type_ s = StreamTypeVideo \/ Stream.Type_ s = StreamTypeAudio ->
  ahead D p (chunk STRHChunk 56
             ++ encode_AVIStreamHeader (stream_header packets i s)
             ++ strf_bytes s ++ rest) ->
  parseSTRLList_loop (S (S (S fuel))) (p + wrap32 (strl_size s - 4))
    (blank_stream i) (reading D p mo ie)
  = (Ok (parsed_stream packets i s),
     reading D (p + (strl_body_len s - 4)) mo ie)
  /\ ahead D (p + (strl_body_len s - 4)) rest.
Proof.
  intros Hty H.
  pose proof (applySTRH_type packets i s (blank_stream i) Hty) as Hparsed.
  assert (Hp : 0 <= p) by (destruct H; lia).
  unfold chunk in H.
  (* first iteration: the stream header *)
  rewrite parseSTRLList_loop_S. where_am_i.
  assert (Hsz : 76 < wrap32 (strl_size s - 4)).
  { unfold strl_size, is_video, is_audio.
    destruct Hty as [-> | ->]; vm_compute; reflexivity. }
  destruct (Z.geb_spec p (p + wrap32 (strl_size s - 4))); [lia|].
  change ChunkHeader_size with 8. read_next H.
  rewrite decode_encode_ChunkHeader. cbn [ch_ID ch_Size]. cbv zeta.
  change (String.eqb (ChunkIDToString (StringToChunkID STRHChunk)) STRHChunk)
    with true. cbv iota. change (wrap32 56) with 56.
  erewrite bind_Ok
    by (eapply parseSTRHChunk_ahead; [exact H | apply len_encode_AVIStreamHeader]).
  apply ahead_app in H. autorewrite with lens in H.
  (* second iteration: the stream format *)
  rewrite parseSTRLList_loop_S. where_am_i.
  destruct (Z.geb_spec (p + 8 + 56) (p + wrap32 (strl_size s - 4))); [lia|].
  unfold parseSTRFChunk. rewrite Hparsed. unfold parsed_stream, is_video.
  unfold strl_body_len, strl_size, is_video, is_audio in *.
  destruct Hty as [Hty | Hty].
  - rewrite (strf_bytes_video s Hty), <- app_assoc in H. unfold chunk in H.
    rewrite Hty in *.
    change (String.eqb StreamTypeVideo StreamTypeVideo) with true in *.
    cbv iota in *.
    read_next H.
    rewrite decode_encode_ChunkHeader. cbn [ch_ID ch_Size]. cbv zeta.
    change (String.eqb (ChunkIDToString (StringToChunkID STRFChunk)) STRHChunk)
      with false.
    change (String.eqb (ChunkIDToString (StringToChunkID STRFChunk)) STRFChunk)
      with true. cbv iota. change (wrap32 40) with 40.
    erewrite bind_Ok
      by (eapply parseVideoFormat_ahead;
          [exact H | apply len_encode_BitmapInfoHeader]).
    apply ahead_app in H. autorewrite with lens in H.
    (* third iteration: the end of the list *)
    rewrite parseSTRLList_loop_S. where_am_i.
    change (wrap32 (116 - 4)) with 112.
    destruct (Z.geb_spec (p + 8 + 56 + 8 + 40) (p + 112)); [|lia].
    replace (p + (116 + 0 - 4)) with (p + 8 + 56 + 8 + 40) by lia.
    split; [reflexivity | exact H].
  - rewrite (strf_bytes_audio s Hty), <- app_assoc in H. unfold chunk in H.
    rewrite Hty in *. rewrite eqb_video_audio in *.
    change (String.eqb StreamTypeAudio StreamTypeAudio) with true in *.
    cbv iota in *.
    read_next H.
    rewrite decode_encode_ChunkHeader. cbn [ch_ID ch_Size]. cbv zeta.
    change (String.eqb (ChunkIDToString (StringToChunkID STRFChunk)) STRHChunk)
      with false.
    change (String.eqb (ChunkIDToString (StringToChunkID STRFChunk)) STRFChunk)
      with true. cbv iota. change (wrap32 16) with 16.
    erewrite bind_Ok
      by (eapply parseAudioFormat_ahead;
          [exact H | apply len_encode_WaveFormatEx]).
    apply ahead_app in H. autorewrite with lens in H.
    rewrite parseSTRLList_loop_S. where_am_i.
    change (wrap32 (92 - 4)) with 88.
    destruct (Z.geb_spec (p + 8 + 56 + 8 + 18) (p + 88)); [|lia].
    replace (p + (92 + 2 - 4)) with (p + 8 + 56 + 8 + 18) by lia.
    split; [reflexivity | exact H].
Qed.

Lemma parseSTRLList_declared (D : list byte) (p mo : Z) (ie : list IndexEntry)
    (fuel : nat) (packets : list Packet.t) (i : Z) (s : Stream.t)
    (rest : list byte) (acc : list Stream.t) :
  Stream.Type_ s = StreamTypeVideo \/ Stream.Type_ s = StreamTypeAudio ->
  i = len acc ->
  ahead D p (fourcc_bytes (StringToChunkID STRLList)
             ++ chunk STRHChunk 56
             ++ encode_AVIStreamHeader (stream_header packets i s)
             ++ strf_bytes s ++ rest) ->
  parseSTRLList (S (S (S fuel))) (strl_size s) acc (reading D p mo ie)
  = (Ok (acc ++ [parsed_stream packets i s]),
     reading D (p + strl_body_len s) mo ie)
  /\ ahead D (p + strl_body_len s) rest.
Proof.
  intros Hty Hi H. subst i.
  assert (Hp : 0 <= p) by (destruct H; lia).
  unfold parseSTRLList.
  read_next H. rewrite fourcc_at_bytes.
  change (negb (String.eqb (ChunkIDToString (StringToChunkID STRLList)) STRLList))
    with false. cbv iota.
  where_am_i.
  destruct (parseSTRLList_loop_declared D (p + 4) mo ie fuel packets (len acc) s
              rest Hty H) as [Hrun Hrest].
  fold (blank_stream (len acc)).
  erewrite bind_Ok by exact Hrun.
  replace (p + 4 + (strl_body_len s - 4)) with (p + strl_body_len s) in * by lia.
  split; [reflexivity | exact Hrest].
Qed.

(** *** The header list *)

Definition typed (s : Stream.t) : Prop :=
  Stream.Type_ s = StreamTypeVideo \/ Stream.Type_ s = StreamTypeAudio.

(** The streams the demuxer makes of declared streams, the first at [i]. *)
Fixpoint parsed_streams (packets : list Packet.t) (i : Z) (rest : list Stream.t)
  : list Stream.t :=
  match rest with
  | [] => []
  | s :: rest => parsed_stream packets i s :: parsed_streams packets (i + 1) rest
  end.

(** The sum of the declared sizes of [strl] lists, with their headers. *)
Fixpoint declared_sum (rest : list Stream.t) : Z :=
  match rest with
  | [] => 0
  | s :: rest => strl_size s + 8 + declared_sum rest
  end.

(** The number of audio streams. *)
Fixpoint audio_count (rest : list Stream.t) : Z :=
  match rest with
  | [] => 0
  | s :: rest => (if is_audio s then 1 else 0) + audio_count rest
  end.

(** The distance from the cursor to the declared end of the header list,
    before each [strl] list and after the last. *)
Fixpoint slack_ok (e : Z) (rest : list Stream.t) : Prop :=
  match rest with
  | [] => e <= 0
  | s :: rest => 0 < e /\ slack_ok (e - 8 - strl_body_len s) rest
  end.

Lemma strl_size_typed (s : Stream.t) :
  typed s ->
  (is_video s = true /\ is_audio s = false /\ strl_size s = 116
   /\ strl_body_len s = 116)
  \/ (is_video s = false /\ is_audio s = true /\ strl_size s = 92
      /\ strl_body_len s = 94).
Proof.
  unfold typed, strl_body_len, strl_size, is_video, is_audio.
  intros [-> | ->]; [left | right]; repeat split.
Qed.

Lemma audio_count_nonneg (rest : list Stream.t) : 0 <= audio_count rest.
Proof.
  induction rest as [|s rest IH]; cbn [audio_count]; [lia|].
  destruct (is_audio s); lia.
Qed.

Lemma declared_sum_nonneg (rest : list Stream.t) :
  Forall typed rest -> 0 <= declared_sum rest.
Proof.
  induction 1 as [|s rest Hs _ IH]; cbn [declared_sum]; [lia|].
  destruct (strl_size_typed s Hs) as [(_ & _ & -> & _) | (_ & _ & -> & _)]; lia.
Qed.

(** With at most fifty audio streams the cursor stays before the declared
    end of the header list until the last [strl] list is read. *)
Lemma slack_ok_declared (rest : list Stream.t) :
  Forall typed rest ->
  forall a, 0 <= a -> a + audio_count rest <= 50 ->
    slack_ok (declared_sum rest - 2 * a) rest.
Proof.
  induction 1 as [|s rest Hs Hrest IH]; intros a Ha Hcount;
    cbn [slack_ok declared_sum audio_count] in *; [lia|].
  pose proof (audio_count_nonneg rest) as Hn.
  pose proof (declared_sum_nonneg rest Hrest) as Hd.
  destruct (strl_size_typed s Hs) as [(_ & Ea & Es & Eb) | (_ & Ea & Es & Eb)];
    rewrite Ea in Hcount; rewrite Es, Eb.
  - split; [lia|].
    replace (116 + 8 + declared_sum rest - 2 * a - 8 - 116)
      with (declared_sum rest - 2 * a) by lia.
    apply IH; lia.
  - split; [lia|].
    replace (92 + 8 + declared_sum rest - 2 * a - 8 - 94)
      with (declared_sum rest - 2 * (a + 1)) by lia.
    apply IH; lia.
Qed.

Lemma parseHDRLList_loop_S (fuel : nat) (endPos : Z) (streams : list Stream.t)
    (fileInfo : FileInfo.t) :
  parseHDRLList_loop (S fuel) endPos streams fileInfo
  = (p <- rSeek 0 SeekCurrent ;;
     match p with
     | inr _ => ret (streams, fileInfo)
     | inl pos =>
         if pos >=? endPos then ret (streams, fileInfo)
         else
           res <- binaryRead ChunkHeader_size ;;
           match res with
           | inr io_EOF => ret (streams, fileInfo)
           | inr e => fail "read hdrl chunk" e
           | inl bs =>
               let header := decode_ChunkHeader bs in
               let chunkID := ChunkIDToString (ch_ID header) in
               st <-
                 (if String.eqb chunkID AVIHChunk then
                    fi <- parseAVIHChunk (ch_Size header) fileInfo ;;
                    ret (streams, fi)
                  else if String.eqb chunkID LISTSignature then
                    ss <- parseSTRLList fuel (ch_Size header) streams ;;
                    ret (ss, fileInfo)
                  else
                    skip "skip hdrl chunk" (AlignSize (ch_Size header)) ;;;
                    ret (streams, fileInfo)) ;;
               parseHDRLList_loop fuel endPos (fst st) (snd st)
           end
     end).
Proof. reflexivity. Qed.

Lemma len_strl_bytes (packets : list Packet.t) (i : Z) (s : Stream.t) :
  typed s -> len (strl_bytes packets i s) = 8 + strl_body_len s.
Proof.
  intros Hs. unfold strl_bytes.
  rewrite !len_app. autorewrite with lens.
  destruct Hs as [Hty | Hty].
  - rewrite (strf_bytes_video s Hty), len_app. autorewrite with lens.
    unfold strl_body_len, strl_size, is_video. rewrite Hty. reflexivity.
  - rewrite (strf_bytes_audio s Hty), len_app. autorewrite with lens.
    unfold strl_body_len, strl_size, is_video, is_audio.
    rewrite Hty, eqb_video_audio. reflexivity.
Qed.

Lemma parseHDRLList_loop_streams (D : list byte) (mo : Z) (ie : list IndexEntry)
    (packets : list Packet.t) (fi : FileInfo.t) (rest' : list byte)
    (rest : list Stream.t) :
  Forall typed rest ->
  forall (p endPos : Z) (acc : list Stream.t) (more : nat),
    slack_ok (endPos - p) rest ->
    ahead D p (strls_bytes packets (len acc) rest ++ rest') ->
    parseHDRLList_loop (List.length rest + 4 + more) endPos acc fi
      (reading D p mo ie)
    = (Ok (acc ++ parsed_streams packets (len acc) rest, fi),
       reading D (p + len (strls_bytes packets (len acc) rest)) mo ie)
    /\ ahead D (p + len (strls_bytes packets (len acc) rest)) rest'.
Proof.
  induction 1 as [|s rest Hs Hrest IH]; intros p endPos acc more Hslack H;
    assert (Hp : 0 <= p) by (destruct H; lia).
  - cbn [List.length Nat.add strls_bytes parsed_streams app] in *.
    rewrite parseHDRLList_loop_S. where_am_i.
    cbn [slack_ok] in Hslack.
    destruct (Z.geb_spec p endPos); [|lia].
    change (len (@nil byte)) with 0. rewrite Z.add_0_r, app_nil_r.
    split; [reflexivity | exact H].
  - cbn [List.length Nat.add strls_bytes parsed_streams slack_ok] in *.
    destruct Hslack as [Hgo Hslack].
    rewrite parseHDRLList_loop_S. where_am_i.
    destruct (Z.geb_spec p endPos); [lia|].
    unfold strl_bytes, list_header, encode_LISTHeader in H.
    cbn [list_ChunkHeader list_Type] in H. rewrite <- !app_assoc in H.
    read_next H.
    rewrite decode_encode_ChunkHeader. cbn [ch_ID ch_Size]. cbv zeta.
    change (String.eqb (ChunkIDToString (StringToChunkID LISTSignature)) AVIHChunk)
      with false.
    change (String.eqb (ChunkIDToString (StringToChunkID LISTSignature))
              LISTSignature) with true.
    cbv iota.
    assert (Hsize : wrap32 (strl_size s) = strl_size s).
    { destruct (strl_size_typed s Hs) as [(_ & _ & -> & _) | (_ & _ & -> & _)];
        reflexivity. }
    rewrite Hsize.
    destruct (parseSTRLList_declared D (p + 8) mo ie (List.length rest + 1 + more)
                packets (len acc) s
                (strls_bytes packets (len acc + 1) rest ++ rest') acc Hs eq_refl H)
      as [Hrun Hnext].
    replace (List.length rest + 4 + more)%nat
      with (S (S (S (List.length rest + 1 + more)))) by lia.
    erewrite bind_Ok by (erewrite bind_Ok by exact Hrun; reflexivity).
    cbn [fst snd].
    replace (S (S (S (List.length rest + 1 + more))))
      with (List.length rest + 4 + more)%nat by lia.
    specialize (IH (p + 8 + strl_body_len s) endPos
                   (acc ++ [parsed_stream packets (len acc) s]) more).
    rewrite len_snoc in IH.
    replace (endPos - (p + 8 + strl_body_len s))
      with (endPos - p - 8 - strl_body_len s) in IH by lia.
    destruct (IH Hslack Hnext) as [Hloop Hend].
    rewrite Hloop. rewrite len_app, (len_strl_bytes packets (len acc) s Hs).
    rewrite <- app_assoc. cbn [app].
    replace (p + 8 + strl_body_len s + len (strls_bytes packets (len acc + 1) rest))
      with (p + (8 + strl_body_len s + len (strls_bytes packets (len acc + 1) rest)))
      in * by lia.
    split; [reflexivity | exact Hend].
Qed.

Lemma hdrl_size_fold (rest : list Stream.t) :
  Forall typed rest ->
  forall size, 0 <= size -> size + declared_sum rest < 2 ^ 32 ->
    fold_left (fun size s => wrap32 (size + wrap32 (strl_size s + 8))) rest size
    = size + declared_sum rest.
Proof.
  induction 1 as [|s rest Hs Hrest IH]; intros size H0 Hfit;
    cbn [fold_left declared_sum] in *; [lia|].
  pose proof (declared_sum_nonneg rest Hrest) as Hd.
  assert (Hsz : 0 <= strl_size s + 8 <= 124)
    by (destruct (strl_size_typed s Hs) as [(_ & _ & -> & _) | (_ & _ & -> & _)]; lia).
  rewrite (wrap32_small (strl_size s + 8)) by lia.
  rewrite wrap32_small by lia. rewrite IH by lia. lia.
Qed.

Lemma hdrl_size_declared (ss : list Stream.t) :
  Forall typed ss -> 68 + declared_sum ss < 2 ^ 32 ->
  hdrl_size ss = 68 + declared_sum ss.
Proof. intros Ht Hfit. unfold hdrl_size. apply hdrl_size_fold; [assumption|lia|lia]. Qed.

Lemma len_strls_bytes (packets : list Packet.t) (rest : list Stream.t) :
  Forall typed rest ->
  forall i, len (strls_bytes packets i rest)
            = declared_sum rest + 2 * audio_count rest.
Proof.
  induction 1 as [|s rest Hs _ IH]; intros i;
    cbn [strls_bytes declared_sum audio_count]; [reflexivity|].
  rewrite len_app, (len_strl_bytes _ _ _ Hs), IH.
  destruct (strl_size_typed s Hs) as [(_ & -> & -> & ->) | (_ & -> & -> & ->)]; lia.
Qed.

Lemma parseAVIHChunk_ahead (D : list byte) (p mo : Z) (ie : list IndexEntry)
    (bs rest : list byte) (fi : FileInfo.t) :
  ahead D p (bs ++ rest) -> len bs = 56 ->
  exists fi',
    parseAVIHChunk 56 fi (reading D p mo ie) = (Ok fi', reading D (p + 56) mo ie).
Proof.
  intros H Hl. unfold parseAVIHChunk. change AVIMainHeader_size with 56.
  erewrite bind_Ok by (eapply binaryRead_ahead; [exact H | exact Hl | lia]).
  cbv beta iota. change (56 >? 56) with false. cbv iota.
  eexists. reflexivity.
Qed.

(** The header list of a file, read from just after its chunk header. *)
Lemma parseLISTChunk_hdrl (D : list byte) (p mo : Z) (ie : list IndexEntry)
    (packets : list Packet.t) (ss : list Stream.t) (n : Z) (fi : FileInfo.t)
    (rest' : list byte) (more : nat) :
  Forall typed ss ->
  audio_count ss <= 50 ->
  68 + declared_sum ss < 2 ^ 32 ->
  ahead D p (fourcc_bytes (StringToChunkID HDRLList)
             ++ avih_bytes ss n ++ strls_bytes packets 0 ss ++ rest') ->
  exists fi',
    parseLISTChunk (List.length ss + 5 + more) (hdrl_size ss) [] fi
      (reading D p mo ie)
    = (Ok (parsed_streams packets 0 ss, fi'),
       reading D (p + 68 + len (strls_bytes packets 0 ss)) mo ie)
    /\ ahead D (p + 68 + len (strls_bytes packets 0 ss)) rest'.
Proof.
  intros Ht Haudio Hfit H.
  assert (Hp : 0 <= p) by (destruct H; lia).
  pose proof (declared_sum_nonneg ss Ht) as Hd.
  rewrite (hdrl_size_declared ss Ht Hfit).
  unfold parseLISTChunk. read_next H. rewrite fourcc_at_bytes.
  change (String.eqb (ChunkIDToString (StringToChunkID HDRLList)) HDRLList)
    with true. cbv iota zeta.
  unfold parseHDRLList. where_am_i.
  rewrite (wrap32_small (68 + declared_sum ss - 4)) by lia.
  replace (List.length ss + 5 + more)%nat
    with (S (List.length ss + 4 + more)) by lia.
  rewrite parseHDRLList_loop_S. where_am_i.
  destruct (Z.geb_spec (p + 4) (p + 4 + (68 + declared_sum ss - 4))); [lia|].
  unfold avih_bytes, chunk in H. rewrite <- app_assoc in H.
  read_next H.
  rewrite decode_encode_ChunkHeader. cbn [ch_ID ch_Size]. cbv zeta.
  change (String.eqb (ChunkIDToString (StringToChunkID AVIHChunk)) AVIHChunk)
    with true. cbv iota. change (wrap32 56) with 56.
  destruct (parseAVIHChunk_ahead D (p + 4 + 8) mo ie _ _ fi H
              (len_encode_AVIMainHeader _)) as [fi' Hfi].
  exists fi'.
  erewrite bind_Ok by (erewrite bind_Ok by exact Hfi; reflexivity).
  cbn [fst snd].
  apply ahead_app in H. autorewrite with lens in H.
  destruct (parseHDRLList_loop_streams D mo ie packets fi' rest' ss Ht
              (p + 4 + 8 + 56) (p + 4 + (68 + declared_sum ss - 4)) [] more)
    as [Hrun Hend].
  - replace (p + 4 + (68 + declared_sum ss - 4) - (p + 4 + 8 + 56))
      with (declared_sum ss - 2 * 0) by lia.
    apply slack_ok_declared; [assumption | lia | lia].
  - exact H.
  - change (len (@nil Stream.t)) with 0 in *. cbn [app] in Hrun.
    replace (p + 4 + 8 + 56) with (p + 68) in * by lia.
    split; [exact Hrun | exact Hend].
Qed.

(** *** The payload list *)

(** [n] rounded up to an even number. *)
Definition padded (n : Z) : Z := n + n mod 2.

Lemma AlignSize_padded (n : Z) :
  0 <= n < 2 ^ 32 - 1 -> AlignSize n = padded n.
Proof.
  intros Hn. unfold AlignSize, padded. rewrite wrap32_small by lia.
  change 1 with (Z.ones 1) at 2. rewrite Z.ldiff_ones_r by lia.
  rewrite Z.shiftr_div_pow2, Z.shiftl_mul_pow2 by lia.
  change (2 ^ 1) with 2.
  pose proof (Z.div_mod (n + 1) 2 ltac:(lia)) as E.
  pose proof (Z.div_mod n 2 ltac:(lia)) as E'.
  pose proof (Z.mod_pos_bound n 2 ltac:(lia)).
  pose proof (Z.mod_pos_bound (n + 1) 2 ltac:(lia)).
  assert (Hpar : (n + 1) mod 2 = 1 - n mod 2).
  { rewrite <- Zplus_mod_idemp_l.
    destruct (Z.eq_dec (n mod 2) 0) as [-> | ?]; [reflexivity|].
    replace (n mod 2) with 1 by lia. reflexivity. }
  lia.
Qed.

Lemma padded_even (n : Z) : padded n mod 2 = 0.
Proof.
  unfold padded. rewrite Zplus_mod_idemp_r.
  replace (n + n) with (n * 2) by lia. apply Z.mod_mul. lia.
Qed.

Lemma padded_of_even (n : Z) : n mod 2 = 0 -> padded n = n.
Proof. unfold padded. lia. Qed.

(** The bytes a packet takes in the payload list. *)
Definition packet_len (p : Packet.t) : Z := 8 + padded (len (Packet.Data p)).

Fixpoint payload_len (packets : list Packet.t) : Z :=
  match packets with
  | [] => 0
  | p :: rest => packet_len p + payload_len rest
  end.

Lemma packet_len_bounds (p : Packet.t) :
  8 <= packet_len p /\ packet_len p mod 2 = 0
  /\ len (Packet.Data p) <= packet_len p - 8.
Proof.
  unfold packet_len. pose proof (len_nonneg (Packet.Data p)).
  pose proof (Z.mod_pos_bound (len (Packet.Data p)) 2 ltac:(lia)).
  split; [unfold padded; lia|]. split; [|unfold padded; lia].
  rewrite Zplus_mod, (padded_even (len (Packet.Data p))). reflexivity.
Qed.

Lemma payload_len_bounds (packets : list Packet.t) :
  8 * len packets <= payload_len packets /\ payload_len packets mod 2 = 0.
Proof.
  induction packets as [|p rest [IH1 IH2]]; cbn [payload_len];
    [split; reflexivity|].
  destruct (packet_len_bounds p) as (H8 & Heven & _). rewrite len_cons.
  split; [lia|]. rewrite Zplus_mod, Heven, IH2. reflexivity.
Qed.

Lemma len_packet_bytes (id : fourcc) (p : Packet.t) :
  len (packet_bytes id p) = packet_len p.
Proof.
  unfold packet_bytes, packet_len, padded. rewrite !len_app.
  autorewrite with lens.
  pose proof (len_nonneg (Packet.Data p)).
  rewrite Z.rem_mod_nonneg by lia.
  pose proof (Z.mod_pos_bound (len (Packet.Data p)) 2 ltac:(lia)).
  destruct (Z.eqb_spec (len (Packet.Data p) mod 2) 1) as [E | E].
  - rewrite E. reflexivity.
  - replace (len (Packet.Data p) mod 2) with 0 by lia. reflexivity.
Qed.

Lemma len_packets_bytes (ss : list Stream.t) (packets : list Packet.t) :
  forall payload,
    packets_bytes ss packets = Some payload -> len payload = payload_len packets.
Proof.
  induction packets as [|p rest IH]; intros payload H; cbn in H.
  - apply Some_inj in H. subst. reflexivity.
  - destruct (packet_tag ss p) as [id|]; [|discriminate].
    destruct (packets_bytes ss rest) as [bs|]; [|discriminate].
    apply Some_inj in H. subst payload.
    rewrite len_app, len_packet_bytes, (IH bs eq_refl). reflexivity.
Qed.

Lemma packet_span_len (p : Packet.t) :
  packet_len p < 2 ^ 32 -> packet_span p = packet_len p.
Proof.
  intros Hfit. destruct (packet_len_bounds p) as (H8 & _ & Hd).
  pose proof (len_nonneg (Packet.Data p)).
  unfold packet_span, packet_len in *.
  rewrite (wrap32_small (len (Packet.Data p))) by lia.
  rewrite AlignSize_padded by lia.
  apply wrap32_small. unfold padded in *.
  pose proof (Z.mod_pos_bound (len (Packet.Data p)) 2 ltac:(lia)). lia.
Qed.

Lemma movi_size_fold (packets : list Packet.t) :
  forall size, 0 <= size -> size + payload_len packets < 2 ^ 32 ->
    fold_left (fun size p => wrap32 (size + packet_span p)) packets size
    = size + payload_len packets.
Proof.
  induction packets as [|p rest IH]; intros size H0 Hfit;
    cbn [fold_left payload_len] in *; [lia|].
  destruct (packet_len_bounds p) as (H8 & _ & _).
  destruct (payload_len_bounds rest) as (Hr & _).
  pose proof (len_nonneg rest).
  rewrite packet_span_len by lia.
  rewrite wrap32_small by lia. rewrite IH by lia. lia.
Qed.

Lemma movi_size_declared (packets : list Packet.t) :
  4 + payload_len packets < 2 ^ 32 ->
  movi_size packets = 4 + payload_len packets.
Proof. intros H. unfold movi_size. apply movi_size_fold; lia. Qed.

Lemma parseLISTChunk_movi (D : list byte) (p mo : Z) (ie : list IndexEntry)
    (fuel : nat) (ss : list Stream.t) (packets : list Packet.t)
    (payload rest' : list byte) (streams : list Stream.t) (fi : FileInfo.t) :
  packets_bytes ss packets = Some payload ->
  4 + payload_len packets < 2 ^ 32 ->
  ahead D p (fourcc_bytes (StringToChunkID MOVIList) ++ payload ++ rest') ->
  parseLISTChunk fuel (movi_size packets) streams fi (reading D p mo ie)
  = (Ok (streams, fi), reading D (p + 4 + payload_len packets) p ie)
  /\ ahead D (p + 4 + payload_len packets) rest'.
Proof.
  intros Hpay Hfit H.
  assert (Hp : 0 <= p) by (destruct H; lia).
  pose proof (len_packets_bytes ss packets payload Hpay) as Hlen.
  destruct (payload_len_bounds packets) as [Hlow Heven].
  pose proof (len_nonneg packets).
  rewrite (movi_size_declared packets Hfit).
  unfold parseLISTChunk. read_next H. rewrite fourcc_at_bytes.
  change (String.eqb (ChunkIDToString (StringToChunkID MOVIList)) HDRLList)
    with false.
  change (String.eqb (ChunkIDToString (StringToChunkID MOVIList)) MOVIList)
    with true. cbv iota zeta.
  where_am_i.
  erewrite (bind_Ok _ _ _ (reading D (p + 4) (p + 4 - 4) ie) tt) by reflexivity.
  replace (4 + payload_len packets - 4) with (payload_len packets) by lia.
  rewrite (wrap32_small (payload_len packets)) by lia.
  rewrite AlignSize_padded, padded_of_even by lia.
  erewrite bind_Ok by (apply skip_reading; lia).
  apply ahead_app in H. rewrite Hlen in H.
  replace (p + 4 - 4) with p by lia.
  split; [reflexivity | exact H].
Qed.

(** *** The index *)

Definition entry_fits (e : IndexEntry) : Prop :=
  0 <= ie_Flags e < 2 ^ 32 /\ 0 <= ie_Offset e < 2 ^ 32
  /\ 0 <= ie_Size e < 2 ^ 32.

Lemma decode_encode_entry_fits (e : IndexEntry) :
  entry_fits e -> decode_IndexEntry (encode_IndexEntry e) = e.
Proof.
  intros (Hf & Ho & Hs). rewrite decode_encode_IndexEntry.
  rewrite !wrap32_small by assumption. now destruct e.
Qed.

Lemma index_entries_fit (ss : list Stream.t) (packets : list Packet.t) :
  forall offset entries,
    0 <= offset < 2 ^ 32 ->
    index_entries ss packets offset = Some entries ->
    Forall entry_fits entries /\ List.length entries = List.length packets.
Proof.
  induction packets as [|p rest IH]; intros offset entries Ho H; cbn in H.
  - apply Some_inj in H. subst. split; [constructor | reflexivity].
  - destruct (packet_tag ss p) as [id|]; [|discriminate].
    destruct (index_entries ss rest _) as [es|] eqn:Hes; [|discriminate].
    apply Some_inj in H. subst entries.
    apply IH in Hes as [Hfit Hlen]; [|apply wrap32_range].
    split; [|cbn [List.length]; now rewrite Hlen].
    constructor; [|exact Hfit].
    unfold entry_fits, index_entry. cbn [ie_Flags ie_Offset ie_Size].
    pose proof (wrap32_range (len (Packet.Data p))).
    destruct (String.eqb _ _); lia.
Qed.

Lemma parseIDX1Chunk_loop_entries (D : list byte) (mo : Z) (rest' : list byte)
    (entries : list IndexEntry) :
  Forall entry_fits entries ->
  forall (p : Z) (done : list IndexEntry),
    ahead D p (entries_bytes entries ++ rest') ->
    parseIDX1Chunk_loop (List.length entries) done
      (reading D p mo (done ++ repeat zero_IndexEntry (List.length entries)))
    = (Ok tt, reading D (p + 16 * len entries) mo (done ++ entries))
    /\ ahead D (p + 16 * len entries) rest'.
Proof.
  induction 1 as [|e es He _ IH]; intros p done H.
  - cbn [List.length repeat parseIDX1Chunk_loop entries_bytes flat_map app] in *.
    change (len (@nil IndexEntry)) with 0. rewrite Z.add_0_r.
    split; [reflexivity | exact H].
  - cbn [List.length parseIDX1Chunk_loop entries_bytes flat_map] in *.
    rewrite <- app_assoc in H.
    assert (Hp : 0 <= p) by (destruct H; lia).
    read_next H. rewrite (decode_encode_entry_fits e He).
    erewrite (bind_Ok _ _ _
                (reading D (p + 16) mo
                   ((done ++ [e]) ++ repeat zero_IndexEntry (List.length es))) tt)
      by reflexivity.
    destruct (IH (p + 16) (done ++ [e]) H) as [Hrun Hend].
    rewrite Hrun, len_cons, <- app_assoc. cbn [app].
    replace (p + 16 + 16 * len es) with (p + 16 * (1 + len es)) in * by lia.
    split; [reflexivity | exact Hend].
Qed.

Lemma parseIDX1Chunk_entries (D : list byte) (p mo : Z) (ie : list IndexEntry)
    (rest' : list byte) (entries : list IndexEntry) :
  Forall entry_fits entries ->
  ahead D p (entries_bytes entries ++ rest') ->
  parseIDX1Chunk (16 * len entries) (reading D p mo ie)
  = (Ok tt, reading D (p + 16 * len entries) mo entries)
  /\ ahead D (p + 16 * len entries) rest'.
Proof.
  intros Hfit H. unfold parseIDX1Chunk.
  replace (16 * len entries / 16) with (len entries)
    by (rewrite Z.mul_comm, Z.div_mul; lia).
  unfold len at 1 2. rewrite Nat2Z.id.
  erewrite (bind_Ok _ _ _
              (reading D p mo ([] ++ repeat zero_IndexEntry (List.length entries))) tt)
    by reflexivity.
  exact (parseIDX1Chunk_loop_entries D mo rest' entries Hfit p [] H).
Qed.

Lemma parseChunks_loop_S (fuel : nat) (streams : list Stream.t)
    (fileInfo : FileInfo.t) :
  parseChunks_loop (S fuel) streams fileInfo
  = (p <- rSeek 0 SeekCurrent ;;
     match p with
     | inr _ => ret (streams, fileInfo)
     | inl pos =>
         fileSize <- gets Reader.fileSize ;;
         if pos >=? int64 (fileSize - 8) then ret (streams, fileInfo)
         else
           res <- binaryRead ChunkHeader_size ;;
           match res with
           | inr io_EOF => ret (streams, fileInfo)
           | inr e => fail "read chunk header" e
           | inl bs =>
               let header := decode_ChunkHeader bs in
               let chunkID := ChunkIDToString (ch_ID header) in
               st <-
                 (if String.eqb chunkID LISTSignature then
                    parseLISTChunk fuel (ch_Size header) streams fileInfo
                  else if String.eqb chunkID IDX1Chunk then
                    parseIDX1Chunk (ch_Size header) ;;;
                    ret (streams, fileInfo)
                  else
                    skip "skip chunk" (AlignSize (ch_Size header)) ;;;
                    ret (streams, fileInfo)) ;;
               parseChunks_loop fuel (fst st) (snd st)
           end
     end).
Proof. reflexivity. Qed.

Lemma gets_fileSize_reading (D : list byte) (p mo : Z) (ie : list IndexEntry) :
  gets Reader.fileSize (reading D p mo ie) = (Ok (len D), reading D p mo ie).
Proof. reflexivity. Qed.

Lemma gets_filename_reading (D : list byte) (p mo : Z) (ie : list IndexEntry) :
  gets Reader.filename (reading D p mo ie) = (Ok "", reading D p mo ie).
Proof. reflexivity. Qed.

(** *** The whole file *)

Lemma declared_sum_ge (ss : list Stream.t) :
  Forall typed ss -> 92 * len ss <= declared_sum ss.
Proof.
  induction 1 as [|s rest Hs _ IH]; cbn [declared_sum]; [reflexivity|].
  rewrite len_cons.
  destruct (strl_size_typed s Hs) as [(_ & _ & -> & _) | (_ & _ & -> & _)]; lia.
Qed.

Lemma len_entries_bytes (entries : list IndexEntry) :
  len (entries_bytes entries) = 16 * len entries.
Proof.
  induction entries as [|e es IH]; [reflexivity|].
  cbn [entries_bytes flat_map]. rewrite len_app, len_cons.
  autorewrite with lens. unfold entries_bytes in IH. lia.
Qed.

Lemma len_avih_bytes (ss : list Stream.t) (n : Z) : len (avih_bytes ss n) = 64.
Proof. unfold avih_bytes. rewrite len_app. now autorewrite with lens. Qed.

(** The position of the payload list's sub-type tag in a file. *)
Definition movi_position (ss : list Stream.t) : Z :=
  12 + 8 + 68 + (declared_sum ss + 2 * audio_count ss) + 8.

Lemma parseChunks_loop_file (D : list byte) (ss : list Stream.t)
    (packets : list Packet.t) (n : Z) (payload : list byte)
    (entries : list IndexEntry) (fi : FileInfo.t) (more : nat) :
  Forall typed ss ->
  audio_count ss <= 50 ->
  packets_bytes ss packets = Some payload ->
  index_entries ss packets 4 = Some entries ->
  packets <> [] ->
  len D < 2 ^ 32 ->
  ahead D 12 (hdrl_bytes ss packets n
              ++ (list_header (movi_size packets) MOVIList ++ payload)
              ++ (chunk IDX1Chunk (idx1_size packets) ++ entries_bytes entries)) ->
  exists fi',
    parseChunks_loop (List.length ss + 8 + more) [] fi (reading D 12 0 [])
    = (Ok (parsed_streams packets 0 ss, fi'),
       reading D (len D) (movi_position ss) entries).
Proof.
  intros Ht Haudio Hpay Hent Hne Hsmall H.
  pose proof (ahead_len _ _ _ H) as HlenD.
  pose proof (len_packets_bytes ss packets payload Hpay) as Hlpay.
  destruct (index_entries_fit ss packets 4 entries ltac:(lia) Hent) as [Hefit Helen].
  assert (Hn : len entries = len packets) by (unfold len; now rewrite Helen).
  assert (Hpos : 1 <= len packets).
  { destruct packets; [congruence | rewrite len_cons; pose proof (len_nonneg packets); lia]. }
  pose proof (declared_sum_nonneg ss Ht) as Hd.
  pose proof (audio_count_nonneg ss) as Ha.
  destruct (payload_len_bounds packets) as [Hplow _].
  unfold hdrl_bytes in HlenD.
  rewrite !len_app, len_avih_bytes, (len_strls_bytes packets ss Ht 0),
    len_entries_bytes, Hlpay, Hn in HlenD.
  autorewrite with lens in HlenD.
  assert (Hidx : idx1_size packets = 16 * len packets).
  { unfold idx1_size. rewrite int64_small by lia. rewrite wrap32_small; lia. }
  assert (Hhdrl : hdrl_size ss = 68 + declared_sum ss)
    by (apply hdrl_size_declared; [assumption | lia]).
  assert (Hmovi : movi_size packets = 4 + payload_len packets)
    by (apply movi_size_declared; lia).
  (* the header list *)
  replace (List.length ss + 8 + more)%nat
    with (S (List.length ss + 5 + (more + 2))) by lia.
  rewrite parseChunks_loop_S. where_am_i.
  erewrite bind_Ok by apply gets_fileSize_reading.
  rewrite (int64_small (len D - 8)) by lia.
  destruct (Z.geb_spec 12 (len D - 8)); [lia|].
  unfold hdrl_bytes, list_header, encode_LISTHeader, chunk in H.
  cbn [list_ChunkHeader list_Type] in H. rewrite <- !app_assoc in H.
  read_next H.
  rewrite decode_encode_ChunkHeader. cbn [ch_ID ch_Size]. cbv zeta.
  change (String.eqb (ChunkIDToString (StringToChunkID LISTSignature)) LISTSignature)
    with true. cbv iota.
  assert (Hw : wrap32 (hdrl_size ss) = hdrl_size ss)
    by (rewrite Hhdrl; apply wrap32_small; lia).
  rewrite Hw.
  destruct (parseLISTChunk_hdrl D (12 + 8) 0 [] packets ss n fi _ (more + 2)
              Ht Haudio ltac:(lia) H) as (fi' & Hrun & Hnext).
  exists fi'.
  erewrite bind_Ok by exact Hrun. cbn [fst snd].
  rewrite (len_strls_bytes packets ss Ht 0) in *.
  (* the payload list *)
  replace (List.length ss + 5 + (more + 2))%nat
    with (S (S (S (List.length ss + 4 + more)))) by lia.
  rewrite parseChunks_loop_S. where_am_i.
  erewrite bind_Ok by apply gets_fileSize_reading.
  rewrite (int64_small (len D - 8)) by lia.
  destruct (Z.geb_spec (12 + 8 + 68 + (declared_sum ss + 2 * audio_count ss))
              (len D - 8)); [lia|].
  read_next Hnext.
  rewrite decode_encode_ChunkHeader. cbn [ch_ID ch_Size]. cbv zeta.
  change (String.eqb (ChunkIDToString (StringToChunkID LISTSignature)) LISTSignature)
    with true. cbv iota.
  assert (Hw2 : wrap32 (movi_size packets) = movi_size packets)
    by (rewrite Hmovi; apply wrap32_small; lia).
  rewrite Hw2.
  destruct (parseLISTChunk_movi D
              (12 + 8 + 68 + (declared_sum ss + 2 * audio_count ss) + 8) 0 []
              (S (S (List.length ss + 4 + more))) ss packets payload _
              (parsed_streams packets 0 ss) fi' Hpay ltac:(lia) Hnext)
    as [Hrun2 Hnext2].
  erewrite bind_Ok by exact Hrun2. cbn [fst snd].
  unfold movi_position.
  set (mp := 12 + 8 + 68 + (declared_sum ss + 2 * audio_count ss) + 8) in *.
  assert (Hmp : 0 <= mp) by (unfold mp; lia).
  (* the index *)
  rewrite parseChunks_loop_S. where_am_i.
  erewrite bind_Ok by apply gets_fileSize_reading.
  rewrite (int64_small (len D - 8)) by lia.
  destruct (Z.geb_spec (mp + 4 + payload_len packets) (len D - 8));
    [unfold mp in *; lia|].
  read_next Hnext2.
  rewrite decode_encode_ChunkHeader. cbn [ch_ID ch_Size]. cbv zeta.
  change (String.eqb (ChunkIDToString (StringToChunkID IDX1Chunk)) LISTSignature)
    with false.
  change (String.eqb (ChunkIDToString (StringToChunkID IDX1Chunk)) IDX1Chunk)
    with true. cbv iota.
  rewrite Hidx, wrap32_small, <- Hn by lia.
  rewrite <- (app_nil_r (entries_bytes entries)) in Hnext2.
  destruct (parseIDX1Chunk_entries D (mp + 4 + payload_len packets + 8)
              mp [] [] entries Hefit Hnext2) as [Hrun3 Hnext3].
  erewrite bind_Ok by (erewrite bind_Ok by exact Hrun3; reflexivity).
  cbn [fst snd].
  (* the end of the file *)
  rewrite parseChunks_loop_S.
  assert (Hend : mp + 4 + payload_len packets + 8 + 16 * len entries = len D)
    by (unfold mp; lia).
  rewrite Hend.
  pose proof (len_nonneg D).
  where_am_i.
  erewrite bind_Ok by apply gets_fileSize_reading.
  rewrite (int64_small (len D - 8)) by lia.
  destruct (Z.geb_spec (len D) (len D - 8)); [reflexivity | lia].
Qed.

Lemma decode_encode_RIFFHeader (h : RIFFHeader) :
  riff_Signature (decode_RIFFHeader (encode_RIFFHeader h)) = riff_Signature h
  /\ riff_Type (decode_RIFFHeader (encode_RIFFHeader h)) = riff_Type h.
Proof. destruct h as [[[[a b] c] d] size [[[e f] g] i]]. split; reflexivity. Qed.

Lemma len_file_bytes (ss : list Stream.t) (packets : list Packet.t)
    (file : list byte) :
  Forall typed ss ->
  file_bytes ss packets = Some file ->
  len file = 108 + declared_sum ss + 2 * audio_count ss
             + payload_len packets + 16 * len packets.
Proof.
  intros Ht H. unfold file_bytes in H.
  destruct (total_frames ss packets 0) as [n|]; [|discriminate].
  destruct (packets_bytes ss packets) as [payload|] eqn:Hpay; [|discriminate].
  destruct (index_entries ss packets 4) as [entries|] eqn:Hent; [|discriminate].
  apply Some_inj in H. subst file.
  destruct (index_entries_fit ss packets 4 entries ltac:(lia) Hent) as [_ Helen].
  unfold hdrl_bytes.
  rewrite !len_app, len_avih_bytes, (len_strls_bytes packets ss Ht 0),
    len_entries_bytes, (len_packets_bytes ss packets payload Hpay).
  autorewrite with lens.
  assert (Hn : len entries = len packets) by (unfold len; now rewrite Helen).
  rewrite Hn. lia.
Qed.

(** [Open] on a serialized file: the streams, the position of the payload
    list and the index it finds. *)
Lemma Open_file (ss : list Stream.t) (packets : list Packet.t)
    (file : list byte) (entries : list IndexEntry) :
  Forall typed ss ->
  audio_count ss <= 50 ->
  file_bytes ss packets = Some file ->
  index_entries ss packets 4 = Some entries ->
  packets <> [] ->
  len file < 2 ^ 32 ->
  exists fi,
    run (Open (Source.NewReader file) (len file)) NewDemuxer
    = (Ok tt,
       with_meta (reading file (len file) (movi_position ss) entries)
         (parsed_streams packets 0 ss) (Some fi)).
Proof.
  intros Ht Haudio Hfile Hent Hne Hsmall.
  pose proof (len_file_bytes ss packets file Ht Hfile) as Hlen.
  pose proof (declared_sum_ge ss Ht) as Hds.
  pose proof (audio_count_nonneg ss) as Ha.
  destruct (payload_len_bounds packets) as [Hplow _].
  pose proof (len_nonneg packets) as Hlp. pose proof (len_nonneg ss) as Hls.
  unfold file_bytes in Hfile. rewrite Hent in Hfile.
  destruct (total_frames ss packets 0) as [n|]; [|discriminate].
  destruct (packets_bytes ss packets) as [payload|] eqn:Hpay; [|discriminate].
  apply Some_inj in Hfile.
  assert (H : ahead file 0 file) by apply ahead_start.
  rewrite <- Hfile in H at 2.
  change (run (Open (Source.NewReader file) (len file)) NewDemuxer)
    with (parseFile (parse_fuel (Source.NewReader file)) (reading file 0 0 [])).
  unfold parseFile. read_next H. cbn [Z.add] in H.
  destruct (decode_encode_RIFFHeader
              {| riff_Signature := StringToChunkID RIFFSignature;
                 riff_FileSize := riff_size ss packets;
                 riff_Type := StringToChunkID AVISignature |}) as [-> ->].
  cbn [riff_Signature riff_Type].
  change (negb (IsValidRIFFSignature (StringToChunkID RIFFSignature))) with false.
  change (negb (IsValidAVISignature (StringToChunkID AVISignature))) with false.
  cbv iota.
  unfold parseChunks.
  erewrite bind_Ok by apply gets_filename_reading.
  erewrite bind_Ok by apply gets_fileSize_reading.
  erewrite bind_Ok by (apply rSeek_start_reading; lia).
  cbv beta iota.
  unfold parse_fuel, Source.NewReader. cbn [Source.data].
  replace (S (List.length file))
    with (List.length ss + 8 + (S (List.length file) - List.length ss - 8))%nat
    by (unfold len in *; lia).
  destruct (parseChunks_loop_file file ss packets n payload entries
              {| FileInfo.Filename := ""; FileInfo.Duration := 0;
                 FileInfo.FileSize := len file; FileInfo.Streams := [];
                 FileInfo.VideoStreams := 0; FileInfo.AudioStreams := 0 |}
              (S (List.length file) - List.length ss - 8)
              Ht Haudio Hpay Hent Hne Hsmall H) as [fi' Hrun].
  erewrite bind_Ok by exact Hrun.
  eexists. reflexivity.
Qed.

(** *** The packets *)

(** The index entry [e] is the one the muxer writes for the packet [p]. *)
Definition entry_of (ss : list Stream.t) (p : Packet.t) (e : IndexEntry) : Prop :=
  exists s,
    index ss (Packet.StreamIndex p) = Some s
    /\ MakeChunkID (Packet.StreamIndex p) (packetTwoCC s p) = Some (ie_ChunkID e)
    /\ ie_Flags e = (if String.eqb (Packet.Flags p) "K__" then 16 else 0)
    /\ ie_Size e = wrap32 (len (Packet.Data p)).

Lemma index_entries_of (ss : list Stream.t) (packets : list Packet.t) :
  forall offset entries,
    index_entries ss packets offset = Some entries ->
    Forall2 (entry_of ss) packets entries.
Proof.
  induction packets as [|p rest IH]; intros offset entries H; cbn in H.
  - apply Some_inj in H. subst. constructor.
  - unfold packet_tag in H.
    destruct (index ss (Packet.StreamIndex p)) as [s|] eqn:Hs; [|discriminate].
    destruct (MakeChunkID _ _) as [id|] eqn:Hid; [|discriminate].
    destruct (index_entries ss rest _) as [es|] eqn:Hes; [|discriminate].
    apply Some_inj in H. subst entries.
    constructor; [|eapply IH; exact Hes].
    exists s. repeat split; assumption.
Qed.

(** The tag of a typed stream's packet decodes to the packet's stream index
    and to the stream's kind. *)
Lemma entry_of_decodes (ss : list Stream.t) (p : Packet.t) (e : IndexEntry)
    (s : Stream.t) :
  index ss (Packet.StreamIndex p) = Some s ->
  typed s ->
  0 <= Packet.StreamIndex p <= 255 ->
  MakeChunkID (Packet.StreamIndex p) (packetTwoCC s p) = Some (ie_ChunkID e) ->
  entry_stream e = Packet.StreamIndex p
  /\ entry_kind e = Some (Stream.Type_ s).
Proof.
  intros Hs Ht Hi Hid. unfold entry_stream, entry_kind.
  unfold packetTwoCC in Hid.
  destruct Ht as [Hty | Hty]; rewrite Hty in *.
  - change (String.eqb StreamTypeVideo StreamTypeVideo) with true in Hid.
    cbv iota in Hid.
    destruct (String.eqb (Packet.Flags p) "K__");
      apply Some_inj in Hid; rewrite <- Hid;
      (split; [apply decode_MakeChunkID; exact Hi | reflexivity]).
  - rewrite eqb_video_audio in Hid.
    change (String.eqb StreamTypeAudio StreamTypeAudio) with true in Hid.
    cbv iota in Hid. apply Some_inj in Hid. rewrite <- Hid.
    split; [apply decode_MakeChunkID; exact Hi | reflexivity].
Qed.

Lemma filter_all {A} (f : A -> bool) (l : list A) :
  Forall (fun x => f x = true) l -> filter f l = l.
Proof.
  induction 1 as [|x l Hx _ IH]; [reflexivity|].
  cbn [filter]. now rewrite Hx, IH.
Qed.

Lemma Forall2_compose {A B C} (R : A -> B -> Prop) (S : B -> C -> Prop)
    (T : A -> C -> Prop) (la : list A) (lb : list B) :
  Forall2 R la lb ->
  forall lc, Forall2 S lb lc ->
    (forall a b c, In a la -> R a b -> S b c -> T a c) ->
    Forall2 T la lc.
Proof.
  induction 1 as [|a b la lb Hab _ IH]; intros lc Hbc HT;
    inversion Hbc as [|? c ? lc' Hc Hrest]; subst; constructor.
  - eapply HT; [now left | exact Hab | exact Hc].
  - apply IH; [exact Hrest|]. intros a' b' c' Hin. apply HT. now right.
Qed.

Lemma len_parsed_streams (packets : list Packet.t) (rest : list Stream.t) :
  forall i, len (parsed_streams packets i rest) = len rest.
Proof.
  induction rest as [|s rest IH]; intros i; [reflexivity|].
  cbn [parsed_streams]. now rewrite !len_cons, IH.
Qed.

Lemma len_declared_streams (codecs : list Codec.t) :
  forall i, len (declared_streams i codecs) = len codecs.
Proof.
  induction codecs as [|c rest IH]; intros i; [reflexivity|].
  cbn [declared_streams]. now rewrite !len_cons, IH.
Qed.

Lemma In_declared_streams (codecs : list Codec.t) (s : Stream.t) :
  forall i, In s (declared_streams i codecs) ->
            exists c, In c codecs /\ Stream.Type_ s = Codec.Type_ c.
Proof.
  induction codecs as [|c rest IH]; intros i H; cbn in H; [contradiction|].
  destruct H as [<- | H].
  - exists c. split; [now left | reflexivity].
  - destruct (IH _ H) as (c' & Hin & Hty). exists c'. split; [now right | exact Hty].
Qed.

(** *** The layout of valid input is defined *)

Lemma packet_tag_defined (ss : list Stream.t) (p : Packet.t) :
  Forall typed ss ->
  0 <= Packet.StreamIndex p < len ss ->
  exists s id,
    index ss (Packet.StreamIndex p) = Some s /\ typed s
    /\ packet_tag ss p = Some id.
Proof.
  intros Ht Hi. destruct (index_in_range ss _ Hi) as [s Hs].
  assert (Hts : typed s).
  { rewrite Forall_forall in Ht. apply Ht. eapply index_In. exact Hs. }
  unfold packet_tag. rewrite Hs.
  destruct (MakeChunkID_two (Packet.StreamIndex p) (packetTwoCC s p))
    as (c0 & c1 & Hid).
  - unfold packetTwoCC. destruct Hts as [-> | ->].
    + change (String.eqb StreamTypeVideo StreamTypeVideo) with true. cbv iota.
      destruct (String.eqb _ _); reflexivity.
    + rewrite eqb_video_audio. reflexivity.
  - exists s. eexists. repeat split; [exact Hts | exact Hid].
Qed.

Lemma total_frames_defined (ss : list Stream.t) (packets : list Packet.t) :
  indices_declared (len ss) packets ->
  forall acc, exists n, total_frames ss packets acc = Some n.
Proof.
  induction 1 as [|p rest Hp _ IH]; intros acc; cbn [total_frames]; [eauto|].
  destruct (index_in_range ss _ Hp) as [s ->]. apply IH.
Qed.

Lemma packets_bytes_defined (ss : list Stream.t) (packets : list Packet.t) :
  Forall typed ss -> indices_declared (len ss) packets ->
  exists payload, packets_bytes ss packets = Some payload.
Proof.
  intros Ht. induction 1 as [|p rest Hp _ [payload IH]]; cbn [packets_bytes];
    [eauto|].
  destruct (packet_tag_defined ss p Ht Hp) as (s & id & _ & _ & ->).
  rewrite IH. eauto.
Qed.

Lemma index_entries_defined (ss : list Stream.t) (packets : list Packet.t) :
  Forall typed ss -> indices_declared (len ss) packets ->
  forall offset, exists entries, index_entries ss packets offset = Some entries.
Proof.
  intros Ht. induction 1 as [|p rest Hp _ IH]; intros offset;
    cbn [index_entries]; [eauto|].
  destruct (packet_tag_defined ss p Ht Hp) as (s & id & _ & _ & ->).
  destruct (IH (wrap32 (offset + packet_span p))) as [es ->]. eauto.
Qed.

Lemma file_bytes_defined (ss : list Stream.t) (packets : list Packet.t) :
  Forall typed ss -> indices_declared (len ss) packets ->
  exists file entries,
    file_bytes ss packets = Some file
    /\ index_entries ss packets 4 = Some entries.
Proof.
  intros Ht Hi. unfold file_bytes.
  destruct (total_frames_defined ss packets Hi 0) as [n ->].
  destruct (packets_bytes_defined ss packets Ht Hi) as [payload ->].
  destruct (index_entries_defined ss packets Ht Hi 4) as [entries ->].
  eauto.
Qed.

(** *** The streams and packets that come back *)

(** The parsed streams are the declared codecs, the first at index [i]. *)
Fixpoint codecs_match (i : Z) (codecs : list Codec.t) (streams : list Stream.t)
  : Prop :=
  match codecs, streams with
  | [], [] => True
  | c :: codecs, s :: streams =>
      codec_matches i c s /\ codecs_match (i + 1) codecs streams
  | _, _ => False
  end.

Lemma codec_typed (c : Codec.t) :
  valid_codec c ->
  Codec.Type_ c = StreamTypeVideo \/ Codec.Type_ c = StreamTypeAudio.
Proof. intros [(H & _) | (H & _)]; [now left | now right]. Qed.

Lemma declared_streams_typed (codecs : list Codec.t) :
  Forall valid_codec codecs -> forall i, Forall typed (declared_streams i codecs).
Proof.
  induction 1 as [|c rest Hc _ IH]; intros i; cbn [declared_streams];
    constructor; [|apply IH].
  exact (codec_typed c Hc).
Qed.

Lemma parsed_streams_match (packets : list Packet.t) (codecs : list Codec.t) :
  Forall valid_codec codecs ->
  forall i,
    codecs_match i codecs (parsed_streams packets i (declared_streams i codecs))
    /\ frame_rates_ok (parsed_streams packets i (declared_streams i codecs)).
Proof.
  induction 1 as [|c rest Hc _ IH]; intros i;
    cbn [declared_streams parsed_streams codecs_match].
  - split; [exact I | constructor].
  - destruct (parsed_stream_matches packets i c Hc) as [Hm Hfps].
    destruct (IH (i + 1)) as [Hrest Hok].
    split; [split; assumption | constructor; assumption].
Qed.





Lemma count_packets_snoc (l : list Packet.t) (p : Packet.t) (i : Z)
    (k : StreamType) :
  count_packets (l ++ [p]) i k
  = count_packets l i k
    + (if (Packet.StreamIndex p =? i) && String.eqb (Packet.Codec p) k
       then 1 else 0).
Proof.
  unfold count_packets. rewrite filter_app, len_app. cbn [filter].
  destruct (_ && _); reflexivity.
Qed.



Lemma payload_len_In (packets : list Packet.t) (p : Packet.t) :
  In p packets -> len (Packet.Data p) <= payload_len packets.
Proof.
  induction packets as [|q rest IH]; intros Hin; [contradiction|].
  cbn [payload_len]. destruct (payload_len_bounds rest) as [Hrest _].
  pose proof (len_nonneg rest) as Hn.
  destruct Hin as [-> | Hin].
  - destruct (packet_len_bounds p) as (_ & _ & Hp). lia.
  - destruct (packet_len_bounds q) as (Hq & _ & _). specialize (IH Hin). lia.
Qed.


Lemma entry_of_accepted (codecs : list Codec.t) (packets : list Packet.t)
    (p : Packet.t) (e : IndexEntry) :
  Forall valid_codec codecs ->
  0 <= Packet.StreamIndex p < len codecs ->
  Packet.StreamIndex p <= 255 ->
  entry_of (declared_streams 0 codecs) p e ->
  entry_accepted (parsed_streams packets 0 (declared_streams 0 codecs)) e = true.
Proof.
  intros Hvalid Hi Hmax (s & Hs & Hid & _).
  assert (Hts : typed s).
  { pose proof (declared_streams_typed codecs Hvalid 0) as Ht.
    rewrite Forall_forall in Ht. apply Ht. eapply index_In. exact Hs. }
  destruct (entry_of_decodes _ p e s Hs Hts ltac:(lia) Hid) as [Hes Hek].
  unfold entry_accepted.
  rewrite Hes, Hek, len_parsed_streams, len_declared_streams.
  destruct (Z.ltb_spec (Packet.StreamIndex p) (len codecs)); [reflexivity | lia].
Qed.

Lemma Forall2_Forall_r {A B} (R : A -> B -> Prop) (P : A -> Prop) (Q : B -> Prop)
    (la : list A) (lb : list B) :
  Forall2 R la lb -> Forall P la ->
  (forall a b, P a -> R a b -> Q b) -> Forall Q lb.
Proof.
  induction 1 as [|a b la lb Hab _ IH]; intros HP HQ; constructor;
    inversion HP; subst.
  - eapply HQ; eassumption.
  - apply IH; assumption.
Qed.


(** The two codecs of the scenario are valid. *)
Lemma mjpg_codec_valid : valid_codec mjpg_codec.
Proof.
  left. unfold fps_survives. cbn [mjpg_codec Codec.Type_ Codec.Width Codec.Height
    Codec.FPS].
  split; [reflexivity|]. split; [lia|]. split; [lia|].
  split; [vm_compute; reflexivity|]. split; [vm_compute; reflexivity|].
  vm_compute. intros H; discriminate H.
Qed.

Lemma pcm_codec_valid : valid_codec pcm_codec.
Proof.
  right. cbn [pcm_codec Codec.Type_ Codec.Channels Codec.SampleRate Codec.BitDepth].
  split; [reflexivity|]. lia.
Qed.

(** ** The size field of the outer header *)

Lemma riff_size_written (h : RIFFHeader) (rest : list byte) :
  u32_at (encode_RIFFHeader h ++ rest) 4 = wrap32 (riff_FileSize h).
Proof.
  destruct h as [[[[a b] c] d] size [[[e f] g] i]].
  rewrite <- le_decode_le32. reflexivity.
Qed.

Lemma idx1_size_declared (packets : list Packet.t) :
  16 * len packets < 2 ^ 32 -> idx1_size packets = 16 * len packets.
Proof.
  intros H. pose proof (len_nonneg packets) as Hn. unfold idx1_size.
  rewrite int64_small by lia. rewrite wrap32_small by lia. lia.
Qed.

(** The field [writeAVIFile] writes for a file below [2^32] bytes: the sum
    as the code has it, which is the length of the file less the outer
    header's first 8 bytes, less the 8 bytes of the header list's own
    header, less 2 bytes per audio stream. *)
Lemma riff_size_of_file (ss : list Stream.t) (packets : list Packet.t)
    (file : list byte) :
  Forall typed ss ->
  file_bytes ss packets = Some file ->
  len file < 2 ^ 32 ->
  u32_at file 4
  = 4 + hdrl_size ss + 8 + movi_size packets + 8 + idx1_size packets
  /\ len file - 8 = u32_at file 4 + 8 + 2 * audio_count ss.
Proof.
  intros Ht Hfile Hsmall.
  pose proof (len_file_bytes ss packets file Ht Hfile) as Hlen.
  pose proof (declared_sum_nonneg ss Ht) as Hd.
  pose proof (audio_count_nonneg ss) as Ha.
  destruct (payload_len_bounds packets) as [Hpay _].
  pose proof (len_nonneg packets) as Hn.
  assert (Hfield : u32_at file 4 = riff_size ss packets).
  { unfold file_bytes in Hfile.
    destruct (total_frames ss packets 0); [|discriminate].
    destruct (packets_bytes ss packets); [|discriminate].
    destruct (index_entries ss packets 4); [|discriminate].
    apply Some_inj in Hfile. subst file.
    rewrite riff_size_written. cbn [riff_FileSize].
    unfold riff_size. now rewrite wrap32_idem. }
  rewrite Hfield. unfold riff_size.
  rewrite (hdrl_size_declared ss Ht) by lia.
  rewrite (movi_size_declared packets) by lia.
  rewrite (idx1_size_declared packets) by lia.
  repeat match goal with
         | |- context [wrap32 ?z] => rewrite (wrap32_small z) by lia
         end.
  lia.
Qed.

(** C2.  For declared streams and packets whose file is shorter than
    [2^32] bytes, the size field [Finalize] writes in the outer header is
    [4 + hdrl + 8 + movi + 8 + idx1] for the declared sizes of the three
    regions: the 8 bytes of the header list's own header are not in the
    sum.  The bytes that follow the first 8 are that field plus 8, plus 2
    for every audio stream (whose format block is two bytes longer than
    declared); the field never equals them. *)
Theorem Finalize_riff_size_omits_list_header (codecs : list Codec.t)
    (packets : list Packet.t) :
  Forall valid_codec codecs ->
  indices_declared (len codecs) packets ->
  len (sink_bytes (snd (run (Serialize codecs packets) NewMuxer))) < 2 ^ 32 ->
  exists wr,
    run (Serialize codecs packets) NewMuxer = (Ok tt, wr)
    /\ u32_at (sink_bytes wr) 4
       = 4 + hdrl_size (Writer.streams wr) + 8 + movi_size packets + 8
         + idx1_size packets
    /\ len (sink_bytes wr) - 8
       = u32_at (sink_bytes wr) 4 + 8 + 2 * audio_count (Writer.streams wr)
    /\ u32_at (sink_bytes wr) 4 <> len (sink_bytes wr) - 8.
Proof.
  intros Hvalid Hidx Hsmall.
  set (ss := declared_streams 0 codecs).
  assert (Ht : Forall typed ss) by (apply declared_streams_typed; exact Hvalid).
  assert (Hidx' : indices_declared (len ss) packets).
  { unfold ss. now rewrite len_declared_streams. }
  destruct (file_bytes_defined ss packets Ht Hidx') as (file & entries & Hfile & _).
  pose proof (Serialize_spec codecs packets file Hidx Hfile) as Hser.
  fold ss in Hser. rewrite Hser in Hsmall.
  change (sink_bytes (snd (Ok tt, writing ss packets file))) with file in Hsmall.
  exists (writing ss packets file). split; [exact Hser|].
  change (sink_bytes (writing ss packets file)) with file.
  change (Writer.streams (writing ss packets file)) with ss.
  destruct (riff_size_of_file ss packets file Ht Hfile Hsmall) as [Hsum Hbytes].
  pose proof (audio_count_nonneg ss) as Ha.
  split; [exact Hsum|]. split; [exact Hbytes|]. lia.
Qed.

(** One video stream and one packet of four bytes: a file of 260 bytes
    whose size field holds 244. *)
Lemma Finalize_riff_size_omits_list_header_witness :
  let packets := [mk_packet 0 StreamTypeVideo [x01; x02; x03; x04] 0 1 "K__"] in
  exists wr,
    run (Serialize [mjpg_codec] packets) NewMuxer = (Ok tt, wr)
    /\ u32_at (sink_bytes wr) 4
       = 4 + hdrl_size (Writer.streams wr) + 8 + movi_size packets + 8
         + idx1_size packets
    /\ len (sink_bytes wr) - 8
       = u32_at (sink_bytes wr) 4 + 8 + 2 * audio_count (Writer.streams wr)
    /\ u32_at (sink_bytes wr) 4 <> len (sink_bytes wr) - 8.
Proof.
  intros packets.
  apply (Finalize_riff_size_omits_list_header [mjpg_codec] packets).
  - constructor; [exact mjpg_codec_valid | constructor].
  - constructor; [|constructor]. cbn. lia.
  - vm_compute. reflexivity.
Defined.

(** The numbers of that file. *)
Lemma riff_size_of_one_packet_file :
  let packets := [mk_packet 0 StreamTypeVideo [x01; x02; x03; x04] 0 1 "K__"] in
  let file := sink_bytes (snd (run (Serialize [mjpg_codec] packets) NewMuxer)) in
  len file = 260 /\ u32_at file 4 = 244.
Proof. cbv zeta. by_evaluation. Qed.

(** ** The round trip at concrete inputs *)




(** * Further properties of the package *)

(** ** buffer.go: the cursor and the content *)

Module BufferFacts.

Import SeekableBuffer.

(** The cursor lies within the content. *)
Definition well_formed (sb : t) : Prop := 0 <= pos sb <= len (buf sb).

Lemma Seek_cases (sb : t) (offset whence : Z) :
  (exists msg, Seek sb offset whence = (inr msg, sb))
  \/ (exists newPos,
        0 <= newPos
        /\ Seek sb offset whence
           = (inl newPos,
              {| buf := buf sb ++ repeat x00 (Z.to_nat (newPos - len (buf sb)));
                 pos := newPos |})).
Proof.
  unfold Seek.
  destruct (if whence =? SeekStart then Some offset
            else if whence =? SeekCurrent then Some (int64 (pos sb + offset))
            else if whence =? SeekEnd then Some (int64 (len (buf sb) + offset))
            else None) as [newPos|]; [|left; eauto].
  destruct (Z.ltb_spec newPos 0); [left; eauto|]. right. exists newPos.
  split; [assumption|].
  destruct (Z.gtb_spec newPos (len (buf sb))); [reflexivity|].
  replace (Z.to_nat (newPos - len (buf sb))) with 0%nat by lia.
  cbn [repeat]. now rewrite app_nil_r.
Qed.

Lemma Write_buf (sb : t) (p : list byte) :
  well_formed sb ->
  buf (snd (Write sb p))
  = firstn (Z.to_nat (pos sb)) (buf sb) ++ p
    ++ skipn (Z.to_nat (pos sb + len p)) (buf sb).
Proof.
  intros [H0 Hle]. pose proof (len_nonneg p) as Hp.
  unfold Write, slice_to, slice_from; cbn [snd buf].
  destruct (Z.ltb_spec (pos sb) (len (buf sb))) as [Hlt | Hge].
  - destruct (Z.ltb_spec (pos sb + len p) (len (buf sb))) as [|Hend];
      [reflexivity|].
    rewrite (skipn_all2 (buf sb)) by (unfold len in *; lia). reflexivity.
  - rewrite firstn_all2 by (unfold len in *; lia).
    rewrite skipn_all2 by (unfold len in *; lia).
    now rewrite app_nil_r.
Qed.

End BufferFacts.

(** X1.  The cursor of a [SeekableBuffer] never leaves the content: a new and a
    reset buffer have it at 0 in an empty content, and [Write], [Seek]
    (whatever the offset and whence, failing or not) and [Read] keep it
    between 0 and the content length. *)
Theorem buffer_cursor_stays_within_content (sb : SeekableBuffer.t) :
  BufferFacts.well_formed sb ->
  BufferFacts.well_formed SeekableBuffer.NewSeekableBuffer
  /\ BufferFacts.well_formed (SeekableBuffer.Reset sb)
  /\ (forall p, BufferFacts.well_formed (snd (SeekableBuffer.Write sb p)))
  /\ (forall offset whence,
         BufferFacts.well_formed (snd (SeekableBuffer.Seek sb offset whence)))
  /\ (forall n, BufferFacts.well_formed (snd (SeekableBuffer.Read sb n))).
Proof.
  intros Hwf. pose proof Hwf as [H0 Hle].
  split; [split; reflexivity|]. split; [split; reflexivity|].
  split; [|split].
  - intros p. unfold BufferFacts.well_formed.
    rewrite (BufferFacts.Write_buf sb p Hwf). cbn [SeekableBuffer.Write snd SeekableBuffer.pos].
    pose proof (len_nonneg p) as Hp.
    rewrite !len_app, len_firstn by lia.
    pose proof (len_nonneg (skipn (Z.to_nat (SeekableBuffer.pos sb + len p))
                              (SeekableBuffer.buf sb))).
    lia.
  - intros offset whence.
    destruct (BufferFacts.Seek_cases sb offset whence)
      as [[msg ->] | (newPos & Hpos & ->)]; [exact Hwf|].
    unfold BufferFacts.well_formed. cbn [snd SeekableBuffer.pos SeekableBuffer.buf].
    rewrite len_app, len_repeat. lia.
  - intros n. unfold SeekableBuffer.Read.
    destruct (Z.geb_spec (SeekableBuffer.pos sb) (len (SeekableBuffer.buf sb)));
      [exact Hwf|].
    unfold BufferFacts.well_formed, slice_from.
    cbn [snd SeekableBuffer.pos SeekableBuffer.buf].
    pose proof (len_nonneg (firstn (Z.to_nat n)
                  (skipn (Z.to_nat (SeekableBuffer.pos sb)) (SeekableBuffer.buf sb)))).
    assert (len (firstn (Z.to_nat n)
                  (skipn (Z.to_nat (SeekableBuffer.pos sb)) (SeekableBuffer.buf sb)))
            <= len (SeekableBuffer.buf sb) - SeekableBuffer.pos sb).
    { unfold len in *. rewrite length_firstn, length_skipn. lia. }
    lia.
Qed.

(** A buffer in the middle of its content. *)
Lemma buffer_cursor_stays_within_content_witness :
  let sb := {| SeekableBuffer.buf := [x01; x02; x03]; SeekableBuffer.pos := 1 |} in
  BufferFacts.well_formed (snd (SeekableBuffer.Write sb [x0a; x0b; x0c]))
  /\ BufferFacts.well_formed (snd (SeekableBuffer.Seek sb 10 SeekStart))
  /\ BufferFacts.well_formed (snd (SeekableBuffer.Seek sb (-5) SeekCurrent))
  /\ BufferFacts.well_formed (snd (SeekableBuffer.Read sb 8)).
Proof.
  intros sb.
  destruct (buffer_cursor_stays_within_content sb) as (_ & _ & Hw & Hs & Hr).
  - unfold BufferFacts.well_formed, sb. cbn. lia.
  - split; [apply Hw|]. split; [apply Hs|]. split; [apply Hs | apply Hr].
Defined.

(** X2.  [Seek] either fails and leaves the buffer as it was (an unknown whence,
    or a target before the start), or moves the cursor to a target that is
    not negative; it never shortens or alters the content, and what it adds
    to reach a target past the end is zero bytes. *)
Theorem buffer_seek_keeps_content (sb : SeekableBuffer.t) (offset whence : Z) :
  let res := fst (SeekableBuffer.Seek sb offset whence) in
  let sb' := snd (SeekableBuffer.Seek sb offset whence) in
  (forall msg, res = inr msg -> sb' = sb)
  /\ (forall newPos,
         res = inl newPos ->
         0 <= newPos
         /\ SeekableBuffer.pos sb' = newPos
         /\ len (SeekableBuffer.buf sb') = Z.max (len (SeekableBuffer.buf sb)) newPos
         /\ firstn (List.length (SeekableBuffer.buf sb)) (SeekableBuffer.buf sb')
            = SeekableBuffer.buf sb
         /\ Forall (fun b => b = x00)
              (skipn (List.length (SeekableBuffer.buf sb)) (SeekableBuffer.buf sb')))
  /\ (whence <> SeekStart -> whence <> SeekCurrent -> whence <> SeekEnd ->
      res = inr "invalid seek whence")
  /\ (whence = SeekStart -> offset < 0 -> res = inr "seek before start of buffer").
Proof.
  cbv zeta. split; [|split; [|split]].
  - intros msg Hres.
    destruct (BufferFacts.Seek_cases sb offset whence)
      as [[m E] | (newPos & _ & E)]; rewrite E in *; [reflexivity | discriminate].
  - intros newPos Hres.
    destruct (BufferFacts.Seek_cases sb offset whence)
      as [[m E] | (q & Hq & E)]; rewrite E in *; [discriminate|].
    cbn [fst snd SeekableBuffer.pos SeekableBuffer.buf] in *.
    injection Hres as ->.
    split; [exact Hq|]. split; [reflexivity|].
    pose proof (len_nonneg (SeekableBuffer.buf sb)) as Hn.
    split; [rewrite len_app, len_repeat; lia|].
    split.
    + rewrite firstn_app, Nat.sub_diag, firstn_all. cbn [firstn].
      now rewrite app_nil_r.
    + rewrite skipn_app, Nat.sub_diag, skipn_all. cbn [skipn app].
      apply Forall_forall. intros b Hb. now apply repeat_spec in Hb.
  - intros H0 H1 H2. unfold SeekableBuffer.Seek.
    destruct (Z.eqb_spec whence SeekStart); [contradiction|].
    destruct (Z.eqb_spec whence SeekCurrent); [contradiction|].
    destruct (Z.eqb_spec whence SeekEnd); [contradiction|]. reflexivity.
  - intros -> Hneg. unfold SeekableBuffer.Seek. cbn [Z.eqb SeekStart].
    destruct (Z.ltb_spec offset 0); [reflexivity | lia].
Qed.

(** X3.  [Write] on a buffer whose cursor is within the content returns the
    number of bytes given, replaces the bytes from the cursor on by them
    (growing the content when they reach past its end), keeps every other
    byte, and advances the cursor by that number. *)
Theorem buffer_write_splices (sb : SeekableBuffer.t) (p : list byte) :
  BufferFacts.well_formed sb ->
  let c := SeekableBuffer.pos sb in
  let old := SeekableBuffer.buf sb in
  let sb' := snd (SeekableBuffer.Write sb p) in
  fst (SeekableBuffer.Write sb p) = len p
  /\ SeekableBuffer.pos sb' = c + len p
  /\ SeekableBuffer.buf sb'
     = firstn (Z.to_nat c) old ++ p ++ skipn (Z.to_nat (c + len p)) old
  /\ SeekableBuffer.Len sb' = Z.max (len old) (c + len p).
Proof.
  intros Hwf. cbv zeta. pose proof Hwf as [H0 Hle].
  split; [reflexivity|]. split; [reflexivity|].
  split; [exact (BufferFacts.Write_buf sb p Hwf)|].
  unfold SeekableBuffer.Len. rewrite (BufferFacts.Write_buf sb p Hwf).
  pose proof (len_nonneg p) as Hp.
  rewrite !len_app, len_firstn by lia.
  unfold len in *. rewrite length_skipn. lia.
Qed.

(** Three bytes written at offset 2 of a content of four bytes. *)
Lemma buffer_write_splices_witness :
  let sb := {| SeekableBuffer.buf := [x01; x02; x03; x04]; SeekableBuffer.pos := 2 |} in
  let sb' := snd (SeekableBuffer.Write sb [x0a; x0b; x0c]) in
  fst (SeekableBuffer.Write sb [x0a; x0b; x0c]) = 3
  /\ SeekableBuffer.pos sb' = 5
  /\ SeekableBuffer.buf sb' = [x01; x02; x0a; x0b; x0c]
  /\ SeekableBuffer.Len sb' = 5.
Proof.
  intros sb sb'.
  exact (buffer_write_splices sb [x0a; x0b; x0c]
           ltac:(unfold BufferFacts.well_formed, sb; cbn; lia)).
Defined.

(** X4.  [Read] never changes the content.  With the cursor at or past the end
    it returns no byte and [io.EOF], even for a request of no bytes;
    otherwise it returns the bytes from the cursor on, as many as requested
    or as are left, advances the cursor past them, and returns [io.EOF]
    with them exactly when fewer than requested were left. *)
Theorem buffer_read_law (sb : SeekableBuffer.t) (n : Z) :
  BufferFacts.well_formed sb -> 0 <= n ->
  let c := SeekableBuffer.pos sb in
  let L := len (SeekableBuffer.buf sb) in
  let got := fst (fst (SeekableBuffer.Read sb n)) in
  let eof := snd (fst (SeekableBuffer.Read sb n)) in
  let sb' := snd (SeekableBuffer.Read sb n) in
  SeekableBuffer.buf sb' = SeekableBuffer.buf sb
  /\ got = firstn (Z.to_nat (Z.min n (L - c)))
             (skipn (Z.to_nat c) (SeekableBuffer.buf sb))
  /\ len got = Z.min n (L - c)
  /\ SeekableBuffer.pos sb' = c + len got
  /\ eof = ((c =? L) || (L - c <? n)).
Proof.
  intros [H0 Hle] Hn. cbv zeta. unfold SeekableBuffer.Read.
  destruct (Z.geb_spec (SeekableBuffer.pos sb) (len (SeekableBuffer.buf sb)))
    as [Hend | Hin].
  - assert (E : SeekableBuffer.pos sb = len (SeekableBuffer.buf sb)) by lia.
    cbn [fst snd]. rewrite E, Z.sub_diag, Z.eqb_refl.
    replace (Z.min n 0) with 0 by lia. cbn [Z.to_nat firstn orb].
    split_conj; try reflexivity. change (len (@nil byte)) with 0. lia.
  - unfold slice_from. cbn [fst snd SeekableBuffer.buf SeekableBuffer.pos].
    set (rest := skipn (Z.to_nat (SeekableBuffer.pos sb)) (SeekableBuffer.buf sb)).
    assert (Hrest : len rest = len (SeekableBuffer.buf sb) - SeekableBuffer.pos sb)
      by (apply len_skipn; lia).
    assert (Hgot : len (firstn (Z.to_nat n) rest)
                   = Z.min n (len (SeekableBuffer.buf sb) - SeekableBuffer.pos sb)).
    { unfold len in *. rewrite length_firstn. lia. }
    split; [reflexivity|]. split.
    { destruct (Z.le_ge_cases n (len rest)) as [Hle' | Hge'].
      - rewrite Z.min_l by lia. reflexivity.
      - rewrite Z.min_r by lia.
        rewrite !firstn_all2; [reflexivity | unfold len in *; lia
                              | unfold len in *; lia]. }
    split; [exact Hgot|]. split; [reflexivity|].
    rewrite Hgot.
    destruct (Z.eqb_spec (SeekableBuffer.pos sb) (len (SeekableBuffer.buf sb)));
      [lia|]. cbn [orb].
    destruct (Z.ltb_spec (Z.min n (len (SeekableBuffer.buf sb)
                                   - SeekableBuffer.pos sb)) n);
      destruct (Z.ltb_spec (len (SeekableBuffer.buf sb) - SeekableBuffer.pos sb) n);
      (reflexivity || lia).
Qed.

(** A request of four bytes with two left. *)
Lemma buffer_read_law_witness :
  let sb := {| SeekableBuffer.buf := [x01; x02; x03]; SeekableBuffer.pos := 1 |} in
  SeekableBuffer.Read sb 4
  = (([x02; x03], true), {| SeekableBuffer.buf := [x01; x02; x03];
                            SeekableBuffer.pos := 3 |})
  /\ len (fst (fst (SeekableBuffer.Read sb 4))) = Z.min 4 (3 - 1).
Proof.
  intros sb. split; [reflexivity|].
  exact (proj1 (proj2 (proj2
           (buffer_read_law sb 4
              ltac:(unfold BufferFacts.well_formed, sb; cbn; lia) ltac:(lia))))).
Defined.

(** X5.  What is written can be read back: after seeking to any offset [c] that
    is not negative, writing a non-empty [p], and seeking to [c] again,
    [Read] of [len p] bytes returns [p] without [io.EOF]. *)
Theorem buffer_write_then_read (sb : SeekableBuffer.t) (c : Z) (p : list byte) :
  0 <= c -> p <> [] ->
  let sb1 := snd (SeekableBuffer.Seek sb c SeekStart) in
  let sb2 := snd (SeekableBuffer.Write sb1 p) in
  let sb3 := snd (SeekableBuffer.Seek sb2 c SeekStart) in
  fst (SeekableBuffer.Seek sb c SeekStart) = inl c
  /\ fst (SeekableBuffer.Seek sb2 c SeekStart) = inl c
  /\ fst (SeekableBuffer.Read sb3 (len p)) = (p, false)
  /\ SeekableBuffer.pos (snd (SeekableBuffer.Read sb3 (len p))) = c + len p.
Proof.
  intros Hc Hp. cbv zeta.
  assert (Hlen : 0 < len p).
  { destruct p; [contradiction|]. rewrite len_cons. pose proof (len_nonneg p). lia. }
  (* the first seek *)
  destruct (BufferFacts.Seek_cases sb c SeekStart) as [[m E] | (q & Hq & E)].
  { exfalso. unfold SeekableBuffer.Seek in E. cbn [Z.eqb SeekStart] in E.
    destruct (Z.ltb_spec c 0); [lia | discriminate E]. }
  assert (q = c) as ->.
  { unfold SeekableBuffer.Seek in E. cbn [Z.eqb SeekStart] in E.
    destruct (Z.ltb_spec c 0); [lia|]. now injection E as <-. }
  rewrite E. cbn [fst snd].
  set (b1 := SeekableBuffer.buf sb
             ++ repeat x00 (Z.to_nat (c - len (SeekableBuffer.buf sb)))).
  set (sb1 := {| SeekableBuffer.buf := b1; SeekableBuffer.pos := c |}).
  assert (Hb1 : c <= len b1).
  { unfold b1. rewrite len_app, len_repeat.
    pose proof (len_nonneg (SeekableBuffer.buf sb)). lia. }
  assert (Hwf1 : BufferFacts.well_formed sb1) by (split; cbn; lia).
  (* the write *)
  pose proof (BufferFacts.Write_buf sb1 p Hwf1) as Hbuf2.
  set (sb2 := snd (SeekableBuffer.Write sb1 p)) in *.
  assert (Hpos2 : SeekableBuffer.pos sb2 = c + len p) by reflexivity.
  cbn [SeekableBuffer.pos SeekableBuffer.buf sb1] in Hbuf2.
  assert (Hlen2 : c + len p <= len (SeekableBuffer.buf sb2)).
  { rewrite Hbuf2, !len_app, len_firstn by lia.
    pose proof (len_nonneg (skipn (Z.to_nat (c + len p)) b1)). lia. }
  (* the second seek *)
  assert (E3 : SeekableBuffer.Seek sb2 c SeekStart
               = (inl c, {| SeekableBuffer.buf := SeekableBuffer.buf sb2;
                            SeekableBuffer.pos := c |})).
  { unfold SeekableBuffer.Seek. cbn [Z.eqb SeekStart].
    destruct (Z.ltb_spec c 0); [lia|].
    destruct (Z.gtb_spec c (len (SeekableBuffer.buf sb2))); [lia | reflexivity]. }
  rewrite E3. cbn [fst snd].
  split; [reflexivity|]. split; [reflexivity|].
  (* the read *)
  unfold SeekableBuffer.Read. cbn [SeekableBuffer.pos SeekableBuffer.buf].
  destruct (Z.geb_spec c (len (SeekableBuffer.buf sb2))); [lia|].
  unfold slice_from. cbn [fst snd SeekableBuffer.pos].
  assert (Hgot : firstn (Z.to_nat (len p))
                   (skipn (Z.to_nat c) (SeekableBuffer.buf sb2)) = p).
  { rewrite Hbuf2.
    rewrite skipn_app.
    rewrite skipn_all2 by (rewrite length_firstn; unfold len in *; lia).
    rewrite length_firstn.
    replace (Z.to_nat c - Nat.min (Z.to_nat c) (List.length b1))%nat with 0%nat
      by (unfold len in *; lia).
    cbn [skipn app]. rewrite firstn_app.
    unfold len. rewrite Nat2Z.id, firstn_all, Nat.sub_diag. cbn [firstn].
    now rewrite app_nil_r. }
  rewrite Hgot. rewrite Z.ltb_irrefl. split; reflexivity.
Qed.

(** Three bytes written at offset 5 of an empty buffer and read back. *)
Lemma buffer_write_then_read_witness :
  let sb1 := snd (SeekableBuffer.Seek SeekableBuffer.NewSeekableBuffer 5 SeekStart) in
  let sb2 := snd (SeekableBuffer.Write sb1 [x0a; x0b; x0c]) in
  let sb3 := snd (SeekableBuffer.Seek sb2 5 SeekStart) in
  fst (SeekableBuffer.Read sb3 3) = ([x0a; x0b; x0c], false)
  /\ SeekableBuffer.Bytes sb3 = [x00; x00; x00; x00; x00; x0a; x0b; x0c].
Proof.
  intros sb1 sb2 sb3. split; [|reflexivity].
  exact (proj1 (proj2 (proj2
           (buffer_write_then_read SeekableBuffer.NewSeekableBuffer 5
              [x0a; x0b; x0c] ltac:(lia) ltac:(discriminate))))).
Defined.

(** X6.  Successive writes to a new buffer append: after writing the chunks of a
    list in order, [Bytes] is their concatenation, [Len] its length, and the
    cursor is at the end. *)
Theorem buffer_writes_concatenate (chunks : list (list byte)) :
  let sb := fold_left (fun sb p => snd (SeekableBuffer.Write sb p)) chunks
              SeekableBuffer.NewSeekableBuffer in
  SeekableBuffer.Bytes sb = List.concat chunks
  /\ SeekableBuffer.Len sb = len (List.concat chunks)
  /\ SeekableBuffer.pos sb = len (List.concat chunks).
Proof.
  cbv zeta.
  assert (H : forall sb,
             SeekableBuffer.pos sb = len (SeekableBuffer.buf sb) ->
             fold_left (fun sb p => snd (SeekableBuffer.Write sb p)) chunks sb
             = {| SeekableBuffer.buf := SeekableBuffer.buf sb ++ List.concat chunks;
                  SeekableBuffer.pos :=
                    len (SeekableBuffer.buf sb ++ List.concat chunks) |}).
  { induction chunks as [|p rest IH]; intros sb Hsb; cbn [fold_left List.concat].
    - rewrite app_nil_r. destruct sb as [b c]. cbn in *. now subst.
    - rewrite IH; rewrite Write_at_end by exact Hsb; [|reflexivity].
      cbn [SeekableBuffer.buf]. now rewrite <- app_assoc. }
  rewrite (H SeekableBuffer.NewSeekableBuffer) by reflexivity.
  split_conj; reflexivity.
Qed.

(** ** format.go: alignment, tags and chunk headers *)

(** X7.  [AlignSize] of a [uint32] is even and, except at the largest value, the
    least even number that is not below the argument (the argument itself
    or one more); at [0xFFFFFFFF] the addition wraps and the result is 0. *)
Theorem AlignSize_rounds_up_to_even (size : Z) :
  0 <= size < 2 ^ 32 ->
  0 <= AlignSize size < 2 ^ 32
  /\ AlignSize size mod 2 = 0
  /\ (size < 2 ^ 32 - 1 ->
      size <= AlignSize size <= size + 1
      /\ (size mod 2 = 0 -> AlignSize size = size))
  /\ (size = 2 ^ 32 - 1 -> AlignSize size = 0).
Proof.
  intros Hs.
  destruct (Z.eq_dec size (2 ^ 32 - 1)) as [-> | Hne].
  - split; [vm_compute; split; [discriminate | reflexivity]|].
    split; [reflexivity|]. split; [lia | reflexivity].
  - rewrite AlignSize_padded by lia.
    pose proof (Z.mod_pos_bound size 2 ltac:(lia)) as Hm.
    pose proof (padded_even size) as He.
    unfold padded in *.
    split; [|split; [exact He|split; [|lia]]].
    + split; [lia|].
      destruct (Z.eq_dec (size mod 2) 0) as [E | E]; [lia|].
      assert (size <> 2 ^ 32 - 2).
      { intros ->. apply E. reflexivity. }
      lia.
    + intros _. split; [lia|]. intros E. lia.
Qed.

Lemma AlignSize_rounds_up_to_even_witness :
  AlignSize 7 = 8 /\ AlignSize 8 = 8 /\ AlignSize 0 = 0
  /\ 7 <= AlignSize 7 <= 7 + 1.
Proof.
  split; [reflexivity|]. split; [reflexivity|]. split; [reflexivity|].
  exact (proj1 (proj1 (proj2 (proj2
           (AlignSize_rounds_up_to_even 7 ltac:(lia)))) ltac:(lia))).
Defined.

Lemma ascii_of_byte_of_ascii_list (l : list ascii) :
  map ascii_of_byte (map byte_of_ascii l) = l.
Proof.
  induction l as [|a l IH]; [reflexivity|].
  cbn [map]. now rewrite ascii_of_byte_of_ascii, IH.
Qed.

(** X8.  A tag and its string determine each other: [StringToChunkID] undoes
    [ChunkIDToString], whose result always has four bytes, and
    [ChunkIDToString] undoes [StringToChunkID] on strings of four bytes.  A
    shorter string is padded with zero bytes and a longer one is cut. *)
Theorem chunk_id_string_round_trip :
  (forall id : fourcc, StringToChunkID (ChunkIDToString id) = id)
  /\ (forall id : fourcc, String.length (ChunkIDToString id) = 4%nat)
  /\ (forall s : string,
         String.length s = 4%nat -> ChunkIDToString (StringToChunkID s) = s)
  /\ (forall s t : string,
         String.length s = 4%nat -> StringToChunkID (s ++ t) = StringToChunkID s)
  /\ StringToChunkID "ab" = ("a"%byte, "b"%byte, x00, x00).
Proof.
  split; [|split; [|split; [|split]]].
  - intros [[[a b] c] d]. unfold StringToChunkID.
    rewrite string_bytes_ChunkIDToString. reflexivity.
  - exact ChunkIDToString_length.
  - intros s Hs.
    destruct s as [|a [|b [|c [|d [|e s]]]]]; try discriminate Hs.
    unfold StringToChunkID, ChunkIDToString, string_bytes.
    cbn [list_ascii_of_string map nth fourcc_bytes string_of_list_ascii].
    now rewrite !ascii_of_byte_of_ascii.
  - intros s t Hs.
    destruct s as [|a [|b [|c [|d [|e s]]]]]; try discriminate Hs.
    reflexivity.
  - reflexivity.
Qed.

(** X9.  The stream index the demuxer decodes from a tag made by [MakeChunkID]
    is the index modulo 256, for every index, negative ones included: the
    tag keeps the low eight bits of [index / 10] and of [index % 10], and
    the decoding is done in eight bits.  The last two bytes of the tag are
    the first two of the subtype string, and a subtype string of fewer than
    two bytes makes [MakeChunkID] panic. *)
Theorem MakeChunkID_decodes_modulo_256 (i : Z) (cc : string) :
  (2 <= String.length cc)%nat ->
  exists id,
    MakeChunkID i cc = Some id
    /\ decodeStreamIndex (ChunkIDToString id) = i mod 256
    /\ String.substring 2 2 (ChunkIDToString id) = String.substring 0 2 cc.
Proof.
  intros Hcc. destruct cc as [|a [|b cc]]; cbn in Hcc; try lia.
  unfold MakeChunkID, string_bytes. cbn [list_ascii_of_string map].
  eexists. split; [reflexivity|]. split.
  - rewrite decodeStreamIndex_tag, !Z_of_byte_of_Z. unfold wrap8.
    change (2 ^ 8) with 256.
    rewrite !Zminus_mod_idemp_l.
    replace (48 + Z.quot i 10 - 48) with (Z.quot i 10) by lia.
    replace (48 + Z.rem i 10 - 48) with (Z.rem i 10) by lia.
    rewrite Zmult_mod_idemp_l, <- Zplus_mod.
    f_equal. pose proof (Z.quot_rem' i 10). lia.
  - unfold ChunkIDToString. cbn [fourcc_bytes map string_of_list_ascii].
    cbn [String.substring]. rewrite !ascii_of_byte_of_ascii.
    destruct cc; reflexivity.
Qed.

(** Index 300 comes back as 44, and index -1 as 255. *)
Lemma MakeChunkID_decodes_modulo_256_witness :
  (exists id,
      MakeChunkID 300 "dc" = Some id
      /\ decodeStreamIndex (ChunkIDToString id) = 300 mod 256
      /\ String.substring 2 2 (ChunkIDToString id) = String.substring 0 2 "dc")
  /\ 300 mod 256 = 44
  /\ MakeChunkID 7 "w" = None.
Proof.
  split; [|split; reflexivity].
  apply (MakeChunkID_decodes_modulo_256 300 "dc"). cbn. lia.
Defined.

Lemma land_shiftl_small (a b k : Z) :
  0 <= a < 2 ^ k -> 0 <= k -> Z.land a (Z.shiftl b k) = 0.
Proof.
  intros Ha Hk. apply Z.bits_inj'. intros n Hn.
  rewrite Z.land_spec, Z.bits_0.
  destruct (Z.lt_ge_cases n k) as [Hlt | Hge].
  - rewrite (Z.shiftl_spec_low b k n Hlt). apply andb_false_r.
  - destruct (Z.eq_dec a 0) as [-> | Hne]; [now rewrite Z.bits_0|].
    rewrite (Z.bits_above_log2 a n); [reflexivity | lia|].
    apply Z.log2_lt_pow2; [lia|].
    apply Z.lt_le_trans with (2 ^ k); [lia|].
    apply Z.pow_le_mono_r; lia.
Qed.

Lemma lor_shiftl_small (a b k : Z) :
  0 <= a < 2 ^ k -> 0 <= k -> Z.lor a (Z.shiftl b k) = a + b * 2 ^ k.
Proof.
  intros Ha Hk.
  rewrite <- Z.lxor_lor by (apply land_shiftl_small; assumption).
  rewrite <- Z.add_nocarry_lxor by (apply land_shiftl_small; assumption).
  now rewrite Z.shiftl_mul_pow2.
Qed.

(** [Uint32] is the little-endian value of the four bytes. *)
Lemma Uint32_le_decode (b0 b1 b2 b3 : byte) :
  Uint32 b0 b1 b2 b3 = le_decode [b0; b1; b2; b3].
Proof.
  unfold Uint32. cbn [le_decode].
  pose proof (Z_of_byte_range b0). pose proof (Z_of_byte_range b1).
  pose proof (Z_of_byte_range b2). pose proof (Z_of_byte_range b3).
  rewrite (lor_shiftl_small (Z_of_byte b0) (Z_of_byte b1) 8) by lia.
  rewrite (lor_shiftl_small _ (Z_of_byte b2) 16) by lia.
  rewrite (lor_shiftl_small _ (Z_of_byte b3) 24) by lia.
  change (2 ^ 8) with 256. change (2 ^ 16) with (256 * 256).
  change (2 ^ 24) with (256 * (256 * 256)). ring.
Qed.

Lemma byte_of_Z_low (b : byte) (r : Z) : byte_of_Z (Z_of_byte b + 256 * r) = b.
Proof.
  apply Z_of_byte_inj. rewrite Z_of_byte_of_Z.
  rewrite (Z.mul_comm 256 r), Z_mod_plus_full.
  apply Z.mod_small. apply Z_of_byte_range.
Qed.

Lemma shiftr_8_low (b : byte) (r : Z) : Z.shiftr (Z_of_byte b + 256 * r) 8 = r.
Proof.
  rewrite Z.shiftr_div_pow2 by lia. change (2 ^ 8) with 256.
  rewrite Z.add_comm, Z.mul_comm, Z.div_add_l by lia.
  rewrite Z.div_small by apply Z_of_byte_range. lia.
Qed.

(** The little-endian image of the value of four bytes is the four bytes. *)
Lemma le32_le_decode (b0 b1 b2 b3 : byte) :
  le32 (le_decode [b0; b1; b2; b3]) = [b0; b1; b2; b3].
Proof.
  unfold le32. cbn [le_decode].
  set (x := Z_of_byte b0 + 256 * (Z_of_byte b1 + 256 * (Z_of_byte b2
              + 256 * (Z_of_byte b3 + 256 * 0)))).
  replace (Z.shiftr x 24) with (Z.shiftr (Z.shiftr (Z.shiftr x 8) 8) 8)
    by (rewrite !Z.shiftr_shiftr by lia; reflexivity).
  replace (Z.shiftr x 16) with (Z.shiftr (Z.shiftr x 8) 8)
    by (rewrite !Z.shiftr_shiftr by lia; reflexivity).
  unfold x. rewrite !shiftr_8_low, !byte_of_Z_low. reflexivity.
Qed.

(** X10.  [ReadChunkHeader] and [WriteChunkHeader] are inverse to each other:
    reading the eight bytes written for a header with a [uint32] size gives
    the header back; a header read from a slice of at least eight bytes is
    written as the first eight bytes of the slice, has a size below [2^32],
    and is the header [binary.Read] decodes from the same bytes, as the
    demuxer does. *)
Theorem chunk_header_read_write_round_trip :
  (forall h : ChunkHeader,
      0 <= ch_Size h < 2 ^ 32 ->
      len (WriteChunkHeader h) = 8
      /\ ReadChunkHeader (WriteChunkHeader h) = Some h)
  /\ (forall data : list byte,
         8 <= len data ->
         exists h,
           ReadChunkHeader data = Some h
           /\ WriteChunkHeader h = firstn 8 data
           /\ 0 <= ch_Size h < 2 ^ 32
           /\ h = decode_ChunkHeader data).
Proof.
  split.
  - intros [[[[a b] c] d] size] Hsize. cbn [ch_Size] in Hsize.
    split; [reflexivity|].
    unfold WriteChunkHeader, PutUint32, ReadChunkHeader.
    cbn [ch_ID ch_Size fourcc_bytes app]. f_equal. f_equal.
    rewrite Uint32_le_decode.
    change (le_decode (le32 size) = size).
    rewrite le_decode_le32. now apply wrap32_small.
  - intros data Hlen.
    destruct data as [|a [|b [|c [|d [|s0 [|s1 [|s2 [|s3 rest]]]]]]]];
      try (exfalso; unfold len in Hlen; cbn in Hlen; lia).
    eexists. split; [reflexivity|].
    assert (E : Uint32 s0 s1 s2 s3 = le_decode [s0; s1; s2; s3])
      by apply Uint32_le_decode.
    assert (Hr : 0 <= le_decode [s0; s1; s2; s3] < 2 ^ 32).
    { cbn [le_decode].
      pose proof (Z_of_byte_range s0). pose proof (Z_of_byte_range s1).
      pose proof (Z_of_byte_range s2). pose proof (Z_of_byte_range s3). lia. }
    split; [|split].
    + unfold WriteChunkHeader, PutUint32. cbn [ch_ID ch_Size fourcc_bytes app firstn].
      do 4 f_equal. rewrite E.
      assert (H32 : le32 (le_decode [s0; s1; s2; s3]) = [s0; s1; s2; s3])
        by apply le32_le_decode.
      exact H32.
    + cbn [ch_Size]. rewrite E. exact Hr.
    + unfold decode_ChunkHeader, fourcc_at, u32_at, field.
      cbn [nth skipn firstn Nat.add]. now rewrite E.
Qed.

(** ** demuxer.go: [Open] on arbitrary input *)

(** The errors [Open] can return: a read that met the end of the source,
    or one of the two signature checks. *)
Definition truncated (e : AVIError) : Prop :=
  Err e = io_EOF \/ Err e = io_ErrUnexpectedEOF.

Definition open_error (e : AVIError) : Prop :=
  truncated e
  \/ e = {| Op := "validate riff"; Err := Errorf "not a RIFF file" |}
  \/ e = {| Op := "validate avi"; Err := Errorf "not an AVI file" |}.

(** A method that, from a reader whose source satisfies [P], returns with a
    source satisfying [Q] or fails with one of those errors, and neither
    panics nor runs out of fuel. *)
Definition triple {A} (P : Source.t -> Prop) (c : M A)
    (Q : A -> Source.t -> Prop) : Prop :=
  forall rd s, Reader.r rd = Some s -> P s ->
    match c rd with
    | (Ok a, rd') => exists s', Reader.r rd' = Some s' /\ Q a s'
    | (Fail e, _) => open_error e
    | (Panic, _) => False
    | (OutOfFuel, _) => False
    end.

Lemma triple_ret {A} (P : Source.t -> Prop) (a : A) (Q : A -> Source.t -> Prop) :
  (forall s, P s -> Q a s) -> triple P (ret a) Q.
Proof. intros H rd s Hr HP. cbn. eauto. Qed.

Lemma triple_bind {A B} (P : Source.t -> Prop) (c : M A)
    (Q : A -> Source.t -> Prop) (k : A -> M B) (R : B -> Source.t -> Prop) :
  triple P c Q -> (forall a, triple (Q a) (k a) R) -> triple P (bind c k) R.
Proof.
  intros Hc Hk rd s Hr HP. unfold bind. specialize (Hc rd s Hr HP).
  destruct (c rd) as [[a|e| |] rd']; try assumption.
  destruct Hc as (s' & Hr' & HQ). exact (Hk a rd' s' Hr' HQ).
Qed.

Lemma triple_weaken {A} (P P' : Source.t -> Prop) (c : M A)
    (Q Q' : A -> Source.t -> Prop) :
  triple P' c Q' -> (forall s, P s -> P' s) -> (forall a s, Q' a s -> Q a s) ->
  triple P c Q.
Proof.
  intros Hc HP HQ rd s Hr Hs. specialize (Hc rd s Hr (HP s Hs)).
  destruct (c rd) as [[a|e| |] rd']; try assumption.
  destruct Hc as (s' & Hr' & Hq). eauto.
Qed.

Lemma triple_pure {A} (phi : Prop) (P : Source.t -> Prop) (c : M A)
    (Q : A -> Source.t -> Prop) :
  (phi -> triple P c Q) -> triple (fun s => P s /\ phi) c Q.
Proof. intros H rd s Hr [HP Hphi]. exact (H Hphi rd s Hr HP). Qed.

Lemma triple_fail {A} (P : Source.t -> Prop) (op : string) (e : cause)
    (Q : A -> Source.t -> Prop) :
  e = io_EOF \/ e = io_ErrUnexpectedEOF -> triple P (fail op e) Q.
Proof. intros He rd s Hr HP. cbn. left. exact He. Qed.

Lemma triple_false {A} (c : M A) (Q : A -> Source.t -> Prop) :
  triple (fun _ => False) c Q.
Proof. intros rd s _ []. Qed.

Lemma triple_modify (P : Source.t -> Prop) (g : Reader.t -> Reader.t) :
  (forall rd, Reader.r (g rd) = Reader.r rd) ->
  triple P (modify g) (fun _ => P).
Proof. intros Hg rd s Hr HP. cbn. exists s. now rewrite Hg. Qed.

Lemma triple_gets {A} (P : Source.t -> Prop) (g : Reader.t -> A) :
  triple P (gets g) (fun _ => P).
Proof. intros rd s Hr HP. cbn. eauto. Qed.

(** The source holds the bytes [D], its cursor is not negative, and fewer
    than [fuel] bytes are left after it. *)
Definition inv (D : list byte) (fuel : nat) (s : Source.t) : Prop :=
  Source.data s = D /\ 0 <= Source.pos s
  /\ (Z.to_nat (len D - Source.pos s) < fuel)%nat.

Lemma inv_S (D : list byte) (fuel : nat) (s : Source.t) :
  inv D fuel s -> inv D (S fuel) s.
Proof. intros (H1 & H2 & H3). repeat split; [assumption.. | lia]. Qed.

Definition eof_cause (e : cause) : Prop := e = io_EOF \/ e = io_ErrUnexpectedEOF.

(** A forward seek keeps the invariant and does not fail. *)
Lemma triple_rSeek_current (D : list byte) (fuel : nat) (n : Z) :
  0 <= n ->
  triple (inv D fuel) (rSeek n SeekCurrent)
    (fun res s' => inv D fuel s' /\ exists p, res = inl p).
Proof.
  intros Hn rd s Hr (Hd & Hp & Hf). unfold rSeek. rewrite Hr.
  rewrite Seek_current_eq.
  destruct (Z.ltb_spec (Source.pos s + n) 0); [lia|].
  eexists. split; [reflexivity|]. split; [|eauto].
  repeat split; cbn [Source.data Source.pos]; [assumption | lia | lia].
Qed.

Lemma triple_skip (D : list byte) (fuel : nat) (op : string) (n : Z) :
  0 <= n -> triple (inv D fuel) (skip op n) (fun _ => inv D fuel).
Proof.
  intros Hn. unfold skip.
  eapply triple_bind; [apply triple_rSeek_current; exact Hn|].
  intros res. apply triple_pure. intros [p ->]. apply triple_ret. auto.
Qed.

Lemma ReadFull_cases (s : Source.t) (n : Z) :
  0 <= Source.pos s ->
  let res := fst (Source.ReadFull s n) in
  let s' := snd (Source.ReadFull s n) in
  Source.data s' = Source.data s
  /\ Source.pos s <= Source.pos s'
  /\ match res with
     | inl _ => 0 < n -> Source.pos s' = Source.pos s + n
                         /\ Source.pos s' <= len (Source.data s)
     | inr e => eof_cause e
     end.
Proof.
  intros Hp. cbv zeta. unfold Source.ReadFull.
  destruct (Z.leb_spec n 0).
  { cbn. repeat split; try lia. }
  destruct (Z.leb_spec n (len (Source.data s) - Source.pos s)).
  { cbn. repeat split; try lia. }
  destruct (Z.ltb_spec 0 (len (Source.data s) - Source.pos s)).
  - cbn. repeat split; try lia. now right.
  - cbn. repeat split; try lia. now left.
Qed.

(** A read keeps the invariant, and fails only at the end of the source. *)
Lemma triple_binaryRead (D : list byte) (fuel : nat) (n : Z) :
  triple (inv D fuel) (binaryRead n)
    (fun res s' =>
       inv D fuel s' /\ match res with inl _ => True | inr e => eof_cause e end).
Proof.
  intros rd s Hr (Hd & Hp & Hf). unfold binaryRead. rewrite Hr.
  pose proof (ReadFull_cases s n Hp) as H. cbv zeta in H.
  destruct (Source.ReadFull s n) as [res s']. cbn [fst snd] in H.
  destruct H as (Hd' & Hmono & Hres).
  eexists. split; [reflexivity|]. split.
  - repeat split; [congruence | lia | lia].
  - destruct res; [exact I | exact Hres].
Qed.

(** A read of a chunk header that succeeds uses up fuel. *)
Lemma triple_binaryRead_header (D : list byte) (fuel : nat) (n : Z) :
  0 < n ->
  triple (inv D (S fuel)) (binaryRead n)
    (fun res s' =>
       match res with
       | inl _ => inv D fuel s'
       | inr e => inv D (S fuel) s' /\ eof_cause e
       end).
Proof.
  intros Hn rd s Hr (Hd & Hp & Hf). unfold binaryRead. rewrite Hr.
  pose proof (ReadFull_cases s n Hp) as H. cbv zeta in H.
  destruct (Source.ReadFull s n) as [res s']. cbn [fst snd] in H.
  destruct H as (Hd' & Hmono & Hres).
  eexists. split; [reflexivity|].
  destruct res as [bs|e].
  - destruct (Hres Hn) as [Hpos Hle]. rewrite Hd in *.
    repeat split; [congruence | lia | lia].
  - split; [|exact Hres]. repeat split; [congruence | lia | lia].
Qed.

Lemma AlignSize_nonneg (size : Z) : 0 <= AlignSize size.
Proof.
  unfold AlignSize. apply Z.ldiff_nonneg. left.
  unfold wrap32. apply Z.mod_pos_bound. lia.
Qed.

Lemma wrap32_nonneg (z : Z) : 0 <= wrap32 z.
Proof. unfold wrap32. apply Z.mod_pos_bound. lia. Qed.

(** What the parsing loops keep of the metadata they pass along: every
    field but the duration. *)
Definition keeps (fi fi' : FileInfo.t) : Prop :=
  FileInfo.Filename fi' = FileInfo.Filename fi
  /\ FileInfo.FileSize fi' = FileInfo.FileSize fi
  /\ FileInfo.Streams fi' = FileInfo.Streams fi
  /\ FileInfo.VideoStreams fi' = FileInfo.VideoStreams fi
  /\ FileInfo.AudioStreams fi' = FileInfo.AudioStreams fi.

Lemma keeps_refl (fi : FileInfo.t) : keeps fi fi.
Proof. repeat split. Qed.

Lemma keeps_trans (a b c : FileInfo.t) : keeps a b -> keeps b c -> keeps a c.
Proof.
  intros (H1 & H2 & H3 & H4 & H5) (K1 & K2 & K3 & K4 & K5).
  repeat split; congruence.
Qed.

(** Every stream of the list carries its position as its index. *)
Definition indexed (streams : list Stream.t) : Prop :=
  forall i s, index streams i = Some s -> Stream.Index s = i.

Lemma indexed_nil : indexed [].
Proof.
  intros i s H. unfold index in H. destruct (i <? 0); [discriminate|].
  destruct (Z.to_nat i); discriminate.
Qed.

Lemma indexed_snoc (streams : list Stream.t) (s : Stream.t) :
  indexed streams -> Stream.Index s = len streams -> indexed (streams ++ [s]).
Proof.
  intros Hss Hs i x Hi.
  destruct (Z.lt_ge_cases i (len streams)) as [Hlt | Hge].
  - rewrite index_app_l in Hi by assumption. now apply Hss.
  - rewrite index_app_r in Hi by assumption.
    unfold index in Hi. destruct (Z.ltb_spec (i - len streams) 0); [lia|].
    destruct (Z.to_nat (i - len streams)) as [|k] eqn:E; cbn in Hi.
    + injection Hi as <-. lia.
    + destruct k; discriminate.
Qed.

(** What the demuxer keeps true of every stream record it builds: the codec
    carries the stream's type, which is empty, video or audio; the codec's
    name is the printable part of its tag; the dimensions and the audio
    parameters are in the ranges of the fields they were read from, the
    height not negative; and the packet count is never set. *)
Definition consistent (s : Stream.t) : Prop :=
  Codec.Type_ (Stream.Codec s) = Stream.Type_ s
  /\ (Stream.Type_ s = "" \/ Stream.Type_ s = StreamTypeVideo
      \/ Stream.Type_ s = StreamTypeAudio)
  /\ Codec.Name (Stream.Codec s) = cleanName (Codec.FourCC (Stream.Codec s))
  /\ - 2 ^ 31 <= Codec.Width (Stream.Codec s) < 2 ^ 31
  /\ 0 <= Codec.Height (Stream.Codec s) <= 2 ^ 31
  /\ 0 <= Codec.Channels (Stream.Codec s) < 2 ^ 16
  /\ 0 <= Codec.SampleRate (Stream.Codec s) < 2 ^ 32
  /\ 0 <= Codec.BitDepth (Stream.Codec s) < 2 ^ 16
  /\ Stream.PacketCount s = 0.

Lemma le_decode_firstn_range (n : nat) :
  forall l : list byte, 0 <= le_decode (firstn n l) < 256 ^ Z.of_nat n.
Proof.
  induction n as [|n IH]; intros [|b l]; cbn [firstn le_decode]; try lia.
  specialize (IH l). pose proof (Z_of_byte_range b).
  rewrite Nat2Z.inj_succ, Z.pow_succ_r by lia. lia.
Qed.

Lemma u16_at_range (bs : list byte) (off : nat) : 0 <= u16_at bs off < 2 ^ 16.
Proof. exact (le_decode_firstn_range 2 (skipn off bs)). Qed.

Lemma u32_at_range (bs : list byte) (off : nat) : 0 <= u32_at bs off < 2 ^ 32.
Proof. exact (le_decode_firstn_range 4 (skipn off bs)). Qed.

Lemma i32_at_range (bs : list byte) (off : nat) :
  - 2 ^ 31 <= i32_at bs off < 2 ^ 31.
Proof.
  unfold i32_at, int32, swrap. change (32 - 1) with 31.
  pose proof (Z.mod_pos_bound (u32_at bs off + 2 ^ 31) (2 ^ 32)). lia.
Qed.

Lemma consistent_blank (i : Z) :
  consistent {| Stream.Index := i; Stream.Type_ := ""; Stream.Codec := Codec.zero;
                Stream.Duration := 0; Stream.PacketCount := 0 |}.
Proof.
  unfold consistent.
  cbn [Stream.Codec Stream.Type_ Stream.PacketCount Codec.zero Codec.Type_
       Codec.Name Codec.FourCC Codec.Width Codec.Height Codec.Channels
       Codec.SampleRate Codec.BitDepth].
  split_conj; try reflexivity; try lia. now left.
Qed.

Lemma applySTRH_consistent (header : AVIStreamHeader) (stream : Stream.t) :
  consistent stream -> consistent (applySTRH header stream).
Proof.
  intros (H1 & H2 & H3 & H4 & H5 & H6 & H7 & H8 & H9).
  unfold consistent, applySTRH.
  cbn [Stream.Codec Stream.Type_ Stream.PacketCount Codec.Type_
       Codec.Name Codec.FourCC Codec.Width Codec.Height Codec.Channels
       Codec.SampleRate Codec.BitDepth].
  split_conj; try assumption; try reflexivity; try lia.
  - destruct (IsVideoStream _); [reflexivity|].
    destruct (IsAudioStream _); [reflexivity | exact H1].
  - destruct (IsVideoStream _); [now right; left|].
    destruct (IsAudioStream _); [now right; right | exact H2].
Qed.

Lemma applyVideoFormat_consistent (bih : BitmapInfoHeader) (stream : Stream.t) :
  - 2 ^ 31 <= bih_Width bih < 2 ^ 31 ->
  - 2 ^ 31 <= bih_Height bih < 2 ^ 31 ->
  consistent stream -> consistent (applyVideoFormat bih stream).
Proof.
  intros Hw Hh (H1 & H2 & H3 & H4 & H5 & H6 & H7 & H8 & H9).
  unfold consistent, applyVideoFormat, set_codec.
  cbn [Stream.Codec Stream.Type_ Stream.PacketCount Codec.Type_
       Codec.Name Codec.FourCC Codec.Width Codec.Height Codec.Channels
       Codec.SampleRate Codec.BitDepth].
  split_conj; try assumption; try lia.
  - destruct (Z.ltb_spec (bih_Height bih) 0); [|lia].
    rewrite int64_small by lia. lia.
  - destruct (Z.ltb_spec (bih_Height bih) 0); [|lia].
    rewrite int64_small by lia. lia.
Qed.

Lemma applyAudioFormat_consistent (wfx : WaveFormatEx) (stream : Stream.t) :
  0 <= wfx_Channels wfx < 2 ^ 16 ->
  0 <= wfx_SamplesPerSec wfx < 2 ^ 32 ->
  0 <= wfx_BitsPerSample wfx < 2 ^ 16 ->
  consistent stream -> consistent (applyAudioFormat wfx stream).
Proof.
  intros Hc Hs Hb (H1 & H2 & H3 & H4 & H5 & H6 & H7 & H8 & H9).
  unfold consistent, applyAudioFormat, set_codec.
  cbn [Stream.Codec Stream.Type_ Stream.PacketCount Codec.Type_
       Codec.Name Codec.FourCC Codec.Width Codec.Height Codec.Channels
       Codec.SampleRate Codec.BitDepth].
  split_conj; try assumption; lia.
Qed.

(** What a step of the loop over a stream's chunks does to the record: it
    keeps the index, and keeps the record consistent. *)
Definition evolves (stream stream' : Stream.t) : Prop :=
  Stream.Index stream' = Stream.Index stream
  /\ (consistent stream -> consistent stream').

Lemma evolves_refl (stream : Stream.t) : evolves stream stream.
Proof. split; auto. Qed.

Lemma evolves_trans (a b c : Stream.t) : evolves a b -> evolves b c -> evolves a c.
Proof. intros [H1 H2] [K1 K2]. split; [congruence | auto]. Qed.

Lemma triple_tail (D : list byte) (fuel : nat) {A} (size k : Z) (op : string)
    (a : A) (phi : A -> Prop) :
  phi a ->
  triple (inv D fuel)
    ((if size >? k then skip op (size - k) else ret tt) ;;; ret a)
    (fun a s => inv D fuel s /\ phi a).
Proof.
  intros Ha.
  apply triple_bind with (Q := fun _ => inv D fuel);
    [|intros ?; apply triple_ret; auto].
  destruct (Z.gtb_spec size k); [apply triple_skip; lia | apply triple_ret; auto].
Qed.

Lemma triple_parseAVIHChunk (D : list byte) (fuel : nat) (size : Z)
    (fi : FileInfo.t) :
  triple (inv D fuel) (parseAVIHChunk size fi)
    (fun fi' s => inv D fuel s /\ keeps fi fi').
Proof.
  unfold parseAVIHChunk.
  eapply triple_bind; [apply triple_binaryRead|].
  intros [bs|e]; apply triple_pure; intros He; [|apply triple_fail; exact He].
  apply triple_tail. destruct (_ >? 0); repeat split.
Qed.

Lemma triple_parseSTRHChunk (D : list byte) (fuel : nat) (size : Z)
    (stream : Stream.t) :
  triple (inv D fuel) (parseSTRHChunk size stream)
    (fun stream' s => inv D fuel s /\ evolves stream stream').
Proof.
  unfold parseSTRHChunk.
  eapply triple_bind; [apply triple_binaryRead|].
  intros [bs|e]; apply triple_pure; intros He; [|apply triple_fail; exact He].
  apply (triple_tail D fuel size 56 _ _ (evolves stream)).
  split; [reflexivity | apply applySTRH_consistent].
Qed.

Lemma triple_parseSTRFChunk (D : list byte) (fuel : nat) (size : Z)
    (stream : Stream.t) :
  triple (inv D fuel) (parseSTRFChunk size stream)
    (fun stream' s => inv D fuel s /\ evolves stream stream').
Proof.
  unfold parseSTRFChunk, parseVideoFormat, parseAudioFormat.
  destruct (String.eqb _ _).
  { eapply triple_bind; [apply triple_binaryRead|].
    intros [bs|e]; apply triple_pure; intros He; [|apply triple_fail; exact He].
    apply (triple_tail D fuel size 40 _ _ (evolves stream)).
    split; [reflexivity|].
    apply applyVideoFormat_consistent; apply i32_at_range. }
  destruct (String.eqb _ _).
  { eapply triple_bind; [apply triple_binaryRead|].
    intros [bs|e]; apply triple_pure; intros He; [|apply triple_fail; exact He].
    apply (triple_tail D fuel size 18 _ _ (evolves stream)).
    split; [reflexivity|].
    apply applyAudioFormat_consistent;
      [apply u16_at_range | apply u32_at_range | apply u16_at_range]. }
  eapply triple_bind; [apply triple_skip; apply AlignSize_nonneg|].
  intros ?. apply triple_ret. intros s H. split; [exact H | apply evolves_refl].
Qed.

Lemma triple_parseSTRLList_loop (D : list byte) (fuel : nat) :
  forall endPos stream,
    triple (inv D fuel) (parseSTRLList_loop fuel endPos stream)
      (fun stream' s => inv D fuel s /\ evolves stream stream').
Proof.
  induction fuel as [|fuel IH]; intros endPos stream.
  { eapply triple_weaken; [apply triple_false | | intros a s H; exact H].
    intros s (_ & _ & H). lia. }
  cbn [parseSTRLList_loop].
  eapply triple_bind; [apply triple_rSeek_current; lia|].
  intros res. apply triple_pure. intros [pos ->].
  destruct (pos >=? endPos).
  { apply triple_ret. intros s H. split; [exact H | apply evolves_refl]. }
  eapply triple_bind; [apply triple_binaryRead_header; reflexivity|].
  intros [bs|e].
  - eapply triple_bind with
      (Q := fun stream' s => inv D fuel s /\ evolves stream stream').
    + destruct (String.eqb _ _); [apply triple_parseSTRHChunk|].
      destruct (String.eqb _ _); [apply triple_parseSTRFChunk|].
      eapply triple_bind; [apply triple_skip; apply AlignSize_nonneg|].
      intros ?. apply triple_ret.
      intros s H. split; [exact H | apply evolves_refl].
    + intros s1. apply triple_pure. intros Hs1.
      eapply triple_weaken; [apply IH | auto |].
      intros a s0 [Hinv Ha]. split; [now apply inv_S|].
      eapply evolves_trans; eassumption.
  - apply triple_pure. intros [-> | ->].
    + apply triple_ret. intros s H. split; [exact H | apply evolves_refl].
    + apply triple_fail. now right.
Qed.

Lemma triple_parseSTRLList (D : list byte) (fuel : nat) (size : Z)
    (streams : list Stream.t) :
  triple (inv D fuel) (parseSTRLList fuel size streams)
    (fun streams' s =>
       inv D fuel s /\ (indexed streams -> indexed streams')
       /\ (Forall consistent streams -> Forall consistent streams')).
Proof.
  unfold parseSTRLList.
  eapply triple_bind; [apply triple_binaryRead|].
  intros [bs|e]; apply triple_pure; intros He; [|apply triple_fail; exact He].
  destruct (negb _).
  - eapply triple_bind; [apply triple_skip; apply AlignSize_nonneg|].
    intros ?. apply triple_ret. auto.
  - eapply triple_bind; [apply triple_rSeek_current; lia|].
    intros res. apply triple_pure. intros [pos ->].
    eapply triple_bind; [apply triple_parseSTRLList_loop|].
    intros s. apply triple_pure. intros [Hidx Hcons]. apply triple_ret.
    intros s0 Hinv. split; [exact Hinv|]. split.
    + intros Hss. apply indexed_snoc; assumption.
    + intros Hss. apply Forall_app. split; [exact Hss|].
      constructor; [|constructor]. apply Hcons, consistent_blank.
Qed.

(** What a loop over chunks does to the streams and metadata it carries. *)
Definition carried (streams : list Stream.t) (fileInfo : FileInfo.t)
    (st : list Stream.t * FileInfo.t) : Prop :=
  keeps fileInfo (snd st) /\ (indexed streams -> indexed (fst st))
  /\ (Forall consistent streams -> Forall consistent (fst st)).

Lemma carried_refl (streams : list Stream.t) (fileInfo : FileInfo.t) :
  carried streams fileInfo (streams, fileInfo).
Proof. split; [apply keeps_refl | auto]. Qed.

Lemma carried_trans (streams : list Stream.t) (fileInfo : FileInfo.t)
    (st st' : list Stream.t * FileInfo.t) :
  carried streams fileInfo st -> carried (fst st) (snd st) st' ->
  carried streams fileInfo st'.
Proof.
  intros (H1 & H2 & H3) (K1 & K2 & K3).
  split; [eapply keeps_trans; eassumption | auto].
Qed.

Lemma triple_parseHDRLList_loop (D : list byte) (fuel : nat) :
  forall endPos streams fileInfo,
    triple (inv D fuel) (parseHDRLList_loop fuel endPos streams fileInfo)
      (fun st s => inv D fuel s /\ carried streams fileInfo st).
Proof.
  induction fuel as [|fuel IH]; intros endPos streams fileInfo.
  { eapply triple_weaken; [apply triple_false | | intros a s H; exact H].
    intros s (_ & _ & H). lia. }
  cbn [parseHDRLList_loop].
  eapply triple_bind; [apply triple_rSeek_current; lia|].
  intros res. apply triple_pure. intros [pos ->].
  destruct (pos >=? endPos).
  { apply triple_ret. intros s H. split; [exact H | apply carried_refl]. }
  eapply triple_bind; [apply triple_binaryRead_header; reflexivity|].
  intros [bs|e].
  - eapply triple_bind with
      (Q := fun st s => inv D fuel s /\ carried streams fileInfo st).
    + destruct (String.eqb _ _).
      { eapply triple_bind; [apply triple_parseAVIHChunk|].
        intros fi. apply triple_pure. intros Hfi. apply triple_ret.
        intros s H. split; [exact H|]. split; [exact Hfi | auto]. }
      destruct (String.eqb _ _).
      { eapply triple_bind; [apply triple_parseSTRLList|].
        intros ss. apply triple_pure. intros Hss. apply triple_ret.
        intros s H. split; [exact H|]. split; [apply keeps_refl | exact Hss]. }
      eapply triple_bind; [apply triple_skip; apply AlignSize_nonneg|].
      intros ?. apply triple_ret.
      intros s H. split; [exact H | apply carried_refl].
    + intros st. apply triple_pure. intros Hst.
      eapply triple_weaken; [apply IH | auto |].
      intros a s0 [Hinv Ha]. split; [now apply inv_S|].
      eapply carried_trans; eassumption.
  - apply triple_pure. intros [-> | ->].
    + apply triple_ret. intros s H. split; [exact H | apply carried_refl].
    + apply triple_fail. now right.
Qed.

Lemma triple_parseLISTChunk (D : list byte) (fuel : nat) (size : Z)
    (streams : list Stream.t) (fileInfo : FileInfo.t) :
  triple (inv D fuel) (parseLISTChunk fuel size streams fileInfo)
    (fun st s => inv D fuel s /\ carried streams fileInfo st).
Proof.
  unfold parseLISTChunk.
  eapply triple_bind; [apply triple_binaryRead|].
  intros [bs|e]; apply triple_pure; intros He; [|apply triple_fail; exact He].
  destruct (String.eqb _ _).
  { unfold parseHDRLList.
    eapply triple_bind; [apply triple_rSeek_current; lia|].
    intros res. apply triple_pure. intros [pos ->].
    apply triple_parseHDRLList_loop. }
  destruct (String.eqb _ _).
  - eapply triple_bind; [apply triple_rSeek_current; lia|].
    intros res. apply triple_pure. intros [pos ->].
    eapply triple_bind; [apply triple_modify; reflexivity|]. intros ?.
    eapply triple_bind; [apply triple_skip; apply AlignSize_nonneg|].
    intros ?. apply triple_ret.
    intros s H. split; [exact H | apply carried_refl].
  - eapply triple_bind; [apply triple_skip; apply AlignSize_nonneg|].
    intros ?. apply triple_ret.
    intros s H. split; [exact H | apply carried_refl].
Qed.

Lemma triple_parseIDX1Chunk_loop (D : list byte) (fuel : nat) (todo : nat) :
  forall done,
    triple (inv D fuel) (parseIDX1Chunk_loop todo done) (fun _ => inv D fuel).
Proof.
  induction todo as [|todo IH]; intros done; cbn [parseIDX1Chunk_loop].
  - apply triple_ret. auto.
  - eapply triple_bind; [apply triple_binaryRead|].
    intros [bs|e]; apply triple_pure; intros He; [|apply triple_fail; exact He].
    eapply triple_bind; [apply triple_modify; reflexivity|]. intros ?.
    apply IH.
Qed.

Lemma triple_parseChunks_loop (D : list byte) (fuel : nat) :
  forall streams fileInfo,
    triple (inv D fuel) (parseChunks_loop fuel streams fileInfo)
      (fun st s => inv D fuel s /\ carried streams fileInfo st).
Proof.
  induction fuel as [|fuel IH]; intros streams fileInfo.
  { eapply triple_weaken; [apply triple_false | | intros a s H; exact H].
    intros s (_ & _ & H). lia. }
  cbn [parseChunks_loop].
  eapply triple_bind; [apply triple_rSeek_current; lia|].
  intros res. apply triple_pure. intros [pos ->].
  eapply triple_bind; [apply triple_gets|]. intros fileSize.
  destruct (pos >=? int64 (fileSize - 8)).
  { apply triple_ret. intros s H. split; [exact H | apply carried_refl]. }
  eapply triple_bind; [apply triple_binaryRead_header; reflexivity|].
  intros [bs|e].
  - eapply triple_bind with
      (Q := fun st s => inv D fuel s /\ carried streams fileInfo st).
    + destruct (String.eqb _ _); [apply triple_parseLISTChunk|].
      destruct (String.eqb _ _).
      { eapply triple_bind with (Q := fun _ => inv D fuel).
        - unfold parseIDX1Chunk.
          eapply triple_bind; [apply triple_modify; reflexivity|]. intros ?.
          apply triple_parseIDX1Chunk_loop.
        - intros ?. apply triple_ret.
          intros s H. split; [exact H | apply carried_refl]. }
      eapply triple_bind; [apply triple_skip; apply AlignSize_nonneg|].
      intros ?. apply triple_ret.
      intros s H. split; [exact H | apply carried_refl].
    + intros st. apply triple_pure. intros Hst.
      eapply triple_weaken; [apply IH | auto |].
      intros a s0 [Hinv Ha]. split; [now apply inv_S|].
      eapply carried_trans; eassumption.
  - apply triple_pure. intros [-> | ->].
    + apply triple_ret. intros s H. split; [exact H | apply carried_refl].
    + apply triple_fail. now right.
Qed.

Lemma triple_parseFile (D : list byte) :
  triple (fun s => Source.data s = D) (parseFile (S (List.length D)))
    (fun _ s => Source.data s = D).
Proof.
  unfold parseFile.
  eapply triple_bind with
    (Q := fun res s => Source.data s = D
                       /\ match res with inl _ => True | inr e => eof_cause e end).
  { intros rd s Hr Hd. unfold binaryRead. rewrite Hr.
    unfold Source.ReadFull.
    destruct (Z.leb_spec 12 0); [lia|].
    change RIFFHeader_size with 12.
    destruct (12 <=? len (Source.data s) - Source.pos s).
    { eexists. split; [reflexivity|]. split; [exact Hd | exact I]. }
    destruct (0 <? len (Source.data s) - Source.pos s);
      (eexists; split; [reflexivity|]; split; [exact Hd|]).
    - now right.
    - now left. }
  intros [bs|e]; apply triple_pure; intros He; [|apply triple_fail; exact He].
  destruct (negb _).
  { intros rd s Hr Hd. cbn. right. left. reflexivity. }
  destruct (negb _).
  { intros rd s Hr Hd. cbn. right. right. reflexivity. }
  unfold parseChunks.
  eapply triple_bind; [apply triple_gets|]. intros filename.
  eapply triple_bind; [apply triple_gets|]. intros fileSize.
  eapply triple_bind with
    (Q := fun res s => inv D (S (List.length D)) s /\ exists p, res = inl p).
  { intros rd s Hr Hd. unfold rSeek. rewrite Hr. cbn.
    eexists. split; [reflexivity|]. split; [|eauto].
    repeat split; cbn [Source.data Source.pos]; [exact Hd | lia|].
    unfold len. lia. }
  intros res. apply triple_pure. intros [p ->].
  eapply triple_bind; [apply triple_parseChunks_loop|].
  intros [streams fileInfo]. apply triple_pure. intros _.
  eapply triple_weaken.
  - apply (triple_modify (inv D (S (List.length D)))). reflexivity.
  - auto.
  - intros ? s (Hd & _). exact Hd.
Qed.

(** X11.  [Open] returns on every input: for every byte source, every size
    argument and every reader it is called on, it returns nil, leaving the
    source in place, or returns an error, which is then a read that met
    the end of the source ([io.EOF] or [io.ErrUnexpectedEOF]) or one of the
    two signature checks.  It never panics, none of its loops runs
    forever, and no seek of it fails. *)
Theorem Open_returns_on_every_input (reader : Source.t) (size : Z)
    (rd : Reader.t) :
  (exists rd' s',
      run (Open reader size) rd = (Ok tt, rd')
      /\ Reader.r rd' = Some s'
      /\ Source.data s' = Source.data reader)
  \/ (exists e rd',
         run (Open reader size) rd = (Fail e, rd')
         /\ (Err e = io_EOF \/ Err e = io_ErrUnexpectedEOF
             \/ e = {| Op := "validate riff"; Err := Errorf "not a RIFF file" |}
             \/ e = {| Op := "validate avi"; Err := Errorf "not an AVI file" |})).
Proof.
  set (rd1 := Reader.set_filename
                (Reader.set_fileSize (Reader.set_r rd (Some reader)) size) "").
  assert (E : run (Open reader size) rd
              = parseFile (S (List.length (Source.data reader))) rd1)
    by reflexivity.
  rewrite E. clear E.
  pose proof (triple_parseFile (Source.data reader) rd1 reader eq_refl eq_refl)
    as H.
  destruct (parseFile (S (List.length (Source.data reader))) rd1)
    as [[[]|e| |] rd']; try contradiction.
  - left. destruct H as (s' & Hr & Hd). eauto.
  - right. exists e, rd'. split; [reflexivity|].
    destruct H as [[H | H] | [H | H]]; auto.
Qed.

(** ** demuxer.go: the reader after a successful [Open] *)

Lemma count_streams_counts (streams : list Stream.t) :
  forall fi,
    FileInfo.Filename (count_streams streams fi) = FileInfo.Filename fi
    /\ FileInfo.Duration (count_streams streams fi) = FileInfo.Duration fi
    /\ FileInfo.FileSize (count_streams streams fi) = FileInfo.FileSize fi
    /\ FileInfo.Streams (count_streams streams fi) = FileInfo.Streams fi
    /\ FileInfo.VideoStreams (count_streams streams fi)
       = FileInfo.VideoStreams fi + len (filter is_video streams)
    /\ FileInfo.AudioStreams (count_streams streams fi)
       = FileInfo.AudioStreams fi + len (filter is_audio streams).
Proof.
  induction streams as [|s rest IH]; intros fi; cbn [count_streams filter].
  - change (len (@nil Stream.t)) with 0. split_conj; try reflexivity; lia.
  - unfold is_video at 1, is_audio at 1.
    destruct (String.eqb (Stream.Type_ s) StreamTypeVideo) eqn:Ev.
    + apply String.eqb_eq in Ev. rewrite Ev.
      change (String.eqb StreamTypeVideo StreamTypeAudio) with false.
      destruct (IH {| FileInfo.Filename := FileInfo.Filename fi;
                      FileInfo.Duration := FileInfo.Duration fi;
                      FileInfo.FileSize := FileInfo.FileSize fi;
                      FileInfo.Streams := FileInfo.Streams fi;
                      FileInfo.VideoStreams := FileInfo.VideoStreams fi + 1;
                      FileInfo.AudioStreams := FileInfo.AudioStreams fi |})
        as (H1 & H2 & H3 & H4 & H5 & H6).
      cbn [FileInfo.Filename FileInfo.Duration FileInfo.FileSize FileInfo.Streams
           FileInfo.VideoStreams FileInfo.AudioStreams] in *.
      rewrite len_cons. split_conj; try assumption; lia.
    + destruct (String.eqb (Stream.Type_ s) StreamTypeAudio).
      * destruct (IH {| FileInfo.Filename := FileInfo.Filename fi;
                        FileInfo.Duration := FileInfo.Duration fi;
                        FileInfo.FileSize := FileInfo.FileSize fi;
                        FileInfo.Streams := FileInfo.Streams fi;
                        FileInfo.VideoStreams := FileInfo.VideoStreams fi;
                        FileInfo.AudioStreams := FileInfo.AudioStreams fi + 1 |})
          as (H1 & H2 & H3 & H4 & H5 & H6).
        cbn [FileInfo.Filename FileInfo.Duration FileInfo.FileSize FileInfo.Streams
             FileInfo.VideoStreams FileInfo.AudioStreams] in *.
        rewrite len_cons. split_conj; try assumption; lia.
      * apply IH.
Qed.

(** What a successful [Open] leaves in the reader: the streams and the
    metadata its chunk loop carried from the empty list and the initial
    metadata, the metadata completed with the stream list and the counts. *)
Lemma Open_Ok_inv (reader : Source.t) (size : Z) (rd rd' : Reader.t) :
  run (Open reader size) rd = (Ok tt, rd') ->
  exists streams fi1 rd4,
    rd' = Reader.set_fileInfo (Reader.set_streams rd4 streams)
            (Some (count_streams streams
                     {| FileInfo.Filename := FileInfo.Filename fi1;
                        FileInfo.Duration := FileInfo.Duration fi1;
                        FileInfo.FileSize := FileInfo.FileSize fi1;
                        FileInfo.Streams := streams;
                        FileInfo.VideoStreams := FileInfo.VideoStreams fi1;
                        FileInfo.AudioStreams := FileInfo.AudioStreams fi1 |}))
    /\ carried []
         {| FileInfo.Filename := ""; FileInfo.Duration := 0;
            FileInfo.FileSize := size; FileInfo.Streams := [];
            FileInfo.VideoStreams := 0; FileInfo.AudioStreams := 0 |}
         (streams, fi1).
Proof.
  set (rd1 := Reader.set_filename
                (Reader.set_fileSize (Reader.set_r rd (Some reader)) size) "").
  assert (E : run (Open reader size) rd
              = parseFile (S (List.length (Source.data reader))) rd1)
    by reflexivity.
  rewrite E. clear E. unfold parseFile. intros H.
  apply bind_Ok_inv in H as (res & rd2 & Hread & H).
  apply binaryRead_inv in Hread as (s1 & Hs1 & _ & Hrd2).
  assert (s1 = reader) as -> by (unfold rd1 in Hs1; cbn in Hs1; congruence).
  assert (Hname : Reader.filename rd2 = "") by (rewrite Hrd2; reflexivity).
  assert (Hsize : Reader.fileSize rd2 = size) by (rewrite Hrd2; reflexivity).
  assert (Hr2 : Reader.r rd2 = Some (snd (Source.ReadFull reader RIFFHeader_size)))
    by (rewrite Hrd2; reflexivity).
  clear Hrd2 Hs1. clearbody rd1.
  pose proof (ReadFull_data reader RIFFHeader_size) as Hdata.
  set (s2 := snd (Source.ReadFull reader RIFFHeader_size)) in *. clearbody s2.
  destruct res as [bs|e]; [|discriminate H].
  destruct (negb _); [discriminate H|].
  destruct (negb _); [discriminate H|].
  unfold parseChunks in H.
  apply bind_Ok_inv in H as (filename & rd2a & Hfn & H).
  injection Hfn as <- <-.
  apply bind_Ok_inv in H as (fileSize & rd2b & Hfs & H).
  injection Hfs as <- <-.
  rewrite Hname, Hsize in H.
  apply bind_Ok_inv in H as (p & rd3 & Hseek & H).
  apply rSeek_inv in Hseek as (s2' & Hs2 & Hp & Hrd3).
  assert (s2' = s2) as -> by congruence.
  rewrite Seek_start_eq in Hp, Hrd3.
  change (12 <? 0) with false in Hp, Hrd3. cbv iota in Hp, Hrd3.
  cbn [fst snd] in Hp, Hrd3. subst p.
  assert (Hr3 : Reader.r rd3
                = Some {| Source.data := Source.data s2; Source.pos := 12 |})
    by (rewrite Hrd3; reflexivity).
  clear Hrd3.
  apply bind_Ok_inv in H as ([streams fi1] & rd4 & Hloop & H).
  set (fi0 := {| FileInfo.Filename := ""; FileInfo.Duration := 0;
                 FileInfo.FileSize := size; FileInfo.Streams := [];
                 FileInfo.VideoStreams := 0; FileInfo.AudioStreams := 0 |}) in *.
  pose proof (triple_parseChunks_loop (Source.data reader)
                (S (List.length (Source.data reader))) [] fi0 rd3
                {| Source.data := Source.data s2; Source.pos := 12 |} Hr3) as Ht.
  rewrite Hloop in Ht.
  destruct Ht as (s4 & _ & _ & Hcarried).
  { repeat split; cbn [Source.data Source.pos]; [exact Hdata | lia|].
    unfold len. lia. }
  injection H as <-.
  exists streams, fi1, rd4. split; [reflexivity | exact Hcarried].
Qed.

(** X12.  After [Open] has returned nil the reader holds the file metadata:
    [GetFileInfo] returns it, with an empty file name, the size that was
    passed to [Open], the stream list of the reader, and the numbers of its
    video and of its audio streams; every stream of the list carries its
    position as its index.  [GetStreams] returns the list when it is not
    empty, and when no stream list was found it still returns the error
    "file not opened". *)
Theorem Open_success_state (reader : Source.t) (size : Z) (rd rd' : Reader.t) :
  run (Open reader size) rd = (Ok tt, rd') ->
  exists fi,
    run GetFileInfo rd' = (Ok fi, rd')
    /\ FileInfo.Filename fi = ""
    /\ FileInfo.FileSize fi = size
    /\ FileInfo.Streams fi = Reader.streams rd'
    /\ FileInfo.VideoStreams fi = len (filter is_video (Reader.streams rd'))
    /\ FileInfo.AudioStreams fi = len (filter is_audio (Reader.streams rd'))
    /\ (forall i s, index (Reader.streams rd') i = Some s -> Stream.Index s = i)
    /\ (Reader.streams rd' <> [] ->
        run GetStreams rd' = (Ok (Reader.streams rd'), rd'))
    /\ (Reader.streams rd' = [] ->
        run GetStreams rd'
        = (Fail {| Op := "get streams"; Err := Errorf "file not opened" |}, rd')).
Proof.
  intros H.
  apply Open_Ok_inv in H as (streams & fi1 & rd4 & -> & Hkeeps & Hindexed & _).
  cbn [fst snd] in Hkeeps, Hindexed.
  destruct Hkeeps as (K1 & K2 & K3 & K4 & K5).
  cbn [FileInfo.Filename FileInfo.FileSize FileInfo.Streams
       FileInfo.VideoStreams FileInfo.AudioStreams] in K1, K2, K3, K4, K5.
  set (fi2 := {| FileInfo.Filename := FileInfo.Filename fi1;
                 FileInfo.Duration := FileInfo.Duration fi1;
                 FileInfo.FileSize := FileInfo.FileSize fi1;
                 FileInfo.Streams := streams;
                 FileInfo.VideoStreams := FileInfo.VideoStreams fi1;
                 FileInfo.AudioStreams := FileInfo.AudioStreams fi1 |}).
  destruct (count_streams_counts streams fi2) as (C1 & _ & C3 & C4 & C5 & C6).
  exists (count_streams streams fi2).
  cbn [Reader.streams Reader.set_fileInfo Reader.set_streams].
  split; [reflexivity|].
  split; [rewrite C1; exact K1|]. split; [rewrite C3; exact K2|].
  split; [exact C4|].
  split; [rewrite C5; cbn [fi2 FileInfo.VideoStreams]; rewrite K4; lia|].
  split; [rewrite C6; cbn [fi2 FileInfo.AudioStreams]; rewrite K5; lia|].
  split; [exact (Hindexed indexed_nil)|].
  split.
  - intros Hne. unfold run, GetStreams, bind, get.
    cbn [Reader.streams Reader.set_fileInfo Reader.set_streams].
    destruct streams; [contradiction | reflexivity].
  - intros ->. reflexivity.
Qed.

Lemma pair_of_fst {A B} (x : A * B) (a : A) : fst x = a -> x = (a, snd x).
Proof. destruct x. cbn. now intros ->. Qed.

(** The scenario file: two streams, one of each kind. *)
Lemma Open_success_state_witness :
  let rd' := snd (run (Open (Source.NewReader scenario_file) (len scenario_file))
                    NewDemuxer) in
  exists fi,
    run GetFileInfo rd' = (Ok fi, rd')
    /\ FileInfo.Filename fi = ""
    /\ FileInfo.FileSize fi = len scenario_file
    /\ FileInfo.Streams fi = Reader.streams rd'
    /\ FileInfo.VideoStreams fi = len (filter is_video (Reader.streams rd'))
    /\ FileInfo.AudioStreams fi = len (filter is_audio (Reader.streams rd'))
    /\ (forall i s, index (Reader.streams rd') i = Some s -> Stream.Index s = i)
    /\ (Reader.streams rd' <> [] ->
        run GetStreams rd' = (Ok (Reader.streams rd'), rd'))
    /\ (Reader.streams rd' = [] ->
        run GetStreams rd'
        = (Fail {| Op := "get streams"; Err := Errorf "file not opened" |}, rd')).
Proof.
  intros rd'. subst rd'.
  assert (Hok : fst (run (Open (Source.NewReader scenario_file) (len scenario_file))
                       NewDemuxer) = Ok tt) by (vm_compute; reflexivity).
  exact (Open_success_state (Source.NewReader scenario_file) (len scenario_file)
           NewDemuxer _ (pair_of_fst _ _ Hok)).
Defined.

(** ** demuxer.go: what [Open] rejects and what it leaves behind *)

Lemma tag_is (sig : fourcc) (s : string) :
  String.length s = 4%nat ->
  String.eqb (ChunkIDToString sig) s = true <-> sig = StringToChunkID s.
Proof.
  intros Hs. rewrite String.eqb_eq. split.
  - intros <-. destruct sig as [[[a b] c] d]. unfold StringToChunkID.
    rewrite string_bytes_ChunkIDToString. reflexivity.
  - intros ->.
    destruct s as [|a [|b [|c [|d [|e s]]]]]; try discriminate Hs.
    unfold StringToChunkID, ChunkIDToString, string_bytes.
    cbn [list_ascii_of_string map nth fourcc_bytes string_of_list_ascii].
    now rewrite !ascii_of_byte_of_ascii.
Qed.

Lemma fourcc_at_firstn (data : list byte) (n off : nat) :
  (off + 4 <= n)%nat -> fourcc_at (firstn n data) off = fourcc_at data off.
Proof.
  intros H. unfold fourcc_at.
  assert (E : forall k, (k < n)%nat -> nth k (firstn n data) x00 = nth k data x00).
  { intros k Hk. rewrite nth_firstn.
    destruct (Nat.ltb_spec k n); [reflexivity | lia]. }
  rewrite !E by lia. reflexivity.
Qed.

(** X13.  [Open] on a source that does not start with a RIFF/AVI header.  On an
    empty source it returns the error "read riff header" with [io.EOF]; on
    fewer than twelve bytes, with [io.ErrUnexpectedEOF]; on twelve bytes or
    more that do not start with "RIFF", the error "validate riff"; and where
    they do but bytes 8 to 11 are not "AVI ", the error "validate avi".  The
    size field in bytes 4 to 7 is not looked at. *)
Theorem Open_rejects_bad_header (data : list byte) (size : Z) (rd : Reader.t) :
  let out := fst (run (Open (Source.NewReader data) size) rd) in
  (data = [] ->
   out = Fail {| Op := "read riff header"; Err := io_EOF |})
  /\ (0 < len data < 12 ->
      out = Fail {| Op := "read riff header"; Err := io_ErrUnexpectedEOF |})
  /\ (12 <= len data ->
      fourcc_at data 0 <> StringToChunkID RIFFSignature ->
      out = Fail {| Op := "validate riff"; Err := Errorf "not a RIFF file" |})
  /\ (12 <= len data ->
      fourcc_at data 0 = StringToChunkID RIFFSignature ->
      fourcc_at data 8 <> StringToChunkID AVISignature ->
      out = Fail {| Op := "validate avi"; Err := Errorf "not an AVI file" |}).
Proof.
  cbv zeta.
  set (rd1 := Reader.set_filename
                (Reader.set_fileSize
                   (Reader.set_r rd (Some (Source.NewReader data))) size) "").
  assert (E : run (Open (Source.NewReader data) size) rd
              = parseFile (S (List.length data)) rd1) by reflexivity.
  rewrite E. clear E. unfold parseFile, bind, binaryRead.
  change (Reader.r rd1) with (Some (Source.NewReader data)). cbv iota beta.
  unfold Source.ReadFull, Source.NewReader.
  cbn [Source.data Source.pos]. change RIFFHeader_size with 12.
  change (12 <=? 0) with false. cbv iota. rewrite Z.sub_0_r.
  split; [|split; [|split]].
  - intros ->. reflexivity.
  - intros H. destruct (Z.leb_spec 12 (len data)); [lia|].
    destruct (Z.ltb_spec 0 (len data)); [reflexivity | lia].
  - intros H Hsig. destruct (Z.leb_spec 12 (len data)); [|lia].
    cbn [fst snd]. unfold decode_RIFFHeader, IsValidRIFFSignature.
    cbn [riff_Signature]. unfold slice_from. cbn [Z.to_nat skipn].
    rewrite fourcc_at_firstn by (cbn; lia).
    destruct (String.eqb _ RIFFSignature) eqn:Eq; [|reflexivity].
    apply tag_is in Eq; [contradiction | reflexivity].
  - intros H Hsig Havi. destruct (Z.leb_spec 12 (len data)); [|lia].
    cbn [fst snd]. unfold decode_RIFFHeader, IsValidRIFFSignature,
      IsValidAVISignature.
    cbn [riff_Signature riff_Type]. unfold slice_from. cbn [Z.to_nat skipn].
    rewrite !fourcc_at_firstn by (cbn; lia).
    rewrite Hsig.
    change (String.eqb (ChunkIDToString (StringToChunkID RIFFSignature))
              RIFFSignature) with true.
    cbn [negb].
    destruct (String.eqb _ AVISignature) eqn:Eq; [|reflexivity].
    apply tag_is in Eq; [contradiction | reflexivity].
Qed.

(** A method that leaves [r.streams] and [r.fileInfo] as they are. *)
Lemma frame_keeps {A} (c : M A) (rd : Reader.t) :
  frame c ->
  Reader.streams (snd (c rd)) = Reader.streams rd
  /\ Reader.fileInfo (snd (c rd)) = Reader.fileInfo rd.
Proof.
  intros Hc. specialize (Hc rd (Reader.streams rd) (Reader.fileInfo rd)).
  assert (E : with_meta rd (Reader.streams rd) (Reader.fileInfo rd) = rd)
    by (destruct rd; reflexivity).
  rewrite E in Hc. apply (f_equal snd) in Hc. cbn [snd] in Hc.
  rewrite Hc. split; reflexivity.
Qed.

(** X14.  A failed [Open] leaves the metadata of the reader as it was: when the
    reader was opened on a file before, [GetFileInfo] and [GetStreams] go
    on returning what they returned for that file. *)
Theorem Open_failure_keeps_metadata (reader : Source.t) (size : Z)
    (rd rd' : Reader.t) (e : AVIError) :
  run (Open reader size) rd = (Fail e, rd') ->
  Reader.streams rd' = Reader.streams rd
  /\ Reader.fileInfo rd' = Reader.fileInfo rd
  /\ fst (run GetFileInfo rd') = fst (run GetFileInfo rd)
  /\ fst (run GetStreams rd') = fst (run GetStreams rd).
Proof.
  intros H.
  assert (Hkeep : Reader.streams rd' = Reader.streams rd
                  /\ Reader.fileInfo rd' = Reader.fileInfo rd).
  { set (rd1 := Reader.set_filename
                  (Reader.set_fileSize (Reader.set_r rd (Some reader)) size) "").
    assert (E : run (Open reader size) rd
                = parseFile (S (List.length (Source.data reader))) rd1)
      by reflexivity.
    rewrite E in H. clear E.
    assert (H1 : Reader.streams rd1 = Reader.streams rd
                 /\ Reader.fileInfo rd1 = Reader.fileInfo rd) by (split; reflexivity).
    clearbody rd1. destruct H1 as [<- <-].
    unfold parseFile, bind in H.
    pose proof (frame_keeps (binaryRead RIFFHeader_size) rd1
                  (frame_binaryRead _)) as [K1 K2].
    destruct (binaryRead RIFFHeader_size rd1) as [[res| | |] rd2];
      cbn [snd] in K1, K2; try (injection H as _ <-; now split);
      try discriminate H.
    rewrite <- K1, <- K2. clear K1 K2.
    destruct res as [bs|c]; [|injection H as _ <-; now split].
    destruct (negb _); [injection H as _ <-; now split|].
    destruct (negb _); [injection H as _ <-; now split|].
    unfold parseChunks, bind, gets in H.
    pose proof (frame_keeps (rSeek 12 SeekStart) rd2 (frame_rSeek _ _))
      as [K1 K2].
    destruct (rSeek 12 SeekStart rd2) as [[p| | |] rd3];
      cbn [snd] in K1, K2; try (injection H as _ <-; now split);
      try discriminate H.
    rewrite <- K1, <- K2. clear K1 K2.
    destruct p as [p|c]; [|injection H as _ <-; now split].
    match type of H with
    | context [parseChunks_loop ?f ?ss ?fi rd3] =>
        pose proof (frame_keeps (parseChunks_loop f ss fi) rd3
                      (frame_parseChunks_loop f ss fi)) as [K1 K2];
        destruct (parseChunks_loop f ss fi rd3) as [[[ss' fi']| | |] rd4]
    end; cbn [snd] in K1, K2; try discriminate H;
      injection H as _ <-; now split. }
  destruct Hkeep as [Hs Hf].
  split; [exact Hs|]. split; [exact Hf|].
  unfold run, GetFileInfo, GetStreams, bind, get. rewrite Hs, Hf.
  split.
  - destruct (Reader.fileInfo rd); reflexivity.
  - destruct (Reader.streams rd); reflexivity.
Qed.

(** A reader that holds a stream from before, opened on a single byte. *)
Lemma Open_failure_keeps_metadata_witness :
  let rd := with_meta NewDemuxer [Stream.zero] None in
  let rd' := snd (run (Open (Source.NewReader [x00]) 1) rd) in
  fst (run (Open (Source.NewReader [x00]) 1) rd)
  = Fail {| Op := "read riff header"; Err := io_ErrUnexpectedEOF |}
  /\ Reader.streams rd' = [Stream.zero]
  /\ fst (run GetStreams rd') = Ok [Stream.zero].
Proof.
  intros rd rd'.
  assert (Hfail : run (Open (Source.NewReader [x00]) 1) rd
                  = (Fail {| Op := "read riff header"; Err := io_ErrUnexpectedEOF |},
                     rd')) by reflexivity.
  destruct (Open_failure_keeps_metadata _ _ _ _ _ Hfail) as (Hs & _ & _ & Hg).
  split; [reflexivity|]. split; [exact Hs | exact Hg].
Defined.

(** X15.  The size argument, not the source, bounds the walk over the chunks: the
    first chunk header is at offset 12, and it is read only when 12 is below
    [size - 8], an [int64] difference.  With a size of at most 20 for which
    that difference does not wrap (a size of at least [-2^63 + 8]), [Open]
    on any source that starts with a RIFF/AVI header returns nil without a
    stream, leaves the index of the reader as it was, and [GetStreams] then
    returns "file not opened".  For the eight smallest sizes the difference
    wraps to a large positive number, and the walk is bounded by the source
    instead. *)
Theorem Open_with_small_size (data : list byte) (size : Z) (rd : Reader.t) :
  12 <= len data ->
  fourcc_at data 0 = StringToChunkID RIFFSignature ->
  fourcc_at data 8 = StringToChunkID AVISignature ->
  - 2 ^ 63 + 8 <= size <= 20 ->
  exists rd',
    run (Open (Source.NewReader data) size) rd = (Ok tt, rd')
    /\ Reader.streams rd' = []
    /\ Reader.fileInfo rd'
       = Some {| FileInfo.Filename := ""; FileInfo.Duration := 0;
                 FileInfo.FileSize := size; FileInfo.Streams := [];
                 FileInfo.VideoStreams := 0; FileInfo.AudioStreams := 0 |}
    /\ Reader.indexEntries rd' = Reader.indexEntries rd
    /\ Reader.moviOffset rd' = Reader.moviOffset rd
    /\ fst (run GetStreams rd')
       = Fail {| Op := "get streams"; Err := Errorf "file not opened" |}.
Proof.
  intros Hlen Hsig Havi Hsize.
  set (rd1 := Reader.set_filename
                (Reader.set_fileSize
                   (Reader.set_r rd (Some (Source.NewReader data))) size) "").
  assert (E : run (Open (Source.NewReader data) size) rd
              = parseFile (S (List.length data)) rd1) by reflexivity.
  rewrite E. clear E. unfold parseFile, bind at 1, binaryRead.
  change (Reader.r rd1) with (Some (Source.NewReader data)). cbv iota beta.
  unfold Source.ReadFull, Source.NewReader.
  cbn [Source.data Source.pos]. change RIFFHeader_size with 12.
  change (12 <=? 0) with false. cbv iota. rewrite Z.sub_0_r.
  destruct (Z.leb_spec 12 (len data)); [|lia].
  unfold decode_RIFFHeader, IsValidRIFFSignature, IsValidAVISignature.
  cbn [riff_Signature riff_Type]. unfold slice_from. cbn [Z.to_nat skipn].
  rewrite !fourcc_at_firstn by (cbn; lia).
  rewrite Hsig, Havi.
  change (String.eqb (ChunkIDToString (StringToChunkID RIFFSignature))
            RIFFSignature) with true.
  change (String.eqb (ChunkIDToString (StringToChunkID AVISignature))
            AVISignature) with true.
  cbn [negb].
  unfold parseChunks, bind, gets, rSeek.
  cbn [Reader.r Reader.set_r Reader.filename Reader.fileSize rd1
       Reader.set_filename Reader.set_fileSize].
  rewrite Seek_start_eq. change (12 <? 0) with false. cbv iota.
  cbn [parseChunks_loop]. unfold bind, gets, rSeek.
  cbn [Reader.r Reader.set_r Reader.fileSize].
  rewrite Seek_current_eq. cbn [Source.pos Source.data]. rewrite Z.add_0_r.
  change (12 <? 0) with false. cbv iota.
  unfold rd1.
  cbn [Reader.fileSize Reader.set_r Reader.set_filename Reader.set_fileSize].
  rewrite (int64_small (size - 8)) by lia.
  destruct (Z.geb_spec 12 (size - 8)); [|lia].
  eexists. split; [reflexivity|]. split_conj; reflexivity.
Qed.

(** The scenario file opened with a size of 0: no stream.  Opened with the
    size [-2^63], where [size - 8] wraps, its two streams are found. *)
Lemma Open_with_small_size_witness :
  (exists rd',
      run (Open (Source.NewReader scenario_file) 0) NewDemuxer = (Ok tt, rd')
      /\ Reader.streams rd' = []
      /\ Reader.fileInfo rd'
         = Some {| FileInfo.Filename := ""; FileInfo.Duration := 0;
                   FileInfo.FileSize := 0; FileInfo.Streams := [];
                   FileInfo.VideoStreams := 0; FileInfo.AudioStreams := 0 |}
      /\ Reader.indexEntries rd' = Reader.indexEntries NewDemuxer
      /\ Reader.moviOffset rd' = Reader.moviOffset NewDemuxer
      /\ fst (run GetStreams rd')
         = Fail {| Op := "get streams"; Err := Errorf "file not opened" |})
  /\ len (Reader.streams
            (snd (run (Open (Source.NewReader scenario_file) (- 2 ^ 63))
                    NewDemuxer))) = 2.
Proof.
  split.
  - apply (Open_with_small_size scenario_file 0 NewDemuxer).
    + vm_compute. discriminate.
    + vm_compute. reflexivity.
    + vm_compute. reflexivity.
    + lia.
  - vm_compute. reflexivity.
Defined.

(** ** demuxer.go: [ReadPacketData] *)

Lemma set_r_same (rd : Reader.t) (s : Source.t) :
  Reader.r rd = Some s ->
  Reader.set_r rd (Some {| Source.data := Source.data s; Source.pos := Source.pos s |})
  = rd.
Proof. destruct rd, s. cbn. now intros ->. Qed.

Lemma ReadFull_within (s : Source.t) (n : Z) :
  0 <= Source.pos s -> 0 <= n -> Source.pos s + n <= len (Source.data s) ->
  Source.ReadFull s n
  = (inl (firstn (Z.to_nat n) (skipn (Z.to_nat (Source.pos s)) (Source.data s))),
     {| Source.data := Source.data s; Source.pos := Source.pos s + n |}).
Proof.
  intros Hp Hn Hle. unfold Source.ReadFull, slice_from.
  destruct (Z.leb_spec n 0).
  - assert (n = 0) as -> by lia. rewrite Z.add_0_r. cbn [Z.to_nat firstn].
    destruct s; reflexivity.
  - destruct (Z.leb_spec n (len (Source.data s) - Source.pos s)); [reflexivity | lia].
Qed.

(** The successful path of [ReadPacketData], step by step: save the cursor,
    seek to the packet, read the header, check the end of the chunk against
    the opened size, read the body, restore the cursor. *)
Lemma ReadPacketData_chunk_body
    (rd : Reader.t) (s : Source.t) (packet : Packet.t) :
  Reader.r rd = Some s ->
  0 <= Source.pos s ->
  len (Source.data s) < 2 ^ 63 ->
  let q := Packet.Position packet in
  let size := u32_at (skipn (Z.to_nat q) (Source.data s)) 4 in
  0 <= q ->
  q + 8 + size <= len (Source.data s) ->
  q + 8 + size <= Reader.fileSize rd ->
  run (ReadPacketData packet) rd
  = (Ok (firstn (Z.to_nat size) (skipn (Z.to_nat (q + 8)) (Source.data s))), rd).
Proof.
  intros Hr Hp Hlen q size Hq Hin Hfs.
  assert (Hsize : 0 <= size).
  { unfold size, u32_at.
    clear. induction (field _ 4 4) as [|b l IH]; cbn [le_decode]; [lia|].
    pose proof (Z_of_byte_range b). lia. }
  unfold run, ReadPacketData, bind at 1, get. rewrite Hr.
  (* the cursor is saved *)
  rewrite (bind_Ok _ _ _ rd (inl (Source.pos s)))
    by (apply rSeek_current; assumption).
  (* the seek to the packet *)
  set (s1 := {| Source.data := Source.data s; Source.pos := q |}).
  rewrite (bind_Ok _ _ _ (Reader.set_r rd (Some s1)) (inl q)).
  2:{ unfold rSeek. rewrite Hr, Seek_start_eq. fold q.
      destruct (Z.ltb_spec q 0); [lia | reflexivity]. }
  (* the chunk header *)
  set (bs := firstn 8 (skipn (Z.to_nat q) (Source.data s))).
  set (s2 := {| Source.data := Source.data s; Source.pos := q + 8 |}).
  rewrite (bind_Ok _ _ _ (Reader.set_r rd (Some s2)) (inl bs)).
  2:{ unfold binaryRead. cbn [Reader.r Reader.set_r].
      rewrite (ReadFull_within s1 ChunkHeader_size); cbn [Source.pos Source.data s1];
        [reflexivity | lia | unfold ChunkHeader_size; lia
        | unfold ChunkHeader_size; lia]. }
  assert (Hdec : ch_Size (decode_ChunkHeader bs) = size).
  { unfold decode_ChunkHeader, size, bs, u32_at, field. cbn [ch_Size].
    f_equal. rewrite skipn_firstn_comm. cbn [Nat.sub].
    rewrite firstn_firstn. reflexivity. }
  rewrite Hdec.
  rewrite (bind_Ok _ _ _ (Reader.set_r rd (Some s2)) (inl (q + 8))).
  2:{ unfold rSeek. cbn [Reader.r Reader.set_r]. rewrite Seek_current_eq.
      cbn [Source.pos Source.data s2]. rewrite Z.add_0_r.
      destruct (Z.ltb_spec (q + 8) 0); [lia|].
      destruct rd; reflexivity. }
  rewrite int64_small by lia.
  destruct (Z.gtb_spec (q + 8 + size) (Reader.fileSize rd)); [lia|].
  (* the payload *)
  set (s3 := {| Source.data := Source.data s; Source.pos := q + 8 + size |}).
  rewrite (bind_Ok _ _ _ (Reader.set_r rd (Some s3))
             (inl (firstn (Z.to_nat size)
                     (skipn (Z.to_nat (q + 8)) (Source.data s))))).
  2:{ unfold binaryRead. cbn [Reader.r Reader.set_r].
      rewrite (ReadFull_within s2 size); cbn [Source.pos Source.data s2];
        [destruct rd; reflexivity | lia | lia | lia]. }
  (* the cursor is restored *)
  rewrite (bind_Ok _ _ _ rd (inl (Source.pos s))).
  2:{ unfold rSeek. cbn [Reader.r Reader.set_r]. rewrite Seek_start_eq.
      destruct (Z.ltb_spec (Source.pos s) 0); [lia|].
      cbn [Source.data s3]. f_equal.
      rewrite <- (set_r_same rd s Hr) at 2. destruct rd; reflexivity. }
  reflexivity.
Qed.

(** X16.  [ReadPacketData] on a chunk that lies within the source.  When the
    eight bytes at [packet.Position] and the number of bytes their size
    field announces lie within the source and within the size the reader
    was opened with, the call returns exactly those bytes and leaves the
    reader, the cursor of its source included, as it was.  The size comes
    from the chunk header in the source: [packet.Size] is not used. *)
Theorem ReadPacketData_returns_the_chunk_body
    (rd : Reader.t) (s : Source.t) (packet : Packet.t) :
  Reader.r rd = Some s ->
  0 <= Source.pos s ->
  len (Source.data s) < 2 ^ 63 ->
  let q := Packet.Position packet in
  let size := u32_at (skipn (Z.to_nat q) (Source.data s)) 4 in
  0 <= q ->
  q + 8 + size <= len (Source.data s) ->
  q + 8 + size <= Reader.fileSize rd ->
  run (ReadPacketData packet) rd
  = (Ok (firstn (Z.to_nat size) (skipn (Z.to_nat (q + 8)) (Source.data s))), rd).
Proof.
  intros Hr Hp Hlen q size Hq Hin Hfs.
  exact (ReadPacketData_chunk_body rd s packet Hr Hp Hlen Hq Hin Hfs).
Qed.

(** A chunk of one video stream's packet, read back. *)
Lemma ReadPacketData_returns_the_chunk_body_witness :
  let packet := mk_packet 0 StreamTypeVideo [x01; x02; x03; x04] 0 1 "K__" in
  let file := sink_bytes (snd (run (Serialize [mjpg_codec] [packet]) NewMuxer)) in
  let rd := {| Reader.r := Some (Source.NewReader file); Reader.filename := "";
               Reader.fileSize := len file; Reader.streams := [];
               Reader.fileInfo := None; Reader.moviOffset := 0;
               Reader.indexEntries := [] |} in
  let at_chunk := {| Packet.StreamIndex := 0; Packet.Codec := StreamTypeVideo;
                     Packet.Data := []; Packet.PTS := 0; Packet.DTS := 0;
                     Packet.Duration := 1; Packet.Size := 0;
                     Packet.Position := 224; Packet.Flags := "K__";
                     Packet.PTSTime := 0; Packet.DTSTime := 0;
                     Packet.DurationTime := 0 |} in
  run (ReadPacketData at_chunk) rd = (Ok [x01; x02; x03; x04], rd).
Proof.
  intros packet file rd at_chunk.
  assert (Hfile : len file = 260) by (vm_compute; reflexivity).
  assert (Hsz : u32_at (skipn (Z.to_nat 224) file) 4 = 4) by (vm_compute; reflexivity).
  assert (Hbody : firstn (Z.to_nat 4) (skipn (Z.to_nat (224 + 8)) file)
                  = [x01; x02; x03; x04]) by (vm_compute; reflexivity).
  pose proof (ReadPacketData_returns_the_chunk_body rd (Source.NewReader file)
                at_chunk eq_refl ltac:(cbn; lia)) as H.
  cbv zeta in H. cbn [Source.data Source.NewReader Packet.Position at_chunk
                      Reader.fileSize rd] in H.
  rewrite Hsz, Hfile, Hbody in H.
  apply H; lia.
Defined.

(** ** The payloads survive the round trip *)

(** The bytes [bytes] hold the chunk of the packet [p] at offset [q]. *)
Definition chunk_at (bytes : list byte) (q : Z) (p : Packet.t) : Prop :=
  0 <= q
  /\ exists id rest,
      skipn (Z.to_nat q) bytes = packet_bytes id p ++ rest.

Lemma chunk_at_app_l (pre bytes : list byte) (q : Z) (p : Packet.t) :
  chunk_at bytes q p -> chunk_at (pre ++ bytes) (len pre + q) p.
Proof.
  intros (Hq & id & rest & H). split; [pose proof (len_nonneg pre); lia|].
  exists id, rest. rewrite <- H.
  replace (Z.to_nat (len pre + q)) with (List.length pre + Z.to_nat q)%nat
    by (unfold len; lia).
  rewrite skipn_app, skipn_all2 by lia.
  replace (List.length pre + Z.to_nat q - List.length pre)%nat with (Z.to_nat q)
    by lia.
  reflexivity.
Qed.

Lemma chunk_at_app_r (bytes post : list byte) (q : Z) (p : Packet.t) :
  chunk_at bytes q p -> chunk_at (bytes ++ post) q p.
Proof.
  intros (Hq & id & rest & H). split; [exact Hq|].
  exists id, (rest ++ post).
  assert (Hlt : (Z.to_nat q < List.length bytes)%nat).
  { destruct (Nat.lt_ge_cases (Z.to_nat q) (List.length bytes)) as [|Hge];
      [assumption|].
    rewrite skipn_all2 in H by assumption.
    apply (f_equal (@List.length byte)) in H.
    rewrite length_app in H.
    pose proof (len_packet_bytes id p) as Hl.
    destruct (packet_len_bounds p) as (H8 & _).
    unfold len in Hl. cbn [List.length] in H. lia. }
  rewrite skipn_app, H.
  replace (Z.to_nat q - List.length bytes)%nat with 0%nat by lia.
  cbn [skipn]. now rewrite <- app_assoc.
Qed.

(** Every index entry holds the offset of its packet's chunk in the
    payload, counted from [offset] at the start of the payload. *)
Lemma payload_layout (ss : list Stream.t) (packets : list Packet.t) :
  forall (offset : Z) (entries : list IndexEntry) (payload : list byte),
    index_entries ss packets offset = Some entries ->
    packets_bytes ss packets = Some payload ->
    0 <= offset -> offset + payload_len packets < 2 ^ 32 ->
    Forall2 (fun p e => chunk_at payload (ie_Offset e - offset) p) packets entries.
Proof.
  induction packets as [|p rest IH]; intros offset entries payload He Hp H0 Hfit;
    cbn [index_entries packets_bytes payload_len] in *.
  - apply Some_inj in He. subst. constructor.
  - destruct (packet_tag ss p) as [id|]; [|discriminate].
    destruct (index_entries ss rest _) as [es|] eqn:Hes; [|discriminate].
    destruct (packets_bytes ss rest) as [bs|] eqn:Hbs; [|discriminate].
    apply Some_inj in He. apply Some_inj in Hp. subst entries payload.
    destruct (packet_len_bounds p) as (H8 & _).
    destruct (payload_len_bounds rest) as (Hr & _).
    pose proof (len_nonneg rest) as Hn.
    rewrite packet_span_len in Hes by lia.
    rewrite wrap32_small in Hes by lia.
    constructor.
    + cbn [ie_Offset index_entry]. rewrite Z.sub_diag.
      split; [lia|]. exists id, bs. reflexivity.
    + specialize (IH _ _ _ Hes eq_refl ltac:(lia) ltac:(lia)).
      eapply Forall2_impl; [|exact IH]. intros q e Hq. cbv beta in *.
      replace (ie_Offset e - offset)
        with (len (packet_bytes id p) + (ie_Offset e - (offset + packet_len p)))
        by (rewrite len_packet_bytes; lia).
      now apply chunk_at_app_l.
Qed.

(** In a serialized file every index entry points at the chunk of its
    packet, counted from the payload list's sub-type tag. *)
Lemma file_layout (ss : list Stream.t) (packets : list Packet.t)
    (file : list byte) (entries : list IndexEntry) :
  Forall typed ss ->
  file_bytes ss packets = Some file ->
  index_entries ss packets 4 = Some entries ->
  len file < 2 ^ 32 ->
  Forall2 (fun p e => chunk_at file (movi_position ss + ie_Offset e) p)
    packets entries.
Proof.
  intros Ht Hfile Hent Hsmall.
  pose proof (len_file_bytes ss packets file Ht Hfile) as Hlen.
  pose proof (declared_sum_nonneg ss Ht) as Hd.
  pose proof (audio_count_nonneg ss) as Ha.
  pose proof (len_nonneg packets) as Hn.
  unfold file_bytes in Hfile.
  destruct (total_frames ss packets 0) as [n|]; [|discriminate].
  destruct (packets_bytes ss packets) as [payload|] eqn:Hpay; [|discriminate].
  rewrite Hent in Hfile. apply Some_inj in Hfile. subst file.
  pose proof (payload_layout ss packets 4 entries payload Hent Hpay
                ltac:(lia) ltac:(lia)) as Hlay.
  eapply Forall2_impl; [|exact Hlay]. intros p e Hpe. cbv beta in *.
  set (pre := encode_RIFFHeader
                {| riff_Signature := StringToChunkID RIFFSignature;
                   riff_FileSize := riff_size ss packets;
                   riff_Type := StringToChunkID AVISignature |}
              ++ hdrl_bytes ss packets n ++ list_header (movi_size packets) MOVIList).
  assert (Hpre : len pre = movi_position ss + 4).
  { unfold pre, hdrl_bytes, movi_position.
    rewrite !len_app, len_avih_bytes, (len_strls_bytes packets ss Ht 0).
    autorewrite with lens. lia. }
  replace (movi_position ss + ie_Offset e) with (len pre + (ie_Offset e - 4))
    by lia.
  replace (_ ++ _ ++ (_ ++ payload) ++ _)
    with (pre ++ payload ++ (chunk IDX1Chunk (idx1_size packets)
                             ++ entries_bytes entries))
    by (unfold pre; now rewrite <- !app_assoc).
  apply chunk_at_app_l. apply chunk_at_app_r. exact Hpe.
Qed.

Lemma chunk_at_read (file : list byte) (q : Z) (p : Packet.t) :
  chunk_at file q p ->
  len (Packet.Data p) < 2 ^ 32 ->
  u32_at (skipn (Z.to_nat q) file) 4 = len (Packet.Data p)
  /\ firstn (Z.to_nat (len (Packet.Data p))) (skipn (Z.to_nat (q + 8)) file)
     = Packet.Data p
  /\ q + 8 + len (Packet.Data p) <= len file.
Proof.
  intros (Hq & id & rest & H) Hsmall.
  pose proof (len_nonneg (Packet.Data p)) as Hn.
  assert (Hlen : len file - q = len (packet_bytes id p) + len rest).
  { rewrite <- len_app, <- H.
    destruct (Z.le_gt_cases q (len file)) as [Hle | Hgt].
    - rewrite len_skipn by lia. reflexivity.
    - exfalso. rewrite skipn_all2 in H by (unfold len in *; lia).
      apply (f_equal len) in H. rewrite len_app, len_packet_bytes in H.
      destruct (packet_len_bounds p) as (H8 & _).
      pose proof (len_nonneg rest). change (len (@nil byte)) with 0 in H. lia. }
  rewrite len_packet_bytes in Hlen.
  destruct (packet_len_bounds p) as (_ & _ & Hd).
  pose proof (len_nonneg rest) as Hr.
  split; [|split; [|lia]].
  - rewrite H. unfold packet_bytes.
    set (h := {| ch_ID := id; ch_Size := wrap32 (len (Packet.Data p)) |}).
    change (u32_at (encode_ChunkHeader h ++ Packet.Data p ++ _ ++ rest) 4)
      with (ch_Size (decode_ChunkHeader
                       (encode_ChunkHeader h ++ Packet.Data p ++
                        (if Z.rem (len (Packet.Data p)) 2 =? 1 then [x00] else [])
                        ++ rest))).
    destruct id as [[[a b] c] d]. unfold encode_ChunkHeader, h.
    cbn [ch_ID ch_Size fourcc_bytes app].
    unfold decode_ChunkHeader, u32_at, field. cbn [ch_Size skipn].
    unfold le32. cbn [app firstn].
    change (le_decode (le32 (wrap32 (len (Packet.Data p)))) = len (Packet.Data p)).
    rewrite le_decode_le32, wrap32_idem. apply wrap32_small. lia.
  - replace (Z.to_nat (q + 8)) with (8 + Z.to_nat q)%nat by lia.
    rewrite <- skipn_skipn, H. unfold packet_bytes.
    destruct id as [[[a b] c] d]. unfold encode_ChunkHeader, le32.
    cbn [ch_ID ch_Size fourcc_bytes app skipn].
    rewrite <- app_assoc. unfold len. rewrite Nat2Z.id.
    rewrite firstn_app, firstn_all, Nat.sub_diag. cbn [firstn].
    now rewrite app_nil_r.
Qed.

(** X17.  The payloads survive the round trip.  Under the conditions of the
    round trip of the streams and packets (valid codecs, at most fifty of
    them audio, at least one packet, stream indices declared and at most
    255, a file below [2^32] bytes), [ReadPacketData] on the reader, for
    every packet that [ReadAllPackets] reconstructed, returns the payload
    of the packet that was written in its place, and leaves the reader as
    it was: reading all packets and their data, as a remux does, gives back
    every payload byte, padding excluded. *)
Theorem payloads_survive_round_trip (codecs : list Codec.t)
    (packets : list Packet.t) :
  Forall valid_codec codecs ->
  audio_count (declared_streams 0 codecs) <= 50 ->
  packets <> [] ->
  Forall (fun p => 0 <= Packet.StreamIndex p < len codecs
                   /\ Packet.StreamIndex p <= 255) packets ->
  len (sink_bytes (snd (run (Serialize codecs packets) NewMuxer))) < 2 ^ 32 ->
  exists wr rd packets',
    run (Serialize codecs packets) NewMuxer = (Ok tt, wr)
    /\ run (Parse (sink_bytes wr)) NewDemuxer = (Ok packets', rd)
    /\ Forall2 (fun p p' =>
                  run (ReadPacketData p') rd = (Ok (Packet.Data p), rd))
         packets packets'.
Proof.
  intros Hvalid Haudio Hne Hpackets Hsmall.
  set (ss := declared_streams 0 codecs) in *.
  assert (Ht : Forall typed ss) by (apply declared_streams_typed; exact Hvalid).
  assert (Hidx : indices_declared (len codecs) packets).
  { unfold indices_declared. eapply Forall_impl; [|exact Hpackets].
    cbv beta. intros p [H _]. exact H. }
  assert (Hidx' : indices_declared (len ss) packets).
  { unfold ss. now rewrite len_declared_streams. }
  destruct (file_bytes_defined ss packets Ht Hidx') as (file & entries & Hfile & Hent).
  pose proof (Serialize_spec codecs packets file Hidx Hfile) as Hser.
  fold ss in Hser. rewrite Hser in Hsmall.
  change (sink_bytes (snd (Ok tt, writing ss packets file))) with file in Hsmall.
  destruct (Open_file ss packets file entries Ht Haudio Hfile Hent Hne Hsmall)
    as [fi Hopen].
  set (rd := with_meta (reading file (len file) (movi_position ss) entries)
               (parsed_streams packets 0 ss) (Some fi)) in *.
  destruct (parsed_streams_match packets codecs Hvalid 0) as [_ Hrates].
  fold ss in Hrates.
  destruct (ReadAllPackets_loop_total (parsed_streams packets 0 ss)
              (movi_position ss) entries Hrates []) as [packets' Hloop].
  pose proof (index_entries_of ss packets 4 entries Hent) as Hof.
  pose proof (Forall2_length Hof) as Hlen.
  pose proof (len_file_bytes ss packets file Ht Hfile) as Hsize.
  pose proof (declared_sum_nonneg ss Ht) as Hd.
  pose proof (audio_count_nonneg ss) as Ha.
  destruct (payload_len_bounds packets) as [Hpay _].
  pose proof (len_nonneg packets) as Hn.
  assert (Hread : ReadAllPackets rd = (Ok packets', rd)).
  { unfold ReadAllPackets.
    change (Reader.indexEntries rd) with entries.
    change (Reader.streams rd) with (parsed_streams packets 0 ss).
    change (Reader.moviOffset rd) with (movi_position ss).
    rewrite Hloop.
    destruct (Z.eqb_spec (len entries) 0) as [Hz | _]; [|reflexivity].
    exfalso. apply Hne. unfold len in Hz.
    destruct packets; [reflexivity | cbn in Hlen; lia]. }
  exists (writing ss packets file), rd, packets'.
  split; [exact Hser|]. split.
  { unfold run, Parse.
    change (sink_bytes (writing ss packets file)) with file.
    rewrite (bind_Ok _ _ _ rd tt) by exact Hopen. exact Hread. }
  apply ReadAllPackets_loop_spec in Hloop as (new & -> & Hdesc & _).
  cbn [app]. rewrite filter_all in Hdesc.
  2:{ apply (Forall2_Forall_r _ _ _ _ _ Hof Hpackets).
      intros p e [Hi Hmax] He.
      exact (entry_of_accepted codecs packets p e Hvalid Hi Hmax He). }
  pose proof (file_layout ss packets file entries Ht Hfile Hent Hsmall) as Hlay.
  assert (Hmo : 0 <= movi_position ss) by (unfold movi_position; lia).
  apply (Forall2_compose _ _ _ _ _ Hlay _ Hdesc).
  intros p e p' Hin Hchunk (_ & _ & _ & Hposn & _).
  pose proof (payload_len_In packets p Hin) as Hdata.
  destruct (chunk_at_read file _ p Hchunk ltac:(lia)) as (Hsz & Hbody & Hfit).
  destruct Hchunk as [Hq _].
  pose proof (len_nonneg (Packet.Data p)) as Hnn.
  assert (Hp' : Packet.Position p' = movi_position ss + ie_Offset e).
  { rewrite Hposn. rewrite int64_small by lia. lia. }
  pose proof (ReadPacketData_chunk_body rd
                {| Source.data := file; Source.pos := len file |} p' eq_refl) as H.
  cbv zeta in H. cbn [Source.data Source.pos] in H.
  rewrite Hp', Hsz, Hbody in H.
  apply H; try lia.
  change (Reader.fileSize rd) with (len file). lia.
Qed.

(** The scenario of ten packets: every payload is read back. *)
Lemma payloads_survive_round_trip_witness :
  exists wr rd packets',
    run (Serialize [mjpg_codec; pcm_codec] scenario_packets) NewMuxer = (Ok tt, wr)
    /\ run (Parse (sink_bytes wr)) NewDemuxer = (Ok packets', rd)
    /\ Forall2 (fun p p' =>
                  run (ReadPacketData p') rd = (Ok (Packet.Data p), rd))
         scenario_packets packets'.
Proof.
  apply (payloads_survive_round_trip [mjpg_codec; pcm_codec] scenario_packets).
  - constructor; [exact mjpg_codec_valid|].
    constructor; [exact pcm_codec_valid | constructor].
  - vm_compute. intros H; discriminate H.
  - intros H; discriminate H.
  - repeat constructor; cbn; lia.
  - vm_compute. reflexivity.
Defined.

(** ** demuxer.go: when [ReadAllPackets] panics *)




(** ** muxer.go: declaring streams *)

(** [AddStream] for each codec of a list, collecting the indices returned. *)
Fixpoint AddStreams (codecs : list Codec.t) : W (list Z) :=
  match codecs with
  | [] => ret []
  | c :: rest =>
      i <- AddStream c ;;
      more <- AddStreams rest ;;
      ret (i :: more)
  end.

Lemma AddStreams_writing (codecs : list Codec.t) :
  forall (ss : list Stream.t) (ps : list Packet.t) (sb : SeekableBuffer.t),
    AddStreams codecs
      {| Writer.w := Some sb; Writer.filename := ""; Writer.streams := ss;
         Writer.packets := ps |}
    = (Ok (map (fun k => len ss + Z.of_nat k) (seq 0 (List.length codecs))),
       {| Writer.w := Some sb; Writer.filename := "";
          Writer.streams := ss ++ declared_streams (len ss) codecs;
          Writer.packets := ps |}).
Proof.
  induction codecs as [|c codecs IH]; intros ss ps sb.
  - cbn. unfold ret. now rewrite app_nil_r.
  - cbn [AddStreams declared_streams List.length seq map].
    rewrite (bind_Ok _ _ _
               {| Writer.w := Some sb; Writer.filename := "";
                  Writer.streams := ss ++ [declared_stream (len ss) c];
                  Writer.packets := ps |} (len ss)) by reflexivity.
    rewrite (bind_Ok _ _ _ _ _ (IH _ ps sb)).
    unfold ret. rewrite len_snoc, <- app_assoc. cbn [app].
    rewrite Z.add_0_r. do 3 f_equal.
    rewrite <- seq_shift, map_map. apply map_ext. intros k. lia.
Qed.

Lemma index_declared_streams_spec (codecs : list Codec.t) :
  forall (base i : Z) (s : Stream.t),
    index (declared_streams base codecs) i = Some s ->
    Stream.Index s = base + i
    /\ Stream.Type_ s = Codec.Type_ (Stream.Codec s)
    /\ index codecs i = Some (Stream.Codec s).
Proof.
  induction codecs as [|c rest IH]; intros base i s H.
  - unfold index in H. destruct (i <? 0); [discriminate|].
    destruct (Z.to_nat i); discriminate.
  - unfold index in *. destruct (Z.ltb_spec i 0); [discriminate|].
    cbn [declared_streams] in H.
    destruct (Z.to_nat i) as [|k] eqn:Ei; cbn [nth_error] in *.
    + apply Some_inj in H. subst s. cbn. split; [lia|]. split; reflexivity.
    + specialize (IH (base + 1) (i - 1) s).
      destruct (Z.ltb_spec (i - 1) 0); [lia|].
      replace (Z.to_nat (i - 1)) with k in IH by lia.
      destruct (IH H) as (Ha & Hb & Hc). split; [lia|]. split; assumption.
Qed.

(** X19.  [AddStream] numbers the streams in the order of the calls: after
    [Create], whatever the writer held before, the calls for a list of
    codecs return 0, 1, 2, ..., and the writer holds one stream per codec,
    in order, each with its position as index, the codec, and the codec's
    type as type, and no packet.  Before [Create], [AddStream] returns the
    error "file not created". *)
Theorem AddStream_numbers_the_streams (sb : SeekableBuffer.t)
    (codecs : list Codec.t) (wr : Writer.t) :
  (exists wr',
      run (Create sb ;;; AddStreams codecs) wr
      = (Ok (map Z.of_nat (seq 0 (List.length codecs))), wr')
      /\ len (Writer.streams wr') = len codecs
      /\ Writer.packets wr' = []
      /\ Writer.w wr' = Some sb
      /\ (forall i s, index (Writer.streams wr') i = Some s ->
                      Stream.Index s = i
                      /\ Stream.Type_ s = Codec.Type_ (Stream.Codec s)
                      /\ index codecs i = Some (Stream.Codec s)))
  /\ (forall c,
         fst (run (AddStream c) NewMuxer)
         = Fail {| Op := "add stream"; Err := Errorf "file not created" |}).
Proof.
  split; [|reflexivity].
  eexists. split.
  - unfold run, Create, bind at 1, modify.
    rewrite (AddStreams_writing codecs [] [] sb).
    change (len (@nil Stream.t)) with 0. cbn [app]. reflexivity.
  - cbn [Writer.streams Writer.packets Writer.w].
    split; [apply len_declared_streams|].
    split; [reflexivity|]. split; [reflexivity|].
    intros i s H.
    destruct (index_declared_streams_spec codecs 0 i s H) as (H1 & H2 & H3).
    split; [lia|]. split; assumption.
Qed.

(** ** muxer.go: what [Finalize] writes, and when it panics *)

Lemma bind_Panic {S A B} (c : ST S A) (k : A -> ST S B) (st : S) :
  fst (c st) = Panic -> fst (bind c k st) = Panic.
Proof.
  unfold bind. destruct (c st) as [[a|e| |] st']; cbn; congruence.
Qed.

Lemma stream_at_panics (ss : list Stream.t) (ps : list Packet.t)
    (out : list byte) (i : Z) :
  index ss i = None -> fst (stream_at i (writing ss ps out)) = Panic.
Proof.
  intros H. unfold stream_at, bind, get. cbn [Writer.streams writing].
  now rewrite H.
Qed.

Lemma total_frames_panics (ss : list Stream.t) (ps0 : list Packet.t)
    (out : list byte) (ps : list Packet.t) :
  forall totalFrames,
    total_frames ss ps totalFrames = None ->
    fst (for_fold ps totalFrames
           (fun totalFrames packet =>
              stream <- stream_at (Packet.StreamIndex packet) ;;
              if String.eqb (Stream.Type_ stream) StreamTypeVideo
              then ret (wrap32 (totalFrames + 1))
              else ret totalFrames)
           (writing ss ps0 out))
    = Panic.
Proof.
  induction ps as [|p ps IH]; intros totalFrames H; cbn in H; [discriminate|].
  cbn [for_fold].
  destruct (index ss (Packet.StreamIndex p)) as [s|] eqn:Hs.
  - rewrite (bind_Ok _ _ _ (writing ss ps0 out)
               (if is_video s then wrap32 (totalFrames + 1) else totalFrames)).
    + apply IH. exact H.
    + erewrite bind_Ok by (apply stream_at_writing; exact Hs).
      unfold is_video. destruct (String.eqb _ _); reflexivity.
  - apply bind_Panic. apply bind_Panic. now apply stream_at_panics.
Qed.

Lemma writeHDRLList_panics (ss : list Stream.t) (ps : list Packet.t)
    (out : list byte) :
  total_frames ss ps 0 = None ->
  fst (writeHDRLList (writing ss ps out)) = Panic.
Proof.
  intros H. unfold writeHDRLList.
  erewrite bind_Ok by apply calculateHDRLSize_writing.
  erewrite bind_Ok by apply wWrite_writing.
  apply bind_Panic. unfold writeAVIHChunk, bind at 1, get.
  cbn [Writer.streams Writer.packets writing].
  destruct (first_video ss) as [[width height] us].
  apply bind_Panic. now apply total_frames_panics.
Qed.

Lemma writePacketData_panics (ss : list Stream.t) (ps : list Packet.t)
    (out : list byte) (p : Packet.t) :
  packet_tag ss p = None ->
  fst (writePacketData p (writing ss ps out)) = Panic.
Proof.
  unfold packet_tag, writePacketData. intros H.
  destruct (index ss (Packet.StreamIndex p)) as [s|] eqn:Hs.
  - erewrite bind_Ok by (apply stream_at_writing; exact Hs).
    now rewrite H.
  - apply bind_Panic. now apply stream_at_panics.
Qed.

Lemma writePacketData_loop_panics (ss : list Stream.t) (ps0 : list Packet.t)
    (ps : list Packet.t) :
  forall out,
    packets_bytes ss ps = None ->
    fst (for_each ps writePacketData (writing ss ps0 out)) = Panic.
Proof.
  induction ps as [|p ps IH]; intros out H; cbn in H; [discriminate|].
  cbn [for_each].
  destruct (packet_tag ss p) as [id|] eqn:Hid.
  - erewrite bind_Ok by (apply writePacketData_writing; exact Hid).
    apply IH. destruct (packets_bytes ss ps); [discriminate | reflexivity].
  - apply bind_Panic. now apply writePacketData_panics.
Qed.

Lemma index_entries_of_payload (ss : list Stream.t) (ps : list Packet.t) :
  forall payload offset,
    packets_bytes ss ps = Some payload ->
    exists entries, index_entries ss ps offset = Some entries.
Proof.
  induction ps as [|p ps IH]; intros payload offset H; cbn in *; [eauto|].
  destruct (packet_tag ss p) as [id|]; [|discriminate].
  destruct (packets_bytes ss ps) as [bs|]; [|discriminate].
  destruct (IH bs (wrap32 (offset + packet_span p)) eq_refl) as [es ->]. eauto.
Qed.

(** [Finalize] panics when the layout of the file is not defined. *)
Lemma Finalize_panics (ss : list Stream.t) (ps : list Packet.t)
    (out : list byte) :
  file_bytes ss ps = None ->
  fst (Finalize (writing ss ps out)) = Panic.
Proof.
  unfold file_bytes. intros H.
  unfold Finalize, bind at 1, get. cbn [Writer.w writing].
  unfold writeAVIFile.
  erewrite bind_Ok by apply calculateMOVISize_writing.
  erewrite bind_Ok by apply calculateHDRLSize_writing.
  erewrite bind_Ok by apply calculateIDX1Size_writing.
  erewrite bind_Ok by apply wWrite_writing.
  destruct (total_frames ss ps 0) as [n|] eqn:Hn.
  - erewrite bind_Ok by (apply writeHDRLList_writing; exact Hn).
    apply bind_Panic.
    destruct (packets_bytes ss ps) as [payload|] eqn:Hp.
    + destruct (index_entries_of_payload ss ps payload 4 Hp) as [es Hes].
      rewrite Hes in H. discriminate H.
    + unfold writeMOVIList.
      erewrite bind_Ok by apply calculateMOVISize_writing.
      erewrite bind_Ok by apply wWrite_writing.
      unfold bind at 1, get. cbn [Writer.packets writing].
      now apply writePacketData_loop_panics.
  - apply bind_Panic. now apply writeHDRLList_panics.
Qed.

(** [WritePacket] accepts every packet whose stream index is below the
    number of streams. *)
Lemma WritePacket_loop_accepted (ss : list Stream.t) (out : list byte)
    (packets : list Packet.t) :
  Forall (fun p => Packet.StreamIndex p < len ss) packets ->
  forall ps,
    for_each packets WritePacket (writing ss ps out)
    = (Ok tt, writing ss (ps ++ packets) out).
Proof.
  induction 1 as [|p packets Hp _ IH]; intros ps.
  - cbn. unfold ret. now rewrite app_nil_r.
  - cbn [for_each].
    rewrite (bind_Ok _ _ _ (writing ss (ps ++ [p]) out) tt).
    + rewrite IH, <- app_assoc. reflexivity.
    + unfold WritePacket, bind, get. cbn [Writer.w Writer.streams writing].
      destruct (Z.geb_spec (Packet.StreamIndex p) (len ss)); [lia | reflexivity].
Qed.

Lemma Serialize_accepted (codecs : list Codec.t) (packets : list Packet.t) :
  Forall (fun p => Packet.StreamIndex p < len codecs) packets ->
  run (Serialize codecs packets) NewMuxer
  = Finalize (writing (declared_streams 0 codecs) packets []).
Proof.
  intros Hidx. unfold run, Serialize.
  rewrite (bind_Ok _ _ _ (writing [] [] []) tt) by reflexivity.
  erewrite bind_Ok by apply AddStream_loop.
  cbn [app]. change (len (@nil Stream.t)) with 0.
  erewrite bind_Ok.
  2:{ apply WritePacket_loop_accepted. now rewrite len_declared_streams. }
  reflexivity.
Qed.

(** A packet [Finalize] can write: its stream exists and is a video or an
    audio stream. *)
Definition writable (codecs : list Codec.t) (p : Packet.t) : bool :=
  match index codecs (Packet.StreamIndex p) with
  | Some c =>
      String.eqb (Codec.Type_ c) StreamTypeVideo
      || String.eqb (Codec.Type_ c) StreamTypeAudio
  | None => false
  end.

Lemma index_declared_streams_map (codecs : list Codec.t) :
  forall (base i : Z),
    index (declared_streams base codecs) i
    = option_map (declared_stream (base + i)) (index codecs i).
Proof.
  induction codecs as [|c rest IH]; intros base i.
  - unfold index. destruct (i <? 0); [reflexivity|].
    destruct (Z.to_nat i); reflexivity.
  - unfold index in *. destruct (Z.ltb_spec i 0); [reflexivity|].
    cbn [declared_streams].
    destruct (Z.to_nat i) as [|k] eqn:Ei; cbn [nth_error].
    + cbn [option_map]. do 2 f_equal. lia.
    + specialize (IH (base + 1) (i - 1)).
      destruct (Z.ltb_spec (i - 1) 0); [lia|].
      replace (Z.to_nat (i - 1)) with k in IH by lia.
      rewrite IH. replace (base + 1 + (i - 1)) with (base + i) by lia.
      reflexivity.
Qed.

Lemma packet_tag_writable (codecs : list Codec.t) (p : Packet.t) :
  (exists id, packet_tag (declared_streams 0 codecs) p = Some id)
  <-> writable codecs p = true.
Proof.
  unfold packet_tag, writable. rewrite index_declared_streams_map.
  destruct (index codecs (Packet.StreamIndex p)) as [c|]; cbn [option_map];
    [|split; [intros [id H]; discriminate H | discriminate]].
  unfold packetTwoCC, MakeChunkID. cbn [Stream.Type_ declared_stream].
  destruct (String.eqb (Codec.Type_ c) StreamTypeVideo); cbn [orb].
  - destruct (String.eqb (Packet.Flags p) "K__");
      (split; [reflexivity | intros _; eexists; reflexivity]).
  - destruct (String.eqb (Codec.Type_ c) StreamTypeAudio).
    + split; [reflexivity | intros _; eexists; reflexivity].
    + split; [intros [id H]; discriminate H | discriminate].
Qed.

Lemma file_bytes_writable (codecs : list Codec.t) (packets : list Packet.t) :
  (exists file, file_bytes (declared_streams 0 codecs) packets = Some file)
  <-> forallb (writable codecs) packets = true.
Proof.
  set (ss := declared_streams 0 codecs). split.
  - intros [file H]. unfold file_bytes in H.
    destruct (total_frames ss packets 0); [|discriminate].
    destruct (packets_bytes ss packets) as [payload|] eqn:Hp; [|discriminate].
    clear H. revert payload Hp.
    induction packets as [|p rest IH]; intros payload Hp; [reflexivity|].
    cbn [packets_bytes forallb] in *.
    destruct (packet_tag ss p) as [id|] eqn:Hid; [|discriminate].
    destruct (packets_bytes ss rest) as [bs|]; [|discriminate].
    rewrite (IH bs eq_refl), andb_true_r.
    apply packet_tag_writable. eauto.
  - intros H. rewrite forallb_forall in H.
    assert (Htag : forall p, In p packets -> exists id, packet_tag ss p = Some id).
    { intros p Hin. apply packet_tag_writable. now apply H. }
    assert (Hidx : indices_declared (len ss) packets).
    { unfold indices_declared. apply Forall_forall. intros p Hin.
      destruct (Htag p Hin) as [id Hid]. unfold packet_tag in Hid.
      destruct (index ss (Packet.StreamIndex p)) as [s|] eqn:Hs; [|discriminate].
      unfold index in Hs. destruct (Z.ltb_spec (Packet.StreamIndex p) 0);
        [discriminate|].
      assert (Hlt : (Z.to_nat (Packet.StreamIndex p) < List.length ss)%nat)
        by (apply nth_error_Some; congruence).
      unfold len. lia. }
    assert (Hpay : exists payload, packets_bytes ss packets = Some payload).
    { clear H Hidx. induction packets as [|p rest IH]; cbn [packets_bytes]; [eauto|].
      destruct (Htag p (or_introl eq_refl)) as [id ->].
      destruct IH as [bs ->]; [intros q Hq; apply Htag; now right | eauto]. }
    destruct Hpay as [payload Hpay].
    unfold file_bytes.
    destruct (total_frames_defined ss packets Hidx 0) as [n ->].
    rewrite Hpay.
    destruct (index_entries_of_payload ss packets payload 4 Hpay) as [es ->].
    eauto.
Qed.

(** X20.  [Finalize] either writes the file or panics.  For packets that
    [WritePacket] has accepted (a stream index below the number of
    streams), serializing returns nil exactly when every packet belongs to
    an existing stream whose type is video or audio.  A packet with a
    negative stream index makes [Finalize] panic on [w.streams[...]], and a
    packet of a stream of any other type (the empty type of a zero [Codec]
    included) makes it panic in [MakeChunkID], which indexes the empty
    subtype string. *)
Theorem Finalize_writes_or_panics (codecs : list Codec.t)
    (packets : list Packet.t) :
  Forall (fun p => Packet.StreamIndex p < len codecs) packets ->
  (forallb (writable codecs) packets = true ->
   fst (run (Serialize codecs packets) NewMuxer) = Ok tt)
  /\ (forallb (writable codecs) packets = false ->
      fst (run (Serialize codecs packets) NewMuxer) = Panic).
Proof.
  intros Hidx. rewrite (Serialize_accepted codecs packets Hidx).
  split; intros H.
  - apply file_bytes_writable in H as [file Hfile].
    now rewrite (Finalize_writing _ _ _ _ Hfile).
  - apply Finalize_panics.
    destruct (file_bytes (declared_streams 0 codecs) packets) as [file|] eqn:E;
      [|reflexivity].
    assert (Hw : forallb (writable codecs) packets = true)
      by (apply file_bytes_writable; eauto).
    congruence.
Qed.

Definition subtitle_codec : Codec.t :=
  {| Codec.Name := "text"; Codec.FourCC := (x00, x00, x00, x00);
     Codec.Type_ := "subtitle";
     Codec.Width := 0; Codec.Height := 0; Codec.FPS := 0%float;
     Codec.Channels := 0; Codec.SampleRate := 0; Codec.BitDepth := 0 |}.

(** A video packet is written; a packet of a stream of another type makes
    [Finalize] panic. *)
Lemma Finalize_writes_or_panics_witness :
  fst (run (Serialize [mjpg_codec; subtitle_codec]
              [mk_packet 0 StreamTypeVideo [x01] 0 1 "K__"]) NewMuxer) = Ok tt
  /\ fst (run (Serialize [mjpg_codec; subtitle_codec]
                 [mk_packet 1 "subtitle" [x01] 0 1 "K__"]) NewMuxer) = Panic.
Proof.
  split.
  - apply (Finalize_writes_or_panics [mjpg_codec; subtitle_codec]
             [mk_packet 0 StreamTypeVideo [x01] 0 1 "K__"]);
      [repeat constructor | reflexivity].
  - apply (Finalize_writes_or_panics [mjpg_codec; subtitle_codec]
             [mk_packet 1 "subtitle" [x01] 0 1 "K__"]);
      [repeat constructor | reflexivity].
Defined.

(** The number of codecs of a type. *)
Definition count_type (t : StreamType) (codecs : list Codec.t) : Z :=
  len (filter (fun c => String.eqb (Codec.Type_ c) t) codecs).

Lemma declared_sizes (codecs : list Codec.t) :
  Forall (fun c => Codec.Type_ c = StreamTypeVideo
                   \/ Codec.Type_ c = StreamTypeAudio) codecs ->
  forall base,
    Forall typed (declared_streams base codecs)
    /\ declared_sum (declared_streams base codecs)
       + 2 * audio_count (declared_streams base codecs)
       = 124 * count_type StreamTypeVideo codecs
         + 102 * count_type StreamTypeAudio codecs.
Proof.
  unfold count_type.
  induction 1 as [|c rest Hc _ IH]; intros base;
    cbn [declared_streams declared_sum audio_count filter].
  - split; [constructor | reflexivity].
  - destruct (IH (base + 1)) as [Ht Hsum].
    split; [constructor; [exact Hc | exact Ht]|].
    unfold strl_size, is_video, is_audio. cbn [Stream.Type_ declared_stream].
    destruct Hc as [-> | ->].
    + change (String.eqb StreamTypeVideo StreamTypeVideo) with true.
      change (String.eqb StreamTypeVideo StreamTypeAudio) with false.
      cbv iota. rewrite len_cons. lia.
    + change (String.eqb StreamTypeAudio StreamTypeVideo) with false.
      change (String.eqb StreamTypeAudio StreamTypeAudio) with true.
      cbv iota. rewrite len_cons. lia.
Qed.

(** X21.  The length of the file [Finalize] writes.  For codecs that are video
    or audio codecs and packets of declared streams, serializing returns
    nil and leaves in the sink 108 bytes, 124 more for every video stream
    and 102 for every audio stream, for every packet its payload rounded up
    to an even length and 8 bytes of chunk header, and 16 bytes of index
    per packet.  The fields of the codecs and the timestamps of the packets
    have no influence on the length. *)
Theorem Finalize_output_length (codecs : list Codec.t) (packets : list Packet.t) :
  Forall (fun c => Codec.Type_ c = StreamTypeVideo
                   \/ Codec.Type_ c = StreamTypeAudio) codecs ->
  Forall (fun p => 0 <= Packet.StreamIndex p < len codecs) packets ->
  exists wr,
    run (Serialize codecs packets) NewMuxer = (Ok tt, wr)
    /\ len (sink_bytes wr)
       = 108 + 124 * count_type StreamTypeVideo codecs
         + 102 * count_type StreamTypeAudio codecs
         + fold_right (fun p n => 8 + len (Packet.Data p)
                                  + len (Packet.Data p) mod 2 + n) 0 packets
         + 16 * len packets
    /\ len (sink_bytes wr) mod 2 = 0.
Proof.
  intros Hcodecs Hpackets.
  destruct (declared_sizes codecs Hcodecs 0) as [Ht Hsum].
  set (ss := declared_streams 0 codecs) in *.
  assert (Hidx : indices_declared (len ss) packets).
  { unfold ss. rewrite len_declared_streams. exact Hpackets. }
  destruct (file_bytes_defined ss packets Ht Hidx) as (file & entries & Hfile & _).
  exists (writing ss packets file).
  split; [apply Serialize_spec; assumption|].
  change (sink_bytes (writing ss packets file)) with file.
  rewrite (len_file_bytes ss packets file Ht Hfile).
  assert (Hpay : payload_len packets
                 = fold_right (fun p n => 8 + len (Packet.Data p)
                                          + len (Packet.Data p) mod 2 + n) 0 packets).
  { clear. induction packets as [|p rest IH]; cbn [payload_len fold_right];
      [reflexivity|]. unfold packet_len, padded. lia. }
  split; [lia|].
  destruct (payload_len_bounds packets) as [_ Heven].
  replace (108 + declared_sum ss + 2 * audio_count ss + payload_len packets
           + 16 * len packets)
    with (payload_len packets
          + (54 + 62 * count_type StreamTypeVideo codecs
             + 51 * count_type StreamTypeAudio codecs + 8 * len packets) * 2)
    by lia.
  now rewrite Z_mod_plus_full.
Qed.

(** The scenario: one video and one audio stream, five packets of three
    bytes and five of four, 514 bytes. *)
Lemma Finalize_output_length_witness :
  exists wr,
    run (Serialize [mjpg_codec; pcm_codec] scenario_packets) NewMuxer = (Ok tt, wr)
    /\ len (sink_bytes wr)
       = 108 + 124 * 1 + 102 * 1 + (5 * (8 + 3 + 1) + 5 * (8 + 4)) + 16 * 10.
Proof.
  destruct (Finalize_output_length [mjpg_codec; pcm_codec] scenario_packets)
    as (wr & Hrun & Hlen & _).
  - constructor; [now left|]. constructor; [now right | constructor].
  - repeat constructor; cbn; lia.
  - exists wr. split; [exact Hrun|]. rewrite Hlen. reflexivity.
Defined.

(** X22.  [Finalize] does not rewind the sink and does not clear the pending
    packets: it appends the file at the cursor.  A second [Finalize] after
    serializing therefore returns nil again and leaves the file twice in
    the sink, and the streams and packets of the writer as they were. *)
Theorem Finalize_twice_writes_the_file_twice (codecs : list Codec.t)
    (packets : list Packet.t) :
  Forall (fun c => Codec.Type_ c = StreamTypeVideo
                   \/ Codec.Type_ c = StreamTypeAudio) codecs ->
  Forall (fun p => 0 <= Packet.StreamIndex p < len codecs) packets ->
  exists wr wr2,
    run (Serialize codecs packets) NewMuxer = (Ok tt, wr)
    /\ run (Serialize codecs packets ;;; Finalize) NewMuxer = (Ok tt, wr2)
    /\ sink_bytes wr2 = sink_bytes wr ++ sink_bytes wr
    /\ Writer.packets wr = packets
    /\ Writer.packets wr2 = packets
    /\ Writer.streams wr2 = Writer.streams wr.
Proof.
  intros Hcodecs Hpackets.
  destruct (declared_sizes codecs Hcodecs 0) as [Ht _].
  set (ss := declared_streams 0 codecs) in *.
  assert (Hidx : indices_declared (len ss) packets).
  { unfold ss. rewrite len_declared_streams. exact Hpackets. }
  destruct (file_bytes_defined ss packets Ht Hidx) as (file & entries & Hfile & _).
  pose proof (Serialize_spec codecs packets file Hpackets Hfile) as Hser.
  exists (writing ss packets file), (writing ss packets (file ++ file)).
  split; [exact Hser|]. split.
  - unfold run in *. rewrite (bind_Ok _ _ _ _ _ Hser).
    apply Finalize_writing. exact Hfile.
  - split_conj; reflexivity.
Qed.

Lemma Finalize_twice_writes_the_file_twice_witness :
  exists wr wr2,
    run (Serialize [mjpg_codec; pcm_codec] scenario_packets) NewMuxer = (Ok tt, wr)
    /\ run (Serialize [mjpg_codec; pcm_codec] scenario_packets ;;; Finalize)
         NewMuxer = (Ok tt, wr2)
    /\ sink_bytes wr2 = sink_bytes wr ++ sink_bytes wr
    /\ Writer.packets wr = scenario_packets
    /\ Writer.packets wr2 = scenario_packets
    /\ Writer.streams wr2 = Writer.streams wr.
Proof.
  apply (Finalize_twice_writes_the_file_twice [mjpg_codec; pcm_codec]
           scenario_packets).
  - constructor; [now left|]. constructor; [now right | constructor].
  - repeat constructor; cbn; lia.
Defined.

(** ** demuxer.go: the stream records [Open] builds *)

(** X23.  Every stream record that a successful [Open] leaves in the reader is
    consistent, whatever the bytes of the source: its codec carries the
    stream's type, which is empty (a stream of another kind, or a list
    without a stream header), video or audio; the codec's name is the
    printable part of the handler tag; the width is an [int32], the height
    is not negative (a negative height is negated), the audio parameters
    are in the ranges of their fields; and the packet count is 0. *)
Theorem Open_streams_are_consistent (reader : Source.t) (size : Z)
    (rd rd' : Reader.t) :
  run (Open reader size) rd = (Ok tt, rd') ->
  Forall consistent (Reader.streams rd').
Proof.
  intros H.
  apply Open_Ok_inv in H as (streams & fi1 & rd4 & -> & _ & _ & Hcons).
  cbn [Reader.streams Reader.set_fileInfo Reader.set_streams].
  apply Hcons. constructor.
Qed.

Lemma Open_streams_are_consistent_witness :
  Forall consistent
    (Reader.streams
       (snd (run (Open (Source.NewReader scenario_file) (len scenario_file))
               NewDemuxer))).
Proof.
  assert (Hok : fst (run (Open (Source.NewReader scenario_file) (len scenario_file))
                       NewDemuxer) = Ok tt) by (vm_compute; reflexivity).
  exact (Open_streams_are_consistent (Source.NewReader scenario_file)
           (len scenario_file) NewDemuxer _ (pair_of_fst _ _ Hok)).
Defined.

(** ** demuxer.go: the times [ReadAllPackets] computes *)

(** The time fields of a reconstructed packet, from the stream it belongs
    to.  A video packet of a stream with a positive frame rate lasts
    [time.Second] divided by the integer part of the frame rate, and starts
    at its DTS times that; an audio packet of a stream with a positive
    sample rate lasts 1024 times [time.Second] divided by the sample rate,
    and starts at its DTS times that quotient; otherwise the times are 0.
    The products wrap as [int64] products do. *)
Definition times_ok (streams : list Stream.t) (p : Packet.t) : Prop :=
  Packet.PTSTime p = Packet.DTSTime p
  /\ exists s,
      index streams (Packet.StreamIndex p) = Some s
      /\ ((Packet.Codec p = StreamTypeVideo
           /\ if GoFloat.positive (Codec.FPS (Stream.Codec s)) then
                GoFloat.to_int64 (Codec.FPS (Stream.Codec s)) <> 0
                /\ Packet.DurationTime p
                   = Z.quot Second (GoFloat.to_int64 (Codec.FPS (Stream.Codec s)))
                /\ Packet.DTSTime p
                   = int64 (Packet.DTS p * Packet.DurationTime p)
              else Packet.DurationTime p = 0 /\ Packet.DTSTime p = 0)
          \/ (Packet.Codec p = StreamTypeAudio
              /\ if Codec.SampleRate (Stream.Codec s) >? 0 then
                   Packet.DurationTime p
                   = 1024 * (Second / Codec.SampleRate (Stream.Codec s))
                   /\ Packet.DTSTime p
                      = int64 (Packet.DTS p
                               * (Second / Codec.SampleRate (Stream.Codec s)))
                 else Packet.DurationTime p = 0 /\ Packet.DTSTime p = 0)).

(** The quotient of [time.Second] by an [int64] fits an [int64]. *)
Lemma quot_Second_small (k : Z) : - Second <= Z.quot Second k <= Second.
Proof.
  assert (H : forall b, 0 < b -> 0 <= Z.quot Second b <= Second).
  { intros b Hb. rewrite Z.quot_div_nonneg by (unfold Second; lia).
    split; [apply Z.div_pos; unfold Second; lia|].
    apply Z.div_le_upper_bound; [lia|]. unfold Second. nia. }
  destruct (Z.lt_trichotomy k 0) as [Hk | [-> | Hk]].
  - replace k with (- (- k)) by lia. rewrite Z.quot_opp_r by lia.
    specialize (H (- k) ltac:(lia)). lia.
  - change (Z.quot Second 0) with 0. unfold Second. lia.
  - specialize (H k Hk). lia.
Qed.

Lemma int64_div_Second (k : Z) :
  int64_div Second k = if k =? 0 then None else Some (Z.quot Second k).
Proof.
  unfold int64_div. destruct (k =? 0); [reflexivity|].
  pose proof (quot_Second_small k). rewrite int64_small; [reflexivity|].
  unfold Second in *. lia.
Qed.

Lemma readEntry_times (streams : list Stream.t) (moviOffset : Z)
    (packets : list Packet.t) (entry : IndexEntry) (p : Packet.t) :
  readEntry streams moviOffset packets entry = Ok (Some p) ->
  times_ok streams p.
Proof.
  unfold readEntry.
  destruct (_ <? 4); [discriminate|].
  destruct (_ >=? len streams); [discriminate|].
  destruct (chunkCodecType _) as [k|] eqn:Hk; [|discriminate].
  destruct (index streams _) as [stream|] eqn:Hs; [|discriminate].
  destruct (chunkCodecType_cases _ _ Hk) as [-> | ->].
  - change (String.eqb StreamTypeVideo StreamTypeVideo) with true. cbv iota.
    destruct (GoFloat.positive _) eqn:Hpos.
    + rewrite int64_div_Second.
      destruct (Z.eqb_spec (GoFloat.to_int64 (Codec.FPS (Stream.Codec stream))) 0)
        as [|Hne]; [discriminate|].
      intros [= <-]. split; [reflexivity|]. exists stream.
      cbn [Packet.StreamIndex Packet.Codec Packet.DTS Packet.DTSTime
           Packet.DurationTime].
      split; [exact Hs|]. left. split; [reflexivity|]. rewrite Hpos.
      split_conj; [exact Hne | reflexivity | reflexivity].
    + intros [= <-]. split; [reflexivity|]. exists stream.
      cbn [Packet.StreamIndex Packet.Codec Packet.DTS Packet.DTSTime
           Packet.DurationTime].
      split; [exact Hs|]. left. split; [reflexivity|]. rewrite Hpos.
      split; reflexivity.
  - change (String.eqb StreamTypeAudio StreamTypeVideo) with false. cbv iota.
    destruct (Z.gtb_spec (Codec.SampleRate (Stream.Codec stream)) 0) as [Hr|Hr].
    + rewrite int64_div_Second.
      destruct (Z.eqb_spec (Codec.SampleRate (Stream.Codec stream)) 0); [lia|].
      intros [= <-]. split; [reflexivity|]. exists stream.
      cbn [Packet.StreamIndex Packet.Codec Packet.DTS Packet.DTSTime
           Packet.DurationTime].
      split; [exact Hs|]. right. split; [reflexivity|].
      destruct (Z.gtb_spec (Codec.SampleRate (Stream.Codec stream)) 0); [|lia].
      rewrite Z.quot_div_nonneg by (unfold Second; lia).
      assert (Hq : 0 <= Second / Codec.SampleRate (Stream.Codec stream) <= Second).
      { split; [apply Z.div_pos; unfold Second; lia|].
        apply Z.div_le_upper_bound; [lia|]. unfold Second. nia. }
      split; [|reflexivity].
      apply int64_small. unfold Second in *. lia.
    + intros [= <-]. split; [reflexivity|]. exists stream.
      cbn [Packet.StreamIndex Packet.Codec Packet.DTS Packet.DTSTime
           Packet.DurationTime].
      split; [exact Hs|]. right. split; [reflexivity|].
      destruct (Z.gtb_spec (Codec.SampleRate (Stream.Codec stream)) 0); [lia|].
      split; reflexivity.
Qed.

Lemma ReadAllPackets_loop_times (streams : list Stream.t) (moviOffset : Z)
    (entries : list IndexEntry) :
  forall acc packets,
    ReadAllPackets_loop streams moviOffset entries acc = Ok packets ->
    Forall (times_ok streams) acc -> Forall (times_ok streams) packets.
Proof.
  induction entries as [|entry rest IH]; intros acc packets Hrun Hacc;
    cbn [ReadAllPackets_loop] in Hrun.
  - injection Hrun as <-. exact Hacc.
  - destruct (readEntry streams moviOffset acc entry) as [[p|]| | |] eqn:He;
      try discriminate Hrun.
    + apply (IH _ _ Hrun). apply Forall_app. split; [exact Hacc|].
      constructor; [|constructor]. exact (readEntry_times _ _ _ _ _ He).
    + exact (IH _ _ Hrun Hacc).
Qed.

(** X24.  Every packet [ReadAllPackets] returns carries the times computed from
    its stream's frame rate or sample rate: presentation and decoding time
    are equal; the fractional part of a frame rate is dropped before the
    division, so 29.97 frames per second are timed as 29; a stream without
    a rate gives the times 0. *)
Theorem ReadAllPackets_times (rd rd' : Reader.t) (packets : list Packet.t) :
  run ReadAllPackets rd = (Ok packets, rd') ->
  Forall (times_ok (Reader.streams rd)) packets.
Proof.
  intros H. apply ReadAllPackets_Ok_inv in H as (_ & _ & Hloop).
  exact (ReadAllPackets_loop_times _ _ _ _ _ Hloop (Forall_nil _)).
Qed.

(** A reader holding one video stream of 29.97 frames per second and an
    index of two frames. *)
Definition ntsc_reader : Reader.t :=
  {| Reader.r := None; Reader.filename := ""; Reader.fileSize := 0;
     Reader.streams :=
       [{| Stream.Index := 0; Stream.Type_ := StreamTypeVideo;
           Stream.Codec :=
             {| Codec.Name := "MJPG";
                Codec.FourCC := ("M"%byte, "J"%byte, "P"%byte, "G"%byte);
                Codec.Type_ := StreamTypeVideo;
                Codec.Width := 640; Codec.Height := 480;
                Codec.FPS := PrimFloat.div 2997%float 100%float;
                Codec.Channels := 0; Codec.SampleRate := 0;
                Codec.BitDepth := 0 |};
           Stream.Duration := 0; Stream.PacketCount := 0 |}];
     Reader.fileInfo := None; Reader.moviOffset := 0;
     Reader.indexEntries :=
       [{| ie_ChunkID := StringToChunkID "00dc"; ie_Flags := 16;
           ie_Offset := 4; ie_Size := 10 |};
        {| ie_ChunkID := StringToChunkID "00dc"; ie_Flags := 0;
           ie_Offset := 22; ie_Size := 10 |}] |}.

(** Its two frames last a 29th of a second each. *)
Lemma ReadAllPackets_times_witness :
  exists packets,
    run ReadAllPackets ntsc_reader = (Ok packets, ntsc_reader)
    /\ map Packet.DurationTime packets = [34482758; 34482758]
    /\ map Packet.DTSTime packets = [0; 34482758]
    /\ Forall (times_ok (Reader.streams ntsc_reader)) packets.
Proof.
  assert (Hok : fst (run ReadAllPackets ntsc_reader)
                = Ok (match fst (run ReadAllPackets ntsc_reader) with
                      | Ok l => l
                      | _ => []
                      end)) by (vm_compute; reflexivity).
  assert (Hrd : snd (run ReadAllPackets ntsc_reader) = ntsc_reader)
    by reflexivity.
  pose proof (pair_of_fst _ _ Hok) as Hrun. rewrite Hrd in Hrun.
  eexists. split; [exact Hrun|].
  split; [vm_compute; reflexivity|]. split; [vm_compute; reflexivity|].
  exact (ReadAllPackets_times ntsc_reader ntsc_reader _ Hrun).
Defined.

(** ** The metadata after a round trip *)

Lemma Forall2_with_r {A B} (R T : A -> B -> Prop) (Q : B -> Prop)
    (la : list A) (lb : list B) :
  Forall2 R la lb -> Forall Q lb ->
  (forall a b, R a b -> Q b -> T a b) -> Forall2 T la lb.
Proof.
  induction 1 as [|a b la lb Hab _ IH]; intros HQ HT; constructor;
    inversion HQ; subst; auto.
Qed.

Lemma codecs_match_counts (codecs : list Codec.t) :
  forall (i : Z) (streams : list Stream.t),
    codecs_match i codecs streams ->
    len (filter is_video streams) = count_type StreamTypeVideo codecs
    /\ len (filter is_audio streams) = count_type StreamTypeAudio codecs
    /\ Forall2 (fun c s => Codec.FourCC (Stream.Codec s) = Codec.FourCC c)
         codecs streams.
Proof.
  unfold count_type.
  induction codecs as [|c rest IH]; intros i [|s streams] H;
    cbn [codecs_match] in H; try contradiction.
  - split_conj; [reflexivity | reflexivity | constructor].
  - destruct H as [(_ & Hty & _ & Hcc & _) Hrest].
    destruct (IH _ _ Hrest) as (Hv & Ha & Hall).
    cbn [filter]. unfold is_video at 1, is_audio at 1. rewrite Hty.
    split_conj.
    + destruct (String.eqb _ _); rewrite ?len_cons; lia.
    + destruct (String.eqb _ _); rewrite ?len_cons; lia.
    + constructor; [exact Hcc | exact Hall].
Qed.

(** X25.  The metadata after a round trip.  Under the conditions of the round
    trip of the streams and packets, [Open] on the serialized bytes leaves
    metadata that [GetFileInfo] returns with the length of the file as its
    size and with the numbers of the declared video and audio codecs as its
    stream counts, and [GetStreams] returns its stream list, one stream per
    codec.  The codec names are not stored: each stream's codec name comes
    back as the printable bytes of the declared FourCC, whatever name was
    declared, and its packet count comes back as 0. *)
Theorem round_trip_file_info (codecs : list Codec.t) (packets : list Packet.t) :
  Forall valid_codec codecs ->
  audio_count (declared_streams 0 codecs) <= 50 ->
  packets <> [] ->
  Forall (fun p => 0 <= Packet.StreamIndex p < len codecs
                   /\ Packet.StreamIndex p <= 255) packets ->
  len (sink_bytes (snd (run (Serialize codecs packets) NewMuxer))) < 2 ^ 32 ->
  exists wr rd fi,
    run (Serialize codecs packets) NewMuxer = (Ok tt, wr)
    /\ run (Open (Source.NewReader (sink_bytes wr)) (len (sink_bytes wr)))
         NewDemuxer = (Ok tt, rd)
    /\ run GetFileInfo rd = (Ok fi, rd)
    /\ FileInfo.FileSize fi = len (sink_bytes wr)
    /\ FileInfo.VideoStreams fi = count_type StreamTypeVideo codecs
    /\ FileInfo.AudioStreams fi = count_type StreamTypeAudio codecs
    /\ run GetStreams rd = (Ok (FileInfo.Streams fi), rd)
    /\ Forall2 (fun c s =>
                  Codec.Name (Stream.Codec s) = cleanName (Codec.FourCC c)
                  /\ Stream.PacketCount s = 0)
         codecs (FileInfo.Streams fi).
Proof.
  intros Hvalid Haudio Hne Hpackets Hsmall.
  set (ss := declared_streams 0 codecs) in *.
  assert (Ht : Forall typed ss) by (apply declared_streams_typed; exact Hvalid).
  assert (Hidx : indices_declared (len codecs) packets).
  { unfold indices_declared. eapply Forall_impl; [|exact Hpackets].
    cbv beta. intros p [H _]. exact H. }
  assert (Hidx' : indices_declared (len ss) packets).
  { unfold ss. now rewrite len_declared_streams. }
  destruct (file_bytes_defined ss packets Ht Hidx') as (file & entries & Hfile & Hent).
  pose proof (Serialize_spec codecs packets file Hidx Hfile) as Hser.
  fold ss in Hser. rewrite Hser in Hsmall.
  change (sink_bytes (snd (Ok tt, writing ss packets file))) with file in Hsmall.
  destruct (Open_file ss packets file entries Ht Haudio Hfile Hent Hne Hsmall)
    as [fi Hopen].
  destruct (parsed_streams_match packets codecs Hvalid 0) as [Hmatch _].
  fold ss in Hmatch.
  destruct (codecs_match_counts codecs 0 _ Hmatch) as (Hv & Ha & Hcc).
  pose proof (Open_Ok_inv _ _ _ _ Hopen)
    as (streams & fi1 & rd4 & Hrd & Hkeeps & _ & Hcons).
  cbn [fst snd] in Hkeeps, Hcons. specialize (Hcons (Forall_nil _)).
  assert (Hstreams : streams = parsed_streams packets 0 ss).
  { apply (f_equal Reader.streams) in Hrd. symmetry. exact Hrd. }
  assert (Hfi : fi = count_streams streams
                       {| FileInfo.Filename := FileInfo.Filename fi1;
                          FileInfo.Duration := FileInfo.Duration fi1;
                          FileInfo.FileSize := FileInfo.FileSize fi1;
                          FileInfo.Streams := streams;
                          FileInfo.VideoStreams := FileInfo.VideoStreams fi1;
                          FileInfo.AudioStreams := FileInfo.AudioStreams fi1 |}).
  { apply (f_equal Reader.fileInfo) in Hrd. cbn in Hrd. now apply Some_inj. }
  clear Hrd.
  destruct Hkeeps as (_ & K2 & _ & K4 & K5).
  cbn [FileInfo.FileSize FileInfo.VideoStreams FileInfo.AudioStreams] in K2, K4, K5.
  destruct (count_streams_counts streams
              {| FileInfo.Filename := FileInfo.Filename fi1;
                 FileInfo.Duration := FileInfo.Duration fi1;
                 FileInfo.FileSize := FileInfo.FileSize fi1;
                 FileInfo.Streams := streams;
                 FileInfo.VideoStreams := FileInfo.VideoStreams fi1;
                 FileInfo.AudioStreams := FileInfo.AudioStreams fi1 |})
    as (_ & _ & C3 & C4 & C5 & C6).
  rewrite <- Hfi in C3, C4, C5, C6.
  cbn [FileInfo.FileSize FileInfo.Streams FileInfo.VideoStreams
       FileInfo.AudioStreams] in C3, C4, C5, C6.
  exists (writing ss packets file),
    (with_meta (reading file (len file) (movi_position ss) entries)
       (parsed_streams packets 0 ss) (Some fi)), fi.
  change (sink_bytes (writing ss packets file)) with file.
  split; [exact Hser|]. split; [exact Hopen|]. split; [reflexivity|].
  split; [rewrite C3; exact K2|].
  split; [rewrite C5, K4, Hstreams, Hv; lia|].
  split; [rewrite C6, K5, Hstreams, Ha; lia|].
  rewrite C4, Hstreams. split.
  - unfold run, GetStreams, bind, get, with_meta.
    cbn [Reader.streams Reader.set_fileInfo Reader.set_streams].
    destruct (parsed_streams packets 0 ss) eqn:Hps; [|reflexivity].
    exfalso. destruct packets as [|p rest]; [now apply Hne|].
    inversion Hpackets as [|? ? [Hp _] _]; subst.
    pose proof (len_parsed_streams (p :: rest) ss 0) as Hl.
    rewrite Hps in Hl. unfold ss in Hl. rewrite len_declared_streams in Hl.
    change (len (@nil Stream.t)) with 0 in Hl. lia.
  - rewrite Hstreams in Hcons.
    apply (Forall2_with_r _ _ _ _ _ Hcc Hcons).
    intros c s Hcs (_ & _ & Hname & _ & _ & _ & _ & _ & Hcount).
    split; [rewrite Hname, Hcs; reflexivity | exact Hcount].
Qed.

Lemma round_trip_file_info_witness :
  exists wr rd fi,
    run (Serialize [mjpg_codec; pcm_codec] scenario_packets) NewMuxer = (Ok tt, wr)
    /\ run (Open (Source.NewReader (sink_bytes wr)) (len (sink_bytes wr)))
         NewDemuxer = (Ok tt, rd)
    /\ run GetFileInfo rd = (Ok fi, rd)
    /\ FileInfo.FileSize fi = len (sink_bytes wr)
    /\ FileInfo.VideoStreams fi = 1
    /\ FileInfo.AudioStreams fi = 1
    /\ run GetStreams rd = (Ok (FileInfo.Streams fi), rd)
    /\ Forall2 (fun c s =>
                  Codec.Name (Stream.Codec s) = cleanName (Codec.FourCC c)
                  /\ Stream.PacketCount s = 0)
         [mjpg_codec; pcm_codec] (FileInfo.Streams fi).
Proof.
  apply (round_trip_file_info [mjpg_codec; pcm_codec] scenario_packets).
  - constructor; [exact mjpg_codec_valid|].
    constructor; [exact pcm_codec_valid | constructor].
  - vm_compute. intros H; discriminate H.
  - intros H; discriminate H.
  - repeat constructor; cbn; lia.
  - vm_compute. reflexivity.
Defined.
